(** * rss2telegram: the deduplication store and the delivery pipeline

    A shallow embedding of [internal/storage/storage.go] (the dedup store)
    and of [processFeed] from the RSS handler, with the properties of the
    design document stated and proved over it; then the validation of the
    configuration, the operations of a template field and [ProcessFeeds],
    with further properties of the code.

    Conventions.
    - A Go [string] and a Go [[]byte] are both sequences of 8-bit bytes: a
      Go string is a [string], a byte slice a [list ascii].
    - Go's unsigned and signed machine integers are [Z] with the wrap-around
      written out where the code relies on it.
    - A Go [error] return is the [inr] side of a sum. *)

From Stdlib Require Import ZArith List Ascii String Lia Bool Permutation Sorted.
From stdpp Require Import gmap strings list fin_maps sorting.

Local Open Scope Z_scope.

(* ===================================================================== *)
(** * Bytes *)
(* ===================================================================== *)

Abbreviation bytes := (list ascii).

Definition byte_to_Z (c : ascii) : Z := Z.of_N (N_of_ascii c).

(** [byte(x)]: the conversion of an unsigned integer to a byte keeps the low
    eight bits. *)
Definition Z_to_byte (z : Z) : ascii := ascii_of_N (Z.to_N (Z.land z 255)).

Definition newline : ascii := ascii_of_nat 10.
Definition carriage_return : ascii := ascii_of_nat 13.

(* ===================================================================== *)
(** * [encoding/base64]: [base64.URLEncoding]

    The URL-safe alphabet of RFC 4648 with ['='] padding, non-strict
    decoding. [Encode] follows the encoder's main loop and remainder
    switch, [Decode] follows [decodeQuantum]. *)
(* ===================================================================== *)

Module base64.

Definition encodeURL : string :=
  "ABCDEFGHIJKLMNOPQRSTUVWXYZabcdefghijklmnopqrstuvwxyz0123456789-_".

Definition padChar : ascii := "="%char.

(** [enc.encode[v]] *)
Definition encode_tab (v : Z) : ascii :=
  nth (Z.to_nat v) (list_ascii_of_string encodeURL) padChar.

Fixpoint index_of (c : ascii) (l : list ascii) (i : Z) : option Z :=
  match l with
  | [] => None
  | x :: l' => if Ascii.eqb c x then Some i else index_of c l' (i + 1)
  end.

(** [enc.decodeMap[c]], with [None] for the invalid marker [0xff]. *)
Definition decodeMap (c : ascii) : option Z :=
  index_of c (list_ascii_of_string encodeURL) 0.

Definition quantum (a b c : ascii) : Z :=
  Z.lor (Z.lor (Z.shiftl (byte_to_Z a) 16) (Z.shiftl (byte_to_Z b) 8))
        (byte_to_Z c).

Definition sextet (val : Z) (shift : Z) : ascii :=
  encode_tab (Z.land (Z.shiftr val shift) 63).

Fixpoint Encode (src : bytes) : bytes :=
  match src with
  | a :: b :: c :: rest =>
      let val := quantum a b c in
      sextet val 18 :: sextet val 12 :: sextet val 6 :: sextet val 0
        :: Encode rest
  | [a; b] =>
      let val := Z.lor (Z.shiftl (byte_to_Z a) 16) (Z.shiftl (byte_to_Z b) 8) in
      [sextet val 18; sextet val 12; sextet val 6; padChar]
  | [a] =>
      let val := Z.shiftl (byte_to_Z a) 16 in
      [sextet val 18; sextet val 12; padChar; padChar]
  | [] => []
  end.

Definition EncodeToString (src : bytes) : string :=
  string_of_list_ascii (Encode src).

(** The 24-bit value assembled from the sextets read so far (missing ones
    are zero) and the [dlen - 1] bytes it yields. *)
Definition assemble (dbuf : list Z) : Z :=
  Z.lor (Z.lor (Z.lor (Z.shiftl (nth 0 dbuf 0) 18) (Z.shiftl (nth 1 dbuf 0) 12))
               (Z.shiftl (nth 2 dbuf 0) 6))
        (nth 3 dbuf 0).

Definition emit (dbuf : list Z) : bytes :=
  let val := assemble dbuf in
  firstn (Nat.pred (length dbuf))
         [Z_to_byte (Z.shiftr val 16); Z_to_byte (Z.shiftr val 8);
          Z_to_byte (Z.shiftr val 0)].

Definition is_newline (c : ascii) : bool :=
  Ascii.eqb c newline || Ascii.eqb c carriage_return.

Fixpoint skip_newlines (src : bytes) : bytes :=
  match src with
  | c :: rest => if is_newline c then skip_newlines rest else src
  | [] => []
  end.

(** What follows a padding character met at position [j] of a quantum:
    at [j = 2] a second ['='] is required, then only newlines may follow. *)
Definition after_padding (j : nat) (rest : bytes) : bool :=
  match j with
  | 2%nat =>
      match skip_newlines rest with
      | c :: rest' =>
          Ascii.eqb c padChar &&
          match skip_newlines rest' with [] => true | _ => false end
      | [] => false
      end
  | 3%nat => match skip_newlines rest with [] => true | _ => false end
  | _ => false
  end.

(** [dbuf] holds the sextets of the current quantum read so far. *)
Fixpoint decode_from (src : bytes) (dbuf : list Z) : option bytes :=
  match src with
  | [] =>
      match dbuf with
      | [] => Some []
      | _ => None
      end
  | c :: rest =>
      match decodeMap c with
      | Some out =>
          let dbuf' := dbuf ++ [out] in
          if (length dbuf' =? 4)%nat
          then option_map (app (emit dbuf')) (decode_from rest [])
          else decode_from rest dbuf'
      | None =>
          if is_newline c then decode_from rest dbuf
          else if negb (Ascii.eqb c padChar) then None
          else if after_padding (length dbuf) rest then Some (emit dbuf)
          else None
      end
  end.

Definition Decode (src : bytes) : option bytes := decode_from src [].

Definition DecodeString (s : string) : option bytes :=
  Decode (list_ascii_of_string s).

End base64.

(* ===================================================================== *)
(** * [strings] *)
(* ===================================================================== *)

Module strings.

(** [strings.HasSuffix]: [len(s) >= len(suffix) && s[len(s)-len(suffix):] == suffix] *)
Definition HasSuffix (s suffix : string) : bool :=
  let ls := list_ascii_of_string s in
  let lx := list_ascii_of_string suffix in
  (length lx <=? length ls)%nat &&
  bool_decide (skipn (length ls - length lx) ls = lx).

(** [strings.TrimSuffix] *)
Definition TrimSuffix (s suffix : string) : string :=
  if HasSuffix s suffix
  then string_of_list_ascii
         (firstn (length (list_ascii_of_string s)
                  - length (list_ascii_of_string suffix))
                 (list_ascii_of_string s))
  else s.

(** [strings.Cut] on a one-byte separator: the text before and after the
    first occurrence of [sep], if there is one. *)
Fixpoint cut (sep : ascii) (s : bytes) : option (bytes * bytes) :=
  match s with
  | [] => None
  | c :: rest =>
      if Ascii.eqb c sep then Some ([], rest)
      else match cut sep rest with
           | Some (before, after) => Some (c :: before, after)
           | None => None
           end
  end.

(** [strings.SplitN(s, sep, 2)] for a one-byte separator: at most two
    substrings, the second being the unsplit remainder. *)
Definition SplitN2 (s : string) (sep : ascii) : list string :=
  match cut sep (list_ascii_of_string s) with
  | Some (before, after) =>
      [string_of_list_ascii before; string_of_list_ascii after]
  | None => [s]
  end.

(** [strings.HasPrefix] *)
Definition HasPrefix (s prefix : string) : bool := String.prefix prefix s.

(** [strings.Contains] *)
Fixpoint Contains (s substr : string) : bool :=
  HasPrefix s substr ||
  match s with
  | EmptyString => false
  | String _ rest => Contains rest substr
  end.

(** [strings.ReplaceAll(s, old, new)] for a non-empty [old], which is what
    every caller passes: the leftmost occurrence of [old] is replaced and
    the search resumes after it. [skip] counts the bytes of the occurrence
    just found that are still to be passed over. *)
Fixpoint replace_from (skip : nat) (s old new : string) : string :=
  match s with
  | EmptyString => EmptyString
  | String c rest =>
      match skip with
      | Datatypes.S k => replace_from k rest old new
      | O =>
          if HasPrefix s old
          then (new ++ replace_from (Nat.pred (String.length old)) rest old new)%string
          else String c (replace_from 0 rest old new)
      end
  end.

Definition ReplaceAll (s old new : string) : string :=
  match old with
  | EmptyString => s   (* no caller passes an empty [old] *)
  | _ => replace_from 0 s old new
  end.

(** [strings.Split(s, sep)] for a non-empty [sep]: the texts between the
    occurrences of [sep], found from the left without overlap; one more
    text than there are occurrences. *)
Fixpoint split_from (skip : nat) (s sep : string) : list string :=
  match s with
  | EmptyString => [EmptyString]
  | String c rest =>
      match skip with
      | Datatypes.S k => split_from k rest sep
      | O =>
          if HasPrefix s sep
          then EmptyString :: split_from (Nat.pred (String.length sep)) rest sep
          else match split_from 0 rest sep with
               | piece :: pieces => String c piece :: pieces
               | [] => [String c EmptyString]
               end
      end
  end.

Definition Split (s sep : string) : list string :=
  match sep with
  | EmptyString => [s]   (* no caller passes an empty [sep] *)
  | _ => split_from 0 s sep
  end.

(** [strings.Join] *)
Fixpoint Join (elems : list string) (sep : string) : string :=
  match elems with
  | [] => EmptyString
  | x :: rest =>
      match rest with
      | [] => x
      | _ => (x ++ sep ++ Join rest sep)%string
      end
  end.

(** [asciiSpace]: tab, line feed, vertical tab, form feed, carriage return
    and space. *)
Definition asciiSpace (c : ascii) : bool :=
  match N_of_ascii c with
  | 9%N | 10%N | 11%N | 12%N | 13%N | 32%N => true
  | _ => false
  end.

(** [utf8.RuneSelf] *)
Definition RuneSelf : N := 128.

(** One loop of [strings.TrimSpace]: the ASCII spaces at the front are
    passed over; [inr] when a byte that is not ASCII is met, with the text
    from that byte on. *)
Fixpoint trim_ascii (s : bytes) : bytes + bytes :=
  match s with
  | [] => inl []
  | c :: rest =>
      if (RuneSelf <=? N_of_ascii c)%N then inr s
      else if asciiSpace c then trim_ascii rest
      else inl s
  end.

Section TrimSpace.

(** [strings.TrimFunc(s, unicode.IsSpace)] and
    [strings.TrimRightFunc(s, unicode.IsSpace)], which decode UTF-8. *)
Variables TrimFunc_IsSpace TrimRightFunc_IsSpace : string -> string.

(** [strings.TrimSpace]: the scan from the front, then the scan from the
    back; either hands over to the Unicode-aware function at the first
    byte that is not ASCII. *)
Definition TrimSpace (s : string) : string :=
  match trim_ascii (list_ascii_of_string s) with
  | inr rest => TrimFunc_IsSpace (string_of_list_ascii rest)
  | inl front =>
      match trim_ascii (rev front) with
      | inr back => TrimRightFunc_IsSpace (string_of_list_ascii (rev back))
      | inl back => string_of_list_ascii (rev back)
      end
  end.

End TrimSpace.

End strings.

(* ===================================================================== *)
(** * Errors and the outside world *)
(* ===================================================================== *)

Inductive error : Type :=
| ErrNotExist                          (* fs.ErrNotExist *)
| ErrUnexpectedEOF                     (* io.ErrUnexpectedEOF, io.EOF *)
| ErrOS (op : string)                  (* any other failure of a system call *)
| Errorf (msg : string)                (* fmt.Errorf without an operand *)
| Wrapf (msg : string) (cause : error) (* fmt.Errorf("msg: %w", cause) *).

Definition result (A : Type) : Type := A + error.

(** The error returned is nil. *)
Definition succeeded {A} (r : result A) : bool :=
  match r with inl _ => true | inr _ => false end.

Module gofeed.

(** The fields of [gofeed.Item] the handler reads. [PublishedParsed] is a
    [*time.Time]: [None] is the nil pointer, [Some t] an instant in
    nanoseconds since the Unix epoch. *)
Record Item : Type := {
  Title : string;
  Link : string;
  GUID : string;
  Published : string;
  PublishedParsed : option Z;
  Description : string;
  Content : string
}.

End gofeed.

(** What a run leaves behind that the properties speak about. *)
Inductive Event : Type :=
| EvSend (channel message : string) (ok : bool)   (* one call of bot.Send *)
| EvSleep (d : Z)                                 (* one call of time.Sleep *)
| EvBackoff (attempt : Z)                          (* one call of ExponentialBackoffWithJitter *)
| EvMark (feedURL channel itemID : string)        (* one call of MarkItemSeen by the handler *).

Definition is_send (e : Event) : bool :=
  match e with EvSend _ _ _ => true | _ => false end.
Definition is_mark (e : Event) : bool :=
  match e with EvMark _ _ _ => true | _ => false end.

Definition count (p : Event -> bool) (evs : list Event) : nat :=
  length (List.filter p evs).

(** Every [EvMark] comes right after a send that succeeded; [prev_ok] says
    whether the event just before was one. *)
Fixpoint marks_follow_success (prev_ok : bool) (evs : list Event) : bool :=
  match evs with
  | [] => true
  | EvMark _ _ _ :: rest => prev_ok && marks_follow_success false rest
  | EvSend _ _ ok :: rest => marks_follow_success ok rest
  | _ :: rest => marks_follow_success false rest
  end.

(** The world outside the process. Every primitive (a system call, a clock
    reading, a random draw, a call of a collaborator) consumes one [step];
    the oracles say what the [n]-th primitive observes, so a theorem
    quantified over worlds covers every clock, every failure pattern and
    every feed content.
    [files] is the data directory, a flat name space of base names. *)
Record World : Type := {
  files : gmap string bytes;
  clock : nat -> Z;
  fault : nat -> bool;
  rand : nat -> Z;
  fetch : nat -> string -> result (list gofeed.Item);
  step : nat;
  trace : list Event
}.

Definition IO (A : Type) : Type := World -> A * World.

Definition ret {A} (a : A) : IO A := fun w => (a, w).

Definition bind {A B} (m : IO A) (k : A -> IO B) : IO B :=
  fun w => let (a, w') := m w in k a w'.

Declare Scope io_scope.
Delimit Scope io_scope with io.
Notation "x <- m ;; k" := (bind m (fun x => k))
  (at level 100, m at next level, right associativity) : io_scope.
Local Open Scope io_scope.

Definition tick (w : World) : World :=
  {| files := files w; clock := clock w; fault := fault w; rand := rand w;
     fetch := fetch w; step := S (step w); trace := trace w |}.

Definition with_files (fs : gmap string bytes) (w : World) : World :=
  {| files := fs; clock := clock w; fault := fault w; rand := rand w;
     fetch := fetch w; step := step w; trace := trace w |}.

Definition log (e : Event) : IO unit :=
  fun w => (tt, {| files := files w; clock := clock w; fault := fault w;
                   rand := rand w; fetch := fetch w; step := step w;
                   trace := trace w ++ [e] |}).

(** [m] only appends events, all of which satisfy [P]. *)
Definition appends {A} (P : Event -> Prop) (m : IO A) : Prop :=
  forall w, exists evs, trace (snd (m w)) = trace w ++ evs /\ Forall P evs.

(** Does the primitive about to run fail for a reason outside the model
    (permissions, a full disk, the network)? *)
Definition failing : IO bool := fun w => (fault w (step w), tick w).

Definition int64_wrap (x : Z) : Z := (x + 2 ^ 63) mod 2 ^ 64 - 2 ^ 63.
Definition uint64_wrap (x : Z) : Z := x mod 2 ^ 64.

Module time.

Definition Nanosecond : Z := 1.
Definition Millisecond : Z := 1000000.
Definition Second : Z := 1000000000.
Definition Hour : Z := 3600 * Second.

Definition minDuration : Z := - 2 ^ 63.
Definition maxDuration : Z := 2 ^ 63 - 1.

(** [time.Now()], as an instant in nanoseconds since the Unix epoch. *)
Definition Now : IO Z := fun w => (clock w (step w), tick w).

(** [t.UnixNano()] *)
Definition UnixNano (t : Z) : Z := int64_wrap t.

(** [time.Unix(0, nsec)] *)
Definition Unix0 (nsec : Z) : Z := nsec.

(** [t.Sub(u)]: the difference, saturated to the range of a [Duration]. *)
Definition Sub (t u : Z) : Z :=
  Z.max minDuration (Z.min maxDuration (t - u)).

(** [time.Since(t)] *)
Definition Since (t : Z) : IO Z := now <- Now ;; ret (Sub now t).

(** [t.Before(u)] *)
Definition Before (t u : Z) : bool := t <? u.

(** [time.Sleep(d)] *)
Definition Sleep (d : Z) : IO unit := log (EvSleep d).

(** [time.Duration(n) * unit]: multiplication of two [int64]. *)
Definition mul (n unit : Z) : Z := int64_wrap (n * unit).

End time.

Module binary.

(** [binary.LittleEndian.PutUint64(b, v)] on a fresh eight-byte slice. *)
Definition PutUint64 (v : Z) : bytes :=
  [Z_to_byte v; Z_to_byte (Z.shiftr v 8); Z_to_byte (Z.shiftr v 16);
   Z_to_byte (Z.shiftr v 24); Z_to_byte (Z.shiftr v 32);
   Z_to_byte (Z.shiftr v 40); Z_to_byte (Z.shiftr v 48);
   Z_to_byte (Z.shiftr v 56)].

(** [binary.LittleEndian.Uint64(b)]; the slice has eight bytes wherever the
    store calls it (a shorter one would panic). *)
Definition Uint64 (b : bytes) : Z :=
  match b with
  | [b0; b1; b2; b3; b4; b5; b6; b7] =>
      Z.lor (Z.lor (Z.lor (Z.lor (Z.lor (Z.lor (Z.lor
        (byte_to_Z b0)
        (Z.shiftl (byte_to_Z b1) 8))
        (Z.shiftl (byte_to_Z b2) 16))
        (Z.shiftl (byte_to_Z b3) 24))
        (Z.shiftl (byte_to_Z b4) 32))
        (Z.shiftl (byte_to_Z b5) 40))
        (Z.shiftl (byte_to_Z b6) 48))
        (Z.shiftl (byte_to_Z b7) 56)
  | _ => 0
  end.

End binary.

Module os.

(** [os.Stat(name)]: the size of the file. *)
Definition Stat (name : string) : IO (result Z) :=
  bad <- failing ;;
  fun w =>
    (if bad then inr (ErrOS "stat")
     else match files w !! name with
          | Some content => inl (Z.of_nat (length content))
          | None => inr ErrNotExist
          end, w).

Definition IsNotExist (err : error) : bool :=
  match err with ErrNotExist => true | _ => false end.

(** [os.OpenFile(name, os.O_RDONLY, 0644)]: the open file is the content
    still to be read. *)
Definition OpenFile_RDONLY (name : string) : IO (result bytes) :=
  bad <- failing ;;
  fun w =>
    (if bad then inr (ErrOS "open")
     else match files w !! name with
          | Some content => inl content
          | None => inr ErrNotExist
          end, w).

(** [io.ReadFull(file, buf)] with [len(buf) = n]: the bytes read and the
    rest of the file. *)
Definition ReadFull (file : bytes) (n : nat) : IO (result (bytes * bytes)) :=
  bad <- failing ;;
  ret (if bad then inr (ErrOS "read")
       else if (length file <? n)%nat then inr ErrUnexpectedEOF
       else inl (firstn n file, skipn n file)).

(** [os.OpenFile(name, os.O_WRONLY|os.O_CREATE|os.O_TRUNC, 0644)] *)
Definition OpenFile_TRUNC (name : string) : IO (result unit) :=
  bad <- failing ;;
  fun w =>
    if bad then (inr (ErrOS "open"), w)
    else (inl tt, with_files (<[name := []]> (files w)) w).

(** [file.Write(data)] on the file opened under [name]; a failed write
    leaves the bytes written before it. *)
Definition Write (name : string) (data : bytes) : IO (result unit) :=
  bad <- failing ;;
  fun w =>
    if bad then (inr (ErrOS "write"), w)
    else (inl tt,
          with_files (<[name := default [] (files w !! name) ++ data]> (files w)) w).

Definition Sync (name : string) : IO (result unit) :=
  bad <- failing ;;
  ret (if bad then inr (ErrOS "sync") else inl tt).

Definition Close (name : string) : IO (result unit) :=
  bad <- failing ;;
  ret (if bad then inr (ErrOS "close") else inl tt).

(** [os.Rename(oldpath, newpath)]: atomic, replaces [newpath]. *)
Definition Rename (oldpath newpath : string) : IO (result unit) :=
  bad <- failing ;;
  fun w =>
    if bad then (inr (ErrOS "rename"), w)
    else match files w !! oldpath with
         | Some content =>
             (inl tt, with_files (<[newpath := content]> (delete oldpath (files w))) w)
         | None => (inr ErrNotExist, w)
         end.

(** [os.MkdirAll(dataDir, 0755)] *)
Definition MkdirAll (dir : string) : IO (result unit) :=
  bad <- failing ;;
  ret (if bad then inr (ErrOS "mkdir") else inl tt).

Definition string_le (a b : string) : Prop := Is_true (String.leb a b).

(** [filepath.Glob(filepath.Join(dataDir, "*" + suffix))] followed by
    [filepath.Base] on each match: the names in the data directory that end
    in [suffix], in the sorted order in which [Glob] lists a directory. *)
Definition Glob (suffix : string) : IO (result (list string)) :=
  bad <- failing ;;
  fun w =>
    (if bad then inr (ErrOS "glob")
     else inl (merge_sort string_le
                 (List.filter (fun name => strings.HasSuffix name suffix)
                              (map fst (map_to_list (files w))))), w).

End os.

(* ===================================================================== *)
(** * [github.com/bits-and-blooms/bloom]: the membership filter

    The filter is a leaf dependency; the store uses it through five
    operations. The laws are what the library documents: a fresh filter is
    empty, [Add] never loses a member, and a marshalled filter is never
    empty and unmarshals to a filter with the same members. Nothing
    excludes false positives. *)
(* ===================================================================== *)

Module bloom.

Class Filter : Type := {
  BloomFilter : Type;
  (** [bloom.NewWithEstimates(n, fp)], [fp] a fraction *)
  NewWithEstimates : Z -> Z * Z -> BloomFilter;
  (** [f.Add(data)] *)
  Add : BloomFilter -> bytes -> BloomFilter;
  (** [f.Test(data)] *)
  Test : BloomFilter -> bytes -> bool;
  (** [f.MarshalBinary()] *)
  MarshalBinary : BloomFilter -> bytes;
  (** [f.UnmarshalBinary(data)] on a filter that is overwritten *)
  UnmarshalBinary : bytes -> option BloomFilter;

  Test_New : forall n fp data, Test (NewWithEstimates n fp) data = false;
  Test_Add : forall f data, Test (Add f data) data = true;
  Test_Add_mono : forall f data data',
    Test f data' = true -> Test (Add f data) data' = true;
  Marshal_nonempty : forall f, MarshalBinary f <> [];
  Unmarshal_Marshal : forall f,
    exists f', UnmarshalBinary (MarshalBinary f) = Some f' /\
               forall data, Test f' data = Test f data
}.

End bloom.

(* ===================================================================== *)
(** * [internal/storage/storage.go] *)
(* ===================================================================== *)

Module storage.

Section Store.
Context {F : bloom.Filter}.

Definition expectedItems : Z := 100000.
Definition falsePositive : Z * Z := (1, 1000).
Definition stateExpirationDuration : Z := 30 * 24 * time.Hour.
Definition bloomFileSuffix : string := ".bloom".

Record ChannelState : Type := {
  filter : bloom.BloomFilter;
  updatedAt : Z
}.

(** [states]: feedURL -> channel -> state. The mutex carries no data. *)
Record Storage : Type := {
  states : gmap string (gmap string ChannelState);
  dataDir : string
}.

Definition with_states (m : gmap string (gmap string ChannelState))
    (s : Storage) : Storage :=
  {| states := m; dataDir := dataDir s |}.

Definition GenerateBloomFileName (s : Storage) (feedURL channel : string) : string :=
  let data := (channel ++ "|" ++ feedURL)%string in
  base64.EncodeToString (list_ascii_of_string data).

(** The path is the name of the file inside [s.dataDir]. *)
Definition GetBloomFilePath (s : Storage) (feedURL channel : string) : string :=
  (GenerateBloomFileName s feedURL channel ++ bloomFileSuffix)%string.

Definition IsItemSeen (s : Storage) (feedURL feedName channel itemID : string) : bool :=
  match states s !! feedURL with
  | None => false
  | Some channelStates =>
      match channelStates !! channel with
      | None => false
      | Some state => bloom.Test (filter state) (list_ascii_of_string itemID)
      end
  end.

(** [state.filter.MarshalBinary()] returns an error besides the bytes; like
    the system calls it is a primitive that the world can make fail. *)
Definition saveChannelState (s : Storage) (feedURL channel : string)
    (state : ChannelState) : IO (result unit) :=
  let filepath := GetBloomFilePath s feedURL channel in
  let tempFile := (filepath ++ ".tmp")%string in
  r <- os.OpenFile_TRUNC tempFile ;;
  match r with
  | inr err => ret (inr (Wrapf "error creating temp file" err))
  | inl _ =>
  now <- time.Now ;;
  let timeBytes := binary.PutUint64 (uint64_wrap (time.UnixNano now)) in
  r <- os.Write tempFile timeBytes ;;
  match r with
  | inr err => ret (inr (Wrapf "error writing timestamp" err))
  | inl _ =>
  bad <- failing ;;
  if bad : bool then ret (inr (Wrapf "error marshaling filter" (ErrOS "marshal")))
  else
  let filterData := bloom.MarshalBinary (filter state) in
  r <- os.Write tempFile filterData ;;
  match r with
  | inr err => ret (inr (Wrapf "error writing filter data" err))
  | inl _ =>
  r <- os.Sync tempFile ;;
  match r with
  | inr err => ret (inr (Wrapf "error syncing file" err))
  | inl _ =>
  r <- os.Close tempFile ;;
  match r with
  | inr err => ret (inr (Wrapf "error closing file" err))
  | inl _ =>
  r <- os.Rename tempFile filepath ;;
  match r with
  | inr err => ret (inr (Wrapf "error renaming temp file" err))
  | inl _ => ret (inl tt)
  end end end end end end.

Definition fresh (now : Z) : ChannelState :=
  {| filter := bloom.NewWithEstimates expectedItems falsePositive;
     updatedAt := now |}.

(** [s.states[feedURL] = make(map[string]*ChannelState)] followed by
    [s.states[feedURL][channel] = &ChannelState{...}] *)
Definition reset_feed (s : Storage) (feedURL channel : string) : IO Storage :=
  let s1 := with_states (<[feedURL := ∅]> (states s)) s in
  now <- time.Now ;;
  ret (with_states (<[feedURL := <[channel := fresh now]>
                                   (default ∅ (states s1 !! feedURL))]> (states s1)) s1).

Definition loadChannelState (s : Storage) (feedURL channel : string)
    : IO (Storage * result unit) :=
  let filepath := GetBloomFilePath s feedURL channel in
  r <- os.Stat filepath ;;
  match r with
  | inr err =>
      if os.IsNotExist err
      then s' <- reset_feed s feedURL channel ;; ret (s', inl tt)
      else ret (s, inr (Wrapf "error getting file info" err))
  | inl size =>
  if size <? 8 then ret (s, inr (Errorf "invalid file size"))
  else
  r <- os.OpenFile_RDONLY filepath ;;
  match r with
  | inr err => ret (s, inr (Wrapf "error opening file" err))
  | inl file =>
  r <- os.ReadFull file 8 ;;
  match r with
  | inr err => ret (s, inr (Wrapf "error reading timestamp" err))
  | inl (timeBytes, file) =>
  let timestamp := time.Unix0 (int64_wrap (binary.Uint64 timeBytes)) in
  age <- time.Since timestamp ;;
  if age >? stateExpirationDuration
  then s' <- reset_feed s feedURL channel ;; ret (s', inl tt)
  else
  let filterSize := size - 8 in
  if filterSize <=? 0 then ret (s, inr (Errorf "no filter data in file"))
  else
  r <- os.ReadFull file (Z.to_nat filterSize) ;;
  match r with
  | inr err => ret (s, inr (Wrapf "error reading filter data" err))
  | inl (filterData, _) =>
  match bloom.UnmarshalBinary filterData with
  | None => ret (s, inr (Wrapf "error unmarshaling filter" (Errorf "bloom")))
  | Some flt =>
      let s1 := match states s !! feedURL with
                | Some _ => s
                | None => with_states (<[feedURL := ∅]> (states s)) s
                end in
      ret (with_states
             (<[feedURL := <[channel := {| filter := flt; updatedAt := timestamp |}]>
                             (default ∅ (states s1 !! feedURL))]> (states s1)) s1,
           inl tt)
  end end end end end.

Definition MarkItemSeen (s : Storage) (feedURL feedName channel itemID : string)
    : IO (Storage * result unit) :=
  let '(s1, channelStates) :=
    match states s !! feedURL with
    | Some channelStates => (s, channelStates)
    | None => (with_states (<[feedURL := ∅]> (states s)) s, ∅)
    end in
  state0 <- match channelStates !! channel with
            | Some state => ret state
            | None => now <- time.Now ;; ret (fresh now)
            end ;;
  now <- time.Now ;;
  let state := {| filter := bloom.Add (filter state0) (list_ascii_of_string itemID);
                  updatedAt := now |} in
  let s2 := with_states (<[feedURL := <[channel := state]> channelStates]> (states s1)) s1 in
  r <- saveChannelState s2 feedURL channel state ;;
  match r with
  | inr err => ret (s2, inr (Wrapf "error saving channel state" err))
  | inl _ => ret (s2, inl tt)
  end.

(** The decoding of a file name at startup: the suffix is removed, the rest
    decoded and split around the first ['|']; [None] when the name is not
    base64. *)
Definition parse_filename (filename : string) : option (list string) :=
  let encoded := strings.TrimSuffix filename bloomFileSuffix in
  match base64.DecodeString encoded with
  | None => None
  | Some decoded => Some (strings.SplitN2 (string_of_list_ascii decoded) "|")
  end.

(** The loop of [NewStorage] over the files found. *)
Fixpoint load_all (s : Storage) (names : list string) : IO (result Storage) :=
  match names with
  | [] => ret (inl s)
  | filename :: rest =>
      match parse_filename filename with
      | None => ret (inr (Wrapf "decoding filename" (Errorf "illegal base64 data")))
      | Some [channel; feedURL] =>
          r <- loadChannelState s feedURL channel ;;
          match r with
          | (_, inr err) => ret (inr (Wrapf "loading state" err))
          | (s', inl _) => load_all s' rest
          end
      | Some _ => load_all s rest     (* warning logged, file skipped *)
      end
  end.

Definition NewStorage (dataDir : string) : IO (result Storage) :=
  r <- os.MkdirAll dataDir ;;
  match r with
  | inr err => ret (inr err)
  | inl _ =>
  let s := {| states := ∅; dataDir := dataDir |} in
  r <- os.Glob bloomFileSuffix ;;
  match r with
  | inr err => ret (inr err)
  | inl names => load_all s names
  end end.

Definition GetLastUpdated (s : Storage) (feedURL channel : string) : option Z :=
  match states s !! feedURL with
  | Some channelStates =>
      match channelStates !! channel with
      | Some state => Some (updatedAt state)
      | None => None
      end
  | None => None
  end.

(** ** Vocabulary of the properties *)

(** The bucket of a (feed, channel) pair, if the store holds one. *)
Definition bucket (s : Storage) (feedURL channel : string) : option ChannelState :=
  match states s !! feedURL with
  | Some channelStates => channelStates !! channel
  | None => None
  end.

(** The store after [state] is put in the bucket of (feedURL, channel). *)
Definition put (s : Storage) (feedURL channel : string) (state : ChannelState)
    : Storage :=
  with_states (<[feedURL := <[channel := state]> (default ∅ (states s !! feedURL))]>
                 (states s)) s.

(** The timestamp a bucket file starts with. *)
Definition stored_timestamp (content : bytes) : Z :=
  time.Unix0 (int64_wrap (binary.Uint64 (firstn 8 content))).

(** The stores a running process goes through: after startup the store
    changes only by calls of [MarkItemSeen], each in whatever world it
    meets; [P] restricts the pairs that are marked. *)
Inductive evolves (P : string -> string -> Prop) : Storage -> Storage -> Prop :=
| evolves_refl (s : Storage) : evolves P s s
| evolves_mark (s s' : Storage) (feedURL feedName channel itemID : string)
    (w : World) :
    P feedURL channel ->
    evolves P (fst (fst (MarkItemSeen s feedURL feedName channel itemID w))) s' ->
    evolves P s s'.

End Store.
End storage.

(* ===================================================================== *)
(** * [internal/config]: the feed configuration the handler reads *)
(* ===================================================================== *)

Module config.

(** [ArticleExpirationDurationHours] is a [*int]: [None] is the nil pointer
    of a feed that configures no value. *)
Record FeedConfig : Type := {
  Name : string;
  URL : string;
  ArticleExpirationDurationHours : option Z;
  FirstPush : bool;
  Channels : list string;
  Template : string
}.

Record TelegramConfig : Type := {
  BotToken : string;
  CheckInterval : Z
}.

Record Config : Type := {
  Telegram : TelegramConfig;
  Feeds : list FeedConfig
}.

Definition defaultTemplate : string :=
  "📰 *{title}*

{description}

🔗 [阅读原文]({link})".

Definition with_template (t : string) (feed : FeedConfig) : FeedConfig :=
  {| Name := Name feed; URL := URL feed;
     ArticleExpirationDurationHours := ArticleExpirationDurationHours feed;
     FirstPush := FirstPush feed; Channels := Channels feed; Template := t |}.

(** The loop of [Validate] over [c.Feeds], with the two maps it fills; a
    missing key of a [map[string]bool] reads as false. [feed] is the
    loop's copy of the element: the default template is assigned to the
    copy. *)
Fixpoint validate_feeds (feeds : list FeedConfig)
    (names urlNamePairs : gmap string bool) : option error :=
  match feeds with
  | [] => None
  | feed :: rest =>
      if String.eqb (Name feed) "" then Some (Errorf "feed name is required")
      else if String.eqb (URL feed) "" then Some (Errorf "feed URL is required")
      else if (length (Channels feed) =? 0)%nat
      then Some (Errorf ("feed " ++ Name feed ++ " must have at least one channel"))
      else if default false (names !! Name feed)
      then Some (Errorf ("duplicate feed name found: " ++ Name feed))
      else
        let names := <[Name feed := true]> names in
        let pair := (Name feed ++ "|" ++ URL feed)%string in
        if default false (urlNamePairs !! pair)
        then Some (Errorf ("duplicate feed name and URL combination found: " ++ pair))
        else
          let urlNamePairs := <[pair := true]> urlNamePairs in
          let feed := if String.eqb (Template feed) ""
                      then with_template defaultTemplate feed else feed in
          validate_feeds rest names urlNamePairs
  end.

(** [(c *Config) Validate()]; [None] is the nil error. *)
Definition Validate (c : Config) : option error :=
  if String.eqb (BotToken (Telegram c)) ""
  then Some (Errorf "telegram bot token is required")
  else if CheckInterval (Telegram c) <=? 0
  then Some (Errorf "telegram check interval must be positive")
  else if (length (Feeds c) =? 0)%nat
  then Some (Errorf "at least one feed must be configured")
  else validate_feeds (Feeds c) ∅ ∅.

End config.

(* ===================================================================== *)
(** * [sort.Slice]

    The contract of the library: the result is a rearrangement of the
    slice, ordered by [less]; equal elements may come in any order. *)
(* ===================================================================== *)

Module sort.

Class Sorter : Type := {
  Slice : forall {A : Type}, (A -> A -> bool) -> list A -> list A;
  Slice_Permutation : forall A (less : A -> A -> bool) (l : list A),
    Permutation (Slice less l) l;
  Slice_Sorted : forall A (less : A -> A -> bool) (key : A -> Z) (l : list A),
    (forall x y, less x y = (key x <? key y)) ->
    StronglySorted (fun x y => key x <= key y) (Slice less l)
}.

(** [insertionSortLessFunc], which [sort.Slice] runs on slices of at most
    twelve elements: each element in turn moves left past the elements it
    is less than. *)
Fixpoint sift {A} (less : A -> A -> bool) (x : A) (rev_prefix : list A) : list A :=
  match rev_prefix with
  | [] => [x]
  | y :: rest => if less x y then y :: sift less x rest else x :: rev_prefix
  end.

Definition insertionSort {A} (less : A -> A -> bool) (l : list A) : list A :=
  rev (fold_left (fun rev_prefix x => sift less x rev_prefix) l []).

End sort.

(* ===================================================================== *)
(** * [internal/rss/template.go]: the operations of a template field

    A field of a message template is a field name followed by operations,
    [name|op:params|op:params]. The regular expressions are those of
    [regexp], a leaf dependency used through four functions. *)
(* ===================================================================== *)

Module regexp.

Class Engine : Type := {
  Regexp : Type;
  (** [regexp.Compile(pattern)]; [None] is a pattern that does not compile *)
  Compile : string -> option Regexp;
  (** [re.FindStringSubmatch(s)]: the match and its groups, [[]] for nil *)
  FindStringSubmatch : Regexp -> string -> list string;
  (** [re.FindAllStringSubmatch(s, -1)] *)
  FindAllStringSubmatch : Regexp -> string -> list (list string);
  (** [re.ReplaceAllString(src, repl)] *)
  ReplaceAllString : Regexp -> string -> string -> string;

  (** a match starts with the text of the whole match *)
  FindAllStringSubmatch_whole : forall re s m,
    In m (FindAllStringSubmatch re s) -> m <> []
}.

End regexp.

Module unicode.

(** The Unicode-aware trimming that [strings.TrimSpace] falls back to. *)
Class Spaces : Type := {
  TrimFunc_IsSpace : string -> string;
  TrimRightFunc_IsSpace : string -> string
}.

End unicode.

Module template.

Section Template.
Context {R : regexp.Engine} {U : unicode.Spaces}.

(** [Operation.Process(content, params)] *)
Definition Operation : Type := string -> string -> string.

Record OperationRegistry : Type := {
  operations : gmap string Operation
}.

Record TemplateProcessor : Type := {
  registry : OperationRegistry
}.

Definition Register (r : OperationRegistry) (name : string) (op : Operation)
    : OperationRegistry :=
  {| operations := <[name := op]> (operations r) |}.

Definition ExtractOperation : Operation := fun content params =>
  let pattern := params in
  match regexp.Compile pattern with
  | None => content
  | Some re =>
      let matches := regexp.FindStringSubmatch re content in
      if (1 <? length matches)%nat then nth 1 matches EmptyString
      else if (length matches =? 1)%nat then nth 0 matches EmptyString
      else EmptyString
  end.

Definition ExtractAllOperationGap : string :=
  "<||4623456fdb0d55bc037afa5c25f08cd7||>".

Definition ExtractAllOperation : Operation := fun content params =>
  let pattern := params in
  match regexp.Compile pattern with
  | None => content
  | Some re =>
      let matches := regexp.FindAllStringSubmatch re content in
      if (length matches =? 0)%nat then EmptyString
      else
        let allMatches :=
          map (fun m => if (1 <? length m)%nat then nth 1 m EmptyString
                        else nth 0 m EmptyString) matches in
        strings.Join allMatches ExtractAllOperationGap
  end.

Definition PrefixOperation : Operation := fun content prefix =>
  if String.eqb content "" then EmptyString
  else
    let items := strings.Split content ExtractAllOperationGap in
    let items := map (fun item => (prefix ++ item)%string) items in
    strings.Join items "  ".

Definition ReplaceOperation : Operation := fun content params =>
  match strings.SplitN2 params ":" with
  | [pattern; replacement] =>
      match regexp.Compile pattern with
      | None => content
      | Some re => regexp.ReplaceAllString re content replacement
      end
  | _ => content
  end.

Definition DefaultOperation : Operation := fun content defaultValue =>
  if String.eqb content "" then defaultValue else content.

(** [string(sep)] for a byte: the UTF-8 encoding of the code point
    [sep]. *)
Definition string_of_byte (sep : ascii) : string :=
  let n := N_of_ascii sep in
  if (n <? 128)%N then String sep EmptyString
  else String (ascii_of_N (192 + n / 64))
         (String (ascii_of_N (128 + n mod 64)) EmptyString).

Definition hex_digit (n : N) : ascii :=
  nth (N.to_nat n) (list_ascii_of_string "0123456789ABCDEF") "0"%char.

(** [fmt.Sprintf("%X", sep)] for a byte *)
Definition Sprintf_X (sep : ascii) : string :=
  let n := N_of_ascii sep in
  if (n <? 16)%N then String (hex_digit n) EmptyString
  else String (hex_digit (n / 16)) (String (hex_digit (n mod 16)) EmptyString).

Definition backslash : ascii := ascii_of_nat 92.

Definition splitEscaped (s : string) (sep : ascii) : list string :=
  let interSymbol := ("<===%" ++ Sprintf_X sep ++ "%===>")%string in
  let str := strings.ReplaceAll s (String backslash (string_of_byte sep)) interSymbol in
  let result := strings.Split str (string_of_byte sep) in
  map (fun str => strings.ReplaceAll str interSymbol
                    (String backslash (string_of_byte sep)))
      result.

Definition TrimSpace : string -> string :=
  strings.TrimSpace unicode.TrimFunc_IsSpace unicode.TrimRightFunc_IsSpace.

(** One iteration of the loop of [ProcessField] over [operations[1:]]. *)
Definition apply_operation (p : TemplateProcessor) (result op : string) : string :=
  match strings.SplitN2 op ":" with
  | [name; params] =>
      let opName := TrimSpace name in
      match operations (registry p) !! opName with
      | Some operation => operation result params
      | None => result
      end
  | _ => result
  end.

Definition ProcessField (p : TemplateProcessor) (field content : string) : string :=
  let operations := splitEscaped field "|" in
  if (length operations =? 1)%nat then content
  else fold_left (apply_operation p) (tl operations) content.

End Template.

(** ** The processor of [internal/rss/template.go] *)
Module template_go.
Section Processor.
Context {R : regexp.Engine} {U : unicode.Spaces}.

Definition NewTemplateProcessor : TemplateProcessor :=
  let registry := {| operations := ∅ |} in
  let registry := Register registry "extract" ExtractOperation in
  let registry := Register registry "replace" ReplaceOperation in
  let registry := Register registry "default" DefaultOperation in
  {| registry := registry |}.

End Processor.
End template_go.

(** ** The processor with [extract-all] and [prefix] *)
Module template_new.
Section Processor.
Context {R : regexp.Engine} {U : unicode.Spaces}.

Definition NewTemplateProcessor : TemplateProcessor :=
  let registry := {| operations := ∅ |} in
  let registry := Register registry "extract" ExtractOperation in
  let registry := Register registry "extract-all" ExtractAllOperation in
  let registry := Register registry "replace" ReplaceOperation in
  let registry := Register registry "default" DefaultOperation in
  let registry := Register registry "prefix" PrefixOperation in
  {| registry := registry |}.

End Processor.
End template_new.

End template.

(* ===================================================================== *)
(** * [formatMessage]: the message of an item

    The HTML-to-Markdown converter, the compiled patterns and the layout
    of a date are leaf dependencies. Both versions of [formatMessage] end
    with the same tidying of the message. *)
(* ===================================================================== *)

Module markdown.

Class Renderer {R : regexp.Engine} : Type := {
  (** [converter.ConvertString(html)] *)
  ConvertString : string -> result string;
  (** [regexp.MustCompile] of the pattern of an image, [![alt](url)] *)
  imgRegex : regexp.Regexp;
  (** [regexp.MustCompile] of the pattern of a field between braces and
      spaces, and of the pattern of a field between braces *)
  fieldRegex_spaced : regexp.Regexp;
  fieldRegex : regexp.Regexp;
  (** [re.ReplaceAllStringFunc(src, repl)] *)
  ReplaceAllStringFunc : regexp.Regexp -> string -> (string -> string) -> string;
  (** [t.Format("2006-01-02 15:04:05")] *)
  Format : Z -> string
}.

End markdown.

Module format.

Section Format.
Context {R : regexp.Engine} {U : unicode.Spaces} {M : markdown.Renderer}.
Import gofeed.

Definition blank_run : string :=
  String newline (String newline (String newline EmptyString)).

Definition blank_line : string := String newline (String newline EmptyString).

(** ["{title}\n\n{link}"] *)
Definition default_template : string := ("{title}" ++ blank_line ++ "{link}")%string.

(** The loop [for strings.Contains(message, "\n\n\n")]. A round shortens
    the message, so [fuel] rounds are enough when [fuel] is its length. *)
Fixpoint squeeze (fuel : nat) (message : string) : string :=
  match fuel with
  | O => message
  | Datatypes.S fuel' =>
      if strings.Contains message blank_run
      then squeeze fuel' (strings.ReplaceAll message blank_run blank_line)
      else message
  end.

(** The end of [formatMessage]: [strings.TrimSpace], then the loop. *)
Definition tidy (message : string) : string :=
  let message := template.TrimSpace message in
  squeeze (String.length message) message.

(** The Markdown of [html] with its images turned into links, in
    [internal/rss/handler.go]: the text itself when the conversion
    fails. *)
Definition to_markdown (html : string) : string :=
  let md := match markdown.ConvertString html with
            | inl md => md
            | inr _ => html
            end in
  regexp.ReplaceAllString markdown.imgRegex md "[Media]($2)".

(** One [if field != "" { message = strings.ReplaceAll(...) }]. *)
Definition fill (placeholder value : string) (message : string) : string :=
  if negb (String.eqb value "") then strings.ReplaceAll message placeholder value
  else message.

End Format.

(** ** [formatMessage] of [internal/rss/handler.go] *)
Module format_go.
Section Format.
Context {R : regexp.Engine} {U : unicode.Spaces} {M : markdown.Renderer}.
Import gofeed.

Definition formatMessage (item : Item) (template : string) : string :=
  let template := if String.eqb template "" then default_template else template in
  let message := template in
  let message := fill "{title}" (Title item) message in
  let message := fill "{link}" (Link item) message in
  let message :=
    if negb (String.eqb (Description item) "")
    then strings.ReplaceAll message "{description}" (to_markdown (Description item))
    else message in
  let message :=
    if negb (String.eqb (Content item) "")
    then strings.ReplaceAll message "{content}" (to_markdown (Content item))
    else message in
  let message :=
    match PublishedParsed item with
    | Some t => strings.ReplaceAll message "{pubDate}" (markdown.Format t)
    | None => message
    end in
  let message := strings.ReplaceAll message "{title}" "" in
  let message := strings.ReplaceAll message "{link}" "" in
  let message := strings.ReplaceAll message "{description}" "" in
  let message := strings.ReplaceAll message "{content}" "" in
  let message := strings.ReplaceAll message "{pubDate}" "" in
  tidy message.

End Format.
End format_go.

(** ** [formatMessage] with the operations of a field *)
Module format_new.
Section Format.
Context {R : regexp.Engine} {U : unicode.Spaces} {M : markdown.Renderer}.
Import gofeed.

(** The Markdown of [html] with its images turned into links: the text
    itself, images included, when the conversion fails. *)
Definition to_markdown (html : string) : string :=
  if negb (String.eqb html "")
  then match markdown.ConvertString html with
       | inr _ => html
       | inl mdContent => regexp.ReplaceAllString markdown.imgRegex mdContent "[Media]($2)"
       end
  else EmptyString.

Definition replaceOpFieldFunc (item : Item) (match_ field : string) : string :=
  let processor := template.template_new.NewTemplateProcessor in
  let basefield := nth 0 (strings.SplitN2 field "|") EmptyString in
  if String.eqb basefield "title"
  then template.ProcessField processor field (Title item)
  else if String.eqb basefield "description"
  then template.ProcessField processor field (to_markdown (Description item))
  else if String.eqb basefield "content"
  then template.ProcessField processor field (to_markdown (Content item))
  else if String.eqb basefield "link"
  then template.ProcessField processor field (Link item)
  else if String.eqb basefield "pubDate"
  then template.ProcessField processor field
         match PublishedParsed item with
         | Some t => markdown.Format t
         | None => EmptyString
         end
  else match_.

(** [match[lo : len(match)-hi]]; the patterns match no text shorter than
    [lo + hi]. *)
Definition inner (lo hi : nat) (match_ : string) : string :=
  String.substring lo (String.length match_ - hi - lo) match_.

Definition formatMessage (item : Item) (template : string) : string :=
  let template := if String.eqb template "" then default_template else template in
  let message :=
    markdown.ReplaceAllStringFunc markdown.fieldRegex_spaced template
      (fun match_ => replaceOpFieldFunc item match_ (inner 2 2 match_)) in
  let message :=
    markdown.ReplaceAllStringFunc markdown.fieldRegex message
      (fun match_ => replaceOpFieldFunc item match_ (inner 1 1 match_)) in
  tidy message.

End Format.
End format_new.

End format.

(* ===================================================================== *)
(** * The RSS handler: [processFeed] and what it calls

    Two versions of the handler are in the repository. They share
    [generateItemID], the ordering pass, the dispatch loop, the retry loop
    and the backoff; they differ in the candidate filter (module
    [handler_go] for [internal/rss/handler.go], module [handler_new] for
    the version with [first_push] and a per-feed expiration). *)
(* ===================================================================== *)

Module rss.

(** The collaborators outside the pipeline: the content hash of
    [generateItemID] and the message template renderer. *)
Class Collaborators : Type := {
  sha256_hex : bytes -> string;
  formatMessage : gofeed.Item -> string -> string
}.

Section Handler.
Context {F : bloom.Filter} {S : sort.Sorter} {C : Collaborators}.

Import gofeed config.

Definition is_empty (s : string) : bool := String.eqb s "".

Definition generateItemID (item : Item) : string :=
  if negb (is_empty (GUID item)) then GUID item
  else if negb (is_empty (Link item)) then Link item
  else if negb (is_empty (Title item)) && negb (is_empty (Published item))
  then (Title item ++ "|" ++ Published item)%string
  else ("content:" ++ sha256_hex (list_ascii_of_string (Content item)))%string.

(** [h.parser.ParseURL(url)] *)
Definition ParseURL (url : string) : IO (result (list Item)) :=
  fun w => (fetch w (step w) url, tick w).

(** [h.bot.Send(channel, message)]; [true] is a nil error. *)
Definition Send (channel message : string) : IO bool :=
  bad <- failing ;;
  _ <- log (EvSend channel message (negb bad)) ;;
  ret (negb bad).

(** [rand.Int63n(n)] *)
Definition Int63n (n : Z) : IO Z :=
  fun w => (rand w (step w) mod n, tick w).

Definition ExponentialBackoffWithJitter (attempt : Z) : IO unit :=
  let base := time.Second in
  let maxJitter := 500 * time.Millisecond in
  let delay := time.mul base (Z.shiftl 1 attempt) in
  _ <- log (EvBackoff attempt) ;;
  jitter <- Int63n maxJitter ;;
  time.Sleep (delay + jitter).

(** The handler's call of [h.storage.MarkItemSeen]; an error is logged and
    dropped. *)
Definition markSeen (s : storage.Storage) (feedConfig : FeedConfig)
    (channel itemID : string) : IO storage.Storage :=
  _ <- log (EvMark (URL feedConfig) channel itemID) ;;
  r <- storage.MarkItemSeen s (URL feedConfig) (Name feedConfig) channel itemID ;;
  ret (fst r).

(** [allChannelsProcessed] after the loop over the channels. *)
Definition allChannelsProcessed (s : storage.Storage) (feedConfig : FeedConfig)
    (itemID : string) : bool :=
  forallb (fun channel =>
             storage.IsItemSeen s (URL feedConfig) (Name feedConfig) channel itemID)
          (Channels feedConfig).

Definition has_time (item : Item) : bool :=
  match PublishedParsed item with Some _ => true | None => false end.

(** [*item.PublishedParsed]; the items compared all carry a timestamp. *)
Definition published (item : Item) : Z := default 0 (PublishedParsed item).

(** The ordering pass. *)
Definition order (newItems : list Item) : list Item :=
  if (0 <? length newItems)%nat then
    let withTime := List.filter has_time newItems in
    let withoutTime := List.filter (fun item => negb (has_time item)) newItems in
    let withTime :=
      if (0 <? length withTime)%nat
      then sort.Slice (fun a b => time.Before (published a) (published b)) withTime
      else withTime in
    withTime ++ withoutTime
  else newItems.

(** One goroutine of the dispatch loop. *)
Record Task : Type := {
  task_channel : string;
  task_item : Item;
  task_itemID : string;
  task_message : string
}.

(** The dispatch loop: the tasks started, in the order they are started. *)
Definition dispatch (s : storage.Storage) (feedConfig : FeedConfig)
    (newItems : list Item) : list Task :=
  flat_map (fun item =>
    let itemID := generateItemID item in
    flat_map (fun channel =>
      if storage.IsItemSeen s (URL feedConfig) (Name feedConfig) channel itemID
      then []
      else
        let message := formatMessage item (Template feedConfig) in
        if is_empty message then []
        else [{| task_channel := channel; task_item := item;
                 task_itemID := itemID; task_message := message |}])
      (Channels feedConfig))
    newItems.

Definition maxRetries : Z := 3.

(** The retry loop, [remaining] iterations from index [i]; the result is
    [sendSuccess]. *)
Fixpoint send_loop (remaining : nat) (i : Z) (channel message : string) : IO bool :=
  match remaining with
  | O => ret false
  | Datatypes.S remaining' =>
      ok <- Send channel message ;;
      if ok : bool then ret true
      else if i =? maxRetries - 1 then ret false
      else
        _ <- ExponentialBackoffWithJitter i ;;
        send_loop remaining' (i + 1) channel message
  end.

(** The body of the goroutine between acquiring and releasing the
    semaphore. *)
Definition worker (s : storage.Storage) (feedConfig : FeedConfig) (t : Task)
    : IO storage.Storage :=
  sendSuccess <- send_loop (Z.to_nat maxRetries) 0 (task_channel t) (task_message t) ;;
  if sendSuccess : bool then
    s' <- markSeen s feedConfig (task_channel t) (task_itemID t) ;;
    _ <- time.Sleep time.Second ;;
    ret s'
  else ret s.

(** [wg.Wait()]: the goroutines run to completion. The schedule modelled is
    the one in which they run one after the other in the order they were
    started, after the dispatch loop. *)
Fixpoint run_tasks (s : storage.Storage) (feedConfig : FeedConfig)
    (tasks : list Task) : IO storage.Storage :=
  match tasks with
  | [] => ret s
  | t :: rest =>
      s' <- worker s feedConfig t ;;
      run_tasks s' feedConfig rest
  end.

(** The state of the candidate loop. *)
Record Candidates : Type := {
  newItems : list Item;
  seenInThisRun : gmap string bool;
  store : storage.Storage
}.

Definition deliver (c : Candidates) (feedConfig : FeedConfig)
    : IO (storage.Storage * result unit) :=
  let newItems := order (newItems c) in
  let tasks := dispatch (store c) feedConfig newItems in
  s <- run_tasks (store c) feedConfig tasks ;;
  ret (s, inl tt).

(** A [for ... range] loop over [l] that threads its state. *)
Fixpoint for_each {A B} (body : B -> A -> IO B) (acc : B) (l : list A) : IO B :=
  match l with
  | [] => ret acc
  | x :: rest => acc' <- body acc x ;; for_each body acc' rest
  end.

(** ** Vocabulary of the properties *)

(** An item that has a title or a link. *)
Definition addressable (item : Item) : bool :=
  negb (is_empty (Title item) && is_empty (Link item)).

(** A send, if the event is one, goes to [channel] with [message]. *)
Definition send_of (channel message : string) (e : Event) : Prop :=
  match e with
  | EvSend c m _ => c = channel /\ m = message
  | _ => True
  end.

(** A send, if the event is one, delivers an item of [items] to a channel
    of the feed for which store [s] does not report the item seen. *)
Definition unseen_send (s : storage.Storage) (feedConfig : FeedConfig)
    (items : list Item) (e : Event) : Prop :=
  match e with
  | EvSend channel message _ =>
      exists item,
        In item items /\ In channel (Channels feedConfig) /\
        message = formatMessage item (Template feedConfig) /\
        storage.IsItemSeen s (URL feedConfig) (Name feedConfig) channel
          (generateItemID item) = false
  | _ => True
  end.

End Handler.

(** ** [internal/rss/handler.go] *)
Module handler_go.
Section Handler.
Context {F : bloom.Filter} {S : sort.Sorter} {C : Collaborators}.
Import gofeed config.

Definition articleExpirationDuration : Z := 30 * 24 * time.Hour.

(** The stale test: [true] when the item is skipped as too old. *)
Definition stale (feedConfig : FeedConfig) (item : Item) : IO bool :=
  match PublishedParsed item with
  | Some t =>
      age <- time.Since t ;;
      ret (age >? articleExpirationDuration)
  | None => ret false
  end.

(** One iteration of the candidate loop. *)
Definition candidate (feedConfig : FeedConfig) (c : Candidates) (item : Item)
    : IO Candidates :=
  if is_empty (Title item) && is_empty (Link item) then ret c
  else
    let itemID := generateItemID item in
    if default false (seenInThisRun c !! itemID) then ret c
    else if allChannelsProcessed (store c) feedConfig itemID then ret c
    else
      old <- stale feedConfig item ;;
      if old : bool then ret c
      else ret {| newItems := newItems c ++ [item];
                  seenInThisRun := <[itemID := true]> (seenInThisRun c);
                  store := store c |}.

Definition processFeed (s : storage.Storage) (feedConfig : FeedConfig)
    : IO (storage.Storage * result unit) :=
  feed <- ParseURL (URL feedConfig) ;;
  match feed with
  | inr err => ret (s, inr (Wrapf "error parsing feed" err))
  | inl items =>
      if (length items =? 0)%nat then ret (s, inl tt)
      else
        c <- for_each (candidate feedConfig)
               {| newItems := []; seenInThisRun := ∅; store := s |} items ;;
        deliver c feedConfig
  end.

(** [ProcessFeeds], with the configuration it reads from [h.config]: one
    goroutine per feed, at most two at a time, all on the same store. The
    schedule modelled runs them one after the other in the order of the
    configuration. The second component is what the loop over [errChan]
    collects; [ProcessFeeds] returns an error when it is not empty. *)
Definition collect_errors (s : storage.Storage) (cfg : Config)
    : IO (storage.Storage * list error) :=
  for_each (fun acc feed =>
              r <- processFeed (fst acc) feed ;;
              match snd r with
              | inr err => ret (fst r, snd acc ++ [Wrapf ("feed " ++ Name feed) err])
              | inl _ => ret (fst r, snd acc)
              end)
           (s, []) (Feeds cfg).

Definition ProcessFeeds (s : storage.Storage) (cfg : Config)
    : IO (storage.Storage * result unit) :=
  r <- collect_errors s cfg ;;
  if (0 <? length (snd r))%nat
  then ret (fst r, inr (Errorf "errors processing feeds"))
  else ret (fst r, inl tt).

End Handler.
End handler_go.

(** ** The handler with [first_push] and a per-feed expiration *)
Module handler_new.
Section Handler.
Context {F : bloom.Filter} {S : sort.Sorter} {C : Collaborators}.
Import gofeed config.

(** [isFirstRun] after the loop over the channels: [false] as soon as
    [os.Stat] finds a bucket file. *)
Fixpoint isFirstRun (s : storage.Storage) (feedConfig : FeedConfig)
    (channels : list string) : IO bool :=
  match channels with
  | [] => ret true
  | channel :: rest =>
      r <- os.Stat (storage.GetBloomFilePath s (URL feedConfig) channel) ;;
      match r with
      | inl _ => ret false
      | inr _ => isFirstRun s feedConfig rest
      end
  end.

(** The stale test: [true] when the item is skipped as too old. *)
Definition stale (feedConfig : FeedConfig) (item : Item) : IO bool :=
  match PublishedParsed item with
  | Some t =>
      age <- time.Since t ;;
      match ArticleExpirationDurationHours feedConfig with
      | Some hours => ret (age >? time.mul hours time.Hour)
      | None => ret false
      end
  | None => ret false
  end.

(** The first-run branch: the item is marked for every channel. *)
Definition mark_all (feedConfig : FeedConfig) (itemID : string)
    (s : storage.Storage) : IO storage.Storage :=
  for_each (fun s channel => markSeen s feedConfig channel itemID)
           s (Channels feedConfig).

(** One iteration of the candidate loop. *)
Definition candidate (feedConfig : FeedConfig) (firstRun : bool)
    (c : Candidates) (item : Item) : IO Candidates :=
  if is_empty (Title item) && is_empty (Link item) then ret c
  else
    let itemID := generateItemID item in
    if default false (seenInThisRun c !! itemID) then ret c
    else if firstRun && negb (FirstPush feedConfig) then
      s' <- mark_all feedConfig itemID (store c) ;;
      ret {| newItems := newItems c; seenInThisRun := seenInThisRun c;
             store := s' |}
    else if allChannelsProcessed (store c) feedConfig itemID then ret c
    else
      old <- stale feedConfig item ;;
      if old : bool then ret c
      else ret {| newItems := newItems c ++ [item];
                  seenInThisRun := <[itemID := true]> (seenInThisRun c);
                  store := store c |}.

Definition processFeed (s : storage.Storage) (feedConfig : FeedConfig)
    : IO (storage.Storage * result unit) :=
  feed <- ParseURL (URL feedConfig) ;;
  match feed with
  | inr err => ret (s, inr (Wrapf "error parsing feed" err))
  | inl items =>
      if (length items =? 0)%nat then ret (s, inl tt)
      else
        firstRun <- isFirstRun s feedConfig (Channels feedConfig) ;;
        c <- for_each (candidate feedConfig firstRun)
               {| newItems := []; seenInThisRun := ∅; store := s |} items ;;
        deliver c feedConfig
  end.

(** [ProcessFeeds], with the configuration it reads from [h.config]: one
    goroutine per feed, at most two at a time, all on the same store. The
    schedule modelled runs them one after the other in the order of the
    configuration. The second component is what the loop over [errChan]
    collects; [ProcessFeeds] returns an error when it is not empty. *)
Definition collect_errors (s : storage.Storage) (cfg : Config)
    : IO (storage.Storage * list error) :=
  for_each (fun acc feed =>
              r <- processFeed (fst acc) feed ;;
              match snd r with
              | inr err => ret (fst r, snd acc ++ [Wrapf ("feed " ++ Name feed) err])
              | inl _ => ret (fst r, snd acc)
              end)
           (s, []) (Feeds cfg).

Definition ProcessFeeds (s : storage.Storage) (cfg : Config)
    : IO (storage.Storage * result unit) :=
  r <- collect_errors s cfg ;;
  if (0 <? length (snd r))%nat
  then ret (fst r, inr (Errorf "errors processing feeds"))
  else ret (fst r, inl tt).

End Handler.
End handler_new.

End rss.

(* ===================================================================== *)
(** * The delivery goroutines of [internal/rss/handler.go], in any schedule

    The dispatch loop of [processFeed] starts one goroutine per task and
    goes on while they run; a semaphore lets two of them send at a time,
    and [wg.Wait()] holds [processFeed] until all are done. Module [rss]
    above runs them one after the other, after the dispatch loop; here a
    schedule says who moves next: 0 is the dispatch loop, [k + 1] the
    goroutine started as number [k]. A move of the dispatch loop visits
    the next (item, channel) pair. A move of a goroutine is one call:
    taking the semaphore, [Send], the backoff, [MarkItemSeen] (which holds
    the lock of the store from its first line to its last), or the pause.
    A choice that cannot move (the loop at its end, a goroutine that waits
    for a full semaphore or is done) leaves everything as it is. *)
(* ===================================================================== *)

Module pool.
Section Pool.
Context {F : bloom.Filter} {S : sort.Sorter} {C : rss.Collaborators}.
Import gofeed config rss.

(** Where a goroutine is. *)
Inductive Stage : Type :=
| Waiting            (* started, before [sem <- struct{}{}] *)
| Sending (i : Z)    (* about to call [Send] in iteration [i] of the retry loop *)
| Backing (i : Z)    (* the send of iteration [i] failed, about to back off *)
| Marking            (* a send succeeded, about to call [MarkItemSeen] *)
| Pausing            (* marked, about to sleep for a second *)
| Finished           (* the semaphore is released, [wg.Done()] *).

Record Goroutine : Type := {
  job : Task;
  stage : Stage
}.

Record Pool : Type := {
  (** the pairs the dispatch loop has still to visit *)
  pending : list (Item * string);
  (** the goroutines started, in the order they were started *)
  goroutines : list Goroutine;
  (** [h.storage] *)
  shared : storage.Storage
}.

Definition at_stage (g : Goroutine) (st : Stage) : Goroutine :=
  {| job := job g; stage := st |}.

(** The body of the two loops of the dispatch, for the pair at hand. *)
Definition visit (feedConfig : FeedConfig) (p : Pool) : Pool :=
  match pending p with
  | [] => p
  | (item, channel) :: rest =>
      let itemID := generateItemID item in
      if storage.IsItemSeen (shared p) (URL feedConfig) (Name feedConfig) channel itemID
      then {| pending := rest; goroutines := goroutines p; shared := shared p |}
      else
        let message := formatMessage item (Template feedConfig) in
        if is_empty message
        then {| pending := rest; goroutines := goroutines p; shared := shared p |}
        else {| pending := rest;
                goroutines :=
                  goroutines p
                  ++ [{| job := {| task_channel := channel; task_item := item;
                                   task_itemID := itemID;
                                   task_message := message |};
                         stage := Waiting |}];
                shared := shared p |}
  end.

(** The goroutine has taken the semaphore and not given it back. *)
Definition holds (g : Goroutine) : bool :=
  match stage g with
  | Sending _ | Backing _ | Marking | Pausing => true
  | Waiting | Finished => false
  end.

Definition holding (p : Pool) : nat := length (List.filter holds (goroutines p)).

(** One move of a goroutine, with [holding] goroutines in the semaphore
    of capacity [capacity]. *)
Definition advance (capacity : nat) (feedConfig : FeedConfig) (holding : nat)
    (s : storage.Storage) (g : Goroutine) : IO (Goroutine * storage.Storage) :=
  let t := job g in
  match stage g with
  | Waiting =>
      if (holding <? capacity)%nat then ret (at_stage g (Sending 0), s)
      else ret (g, s)
  | Sending i =>
      ok <- Send (task_channel t) (task_message t) ;;
      if ok : bool then ret (at_stage g Marking, s)
      else if i =? maxRetries - 1 then ret (at_stage g Finished, s)
      else ret (at_stage g (Backing i), s)
  | Backing i =>
      _ <- ExponentialBackoffWithJitter i ;;
      if i + 1 <? maxRetries then ret (at_stage g (Sending (i + 1)), s)
      else ret (at_stage g Finished, s)
  | Marking =>
      s' <- markSeen s feedConfig (task_channel t) (task_itemID t) ;;
      ret (at_stage g Pausing, s')
  | Pausing =>
      _ <- time.Sleep time.Second ;;
      ret (at_stage g Finished, s)
  | Finished => ret (g, s)
  end.

(** One move of the one chosen. *)
Definition turn (capacity : nat) (feedConfig : FeedConfig) (choice : nat)
    (p : Pool) : IO Pool :=
  match choice with
  | O => ret (visit feedConfig p)
  | Datatypes.S k =>
      match goroutines p !! k with
      | None => ret p
      | Some g =>
          r <- advance capacity feedConfig (holding p) (shared p) g ;;
          ret {| pending := pending p;
                 goroutines := <[k := fst r]> (goroutines p);
                 shared := snd r |}
      end
  end.

Definition run (capacity : nat) (feedConfig : FeedConfig) (schedule : list nat)
    (p : Pool) : IO Pool :=
  for_each (fun p choice => turn capacity feedConfig choice p) p schedule.

Definition is_finished (g : Goroutine) : bool :=
  match stage g with Finished => true | _ => false end.

(** [wg.Wait()] returns: the dispatch loop is at its end and every
    goroutine is done. *)
Definition finished (p : Pool) : bool :=
  match pending p with
  | [] => forallb is_finished (goroutines p)
  | _ => false
  end.

(** The pairs of the two loops, in the order they are visited. *)
Definition pairs (feedConfig : FeedConfig) (newItems : list Item)
    : list (Item * string) :=
  flat_map (fun item => map (pair item) (Channels feedConfig)) newItems.

(** The pool when the dispatch loop begins. *)
Definition start (c : Candidates) (feedConfig : FeedConfig) : Pool :=
  {| pending := pairs feedConfig (order (newItems c));
     goroutines := [];
     shared := store c |}.

(** A pool with nothing to do. *)
Definition idle (s : storage.Storage) : Pool :=
  {| pending := []; goroutines := []; shared := s |}.

(** [processFeed] of [internal/rss/handler.go] for the moves of
    [schedule]. The call has returned when the pool is [finished]; before
    that, the result is how far the cycle has come. *)
Definition processFeed (schedule : list nat) (s : storage.Storage)
    (feedConfig : FeedConfig) : IO (Pool * result unit) :=
  feed <- ParseURL (URL feedConfig) ;;
  match feed with
  | inr err => ret (idle s, inr (Wrapf "error parsing feed" err))
  | inl items =>
      if (length items =? 0)%nat then ret (idle s, inl tt)
      else
        c <- for_each (handler_go.candidate feedConfig)
               {| newItems := []; seenInThisRun := ∅; store := s |} items ;;
        p <- run 2 feedConfig schedule (start c feedConfig) ;;
        ret (p, inl tt)
  end.

(** The schedule of module [rss]: the dispatch loop to its end, then the
    goroutines one after the other, each to its end (eight moves are
    enough for one); [n] bounds the pairs to visit. *)
Definition sequential (n : nat) : list nat :=
  repeat O n ++ flat_map (fun k => repeat (Datatypes.S k) 8) (seq 0 n).

End Pool.
End pool.

(* ===================================================================== *)
(** * What the further properties speak about *)
(* ===================================================================== *)

(** The text a configuration is checked for duplicates with. *)
Definition pair_of (feed : config.FeedConfig) : string :=
  (config.Name feed ++ "|" ++ config.URL feed)%string.

(** The time slept: the sum of the durations handed to [time.Sleep]. *)
Fixpoint slept (evs : list Event) : Z :=
  match evs with
  | [] => 0
  | EvSleep d :: rest => d + slept rest
  | _ :: rest => slept rest
  end.

(** A send that got through. *)
Definition is_delivered (e : Event) : bool :=
  match e with EvSend _ _ ok => ok | _ => false end.

(** A mark of [itemID] for the pair ([feedURL], [channel]). *)
Definition is_mark_of (feedURL channel itemID : string) (e : Event) : bool :=
  match e with
  | EvMark f c i => String.eqb f feedURL && String.eqb c channel && String.eqb i itemID
  | _ => false
  end.

(** A world in which no primitive fails. *)
Definition reliable (w : World) : Prop := forall n, fault w n = false.

(** [w'] has the clock, the failures, the random source and the network
    of [w]. *)
Definition same_oracles (w w' : World) : Prop :=
  clock w' = clock w /\ fault w' = fault w /\ rand w' = rand w /\
  fetch w' = fetch w.

(** [m] reads the oracles and never replaces them. *)
Definition steady {A} (m : IO A) : Prop := forall w, same_oracles w (snd (m w)).

(** The byte [c] occurs in [s]. *)
Fixpoint occurs (c : ascii) (s : string) : bool :=
  match s with
  | EmptyString => false
  | String d rest => Ascii.eqb c d || occurs c rest
  end.

(** Every [sep] of [s] comes right after a backslash; [after_backslash]
    says whether the byte before [s] is one. *)
Fixpoint escaped (sep : ascii) (after_backslash : bool) (s : string) : bool :=
  match s with
  | EmptyString => true
  | String c rest =>
      (negb (Ascii.eqb c sep) || after_backslash)
      && escaped sep (Ascii.eqb c template.backslash) rest
  end.

(** The last byte of [s] is a backslash. *)
Fixpoint ends_with_backslash (s : string) : bool :=
  match s with
  | EmptyString => false
  | String c EmptyString => Ascii.eqb c template.backslash
  | String _ rest => ends_with_backslash rest
  end.

(** The stand-in [splitEscaped] computes for an escaped ['|']. *)
Definition interSymbol : string := "<===%7C%===>".

(** [s'] is [s] after marks, in any worlds, of triples (feed URL, channel,
    id) that satisfy [P]. *)
Inductive reached {F : bloom.Filter} (P : string -> string -> string -> Prop)
    : storage.Storage -> storage.Storage -> Prop :=
| reached_refl (s : storage.Storage) : reached P s s
| reached_mark (s s' : storage.Storage) (feedURL feedName channel itemID : string)
    (w : World) :
    reached P s s' -> P feedURL channel itemID ->
    reached P s
      (fst (fst (storage.MarkItemSeen s' feedURL feedName channel itemID w))).

Section HandlerVocabulary.
Context {F : bloom.Filter} {S : sort.Sorter} {C : rss.Collaborators}.
Import gofeed config rss.

(** What an event of the task [t] can be. *)
Definition task_event (feedConfig : FeedConfig) (t : Task) (e : Event) : Prop :=
  match e with
  | EvSend channel message _ => channel = task_channel t /\ message = task_message t
  | EvMark feedURL channel itemID =>
      feedURL = URL feedConfig /\ channel = task_channel t /\ itemID = task_itemID t
  | _ => True
  end.

(** The task delivers the item [itemID] to [channel]. *)
Definition task_of (channel itemID : string) (t : Task) : bool :=
  String.eqb (task_channel t) channel && String.eqb (task_itemID t) itemID.

(** The candidates kept so far have different ids, all recorded in
    [seenInThisRun]. *)
Definition distinct_ids (c : Candidates) : Prop :=
  List.NoDup (map generateItemID (newItems c)) /\
  forall item, In item (newItems c) ->
               seenInThisRun c !! generateItemID item = Some true.

(** At some clock reading from [w] on, the item, if dated, was not older
    than [articleExpirationDuration]. *)
Definition recent (w : World) (item : Item) : Prop :=
  forall t, PublishedParsed item = Some t ->
  exists n, (step w <= n)%nat /\
            time.Sub (clock w n) t <= handler_go.articleExpirationDuration.

(** What an event of a cycle of [internal/rss/handler.go] can be: a send
    delivers, to a channel of the feed, the non-empty message of a fetched
    item that has a title or a link, was not stale, and was not seen for
    that channel when the cycle began; a mark is for the feed, one of its
    channels and the id of a fetched item. *)
Definition cycle_event (s : storage.Storage) (feedConfig : FeedConfig)
    (items : list Item) (w : World) (e : Event) : Prop :=
  match e with
  | EvSend channel message _ =>
      exists item,
        In item items /\ addressable item = true /\ recent w item /\
        In channel (Channels feedConfig) /\
        message = formatMessage item (Template feedConfig) /\
        message <> ""%string /\
        storage.IsItemSeen s (URL feedConfig) (Name feedConfig) channel
          (generateItemID item) = false
  | EvMark url channel itemID =>
      url = URL feedConfig /\ In channel (Channels feedConfig) /\
      exists item, In item items /\ itemID = generateItemID item
  | _ => True
  end.

(** What an event of a cycle of the handler with [first_push] can be,
    when first sight is not suppressed: a send delivers, to a channel of
    the feed, the non-empty message of a fetched item that has a title or
    a link and was not seen for that channel when the cycle began; a mark
    is for the feed, one of its channels and the id of a fetched item. *)
Definition push_event (s : storage.Storage) (feedConfig : FeedConfig)
    (items : list Item) (e : Event) : Prop :=
  match e with
  | EvSend channel message _ =>
      exists item,
        In item items /\ addressable item = true /\
        In channel (Channels feedConfig) /\
        message = formatMessage item (Template feedConfig) /\
        message <> ""%string /\
        storage.IsItemSeen s (URL feedConfig) (Name feedConfig) channel
          (generateItemID item) = false
  | EvMark url channel itemID =>
      url = URL feedConfig /\ In channel (Channels feedConfig) /\
      exists item, In item items /\ itemID = generateItemID item
  | _ => True
  end.

(** What a goroutine of a cycle is started for: an item of [items], a
    channel of the feed, the message of the item, which is not empty; and
    the store the cycle began with did not report the item seen for the
    channel. *)
Definition started (s0 : storage.Storage) (feedConfig : FeedConfig)
    (items : list Item) (t : Task) : Prop :=
  In (task_item t) items /\
  task_itemID t = generateItemID (task_item t) /\
  In (task_channel t) (Channels feedConfig) /\
  task_message t = formatMessage (task_item t) (Template feedConfig) /\
  task_message t <> ""%string /\
  storage.IsItemSeen s0 (URL feedConfig) (Name feedConfig) (task_channel t)
    (task_itemID t) = false.

(** Every mark comes after a send that got through, to the channel of the
    mark, of the message of an item that has the id of the mark. *)
Definition marks_after_sends (feedConfig : FeedConfig) (items : list Item)
    (evs : list Event) : Prop :=
  forall pre post url channel itemID,
    evs = pre ++ EvMark url channel itemID :: post ->
    exists item,
      In item items /\ itemID = generateItemID item /\
      In (EvSend channel (formatMessage item (Template feedConfig)) true) pre.

(** The goroutines whose send got through and that have not marked yet. *)
Definition is_marking (g : pool.Goroutine) : bool :=
  match pool.stage g with pool.Marking => true | _ => false end.

Definition marking (p : pool.Pool) : nat :=
  length (List.filter is_marking (pool.goroutines p)).

(** What holds of a pool and of the events [evs] of its goroutines at
    every moment of a cycle that began with store [s0] and candidates
    [items]. *)
Definition pool_invariant (s0 : storage.Storage) (feedConfig : FeedConfig)
    (items : list Item) (evs : list Event) (p : pool.Pool) : Prop :=
  (forall item channel,
     In (item, channel) (pool.pending p) ->
     In item items /\ In channel (Channels feedConfig)) /\
  Forall (started s0 feedConfig items) (map pool.job (pool.goroutines p)) /\
  storage.evolves (fun url ch => url = URL feedConfig /\ In ch (Channels feedConfig))
    s0 (pool.shared p) /\
  Forall (fun e => exists t, In t (map pool.job (pool.goroutines p)) /\
                             task_event feedConfig t e) evs /\
  marks_after_sends feedConfig items evs /\
  count is_delivered evs = (count is_mark evs + marking p)%nat /\
  (forall g, In g (pool.goroutines p) -> pool.stage g = pool.Marking ->
     In (EvSend (task_channel (pool.job g)) (task_message (pool.job g)) true) evs).

(** The task the dispatch loop starts for [item] and [channel]. *)
Definition task_for (feedConfig : FeedConfig) (item : Item) (channel : string)
    : Task :=
  {| task_channel := channel; task_item := item;
     task_itemID := generateItemID item;
     task_message := formatMessage item (Template feedConfig) |}.

(** A mark a cycle over [items] can make, other than the one of [item] for
    [channel]: for the feed, one of its channels and the id of an item. *)
Definition other_mark (feedConfig : FeedConfig) (items : list Item)
    (item : Item) (channel : string) (url ch id : string) : Prop :=
  url = URL feedConfig /\ In ch (Channels feedConfig) /\
  (exists item', In item' items /\ id = generateItemID item') /\
  (ch, id) <> (channel, generateItemID item).

(** Where a goroutine can be when no send fails, and what it has done by
    then. *)
Definition on_course (feedConfig : FeedConfig) (evs : list Event)
    (s : storage.Storage) (g : pool.Goroutine) : Prop :=
  let t := pool.job g in
  match pool.stage g with
  | pool.Waiting | pool.Sending _ => True
  | pool.Backing _ => False
  | pool.Marking => In (EvSend (task_channel t) (task_message t) true) evs
  | pool.Pausing | pool.Finished =>
      In (EvSend (task_channel t) (task_message t) true) evs /\
      In (EvMark (URL feedConfig) (task_channel t) (task_itemID t)) evs /\
      storage.IsItemSeen s (URL feedConfig) (Name feedConfig) (task_channel t)
        (task_itemID t) = true
  end.

(** The cycle is on its way to deliver [item] to [channel]: the goroutine
    is started, or the pair is still to be visited and the store has
    changed by other marks only. *)
Definition delivering (s0 : storage.Storage) (feedConfig : FeedConfig)
    (items : list Item) (item : Item) (channel : string) (evs : list Event)
    (p : pool.Pool) : Prop :=
  Forall (on_course feedConfig evs (pool.shared p)) (pool.goroutines p) /\
  (In (task_for feedConfig item channel) (map pool.job (pool.goroutines p)) \/
   In (item, channel) (pool.pending p) /\
   reached (other_mark feedConfig items item channel) s0 (pool.shared p)).

(** The moves a goroutine has left at most, by where it stands. *)
Definition moves_left (st : pool.Stage) : nat :=
  match st with
  | pool.Waiting => 8
  | pool.Sending i => Z.to_nat (7 - 2 * i)
  | pool.Backing i => Z.to_nat (6 - 2 * i)
  | pool.Marking => 2
  | pool.Pausing => 1
  | pool.Finished => 0
  end.

(** The iterations of the retry loop a goroutine can be in. *)
Definition in_loop (st : pool.Stage) : Prop :=
  match st with
  | pool.Sending i => 0 <= i <= 2
  | pool.Backing i => 0 <= i <= 1
  | _ => True
  end.

(** The dispatch loop is at its end, the goroutines started before number
    [a] are done and the others have not moved. *)
Definition done_before (a : nat) (p : pool.Pool) : Prop :=
  pool.pending p = [] /\
  forall j g, pool.goroutines p !! j = Some g ->
    pool.stage g = if (j <? a)%nat then pool.Finished else pool.Waiting.

(** The loop of [collect_errors] over the feeds, from any store and any
    errors collected so far. *)
Definition feeds_loop (acc : storage.Storage * list error) (feeds : list FeedConfig)
    : IO (storage.Storage * list error) :=
  for_each (fun acc feed =>
              r <- handler_go.processFeed (fst acc) feed ;;
              match snd r with
              | inr err => ret (fst r, snd acc ++ [Wrapf ("feed " ++ Name feed) err])
              | inl _ => ret (fst r, snd acc)
              end)
           acc feeds.

End HandlerVocabulary.

(** The collaborators of the handler, with the renderer of
    [internal/rss/handler.go] for the messages. *)
Definition rendered {R : regexp.Engine} {U : unicode.Spaces} {M : markdown.Renderer}
    (sha256_hex : bytes -> string) : rss.Collaborators :=
  {| rss.sha256_hex := sha256_hex;
     rss.formatMessage := format.format_go.formatMessage |}.

(* ===================================================================== *)
(** * Bytes and bit arithmetic *)
(* ===================================================================== *)

Lemma byte_to_Z_range (c : ascii) : 0 <= byte_to_Z c < 256.
Proof.
  unfold byte_to_Z. pose proof (N_ascii_bounded c) as H. lia.
Qed.

Lemma land_255 (z : Z) : Z.land z 255 = z mod 256.
Proof. change 255 with (Z.ones 8). rewrite Z.land_ones by lia. reflexivity. Qed.

Lemma land_63 (z : Z) : Z.land z 63 = z mod 64.
Proof. change 63 with (Z.ones 6). rewrite Z.land_ones by lia. reflexivity. Qed.

Lemma Z_to_byte_to_Z (c : ascii) : Z_to_byte (byte_to_Z c) = c.
Proof.
  unfold Z_to_byte. rewrite land_255.
  pose proof (byte_to_Z_range c) as H.
  rewrite Z.mod_small by lia. unfold byte_to_Z.
  rewrite N2Z.id. apply ascii_N_embedding.
Qed.

Lemma byte_to_Z_to_byte (z : Z) : byte_to_Z (Z_to_byte z) = z mod 256.
Proof.
  unfold Z_to_byte, byte_to_Z. rewrite land_255.
  assert (0 <= z mod 256 < 256) as H by (apply Z.mod_pos_bound; lia).
  rewrite N_ascii_embedding by lia. rewrite Z2N.id by lia. reflexivity.
Qed.

Lemma Z_to_byte_mod (z : Z) : Z_to_byte (z mod 256) = Z_to_byte z.
Proof.
  unfold Z_to_byte. rewrite !land_255. rewrite Z.mod_mod by lia. reflexivity.
Qed.

(** Below [2 ^ n] a value has no bit at or above position [n], so [lor]
    with a value shifted by [n] is a sum. *)
Lemma lor_shiftl_add (a b n : Z) :
  0 <= n -> 0 <= b < 2 ^ n -> Z.lor (Z.shiftl a n) b = a * 2 ^ n + b.
Proof.
  intros Hn Hb.
  assert (Z.land (Z.shiftl a n) b = 0) as Hdisj.
  { apply Z.bits_inj'. intros i Hi. rewrite Z.land_spec, Z.bits_0.
    destruct (Z.lt_ge_cases i n) as [Hlt | Hge].
    - rewrite Z.shiftl_spec_low by lia. reflexivity.
    - rewrite <- (Z.mod_small b (2 ^ n)) by lia.
      rewrite Z.mod_pow2_bits_high by lia. apply andb_false_r. }
  rewrite <- Z.lxor_lor by exact Hdisj.
  rewrite <- Z.add_nocarry_lxor by exact Hdisj.
  rewrite Z.shiftl_mul_pow2 by lia. reflexivity.
Qed.

Lemma lor_add_shiftl (a b n : Z) :
  0 <= n -> 0 <= b < 2 ^ n -> Z.lor b (Z.shiftl a n) = b + a * 2 ^ n.
Proof. intros. rewrite Z.lor_comm, lor_shiftl_add by lia. lia. Qed.

Lemma lor_low_add (x c n : Z) :
  0 <= n -> 0 <= c < 2 ^ n -> x mod 2 ^ n = 0 -> Z.lor x c = x + c.
Proof.
  intros Hn Hc Hx.
  assert (x = Z.shiftl (x / 2 ^ n) n) as Hsh.
  { rewrite Z.shiftl_mul_pow2 by lia.
    pose proof (Z.div_mod x (2 ^ n)). lia. }
  rewrite Hsh at 1. rewrite lor_shiftl_add by lia.
  pose proof (Z.div_mod x (2 ^ n)). lia.
Qed.

(* ===================================================================== *)
(** * Reference implementations of the collaborators

    A Bloom filter in the manner of the library (k bit positions per
    element, derived from four base hashes, over a bit set), with the
    128-bit hash left as a parameter; insertion sort; stand-ins for the
    content hash and the renderer. They show that the interfaces above can
    be met and give the examples something to run on. *)
(* ===================================================================== *)

Module reference.

Section Bloom.
Variable hash128 : bytes -> Z * Z.
Variable m' : nat.       (* the bit set has [m' + 1] bits *)
Variable k' : nat.       (* [k' + 1] positions per element *)

Definition m : Z := Z.of_nat (Datatypes.S m').
Definition k : nat := Datatypes.S k'.

(** The bytes that hold the bit set. *)
Definition size : nat := Datatypes.S (m' / 8).

(** The hash of the data and of the data followed by the byte 1. *)
Definition baseHashes (data : bytes) : list Z :=
  let (h0, h1) := hash128 data in
  let (h2, h3) := hash128 (data ++ [ascii_of_nat 1]) in
  [h0; h1; h2; h3].

Definition location (h : list Z) (i : Z) : Z :=
  uint64_wrap (nth (Z.to_nat (i mod 2)) h 0
               + i * nth (Z.to_nat (2 + ((i + i mod 2) mod 4) / 2)) h 0).

Definition locations (data : bytes) : list Z :=
  map (fun i => location (baseHashes data) (Z.of_nat i) mod m) (seq 0 k).

(** The bit set is a number: bit [i] of the set is bit [i] of the number. *)
Definition add (f : Z) (data : bytes) : Z := fold_left Z.setbit (locations data) f.
Definition test (f : Z) (data : bytes) : bool := forallb (Z.testbit f) (locations data).

Fixpoint le_bytes (n : nat) (v : Z) : bytes :=
  match n with
  | O => []
  | Datatypes.S n' => Z_to_byte v :: le_bytes n' (Z.shiftr v 8)
  end.

Fixpoint le_value (b : bytes) : Z :=
  match b with
  | [] => 0
  | c :: rest => Z.lor (byte_to_Z c) (Z.shiftl (le_value rest) 8)
  end.

Definition marshal (f : Z) : bytes := le_bytes size f.

Definition unmarshal (b : bytes) : option Z :=
  if (length b =? size)%nat then Some (le_value b) else None.

Lemma locations_range (data : bytes) :
  Forall (fun l => 0 <= l < m) (locations data).
Proof.
  unfold locations. apply Forall_map, Forall_forall. intros i _.
  apply Z.mod_pos_bound. unfold m. lia.
Qed.

Lemma setbits_mono (ls : list Z) (f n : Z) :
  Z.testbit f n = true -> Z.testbit (fold_left Z.setbit ls f) n = true.
Proof.
  revert f. induction ls as [| l ls IH]; intros f H; cbn [fold_left].
  - exact H.
  - apply IH. rewrite Z.setbit_spec', Z.lor_spec, H. reflexivity.
Qed.

Lemma setbits_member (ls : list Z) (f l : Z) :
  In l ls -> 0 <= l -> Z.testbit (fold_left Z.setbit ls f) l = true.
Proof.
  revert f. induction ls as [| x ls IH]; intros f Hin Hl; [destruct Hin |].
  cbn [fold_left]. destruct (Z.eq_dec x l) as [-> | Hne].
  - apply setbits_mono. now apply Z.setbit_eq.
  - destruct Hin as [-> | Hin]; [congruence |]. now apply IH.
Qed.

Lemma test_add (f : Z) (data : bytes) : test (add f data) data = true.
Proof.
  unfold test, add. apply forallb_forall. intros l Hin.
  apply setbits_member; [exact Hin |].
  pose proof (locations_range data) as Hr. rewrite Forall_forall in Hr.
  apply list_elem_of_In, Hr in Hin. lia.
Qed.

Lemma test_add_mono (f : Z) (data data' : bytes) :
  test f data' = true -> test (add f data) data' = true.
Proof.
  unfold test, add. rewrite !forallb_forall. intros H l Hin.
  apply setbits_mono. now apply H.
Qed.

Lemma test_empty (data : bytes) : test 0 data = false.
Proof.
  unfold test, locations, k. cbn [seq map forallb].
  rewrite Z.bits_0. reflexivity.
Qed.

Lemma le_bytes_length (n : nat) (v : Z) : length (le_bytes n v) = n.
Proof. revert v. induction n as [| n IH]; intros v; cbn; [| rewrite IH]; reflexivity. Qed.

Lemma le_value_le_bytes (n : nat) (v : Z) :
  le_value (le_bytes n v) = v mod 2 ^ (8 * Z.of_nat n).
Proof.
  revert v. induction n as [| n IH]; intros v; cbn [le_bytes le_value].
  - cbn. rewrite Z.mod_1_r. reflexivity.
  - rewrite IH, byte_to_Z_to_byte, Z.shiftr_div_pow2 by lia.
    assert (0 < 2 ^ (8 * Z.of_nat n)) as Hpos by (apply Z.pow_pos_nonneg; lia).
    rewrite lor_add_shiftl; [| lia | apply Z.mod_pos_bound; lia].
    replace (2 ^ (8 * Z.of_nat (Datatypes.S n))) with (2 ^ 8 * 2 ^ (8 * Z.of_nat n))
      by (rewrite <- Z.pow_add_r by lia; f_equal; lia).
    rewrite Z.rem_mul_r by lia. change (2 ^ 8) with 256. lia.
Qed.

Lemma size_covers : m <= 8 * Z.of_nat size.
Proof.
  unfold m, size. pose proof (Nat.div_mod_eq m' 8) as Hdiv.
  pose proof (Nat.mod_upper_bound m' 8). lia.
Qed.

Lemma test_mod (f : Z) (data : bytes) :
  test (f mod 2 ^ (8 * Z.of_nat size)) data = test f data.
Proof.
  unfold test. pose proof (locations_range data) as Hr.
  pose proof size_covers as Hsize.
  induction Hr as [| l ls Hl Hr IH]; [reflexivity |].
  cbn [forallb]. rewrite IH. f_equal.
  apply Z.mod_pow2_bits_low. lia.
Qed.

Lemma unmarshal_marshal (f : Z) :
  exists f', unmarshal (marshal f) = Some f' /\
             forall data, test f' data = test f data.
Proof.
  exists (f mod 2 ^ (8 * Z.of_nat size)). unfold unmarshal, marshal. split.
  - rewrite le_bytes_length, Nat.eqb_refl, le_value_le_bytes. reflexivity.
  - apply test_mod.
Qed.

Lemma marshal_nonempty (f : Z) : marshal f <> [].
Proof. unfold marshal, size. cbn [le_bytes]. discriminate. Qed.

(** The filter, for any hash and any geometry. *)
Definition bloom_filter : bloom.Filter :=
  {| bloom.BloomFilter := Z;
     bloom.NewWithEstimates := fun _ _ => 0;
     bloom.Add := add;
     bloom.Test := test;
     bloom.MarshalBinary := marshal;
     bloom.UnmarshalBinary := unmarshal;
     bloom.Test_New := fun _ _ => test_empty;
     bloom.Test_Add := test_add;
     bloom.Test_Add_mono := test_add_mono;
     bloom.Marshal_nonempty := marshal_nonempty;
     bloom.Unmarshal_Marshal := unmarshal_marshal |}.

End Bloom.

(** The lists of [n] elements of [vals]: where the positions of an element
    can lie. *)
Fixpoint vectors (n : nat) (vals : list Z) : list (list Z) :=
  match n with
  | O => [[]]
  | Datatypes.S n' => flat_map (fun v => map (cons v) (vectors n' vals)) vals
  end.

(** FNV-1a over 64 bits, from two offsets, in the place of MurmurHash3. *)
Definition fnv1a (offset : Z) (data : bytes) : Z :=
  fold_left (fun h c => uint64_wrap (Z.lxor h (byte_to_Z c) * 1099511628211))
            data offset.

Definition fnv128 (data : bytes) : Z * Z :=
  (fnv1a 14695981039346656037 data, fnv1a 11400714819323198485 data).

(** A small filter: 32 bits, three positions per element. For the
    constants of the store the library computes 1,437,759 bits and ten
    positions. *)
Definition small_filter : bloom.Filter := bloom_filter fnv128 31 2.

End reference.

Module reference_sort.

Section InsertionSort.
Context {A : Type} (less : A -> A -> bool).

Lemma sift_Permutation (x : A) (l : list A) :
  Permutation (sort.sift less x l) (x :: l).
Proof.
  induction l as [| y l IH]; cbn [sort.sift]; [reflexivity |].
  destruct (less x y); [| reflexivity].
  rewrite IH. apply perm_swap.
Qed.

Lemma insertion_Permutation (l acc : list A) :
  Permutation (fold_left (fun rev_prefix x => sort.sift less x rev_prefix) l acc)
              (l ++ acc).
Proof.
  revert acc. induction l as [| x l IH]; intros acc; cbn [fold_left app].
  - reflexivity.
  - rewrite IH, sift_Permutation. symmetry. apply Permutation_middle.
Qed.

Lemma insertionSort_Permutation (l : list A) :
  Permutation (sort.insertionSort less l) l.
Proof.
  unfold sort.insertionSort. rewrite <- Permutation_rev.
  rewrite insertion_Permutation, app_nil_r. reflexivity.
Qed.

Variable key : A -> Z.
Hypothesis less_key : forall x y, less x y = (key x <? key y).

Let descending (a b : A) : Prop := key b <= key a.
Let ascending (a b : A) : Prop := key a <= key b.

Lemma sift_descending (x : A) (l : list A) :
  StronglySorted descending l -> StronglySorted descending (sort.sift less x l).
Proof.
  induction 1 as [| y l Hl IH Hy]; cbn [sort.sift].
  - repeat constructor.
  - rewrite less_key. destruct (key x <? key y) eqn:Hlt.
    + apply Z.ltb_lt in Hlt. constructor; [exact IH |].
      rewrite sift_Permutation. constructor; [unfold descending; lia | exact Hy].
    + apply Z.ltb_ge in Hlt. constructor.
      * now constructor.
      * constructor; [exact Hlt |].
        eapply Forall_impl; [exact Hy |]. unfold descending. intros a Ha. lia.
Qed.

Lemma insertion_descending (l acc : list A) :
  StronglySorted descending acc ->
  StronglySorted descending
    (fold_left (fun rev_prefix x => sort.sift less x rev_prefix) l acc).
Proof.
  revert acc. induction l as [| x l IH]; intros acc Hacc; cbn [fold_left].
  - exact Hacc.
  - apply IH. now apply sift_descending.
Qed.

Lemma rev_ascending (l : list A) :
  StronglySorted descending l -> StronglySorted ascending (rev l).
Proof.
  induction 1 as [| y l Hl IH Hy]; cbn [rev]; [constructor |].
  assert (Forall (fun a => ascending a y) (rev l)) as Hy'.
  { apply Forall_forall. intros a Ha. apply list_elem_of_In, in_rev in Ha.
    rewrite Forall_forall in Hy. apply Hy. now apply list_elem_of_In. }
  clear Hy Hl. induction IH as [| z l' Hl' IH' Hz]; cbn [app].
  - repeat constructor.
  - apply Forall_cons in Hy' as [Hzy Hy']. constructor.
    + now apply IH'.
    + apply Forall_app. split; [exact Hz | now constructor].
Qed.

Lemma insertionSort_Sorted (l : list A) :
  StronglySorted (fun x y => key x <= key y) (sort.insertionSort less l).
Proof.
  unfold sort.insertionSort. apply rev_ascending, insertion_descending.
  constructor.
Qed.

End InsertionSort.

Definition insertion_sorter : sort.Sorter :=
  {| sort.Slice := @sort.insertionSort;
     sort.Slice_Permutation := @insertionSort_Permutation;
     sort.Slice_Sorted := fun A less key l H => @insertionSort_Sorted A less key H l |}.

End reference_sort.

(* ===================================================================== *)
(** * Example runs *)
(* ===================================================================== *)

Module examples.
Import gofeed config storage.

#[export] Existing Instance reference.small_filter.
#[export] Existing Instance reference_sort.insertion_sorter.

(** The content hash is replaced by the encoding of the content, the
    renderer by one that shows the title, or the link of an item without
    title. *)
#[export] Instance plain : rss.Collaborators :=
  {| rss.sha256_hex := fun data => base64.EncodeToString data;
     rss.formatMessage := fun item _ =>
       if rss.is_empty (Title item) then Link item else Title item |}.

(** A world without failures, with a clock that stands still at [now] and
    a feed that always returns [feed]. *)
Definition quiet (fs : gmap string bytes) (now : Z)
    (feed : result (list Item)) : World :=
  {| files := fs; clock := fun _ => now; fault := fun _ => false;
     rand := fun _ => 0; fetch := fun _ _ => feed; step := 0; trace := [] |}.

(** The same world with a disk, a network and a transport that always
    fail. *)
Definition broken (fs : gmap string bytes) (now : Z)
    (feed : result (list Item)) : World :=
  {| files := fs; clock := fun _ => now; fault := fun _ => true;
     rand := fun _ => 0; fetch := fun _ _ => feed; step := 0; trace := [] |}.

(** 2024-01-01, 2024-01-03, 2024-02-20 and 2024-03-01, 00:00:00 UTC. *)
Definition jan01 : Z := 1704067200 * time.Second.
Definition jan03 : Z := 1704240000 * time.Second.
Definition feb20 : Z := 1708387200 * time.Second.
Definition mar01 : Z := 1709251200 * time.Second.

Definition feed_url : string := "https://example.com/feed".

Definition empty_store : Storage := {| states := ∅; dataDir := "data" |}.

(** The feed of the ordering example: A published on 2024-01-03, B without
    a date, C published on 2024-01-01. *)
Definition item (name : string) (date : option Z) : Item :=
  {| Title := name; Link := ("https://example.com/" ++ name)%string;
     GUID := name; Published := ""; PublishedParsed := date;
     Description := ""; Content := "" |}.

Definition item_A : Item := item "A" (Some jan03).
Definition item_B : Item := item "B" None.
Definition item_C : Item := item "C" (Some jan01).

(** The data directory after a process marked "item-1" for channel "@a" on
    2024-02-20, and after another had marked it for channel "@b" on
    2024-01-01. *)
Definition disk_a : gmap string bytes :=
  files (snd (MarkItemSeen empty_store feed_url "example" "@a" "item-1"
                (quiet ∅ feb20 (inl [])))).

Definition disk_ab : gmap string bytes :=
  files (snd (MarkItemSeen empty_store feed_url "example" "@b" "item-1"
                (quiet disk_a jan01 (inl [])))).

(** The store of a process started on 2024-03-01 on [disk_a], and of one
    started on [disk_ab], should startup succeed. *)
Definition started (disk : gmap string bytes) : result Storage :=
  fst (NewStorage "data" (quiet disk mar01 (inl []))).

Definition store_of (r : result Storage) : Storage :=
  match r with inl s => s | inr _ => empty_store end.

Definition store_a : Storage := store_of (started disk_a).
Definition store_ab : Storage := store_of (started disk_ab).

(** An item with neither title nor link, identified by its GUID. *)
Definition untitled : Item :=
  {| Title := ""; Link := ""; GUID := "g1"; Published := "";
     PublishedParsed := None; Description := "a note"; Content := "" |}.

(** A feed for channel "@a" that opts out of pushing on first sight and
    configures no expiration. *)
Definition quiet_feed : FeedConfig :=
  {| Name := "example"; URL := feed_url;
     ArticleExpirationDurationHours := None; FirstPush := false;
     Channels := ["@a"%string]; Template := "" |}.

(** The same feed with [first_push] set. *)
Definition eager_feed : FeedConfig :=
  {| Name := "example"; URL := feed_url;
     ArticleExpirationDurationHours := None; FirstPush := true;
     Channels := ["@a"%string]; Template := "" |}.



(** A configuration with the one feed above. *)
Definition telegram : TelegramConfig := {| BotToken := "token"; CheckInterval := 300 |}.

Definition one_feed : Config := {| Telegram := telegram; Feeds := [eager_feed] |}.

(** Two feeds with different names for which the text [name|url] is the
    same, ["a|b|c"]. *)
Definition feed_named (name url : string) : FeedConfig :=
  {| Name := name; URL := url; ArticleExpirationDurationHours := None;
     FirstPush := false; Channels := ["@a"%string]; Template := "" |}.

Definition ambiguous : Config :=
  {| Telegram := telegram; Feeds := [feed_named "a" "b|c"; feed_named "a|b" "c"] |}.

(** An engine for the examples: a pattern is read as plain text and
    matches wherever that text occurs; it has no groups, and the empty
    pattern is refused. *)
#[export, refine] Instance literal : regexp.Engine :=
  {| regexp.Regexp := string;
     regexp.Compile := fun pattern =>
       if String.eqb pattern "" then None else Some pattern;
     regexp.FindStringSubmatch := fun re s =>
       if strings.Contains s re then [re] else [];
     regexp.FindAllStringSubmatch := fun re s =>
       repeat [re] (Nat.pred (length (strings.Split s re)));
     regexp.ReplaceAllString := fun re src repl => strings.ReplaceAll src re repl |}.
Proof.
  intros re s m Hin ->. apply repeat_spec in Hin. discriminate Hin.
Defined.

(** The texts of the examples are ASCII: the Unicode-aware trimming is
    never reached. *)
#[export] Instance ascii_only : unicode.Spaces :=
  {| unicode.TrimFunc_IsSpace := fun s => s;
     unicode.TrimRightFunc_IsSpace := fun s => s |}.


(** The feed above for two channels. *)
Definition two_channels : FeedConfig :=
  {| Name := "example"; URL := feed_url;
     ArticleExpirationDurationHours := None; FirstPush := true;
     Channels := ["@a"%string; "@b"%string]; Template := "" |}.

(** A schedule for two goroutines: the dispatch loop starts both, then
    they move in turn. *)
Definition in_turn : list nat := [0; 0; 1; 2; 1; 2; 1; 2; 1; 2]%nat.

(** A schedule in which the first goroutine has marked before the
    dispatch loop comes to the second pair. *)
Definition marked_early : list nat := [0; 1; 1; 1; 1; 0]%nat.

(** Two items without a date; in the filter of the examples the id of the
    first is a false positive for the second. *)
Definition item_2 : Item := item "item-2" None.
Definition item_13 : Item := item "item-13" None.
End examples.

(* ===================================================================== *)
(** * base64: decoding inverts encoding *)
(* ===================================================================== *)

Lemma decodeMap_encode_tab_nat (n : nat) :
  (n < 64)%nat ->
  base64.decodeMap (base64.encode_tab (Z.of_nat n)) = Some (Z.of_nat n).
Proof.
  intros Hn.
  assert (forallb (fun i => bool_decide
            (base64.decodeMap (base64.encode_tab (Z.of_nat i)) = Some (Z.of_nat i)))
            (seq 0 64) = true) as Hall by (vm_compute; reflexivity).
  rewrite forallb_forall in Hall.
  specialize (Hall n). rewrite bool_decide_eq_true in Hall.
  apply Hall. apply in_seq. lia.
Qed.

Lemma decodeMap_encode_tab (v : Z) :
  0 <= v < 64 -> base64.decodeMap (base64.encode_tab v) = Some v.
Proof.
  intros Hv. rewrite <- (Z2Nat.id v) by lia.
  apply decodeMap_encode_tab_nat. lia.
Qed.

Lemma decodeMap_sextet (val shift : Z) :
  base64.decodeMap (base64.sextet val shift)
  = Some (Z.land (Z.shiftr val shift) 63).
Proof.
  unfold base64.sextet. apply decodeMap_encode_tab.
  rewrite land_63. apply Z.mod_pos_bound. lia.
Qed.

Lemma quantum_value (a b c : ascii) :
  base64.quantum a b c
  = byte_to_Z a * 65536 + byte_to_Z b * 256 + byte_to_Z c.
Proof.
  unfold base64.quantum.
  pose proof (byte_to_Z_range a). pose proof (byte_to_Z_range b).
  pose proof (byte_to_Z_range c).
  rewrite !Z.shiftl_mul_pow2 by lia.
  rewrite (lor_low_add (byte_to_Z a * 2 ^ 16) (byte_to_Z b * 2 ^ 8) 16) by
    (try lia; rewrite Z.mod_mul; lia).
  rewrite (lor_low_add _ (byte_to_Z c) 8);
    [ lia | lia | lia | ].
  change (2 ^ 16) with (2 ^ 8 * 2 ^ 8).
  rewrite Z.mul_assoc, <- Z.mul_add_distr_r. apply Z.mod_mul. lia.
Qed.

(** The four sextets of a 24-bit value assemble to the value. *)
Lemma assemble_sextets (val : Z) :
  0 <= val < 2 ^ 24 ->
  base64.assemble
    [Z.land (Z.shiftr val 18) 63; Z.land (Z.shiftr val 12) 63;
     Z.land (Z.shiftr val 6) 63; Z.land (Z.shiftr val 0) 63] = val.
Proof.
  intros Hval. unfold base64.assemble. cbn [nth].
  rewrite !land_63, !Z.shiftr_div_pow2, !Z.shiftl_mul_pow2 by lia.
  set (s0 := (val / 2 ^ 18) mod 64). set (s1 := (val / 2 ^ 12) mod 64).
  set (s2 := (val / 2 ^ 6) mod 64). set (s3 := (val / 2 ^ 0) mod 64).
  assert (0 <= s0 < 64 /\ 0 <= s1 < 64 /\ 0 <= s2 < 64 /\ 0 <= s3 < 64)
    as (H0 & H1 & H2 & H3)
    by (repeat split; try apply Z.mod_pos_bound; try lia;
        apply Z.mod_pos_bound; lia).
  rewrite (lor_low_add (s0 * 2 ^ 18) (s1 * 2 ^ 12) 18) by
    (try lia; change (2 ^ 18) with (2 ^ 18); rewrite Z.mod_mul; lia).
  rewrite (lor_low_add _ (s2 * 2 ^ 6) 12);
    [ | lia | lia | change (2 ^ 18) with (2 ^ 6 * 2 ^ 12);
                    rewrite Z.mul_assoc, <- Z.mul_add_distr_r;
                    apply Z.mod_mul; lia ].
  rewrite (lor_low_add _ s3 6);
    [ | lia | lia | change (2 ^ 18) with (2 ^ 12 * 2 ^ 6);
                    change (2 ^ 12) with (2 ^ 6 * 2 ^ 6);
                    rewrite !Z.mul_assoc, <- !Z.mul_add_distr_r;
                    apply Z.mod_mul; lia ].
  subst s0 s1 s2 s3. 
  change (2 ^ 18) with 262144. change (2 ^ 12) with 4096.
  change (2 ^ 6) with 64. change (2 ^ 0) with 1.
  change (2 ^ 24) with 16777216 in Hval.
  Z.to_euclidean_division_equations. lia.
Qed.

Lemma quantum_range (a b c : ascii) : 0 <= base64.quantum a b c < 2 ^ 24.
Proof.
  rewrite quantum_value.
  pose proof (byte_to_Z_range a). pose proof (byte_to_Z_range b).
  pose proof (byte_to_Z_range c). lia.
Qed.

Lemma emit_quantum (a b c : ascii) :
  let val := base64.quantum a b c in
  base64.emit
    [Z.land (Z.shiftr val 18) 63; Z.land (Z.shiftr val 12) 63;
     Z.land (Z.shiftr val 6) 63; Z.land (Z.shiftr val 0) 63] = [a; b; c].
Proof.
  intros val. unfold base64.emit.
  rewrite assemble_sextets by apply quantum_range.
  cbn [length Nat.pred firstn]. subst val. rewrite quantum_value.
  pose proof (byte_to_Z_range a). pose proof (byte_to_Z_range b).
  pose proof (byte_to_Z_range c).
  rewrite !Z.shiftr_div_pow2 by lia.
  change (2 ^ 16) with 65536. change (2 ^ 8) with 256. change (2 ^ 0) with 1.
  set (v := byte_to_Z a * 65536 + byte_to_Z b * 256 + byte_to_Z c).
  assert ((v / 65536) mod 256 = byte_to_Z a) as Ha
    by (subst v; Z.to_euclidean_division_equations; lia).
  assert ((v / 256) mod 256 = byte_to_Z b) as Hb
    by (subst v; Z.to_euclidean_division_equations; lia).
  assert ((v / 1) mod 256 = byte_to_Z c) as Hc
    by (subst v; Z.to_euclidean_division_equations; lia).
  rewrite <- (Z_to_byte_mod (v / 65536)), <- (Z_to_byte_mod (v / 256)),
          <- (Z_to_byte_mod (v / 1)), Ha, Hb, Hc, !Z_to_byte_to_Z.
  reflexivity.
Qed.

Lemma emit_two (a b : ascii) :
  let val := Z.lor (Z.shiftl (byte_to_Z a) 16) (Z.shiftl (byte_to_Z b) 8) in
  base64.emit
    [Z.land (Z.shiftr val 18) 63; Z.land (Z.shiftr val 12) 63;
     Z.land (Z.shiftr val 6) 63] = [a; b].
Proof.
  intros val.
  assert (val = base64.quantum a b zero) as Hval.
  { unfold base64.quantum. change (byte_to_Z zero) with 0.
    rewrite Z.lor_0_r. reflexivity. }
  pose proof (emit_quantum a b zero) as H. cbv zeta in H.
  rewrite <- Hval in H.
  unfold base64.emit in *. cbn [length Nat.pred firstn] in *.
  assert (Z.land (Z.shiftr val 0) 63 = 0) as Hlow.
  { rewrite land_63, Z.shiftr_0_r, Hval, quantum_value.
    change (byte_to_Z zero) with 0.
    Z.to_euclidean_division_equations. lia. }
  unfold base64.assemble in *. cbn [nth] in *. rewrite Hlow in H.
  inversion H as [[Ha Hb Hc]]. rewrite Ha, Hb. reflexivity.
Qed.

Lemma emit_one (a : ascii) :
  let val := Z.shiftl (byte_to_Z a) 16 in
  base64.emit
    [Z.land (Z.shiftr val 18) 63; Z.land (Z.shiftr val 12) 63] = [a].
Proof.
  intros val.
  assert (val = base64.quantum a zero zero) as Hval.
  { unfold base64.quantum. change (byte_to_Z zero) with 0.
    rewrite Z.shiftl_0_l, !Z.lor_0_r. reflexivity. }
  pose proof (emit_quantum a zero zero) as H. cbv zeta in H.
  rewrite <- Hval in H.
  unfold base64.emit in *. cbn [length Nat.pred firstn] in *.
  assert (Z.land (Z.shiftr val 0) 63 = 0 /\ Z.land (Z.shiftr val 6) 63 = 0)
    as [Hlow Hlow'].
  { rewrite !land_63, !Z.shiftr_div_pow2, Hval, quantum_value by lia.
    change (byte_to_Z zero) with 0. pose proof (byte_to_Z_range a).
    change (2 ^ 0) with 1. change (2 ^ 6) with 64.
    split; Z.to_euclidean_division_equations; lia. }
  unfold base64.assemble in *. cbn [nth] in *. rewrite Hlow, Hlow' in H.
  inversion H as [[Ha Hb Hc]]. rewrite Ha. reflexivity.
Qed.

Lemma decode_from_pad (dbuf : list Z) (rest : bytes) :
  base64.decode_from (base64.padChar :: rest) dbuf
  = if base64.after_padding (length dbuf) rest
    then Some (base64.emit dbuf) else None.
Proof. reflexivity. Qed.

Lemma decode_from_sextet (val shift : Z) (rest : bytes) (dbuf : list Z) :
  base64.decode_from (base64.sextet val shift :: rest) dbuf
  = let dbuf' := dbuf ++ [Z.land (Z.shiftr val shift) 63] in
    if (length dbuf' =? 4)%nat
    then option_map (app (base64.emit dbuf')) (base64.decode_from rest [])
    else base64.decode_from rest dbuf'.
Proof.
  cbn [base64.decode_from]. rewrite decodeMap_sextet. reflexivity.
Qed.

(** [base64.URLEncoding.Decode] inverts [Encode]. *)
Lemma Decode_Encode (src : bytes) :
  base64.Decode (base64.Encode src) = Some src.
Proof.
  unfold base64.Decode.
  induction src as [src IH] using (induction_ltof1 _ (@length ascii)).
  unfold ltof in IH.
  destruct src as [| a [| b [| c rest]]].
  - reflexivity.
  - cbn [base64.Encode].
    rewrite !decode_from_sextet. cbv zeta. cbn [app length Nat.eqb].
    rewrite decode_from_sextet. cbv zeta. cbn [app length Nat.eqb].
    rewrite decode_from_pad. cbn [length].
    change (base64.after_padding 2 [base64.padChar]) with true.
    cbv iota. rewrite emit_one. reflexivity.
  - cbn [base64.Encode].
    rewrite decode_from_sextet. cbv zeta. cbn [app length Nat.eqb].
    rewrite decode_from_sextet. cbv zeta. cbn [app length Nat.eqb].
    rewrite decode_from_sextet. cbv zeta. cbn [app length Nat.eqb].
    rewrite decode_from_pad. cbn [length].
    change (base64.after_padding 3 []) with true.
    cbv iota. rewrite emit_two. reflexivity.
  - cbn [base64.Encode].
    rewrite decode_from_sextet. cbv zeta. cbn [app length Nat.eqb].
    rewrite decode_from_sextet. cbv zeta. cbn [app length Nat.eqb].
    rewrite decode_from_sextet. cbv zeta. cbn [app length Nat.eqb].
    rewrite decode_from_sextet. cbv zeta. cbn [app length Nat.eqb].
    rewrite IH by (cbn [length]; lia).
    cbn [option_map]. rewrite emit_quantum. reflexivity.
Qed.

Lemma DecodeString_EncodeToString (src : bytes) :
  base64.DecodeString (base64.EncodeToString src) = Some src.
Proof.
  unfold base64.DecodeString, base64.EncodeToString.
  rewrite list_ascii_of_string_of_list_ascii. apply Decode_Encode.
Qed.

(* ===================================================================== *)
(** * Strings: suffixes and splitting *)
(* ===================================================================== *)

Lemma list_ascii_of_string_app (a b : string) :
  list_ascii_of_string (a ++ b)
  = list_ascii_of_string a ++ list_ascii_of_string b.
Proof.
  induction a as [| c a IH]; simpl; [reflexivity | f_equal; exact IH].
Qed.

Lemma HasSuffix_app (s suffix : string) :
  strings.HasSuffix (s ++ suffix) suffix = true.
Proof.
  unfold strings.HasSuffix. cbv zeta.
  rewrite list_ascii_of_string_app, length_app.
  apply andb_true_intro. split.
  - apply Nat.leb_le. lia.
  - apply bool_decide_eq_true.
    replace (length (list_ascii_of_string s) + length (list_ascii_of_string suffix)
             - length (list_ascii_of_string suffix))%nat
      with (length (list_ascii_of_string s) + 0)%nat by lia.
    rewrite skipn_app, Nat.add_0_r, skipn_all.
    replace (_ - _)%nat with 0%nat by lia. reflexivity.
Qed.

Lemma TrimSuffix_app (s suffix : string) :
  strings.TrimSuffix (s ++ suffix) suffix = s.
Proof.
  unfold strings.TrimSuffix. rewrite HasSuffix_app.
  rewrite list_ascii_of_string_app, length_app.
  replace (_ + _ - _)%nat with (length (list_ascii_of_string s)) by lia.
  rewrite firstn_app, firstn_all, Nat.sub_diag. cbn [firstn].
  rewrite app_nil_r. apply string_of_list_ascii_of_string.
Qed.

(** A string without the first byte of a suffix does not end in it. *)
Lemma TrimSuffix_absent (s : string) (c : ascii) (suffix : string) :
  ~ In c (list_ascii_of_string s) ->
  strings.TrimSuffix s (String c suffix) = s.
Proof.
  intros Hnot. unfold strings.TrimSuffix.
  destruct (strings.HasSuffix s (String c suffix)) eqn:Hsuf; [| reflexivity].
  exfalso. apply Hnot.
  unfold strings.HasSuffix in Hsuf. cbv zeta in Hsuf.
  apply andb_true_iff in Hsuf as [_ Heq].
  apply bool_decide_eq_true in Heq.
  rewrite <- (firstn_skipn
    (length (list_ascii_of_string s)
     - length (list_ascii_of_string (String c suffix)))
    (list_ascii_of_string s)).
  rewrite Heq. apply in_or_app. right. cbn. left. reflexivity.
Qed.

Lemma cut_app (sep : ascii) (before after : bytes) :
  ~ In sep before ->
  strings.cut sep (before ++ sep :: after) = Some (before, after).
Proof.
  induction before as [| c before IH]; intros Hnot; cbn [app strings.cut].
  - rewrite Ascii.eqb_refl. reflexivity.
  - destruct (Ascii.eqb c sep) eqn:Hc.
    + apply Ascii.eqb_eq in Hc. subst. exfalso. apply Hnot. now left.
    + rewrite IH; [reflexivity |]. intros Hin. apply Hnot. now right.
Qed.

(** [cut] finds the first separator: what comes before it has none. *)
Lemma cut_Some (sep : ascii) (s before after : bytes) :
  strings.cut sep s = Some (before, after) ->
  s = before ++ sep :: after /\ ~ In sep before.
Proof.
  revert before. induction s as [| c s IH]; intros before H; cbn in H.
  - discriminate.
  - destruct (Ascii.eqb c sep) eqn:Hc.
    + apply Ascii.eqb_eq in Hc. inversion H; subst. split; [reflexivity | intros []].
    + destruct (strings.cut sep s) as [[b a] |] eqn:Hcut; [| discriminate].
      inversion H; subst. destruct (IH b eq_refl) as [-> Hnot].
      split; [reflexivity |]. intros [-> | Hin]; [| now apply Hnot].
      rewrite Ascii.eqb_refl in Hc. discriminate.
Qed.

Lemma SplitN2_join (channel feedURL : string) :
  ~ In "|"%char (list_ascii_of_string channel) ->
  strings.SplitN2 (channel ++ "|" ++ feedURL) "|" = [channel; feedURL].
Proof.
  intros Hnot. unfold strings.SplitN2.
  rewrite list_ascii_of_string_app.
  change (list_ascii_of_string ("|" ++ feedURL))
    with ("|"%char :: list_ascii_of_string feedURL).
  rewrite cut_app by exact Hnot.
  rewrite !string_of_list_ascii_of_string. reflexivity.
Qed.

(** No byte of an encoding is a dot. *)
Lemma encode_tab_not_dot (v : Z) :
  0 <= v < 64 -> base64.encode_tab v <> "."%char.
Proof.
  intros Hv Heq. pose proof (decodeMap_encode_tab v Hv) as H.
  rewrite Heq in H. discriminate H.
Qed.

Lemma sextet_not_dot (val shift : Z) : base64.sextet val shift <> "."%char.
Proof.
  apply encode_tab_not_dot. rewrite land_63. apply Z.mod_pos_bound. lia.
Qed.

Lemma Encode_no_dot (src : bytes) : ~ In "."%char (base64.Encode src).
Proof.
  induction src as [src IH] using (induction_ltof1 _ (@length ascii)).
  unfold ltof in IH.
  destruct src as [| a [| b [| c rest]]]; cbn [base64.Encode In].
  - tauto.
  - intros [H | [H | [H | [H | []]]]];
      try (now apply sextet_not_dot in H); discriminate H.
  - intros [H | [H | [H | [H | []]]]];
      try (now apply sextet_not_dot in H); discriminate H.
  - intros [H | [H | [H | [H | H]]]];
      try (now apply sextet_not_dot in H).
    revert H. apply IH. cbn [length]. lia.
Qed.

(* ===================================================================== *)
(** * The store *)
(* ===================================================================== *)

Section StoreProofs.
Context {F : bloom.Filter}.
Import storage.

Lemma string_app_length (a b : string) :
  String.length (a ++ b) = (String.length a + String.length b)%nat.
Proof. induction a as [| c a IH]; simpl; [reflexivity | now rewrite IH]. Qed.

Lemma temp_path_fresh (p : string) : (p ++ ".tmp")%string <> p.
Proof.
  intros H. apply (f_equal String.length) in H.
  rewrite string_app_length in H. cbn in H. lia.
Qed.

(** What [saveChannelState] leaves on disk: on success the bucket file
    holds the timestamp read from the clock followed by the marshalled
    filter; on failure the bucket file is as it was. Files other than the
    bucket file and its temporary sibling are never touched. *)
Lemma saveChannelState_spec (s : Storage) (feedURL channel : string)
    (state : ChannelState) (w : World) :
  let path := GetBloomFilePath s feedURL channel in
  let r := saveChannelState s feedURL channel state w in
  (forall name, name <> path -> name <> (path ++ ".tmp")%string ->
                files (snd r) !! name = files w !! name) /\
  clock (snd r) = clock w /\ fault (snd r) = fault w /\
  (step w <= step (snd r))%nat /\ trace (snd r) = trace w /\
  match fst r with
  | inl _ =>
      files (snd r) !! path
      = Some (binary.PutUint64
                (uint64_wrap (time.UnixNano (clock w (Datatypes.S (step w)))))
              ++ bloom.MarshalBinary (filter state))
  | inr _ => files (snd r) !! path = files w !! path
  end.
Proof.
  intros path r. subst r.
  pose proof (temp_path_fresh path) as Htmp.
  unfold saveChannelState. fold path.
  unfold os.OpenFile_TRUNC, os.Write, os.Sync, os.Close, os.Rename, time.Now,
    failing, bind, ret.
  repeat (cbn [fst snd files clock fault step trace tick with_files];
          match goal with
          | |- context [fault w ?n] => destruct (fault w n) eqn:?
          end).
  all: rewrite ?lookup_insert_eq; cbn [default fst snd files clock fault step
                                          trace tick with_files app].
  all: repeat split; try lia; try reflexivity; intros.
  all: rewrite ?lookup_insert_eq; try reflexivity.
  all: repeat first [ rewrite lookup_insert_ne by congruence
                    | rewrite lookup_delete_ne by congruence ].
  all: try reflexivity.
Qed.

Lemma IsItemSeen_bucket (s : Storage) (feedURL feedName channel itemID : string) :
  IsItemSeen s feedURL feedName channel itemID
  = match bucket s feedURL channel with
    | Some state => bloom.Test (filter state) (list_ascii_of_string itemID)
    | None => false
    end.
Proof.
  unfold IsItemSeen, bucket. destruct (states s !! feedURL); reflexivity.
Qed.

Lemma bucket_put_eq (s : Storage) (feedURL channel : string) (state : ChannelState) :
  bucket (put s feedURL channel state) feedURL channel = Some state.
Proof.
  unfold bucket, put. cbn. rewrite lookup_insert_eq. apply lookup_insert_eq.
Qed.

Lemma bucket_put_ne (s : Storage) (feedURL channel feedURL' channel' : string)
    (state : ChannelState) :
  (feedURL', channel') <> (feedURL, channel) ->
  bucket (put s feedURL channel state) feedURL' channel' = bucket s feedURL' channel'.
Proof.
  intros Hne. unfold bucket, put. cbn.
  destruct (decide (feedURL = feedURL')) as [-> | Hf].
  - rewrite lookup_insert_eq.
    rewrite lookup_insert_ne by congruence.
    destruct (states s !! feedURL'); [reflexivity | apply lookup_empty].
  - rewrite lookup_insert_ne by exact Hf. reflexivity.
Qed.

(** [MarkItemSeen] unfolded: the state of the bucket before (a fresh one
    if there is none), the new state put in the store, then the save. *)
Lemma MarkItemSeen_eq (s : Storage) (feedURL feedName channel itemID : string)
    (w : World) :
  MarkItemSeen s feedURL feedName channel itemID w
  = let st0w := match bucket s feedURL channel with
                | Some st => (st, w)
                | None => (fresh (clock w (step w)), tick w)
                end in
    let state := {| filter := bloom.Add (filter (fst st0w))
                                        (list_ascii_of_string itemID);
                    updatedAt := clock w (step (snd st0w)) |} in
    let s2 := put s feedURL channel state in
    let rw := saveChannelState s2 feedURL channel state (tick (snd st0w)) in
    ((s2, match fst rw with
          | inr err => inr (Wrapf "error saving channel state" err)
          | inl _ => inl tt
          end), snd rw).
Proof.
  unfold MarkItemSeen, bucket, put.
  destruct (states s !! feedURL) as [channelStates |] eqn:Hfeed.
  - unfold bind, ret, time.Now.
    destruct (channelStates !! channel) as [st |] eqn:Hch; cbn;
      match goal with
      | |- context [saveChannelState ?a ?b ?c ?d ?e] =>
          destruct (saveChannelState a b c d e) as [[u | err] w']
      end; reflexivity.
  - rewrite lookup_empty. unfold bind, ret, time.Now. cbn.
    unfold with_states. cbn. rewrite insert_insert_eq.
    match goal with
    | |- context [saveChannelState ?a ?b ?c ?d ?e] =>
        destruct (saveChannelState a b c d e) as [[u | err] w']
    end; reflexivity.
Qed.

(** The branch of [loadChannelState] for a bucket file within the
    expiration window: the filter read from the file replaces the bucket,
    the other buckets stay. *)
Lemma loadChannelState_fresh_file (s : Storage) (feedURL channel : string)
    (w : World) (content : bytes) (flt : bloom.BloomFilter) :
  files w !! GetBloomFilePath s feedURL channel = Some content ->
  (8 < length content)%nat ->
  fault w (step w) = false ->
  fault w (1 + step w) = false ->
  fault w (2 + step w) = false ->
  fault w (4 + step w) = false ->
  time.Sub (clock w (3 + step w)) (stored_timestamp content)
    <= stateExpirationDuration ->
  bloom.UnmarshalBinary (skipn 8 content) = Some flt ->
  fst (loadChannelState s feedURL channel w)
  = (put s feedURL channel
         {| filter := flt; updatedAt := stored_timestamp content |}, inl tt).
Proof.
  intros Hfile Hlen F0 F1 F2 F4 Hage Hun.
  unfold loadChannelState.
  unfold os.Stat, os.OpenFile_RDONLY, os.ReadFull, time.Since, time.Now,
    failing, bind, ret.
  cbn [fst snd files clock fault step trace tick with_files].
  rewrite F0, Hfile.
  destruct (Z.of_nat (length content) <? 8) eqn:Hsz; [lia |].
  cbn [fst snd files clock fault step trace tick with_files Nat.add] in *.
  rewrite F1, Hfile.
  cbn [fst snd files clock fault step trace tick with_files].
  rewrite F2.
  destruct (length content <? 8)%nat eqn:Hsz'; [apply Nat.ltb_lt in Hsz'; lia |].
  cbn [fst snd files clock fault step trace tick with_files].
  fold (stored_timestamp content).
  destruct (_ >? stateExpirationDuration) eqn:Hexp; [lia |].
  destruct (Z.of_nat (length content) - 8 <=? 0) eqn:Hfs; [lia |].
  cbn [fst snd files clock fault step trace tick with_files].
  rewrite F4.
  replace (Z.to_nat (Z.of_nat (length content) - 8))
    with (length (skipn 8 content)) by (rewrite length_skipn; lia).
  rewrite Nat.ltb_irrefl, firstn_all, Hun. cbn [fst].
  unfold put. destruct (states s !! feedURL) eqn:Hfeed; cbn.
  - rewrite Hfeed. reflexivity.
  - rewrite lookup_insert_eq. unfold with_states. cbn.
    rewrite insert_insert_eq. reflexivity.
Qed.

(** The expiry branch: the whole channel map of the feed is replaced by one
    that holds only the fresh bucket. *)
Lemma loadChannelState_expired (s : Storage) (feedURL channel : string)
    (w : World) (content : bytes) :
  files w !! GetBloomFilePath s feedURL channel = Some content ->
  (8 <= length content)%nat ->
  fault w (step w) = false ->
  fault w (1 + step w) = false ->
  fault w (2 + step w) = false ->
  time.Sub (clock w (3 + step w)) (stored_timestamp content)
    > stateExpirationDuration ->
  fst (loadChannelState s feedURL channel w)
  = (with_states (<[feedURL := {[channel := fresh (clock w (4 + step w))]}]>
                    (states s)) s, inl tt).
Proof.
  intros Hfile Hlen F0 F1 F2 Hage.
  unfold loadChannelState.
  unfold reset_feed, os.Stat, os.OpenFile_RDONLY, os.ReadFull, time.Since,
    time.Now, failing, bind, ret.
  cbn [fst snd files clock fault step trace tick with_files].
  rewrite F0, Hfile.
  destruct (Z.of_nat (length content) <? 8) eqn:Hsz; [lia |].
  cbn [fst snd files clock fault step trace tick with_files Nat.add] in *.
  rewrite F1, Hfile.
  cbn [fst snd files clock fault step trace tick with_files].
  rewrite F2.
  destruct (length content <? 8)%nat eqn:Hsz'; [apply Nat.ltb_lt in Hsz'; lia |].
  cbn [fst snd files clock fault step trace tick with_files].
  fold (stored_timestamp content).
  destruct (_ >? stateExpirationDuration) eqn:Hexp; [| lia].
  cbn. rewrite lookup_insert_eq. cbn. unfold with_states. cbn.
  rewrite insert_insert_eq. reflexivity.
Qed.
End StoreProofs.

(* ===================================================================== *)
(** * The timestamp of a bucket file *)
(* ===================================================================== *)

Lemma Uint64_PutUint64 (v : Z) :
  binary.Uint64 (binary.PutUint64 v) = v mod 2 ^ 64.
Proof.
  unfold binary.Uint64, binary.PutUint64.
  rewrite !byte_to_Z_to_byte, !Z.shiftr_div_pow2 by lia.
  set (b0 := v mod 256). set (b1 := (v / 2 ^ 8) mod 256).
  set (b2 := (v / 2 ^ 16) mod 256). set (b3 := (v / 2 ^ 24) mod 256).
  set (b4 := (v / 2 ^ 32) mod 256). set (b5 := (v / 2 ^ 40) mod 256).
  set (b6 := (v / 2 ^ 48) mod 256). set (b7 := (v / 2 ^ 56) mod 256).
  assert (0 <= b0 < 256) by (apply Z.mod_pos_bound; lia).
  assert (0 <= b1 < 256) by (apply Z.mod_pos_bound; lia).
  assert (0 <= b2 < 256) by (apply Z.mod_pos_bound; lia).
  assert (0 <= b3 < 256) by (apply Z.mod_pos_bound; lia).
  assert (0 <= b4 < 256) by (apply Z.mod_pos_bound; lia).
  assert (0 <= b5 < 256) by (apply Z.mod_pos_bound; lia).
  assert (0 <= b6 < 256) by (apply Z.mod_pos_bound; lia).
  assert (0 <= b7 < 256) by (apply Z.mod_pos_bound; lia).
  rewrite (lor_add_shiftl b1 b0 8) by lia.
  rewrite (lor_add_shiftl b2 _ 16) by lia.
  rewrite (lor_add_shiftl b3 _ 24) by lia.
  rewrite (lor_add_shiftl b4 _ 32) by lia.
  rewrite (lor_add_shiftl b5 _ 40) by lia.
  rewrite (lor_add_shiftl b6 _ 48) by lia.
  rewrite (lor_add_shiftl b7 _ 56) by lia.
  subst b0 b1 b2 b3 b4 b5 b6 b7.
  change (2 ^ 8) with 256. change (2 ^ 16) with 65536.
  change (2 ^ 24) with 16777216. change (2 ^ 32) with 4294967296.
  change (2 ^ 40) with 1099511627776. change (2 ^ 48) with 281474976710656.
  change (2 ^ 56) with 72057594037927936.
  change (2 ^ 64) with 18446744073709551616.
  Z.to_euclidean_division_equations. lia.
Qed.

Lemma int64_wrap_uint64_wrap (x : Z) : int64_wrap (uint64_wrap x) = int64_wrap x.
Proof.
  unfold int64_wrap, uint64_wrap.
  rewrite Zplus_mod_idemp_l. reflexivity.
Qed.

Lemma int64_wrap_idem (x : Z) : int64_wrap (int64_wrap x) = int64_wrap x.
Proof.
  unfold int64_wrap.
  replace ((x + 2 ^ 63) mod 2 ^ 64 - 2 ^ 63 + 2 ^ 63)
    with ((x + 2 ^ 63) mod 2 ^ 64) by lia.
  rewrite Z.mod_mod by lia. reflexivity.
Qed.

(** The timestamp read back from a bucket file is the one written. *)
Lemma stored_timestamp_written (t : Z) (data : bytes) :
  storage.stored_timestamp
    (binary.PutUint64 (uint64_wrap (time.UnixNano t)) ++ data)
  = time.UnixNano t.
Proof.
  unfold storage.stored_timestamp, time.Unix0, time.UnixNano.
  change (firstn 8 (binary.PutUint64 ?v ++ data)) with (binary.PutUint64 v).
  rewrite Uint64_PutUint64.
  change (?x mod 2 ^ 64) with (uint64_wrap x).
  rewrite !int64_wrap_uint64_wrap. apply int64_wrap_idem.
Qed.

(* ===================================================================== *)
(** * The store: marking, persistence and reload *)
(* ===================================================================== *)

Section StoreClaims.
Context {F : bloom.Filter}.
Import storage.

Lemma MarkItemSeen_bucket (s : Storage) (feedURL feedName channel itemID : string)
    (w : World) :
  let s' := fst (fst (MarkItemSeen s feedURL feedName channel itemID w)) in
  exists st0 n,
    (bucket s feedURL channel = Some st0 \/
     bucket s feedURL channel = None /\
     filter st0 = bloom.NewWithEstimates expectedItems falsePositive) /\
    (step w <= n < step (snd (MarkItemSeen s feedURL feedName channel itemID w)))%nat /\
    s' = put s feedURL channel
           {| filter := bloom.Add (filter st0) (list_ascii_of_string itemID);
              updatedAt := clock w n |}.
Proof.
  intros s'. subst s'. rewrite MarkItemSeen_eq.
  destruct (bucket s feedURL channel) as [st |] eqn:Hb; cbv zeta; cbn [fst snd].
  - exists st, (step w). split; [now left |]. split; [| reflexivity].
    pose proof (saveChannelState_spec
      (put s feedURL channel
         {| filter := bloom.Add (filter st) (list_ascii_of_string itemID);
            updatedAt := clock w (step w) |})
      feedURL channel
      {| filter := bloom.Add (filter st) (list_ascii_of_string itemID);
         updatedAt := clock w (step w) |} (tick w)) as Hs.
    cbv zeta in Hs. destruct Hs as (_ & _ & _ & Hstep & _). cbn in Hstep.
    split; [lia | exact Hstep].
  - exists (fresh (clock w (step w))), (Datatypes.S (step w)).
    split; [right; split; reflexivity |]. split; [| reflexivity].
    pose proof (saveChannelState_spec
      (put s feedURL channel
         {| filter := bloom.Add (filter (fresh (clock w (step w))))
                                (list_ascii_of_string itemID);
            updatedAt := clock w (Datatypes.S (step w)) |})
      feedURL channel
      {| filter := bloom.Add (filter (fresh (clock w (step w))))
                             (list_ascii_of_string itemID);
         updatedAt := clock w (Datatypes.S (step w)) |} (tick (tick w))) as Hs.
    cbv zeta in Hs. destruct Hs as (_ & _ & _ & Hstep & _). cbn in Hstep.
    cbn [tick step]. split; [lia | exact Hstep].
Qed.

Lemma MarkItemSeen_seen (s : Storage) (feedURL feedName channel itemID : string)
    (w : World) :
  IsItemSeen (fst (fst (MarkItemSeen s feedURL feedName channel itemID w)))
             feedURL feedName channel itemID = true.
Proof.
  destruct (MarkItemSeen_bucket s feedURL feedName channel itemID w)
    as (st0 & n & _ & _ & ->).
  rewrite IsItemSeen_bucket, bucket_put_eq. apply bloom.Test_Add.
Qed.

(** A mark never makes a seen id unseen, whatever the pair marked. *)
Lemma MarkItemSeen_mono (s : Storage) (feedURL feedName channel itemID : string)
    (w : World) (feedURL' feedName' channel' itemID' : string) :
  IsItemSeen s feedURL' feedName' channel' itemID' = true ->
  IsItemSeen (fst (fst (MarkItemSeen s feedURL feedName channel itemID w)))
             feedURL' feedName' channel' itemID' = true.
Proof.
  intros Hseen.
  destruct (MarkItemSeen_bucket s feedURL feedName channel itemID w)
    as (st0 & n & Hst0 & _ & ->).
  rewrite IsItemSeen_bucket in *.
  destruct (decide ((feedURL', channel') = (feedURL, channel))) as [Heq | Hne].
  - inversion Heq; subst. rewrite bucket_put_eq. cbn.
    destruct Hst0 as [Hb | [Hb _]]; rewrite Hb in Hseen; [| discriminate].
    now apply bloom.Test_Add_mono.
  - rewrite bucket_put_ne by exact Hne. exact Hseen.
Qed.

(** A mark leaves the buckets of the other pairs as they are. *)
Lemma MarkItemSeen_frame (s : Storage) (feedURL feedName channel itemID : string)
    (w : World) (feedURL' channel' : string) :
  (feedURL', channel') <> (feedURL, channel) ->
  bucket (fst (fst (MarkItemSeen s feedURL feedName channel itemID w)))
         feedURL' channel' = bucket s feedURL' channel'.
Proof.
  intros Hne.
  destruct (MarkItemSeen_bucket s feedURL feedName channel itemID w)
    as (st0 & n & _ & _ & ->).
  now apply bucket_put_ne.
Qed.

Lemma evolves_seen (P : string -> string -> Prop) (s s' : Storage)
    (feedURL feedName channel itemID : string) :
  evolves P s s' ->
  IsItemSeen s feedURL feedName channel itemID = true ->
  IsItemSeen s' feedURL feedName channel itemID = true.
Proof.
  induction 1 as [s | s s' f n c id w HP Hev IH]; intros Hseen.
  - exact Hseen.
  - apply IH. now apply MarkItemSeen_mono.
Qed.

Lemma evolves_frame (feedURL channel : string) (s s' : Storage) :
  evolves (fun f c => (feedURL, channel) <> (f, c)) s s' ->
  bucket s' feedURL channel = bucket s feedURL channel.
Proof.
  induction 1 as [s | s s' f n c id w HP Hev IH].
  - reflexivity.
  - rewrite IH. now apply MarkItemSeen_frame.
Qed.


(** C10. [MarkItemSeen] is not atomic with respect to a persistence
    failure. When it returns an error, the error is the one
    [saveChannelState] returned (wrapped), the id is already in the
    bucket's filter, so that [IsItemSeen] answers true from then on,
    [updatedAt] holds a clock reading taken during the call, and the bucket
    file on disk is the one from before the call. *)
Theorem MarkItemSeen_not_atomic (s : Storage)
    (feedURL feedName channel itemID : string) (w : World) (err : error) :
  snd (fst (MarkItemSeen s feedURL feedName channel itemID w)) = inr err ->
  let s' := fst (fst (MarkItemSeen s feedURL feedName channel itemID w)) in
  let w' := snd (MarkItemSeen s feedURL feedName channel itemID w) in
  (exists state w0 cause,
     saveChannelState s' feedURL channel state w0 = (inr cause, w') /\
     err = Wrapf "error saving channel state" cause) /\
  IsItemSeen s' feedURL feedName channel itemID = true /\
  (forall s'', evolves (fun _ _ => True) s' s'' ->
               IsItemSeen s'' feedURL feedName channel itemID = true) /\
  (exists n, (step w <= n < step w')%nat /\
             GetLastUpdated s' feedURL channel = Some (clock w n)) /\
  files w' !! GetBloomFilePath s' feedURL channel
  = files w !! GetBloomFilePath s feedURL channel.
Proof.
  intros Herr s' w'.
  assert (IsItemSeen s' feedURL feedName channel itemID = true) as Hseen
    by apply MarkItemSeen_seen.
  split; [| split; [exact Hseen | split; [| split]]].
  - subst s' w'. revert Herr. rewrite MarkItemSeen_eq. cbv zeta. cbn [fst snd].
    match goal with
    | |- context [saveChannelState ?a ?b ?c ?d ?e] =>
        destruct (saveChannelState a b c d e) as [[u | cause] w1] eqn:Hsave;
        cbn [fst snd]; intros Herr; [discriminate |];
        exists d, e, cause
    end.
    split; [exact Hsave | congruence].
  - intros s'' Hev. exact (evolves_seen _ s' s'' _ _ _ _ Hev Hseen).
  - destruct (MarkItemSeen_bucket s feedURL feedName channel itemID w)
      as (st0 & n & _ & Hn & Hs').
    exists n. split; [exact Hn |].
    subst s'. rewrite Hs'.
    pose proof (bucket_put_eq s feedURL channel
      {| filter := bloom.Add (filter st0) (list_ascii_of_string itemID);
         updatedAt := clock w n |}) as Hb.
    unfold bucket in Hb. unfold GetLastUpdated.
    destruct (states (put s feedURL channel _) !! feedURL); [| discriminate].
    rewrite Hb. reflexivity.
  - subst s' w'. revert Herr. rewrite MarkItemSeen_eq. cbv zeta. cbn [fst snd].
    match goal with
    | |- context [saveChannelState ?a ?b ?c ?d ?e] =>
        pose proof (saveChannelState_spec a b c d e) as Hspec;
        destruct (saveChannelState a b c d e) as [[u | cause] w1] eqn:Hsave;
        cbn [fst snd]; intros Herr; [discriminate |]
    end.
    cbv zeta in Hspec. cbn [fst snd] in Hspec.
    destruct Hspec as (_ & _ & _ & _ & _ & Hfile).
    rewrite Hfile. destruct (bucket s feedURL channel); reflexivity.
Qed.

(** C2. After a successful [MarkItemSeen] the id is seen in every store the
    process goes through afterwards. The bucket file then holds a snapshot
    from which any store, in any world that still has that file, reloads
    the bucket with the id seen, provided the reads succeed and the stored
    timestamp is within the expiration window at the time of the load. *)
Theorem MarkItemSeen_then_seen (s : Storage)
    (feedURL feedName channel itemID : string) (w : World) :
  snd (fst (MarkItemSeen s feedURL feedName channel itemID w)) = inl tt ->
  let s1 := fst (fst (MarkItemSeen s feedURL feedName channel itemID w)) in
  let w1 := snd (MarkItemSeen s feedURL feedName channel itemID w) in
  (forall s2, evolves (fun _ _ => True) s1 s2 ->
              IsItemSeen s2 feedURL feedName channel itemID = true) /\
  exists content,
    files w1 !! GetBloomFilePath s1 feedURL channel = Some content /\
    (exists n, stored_timestamp content = time.UnixNano (clock w n)) /\
    forall (s0 : Storage) (w2 : World),
      files w2 !! GetBloomFilePath s0 feedURL channel = Some content ->
      fault w2 (step w2) = false ->
      fault w2 (1 + step w2) = false ->
      fault w2 (2 + step w2) = false ->
      fault w2 (4 + step w2) = false ->
      time.Sub (clock w2 (3 + step w2)) (stored_timestamp content)
        <= stateExpirationDuration ->
      snd (fst (loadChannelState s0 feedURL channel w2)) = inl tt /\
      IsItemSeen (fst (fst (loadChannelState s0 feedURL channel w2)))
                 feedURL feedName channel itemID = true.
Proof.
  intros Hok s1 w1. split.
  - intros s2 Hev. apply (evolves_seen _ s1 s2 _ _ _ _ Hev).
    apply MarkItemSeen_seen.
  - subst s1 w1. revert Hok. rewrite MarkItemSeen_eq. cbv zeta. cbn [fst snd].
    match goal with
    | |- context [saveChannelState ?a ?b ?c ?d ?e] =>
        pose proof (saveChannelState_spec a b c d e) as Hspec;
        destruct (saveChannelState a b c d e) as [[u | cause] w1] eqn:Hsave;
        cbn [fst snd]; intros Hok; [| discriminate];
        set (state := d) in *; set (w0 := e) in *
    end.
    cbv zeta in Hspec. cbn [fst snd] in Hspec.
    destruct Hspec as (_ & _ & _ & _ & _ & Hfile).
    eexists. split; [exact Hfile |]. split.
    { rewrite stored_timestamp_written. subst w0.
      destruct (bucket s feedURL channel); eexists; reflexivity. }
    intros s0 w2 Hfile2 F0 F1 F2 F4 Hage.
    destruct (bloom.Unmarshal_Marshal (filter state)) as (flt & Hun & Hsame).
    rewrite (loadChannelState_fresh_file s0 feedURL channel w2 _ flt
               Hfile2); try assumption.
    + cbn [fst snd]. split; [reflexivity |].
      rewrite IsItemSeen_bucket, bucket_put_eq. cbn [filter].
      rewrite Hsame. subst state. cbn [filter]. apply bloom.Test_Add.
    + rewrite length_app. cbn [length binary.PutUint64].
      pose proof (bloom.Marshal_nonempty (filter state)) as Hne.
      destruct (bloom.MarshalBinary (filter state)); [congruence | cbn; lia].
Qed.

(** C8, amended. As long as the store holds no bucket for a pair,
    [IsItemSeen] answers false for every id; marks of other pairs do not
    create the bucket. Once the bucket exists the answer is the test of its
    filter (which nothing prevents from being true for an id never
    marked). *)
Theorem IsItemSeen_unmarked (s : Storage) (feedURL feedName channel itemID : string) :
  (bucket s feedURL channel = None ->
   forall s', evolves (fun f c => (feedURL, channel) <> (f, c)) s s' ->
              IsItemSeen s' feedURL feedName channel itemID = false) /\
  (forall state, bucket s feedURL channel = Some state ->
     IsItemSeen s feedURL feedName channel itemID
     = bloom.Test (filter state) (list_ascii_of_string itemID)).
Proof.
  split.
  - intros Hnone s' Hev. rewrite IsItemSeen_bucket.
    rewrite (evolves_frame feedURL channel s s' Hev), Hnone. reflexivity.
  - intros state Hb. rewrite IsItemSeen_bucket, Hb. reflexivity.
Qed.

End StoreClaims.

(* ===================================================================== *)
(** * Startup *)
(* ===================================================================== *)

Section Startup.
Context {F : bloom.Filter}.
Import storage.

Lemma Glob_names (suffix : string) (w : World) (names : list string) (name : string) :
  fst (os.Glob suffix w) = inl names ->
  In name names <->
  (exists content, files w !! name = Some content) /\
  strings.HasSuffix name suffix = true.
Proof.
  unfold os.Glob, failing, bind. cbn [fst snd].
  destruct (fault w (step w)); [discriminate |].
  intros [= <-].
  rewrite <- list_elem_of_In, merge_sort_Permutation, list_elem_of_In.
  rewrite filter_In, in_map_iff. split.
  - intros [[[n c] [Hn Hin]] Hsuf]. cbn in Hn. subst n.
    apply list_elem_of_In, elem_of_map_to_list in Hin. eauto.
  - intros [[content Hfile] Hsuf]. split; [| exact Hsuf].
    exists (name, content). split; [reflexivity |].
    now apply list_elem_of_In, elem_of_map_to_list.
Qed.

(** The loop stops with an error at a name that is not base64, if not
    before. *)
Lemma load_all_undecodable (names : list string) (name : string) :
  In name names -> parse_filename name = None ->
  forall (s : Storage) (w : World), exists err, fst (load_all s names w) = inr err.
Proof.
  intros Hin Hbad. induction names as [| n rest IH]; [destruct Hin |].
  intros s w. cbn [load_all].
  destruct (parse_filename n) as [parts |] eqn:Hparse.
  - assert (In name rest) as Hrest.
    { destruct Hin as [-> | Hin]; [congruence | exact Hin]. }
    destruct parts as [| channel [| feedURL [| x parts]]]; try apply (IH Hrest).
    unfold bind.
    destruct (loadChannelState s feedURL channel w) as [[s' [u | err]] w'].
    + apply (IH Hrest).
    + eexists. reflexivity.
  - eexists. reflexivity.
Qed.

(** C1, amended. Startup fails as a whole, with no store returned, whenever
    some bucket file of the data directory has a name that cannot be
    decoded. A file whose decoded name does not split in two around ['|']
    does not fail startup: the loop passes over it. *)
Theorem NewStorage_corrupt_names (dataDir : string) (w : World)
    (name : string) (content : bytes) :
  files w !! name = Some content ->
  strings.HasSuffix name bloomFileSuffix = true ->
  parse_filename name = None ->
  (exists err, fst (NewStorage dataDir w) = inr err) /\
  (forall (s : Storage) (skipped : string) (rest parts : list string) (w0 : World),
     parse_filename skipped = Some parts -> length parts <> 2%nat ->
     load_all s (skipped :: rest) w0 = load_all s rest w0).
Proof.
  intros Hfile Hsuf Hbad. split.
  - unfold NewStorage, os.MkdirAll, failing, bind, ret. cbn [fst snd].
    destruct (fault w (step w)); [eexists; reflexivity |].
    destruct (os.Glob bloomFileSuffix (tick w)) as [[names | err] w1] eqn:Hglob;
      [| eexists; reflexivity].
    apply (load_all_undecodable names name); [| exact Hbad].
    apply (Glob_names bloomFileSuffix (tick w) names name).
    + rewrite Hglob. reflexivity.
    + split; [exists content; exact Hfile | exact Hsuf].
  - intros s skipped rest parts w0 Hparse Hlen. cbn [load_all]. rewrite Hparse.
    destruct parts as [| channel [| feedURL [| x parts]]];
      try reflexivity. cbn in Hlen. lia.
Qed.

End Startup.

(* ===================================================================== *)
(** * Bucket file names *)
(* ===================================================================== *)

Section FileNames.
Context {F : bloom.Filter}.
Import storage.

Lemma parse_filename_encoded (data : string) :
  parse_filename (base64.EncodeToString (list_ascii_of_string data) ++ bloomFileSuffix)
  = Some (strings.SplitN2 data "|") /\
  parse_filename (base64.EncodeToString (list_ascii_of_string data))
  = Some (strings.SplitN2 data "|").
Proof.
  unfold parse_filename. split.
  - rewrite TrimSuffix_app, DecodeString_EncodeToString.
    rewrite string_of_list_ascii_of_string. reflexivity.
  - change bloomFileSuffix with (String "."%char "bloom").
    rewrite TrimSuffix_absent.
    + rewrite DecodeString_EncodeToString, string_of_list_ascii_of_string.
      reflexivity.
    + unfold base64.EncodeToString.
      rewrite list_ascii_of_string_of_list_ascii. apply Encode_no_dot.
Qed.

(** C9, amended. For every feed URL and every channel that contains no
    ['|'], the decoding done at startup recovers (channel, feedURL) from
    the name of the bucket file, with its suffix as [GetBloomFilePath]
    writes it or without it as [GenerateBloomFileName] returns it. *)
Theorem filename_roundtrip (s : Storage) (feedURL channel : string) :
  ~ In "|"%char (list_ascii_of_string channel) ->
  parse_filename (GetBloomFilePath s feedURL channel) = Some [channel; feedURL] /\
  parse_filename (GenerateBloomFileName s feedURL channel) = Some [channel; feedURL].
Proof.
  intros Hnot. unfold GetBloomFilePath, GenerateBloomFileName.
  destruct (parse_filename_encoded (channel ++ "|" ++ feedURL)) as [H1 H2].
  rewrite H1, H2, SplitN2_join by exact Hnot. split; reflexivity.
Qed.

End FileNames.

Section LoadFrame.
Context {F : bloom.Filter}.
Import storage.

(** What [loadChannelState] does keep: the channel maps of the other
    feeds, in every branch. *)
Lemma loadChannelState_other_feeds (s : Storage) (feedURL channel : string)
    (w : World) (feedURL' : string) :
  feedURL' <> feedURL ->
  states (fst (fst (loadChannelState s feedURL channel w))) !! feedURL'
  = states s !! feedURL'.
Proof.
  intros Hne. unfold loadChannelState.
  unfold reset_feed, os.Stat, os.OpenFile_RDONLY, os.ReadFull, time.Since,
    time.Now, failing, bind, ret.
  repeat (cbn [fst snd files clock fault step trace tick with_files states
               with_states];
          match goal with
          | |- context [match ?x with _ => _ end] =>
              lazymatch x with
              | context [match _ with _ => _ end] => fail
              | _ => destruct x eqn:?
              end
          end).
  all: cbn [fst snd files clock fault step trace tick with_files states
            with_states].
  all: rewrite ?lookup_insert_ne by congruence; try reflexivity.
  all: rewrite ?lookup_insert_ne by congruence; reflexivity.
Qed.

(** What the expiry branch does not keep: the buckets of the other
    channels of the same feed. *)
Lemma loadChannelState_expired_siblings (s : Storage) (feedURL channel : string)
    (w : World) (content : bytes) (other : string) :
  files w !! GetBloomFilePath s feedURL channel = Some content ->
  (8 <= length content)%nat ->
  fault w (step w) = false ->
  fault w (1 + step w) = false ->
  fault w (2 + step w) = false ->
  time.Sub (clock w (3 + step w)) (stored_timestamp content)
    > stateExpirationDuration ->
  other <> channel ->
  bucket (fst (fst (loadChannelState s feedURL channel w))) feedURL other = None.
Proof.
  intros Hfile Hlen F0 F1 F2 Hage Hne.
  rewrite (loadChannelState_expired s feedURL channel w content Hfile Hlen
             F0 F1 F2 Hage).
  unfold bucket. cbn [fst states with_states].
  rewrite lookup_insert_eq. apply lookup_singleton_ne. congruence.
Qed.

End LoadFrame.

(* ===================================================================== *)
(** * False positives are inherent

    Whatever the 128-bit hash and the geometry of the Bloom filter, two
    different ids share their bit positions, so that marking one makes the
    other seen. *)
(* ===================================================================== *)

Section Collisions.
Context {A B : Type} (B_eq_dec : forall x y : B, {x = y} + {x <> y}).

(** More arguments than values: two of them have the same image. *)
Lemma collision (f : A -> B) (l : list A) (codomain : list B) :
  List.NoDup l -> (forall x, In x l -> In (f x) codomain) ->
  (length codomain < length l)%nat ->
  exists x y, In x l /\ In y l /\ x <> y /\ f x = f y.
Proof.
  revert codomain. induction l as [| a l IH]; intros codomain Hnd Hin Hlen.
  - cbn in Hlen. lia.
  - apply List.NoDup_cons_iff in Hnd as [Ha Hnd].
    destruct (in_dec B_eq_dec (f a) (map f l)) as [Hdup | Hfresh].
    + apply in_map_iff in Hdup as (y & Hy & Hyl).
      exists a, y. repeat split; [now left | now right | | congruence].
      intros ->. now apply Ha.
    + destruct (IH (remove B_eq_dec (f a) codomain) Hnd)
        as (x & y & Hx & Hy & Hne & Heq).
      * intros x Hx. apply in_in_remove; [| apply Hin; now right].
        intros Heq. apply Hfresh. rewrite <- Heq. now apply in_map.
      * pose proof (remove_length_lt B_eq_dec codomain (f a)
                      (Hin a (or_introl eq_refl))).
        cbn [length] in Hlen. lia.
      * exists x, y. repeat split; [now right | now right | exact Hne | exact Heq].
Qed.

End Collisions.

Lemma vectors_complete (vals l : list Z) :
  Forall (fun x => In x vals) l -> In l (reference.vectors (length l) vals).
Proof.
  induction 1 as [| x l Hx _ IH]; cbn [length reference.vectors]; [now left |].
  apply in_flat_map. exists x. split; [exact Hx | now apply in_map].
Qed.

Section FalsePositives.
Variable hash128 : bytes -> Z * Z.
Variables m' k' : nat.

Lemma locations_enumerated (data : bytes) :
  In (reference.locations hash128 m' k' data)
     (reference.vectors (reference.k k')
              (map Z.of_nat (seq 0 (Datatypes.S m')))).
Proof.
  assert (length (reference.locations hash128 m' k' data) = reference.k k')
    as <- by (unfold reference.locations; now rewrite length_map, length_seq).
  apply vectors_complete.
  pose proof (reference.locations_range hash128 m' k' data) as Hr.
  eapply Forall_impl; [exact Hr |]. cbn beta. intros l Hl.
  unfold reference.m in Hl. apply in_map_iff. exists (Z.to_nat l).
  split; [lia | apply in_seq; lia].
Qed.

Lemma shared_locations :
  exists x y : bytes,
    x <> y /\
    reference.locations hash128 m' k' x = reference.locations hash128 m' k' y.
Proof.
  set (codomain := reference.vectors (reference.k k')
                           (map Z.of_nat (seq 0 (Datatypes.S m')))).
  destruct (collision (List.list_eq_dec Z.eq_dec)
              (fun n => reference.locations hash128 m' k' (repeat "a"%char n))
              (seq 0 (Datatypes.S (length codomain))) codomain)
    as (i & j & _ & _ & Hne & Heq).
  - apply List.seq_NoDup.
  - intros n _. apply locations_enumerated.
  - rewrite length_seq. lia.
  - exists (repeat "a"%char i), (repeat "a"%char j). split; [| exact Heq].
    intros Hrep. apply Hne.
    apply (f_equal (@length ascii)) in Hrep. now rewrite !repeat_length in Hrep.
Qed.

(** With the filter of this construction, for every hash and geometry:
    there are two different ids such that, in every store and world,
    marking the first makes the second seen. *)
Lemma bloom_false_positive :
  exists x y : string,
    x <> y /\
    forall (s : @storage.Storage (reference.bloom_filter hash128 m' k'))
           (feedURL feedName channel : string) (w : World),
      storage.IsItemSeen
        (fst (fst (storage.MarkItemSeen s feedURL feedName channel x w)))
        feedURL feedName channel y = true.
Proof.
  destruct shared_locations as (x & y & Hne & Hloc).
  exists (string_of_list_ascii x), (string_of_list_ascii y). split.
  - intros Heq. apply Hne.
    rewrite <- (list_ascii_of_string_of_list_ascii x),
            <- (list_ascii_of_string_of_list_ascii y).
    now rewrite Heq.
  - intros s feedURL feedName channel w.
    destruct (MarkItemSeen_bucket s feedURL feedName channel
                (string_of_list_ascii x) w) as (st0 & n & _ & _ & ->).
    rewrite IsItemSeen_bucket, bucket_put_eq. cbn [storage.filter].
    rewrite !list_ascii_of_string_of_list_ascii.
    cbn [bloom.Test bloom.Add reference.bloom_filter].
    unfold reference.test. rewrite <- Hloc.
    apply (reference.test_add hash128 m' k').
Qed.

End FalsePositives.

(* ===================================================================== *)
(** * Example runs of the store *)
(* ===================================================================== *)

Section StoreExamples.
Import examples storage.

(** C1, counterexample. The data directory holds one bucket file whose
    name decodes to "abc", which does not split in two around ['|'];
    startup returns a store. *)
Lemma NewStorage_malformed_name_accepted :
  let w := quiet {[ "YWJj.bloom"%string := [] ]} jan01 (inl []) in
  files w !! "YWJj.bloom"%string = Some [] /\
  strings.HasSuffix "YWJj.bloom" bloomFileSuffix = true /\
  parse_filename "YWJj.bloom" = Some ["abc"%string] /\
  succeeded (fst (NewStorage "data" w)) = true.
Proof. vm_compute. repeat split. Qed.

(** A data directory with one bucket file whose name is not base64. *)
Lemma NewStorage_corrupt_names_witness :
  let w := quiet {[ "@@@.bloom"%string := [] ]} jan01 (inl []) in
  (files w !! "@@@.bloom"%string = Some [] /\
   strings.HasSuffix "@@@.bloom" bloomFileSuffix = true /\
   parse_filename "@@@.bloom" = None) /\
  exists err, fst (NewStorage "data" w) = inr err.
Proof.
  intros w.
  assert (files w !! "@@@.bloom"%string = Some []) as H1 by reflexivity.
  assert (strings.HasSuffix "@@@.bloom" bloomFileSuffix = true) as H2
    by reflexivity.
  assert (parse_filename "@@@.bloom" = None) as H3 by reflexivity.
  split; [repeat split; assumption |].
  exact (proj1 (NewStorage_corrupt_names "data" w "@@@.bloom" [] H1 H2 H3)).
Defined.

(** C9, counterexample. A channel that contains ['|'] is not recovered:
    the name of the bucket of ("a|b", feed) decodes to ("a", "b|" ++ feed). *)
Lemma filename_roundtrip_fails :
  parse_filename (GetBloomFilePath empty_store feed_url "a|b")
  = Some ["a"; "b|https://example.com/feed"]%string /\
  parse_filename (GetBloomFilePath empty_store feed_url "a|b")
  <> Some ["a|b"%string; feed_url].
Proof. split; [reflexivity | vm_compute; discriminate]. Qed.

(** The bucket of channel "@a". *)
Lemma filename_roundtrip_witness :
  ~ In "|"%char (list_ascii_of_string "@a") /\
  parse_filename (GetBloomFilePath empty_store feed_url "@a")
  = Some ["@a"%string; feed_url].
Proof.
  assert (~ In "|"%char (list_ascii_of_string "@a")) as H
    by (cbn; intros [H | [H | []]]; discriminate H).
  split; [exact H |].
  exact (proj1 (filename_roundtrip empty_store feed_url "@a" H)).
Defined.

(** C8, counterexample. Only "item-2" was ever marked for the pair, yet
    "item-13" is reported seen: the two ids set the same bits of the
    filter. *)
Lemma IsItemSeen_false_positive :
  let s := fst (fst (MarkItemSeen empty_store feed_url "example" "@a" "item-2"
                       (quiet ∅ jan01 (inl [])))) in
  IsItemSeen empty_store feed_url "example" "@a" "item-13" = false /\
  IsItemSeen s feed_url "example" "@a" "item-13" = true.
Proof. vm_compute. split; reflexivity. Qed.

(** A store in which only channel "@b" was marked. *)
Lemma IsItemSeen_unmarked_witness :
  let s := fst (fst (MarkItemSeen empty_store feed_url "example" "@b" "item-2"
                       (quiet ∅ jan01 (inl [])))) in
  let state := {| filter := bloom.Add (filter (fresh jan01))
                                      (list_ascii_of_string "item-2");
                  updatedAt := jan01 |} in
  (bucket empty_store feed_url "@a" = None /\
   bucket s feed_url "@b" = Some state) /\
  IsItemSeen s feed_url "example" "@a" "item-2" = false /\
  IsItemSeen s feed_url "example" "@b" "item-2"
  = bloom.Test (filter state) (list_ascii_of_string "item-2").
Proof.
  intros s state.
  assert (bucket empty_store feed_url "@a" = None) as H by reflexivity.
  assert (bucket s feed_url "@b" = Some state) as H' by reflexivity.
  split; [split; assumption |]. split.
  - apply (proj1 (IsItemSeen_unmarked empty_store feed_url "example" "@a" "item-2") H).
    eapply evolves_mark; [| apply evolves_refl].
    intros Heq. discriminate Heq.
  - exact (proj2 (IsItemSeen_unmarked s feed_url "example" "@b" "item-2") state H').
Defined.

(** A mark on 2024-01-01 and a reload of the bucket two days later. *)
Lemma MarkItemSeen_then_seen_witness :
  let w := quiet ∅ jan01 (inl []) in
  let r := MarkItemSeen empty_store feed_url "example" "@a" "item-1" w in
  let w2 := quiet (files (snd r)) jan03 (inl []) in
  snd (fst r) = inl tt /\
  IsItemSeen (fst (fst r)) feed_url "example" "@a" "item-1" = true /\
  snd (fst (loadChannelState empty_store feed_url "@a" w2)) = inl tt /\
  IsItemSeen (fst (fst (loadChannelState empty_store feed_url "@a" w2)))
             feed_url "example" "@a" "item-1" = true.
Proof.
  intros w r w2.
  assert (snd (fst r) = inl tt) as H by reflexivity.
  split; [exact H |].
  destruct (MarkItemSeen_then_seen empty_store feed_url "example" "@a"
              "item-1" w H) as (Hlater & content & Hfile & (n & Hstamp) & Hreload).
  split; [apply Hlater, evolves_refl |].
  assert (files w2 !! GetBloomFilePath empty_store feed_url "@a" = Some content)
    as Hfile2 by (rewrite <- Hfile; vm_compute; reflexivity).
  assert (time.Sub (clock w2 (3 + step w2)) (stored_timestamp content)
          <= stateExpirationDuration) as Hage
    by (rewrite Hstamp; vm_compute; discriminate).
  exact (Hreload empty_store w2 Hfile2 eq_refl eq_refl eq_refl eq_refl Hage).
Defined.

(** A mark on a disk that refuses every operation. *)
Lemma MarkItemSeen_not_atomic_witness :
  let w := broken ∅ jan01 (inl []) in
  snd (fst (MarkItemSeen empty_store feed_url "example" "@a" "item-1" w))
  = inr (Wrapf "error saving channel state"
           (Wrapf "error creating temp file" (ErrOS "open"))) /\
  IsItemSeen (fst (fst (MarkItemSeen empty_store feed_url "example" "@a" "item-1" w)))
             feed_url "example" "@a" "item-1" = true.
Proof.
  intros w.
  assert (snd (fst (MarkItemSeen empty_store feed_url "example" "@a" "item-1" w))
          = inr (Wrapf "error saving channel state"
                   (Wrapf "error creating temp file" (ErrOS "open")))) as H
    by reflexivity.
  split; [exact H |].
  exact (proj1 (proj2 (MarkItemSeen_not_atomic empty_store feed_url "example"
                         "@a" "item-1" w _ H))).
Defined.

(** C3, the failing run. A process starts on 2024-03-01. The bucket file of
    channel "@a" was written on 2024-02-20 and holds "item-1"; loaded
    alone, it makes "item-1" seen for "@a". The bucket file of channel
    "@b" of the same feed was written on 2024-01-01, more than 30 days
    before. Loading it takes the expiry branch, which replaces the whole
    channel map of the feed: the bucket of "@a" is gone, and with both
    files on disk the store that startup returns no longer sees "item-1"
    for "@a". *)
Theorem loadChannelState_expiry_drops_sibling :
  succeeded (started disk_a) = true /\
  GetLastUpdated store_a feed_url "@a" = Some feb20 /\
  IsItemSeen store_a feed_url "example" "@a" "item-1" = true /\
  (let r := fst (loadChannelState store_a feed_url "@b"
                   (quiet disk_ab mar01 (inl []))) in
   snd r = inl tt /\
   GetLastUpdated (fst r) feed_url "@a" = None /\
   IsItemSeen (fst r) feed_url "example" "@a" "item-1" = false) /\
  succeeded (started disk_ab) = true /\
  GetLastUpdated store_ab feed_url "@a" = None /\
  IsItemSeen store_ab feed_url "example" "@a" "item-1" = false.
Proof. vm_compute. repeat split. Qed.

End StoreExamples.

(* ===================================================================== *)
(** * The handler: what a computation appends to the trace *)
(* ===================================================================== *)

Section Appends.
Context {A B : Type} (P : Event -> Prop).

Lemma appends_ret (a : A) : appends P (ret a).
Proof. intros w. exists []. rewrite app_nil_r. split; [reflexivity | constructor]. Qed.

Lemma appends_bind (m : IO A) (k : A -> IO B) :
  appends P m -> (forall a, appends P (k a)) -> appends P (bind m k).
Proof.
  intros Hm Hk w. unfold bind.
  destruct (Hm w) as (evs1 & Ht1 & HP1).
  destruct (m w) as [a w1]. cbn [snd] in Ht1.
  destruct (Hk a w1) as (evs2 & Ht2 & HP2).
  exists (evs1 ++ evs2). rewrite Ht2, Ht1, app_assoc.
  split; [reflexivity | now apply Forall_app].
Qed.

Lemma appends_log (e : Event) : P e -> appends P (log e).
Proof.
  intros He w. exists [e]. split; [reflexivity | now repeat constructor].
Qed.

(** A computation that leaves the trace as it is. *)
Lemma appends_silent (m : IO A) :
  (forall w, trace (snd (m w)) = trace w) -> appends P m.
Proof.
  intros H w. exists []. rewrite app_nil_r. split; [apply H | constructor].
Qed.

End Appends.

Lemma appends_weaken {A} (P Q : Event -> Prop) (m : IO A) :
  (forall e, P e -> Q e) -> appends P m -> appends Q m.
Proof.
  intros HPQ Hm w. destruct (Hm w) as (evs & Ht & HP).
  exists evs. split; [exact Ht |]. eapply Forall_impl; [exact HP | exact HPQ].
Qed.

Lemma appends_for_each {A B} (P : Event -> Prop) (body : B -> A -> IO B)
    (l : list A) :
  (forall acc x, In x l -> appends P (body acc x)) ->
  forall acc, appends P (rss.for_each body acc l).
Proof.
  induction l as [| x l IH]; intros Hbody acc; cbn [rss.for_each].
  - apply appends_ret.
  - apply appends_bind.
    + apply Hbody. now left.
    + intros acc'. apply IH. intros acc'' y Hy. apply Hbody. now right.
Qed.

Section Silent.
Context {F : bloom.Filter}.

Lemma failing_silent (w : World) : trace (snd (failing w)) = trace w.
Proof. reflexivity. Qed.

Lemma Now_silent (w : World) : trace (snd (time.Now w)) = trace w.
Proof. reflexivity. Qed.

Lemma Since_silent (t : Z) (w : World) : trace (snd (time.Since t w)) = trace w.
Proof. reflexivity. Qed.

Lemma Stat_silent (name : string) (w : World) : trace (snd (os.Stat name w)) = trace w.
Proof. reflexivity. Qed.

Lemma MarkItemSeen_silent (s : storage.Storage)
    (feedURL feedName channel itemID : string) (w : World) :
  trace (snd (storage.MarkItemSeen s feedURL feedName channel itemID w)) = trace w.
Proof.
  rewrite MarkItemSeen_eq. cbv zeta. cbn [fst snd].
  match goal with
  | |- context [storage.saveChannelState ?a ?b ?c ?d ?e] =>
      pose proof (saveChannelState_spec a b c d e) as Hspec
  end.
  cbv zeta in Hspec. destruct Hspec as (_ & _ & _ & _ & Htrace & _).
  rewrite Htrace. destruct (storage.bucket s feedURL channel); reflexivity.
Qed.

End Silent.

(* ===================================================================== *)
(** * The handler: retry and commit on success *)
(* ===================================================================== *)

Ltac io_cbn :=
  cbn [fst snd files clock fault rand fetch step trace tick with_files negb
       Nat.add].

Section Retry.
Context {F : bloom.Filter} {S : sort.Sorter} {C : rss.Collaborators}.
Import gofeed config rss.

(** The four ways the retry loop can go, by the outcome of the sends, which
    are the primitives number [step w], [step w + 2] and [step w + 4] (a
    backoff in between draws one random number). *)
Lemma send_loop_cases (channel message : string) (w : World) :
  let r := send_loop 3 0 channel message w in
  let sent := EvSend channel message in
  let n := step w in
  files (snd r) = files w /\
  exists d0 d1,
    (fault w n = false /\ fst r = true /\
     trace (snd r) = trace w ++ [sent true]) \/
    (fault w n = true /\ fault w (2 + n) = false /\ fst r = true /\
     trace (snd r)
     = trace w ++ [sent false; EvBackoff 0; EvSleep d0; sent true]) \/
    (fault w n = true /\ fault w (2 + n) = true /\ fault w (4 + n) = false /\
     fst r = true /\
     trace (snd r)
     = trace w ++ [sent false; EvBackoff 0; EvSleep d0;
                   sent false; EvBackoff (0 + 1); EvSleep d1; sent true]) \/
    (fault w n = true /\ fault w (2 + n) = true /\ fault w (4 + n) = true /\
     fst r = false /\
     trace (snd r)
     = trace w ++ [sent false; EvBackoff 0; EvSleep d0;
                   sent false; EvBackoff (0 + 1); EvSleep d1; sent false]).
Proof.
  intros r sent n. subst r sent n.
  unfold send_loop, Send, ExponentialBackoffWithJitter, Int63n, time.Sleep,
    log, failing, bind, ret.
  io_cbn.
  destruct (fault w (step w)) eqn:F0; io_cbn.
  2: { split; [reflexivity |]. exists 0, 0. left. repeat split. }
  change (0 =? maxRetries - 1) with false. cbv iota. io_cbn.
  destruct (fault w (Datatypes.S (Datatypes.S (step w)))) eqn:F1; io_cbn.
  2: { split; [reflexivity |]. eexists _, 0. right. left.
       repeat split. rewrite <- !app_assoc. reflexivity. }
  change (0 + 1 =? maxRetries - 1) with false. cbv iota. io_cbn.
  destruct (fault w (Datatypes.S (Datatypes.S (Datatypes.S (Datatypes.S (step w))))))
    eqn:F2; io_cbn.
  2: { split; [reflexivity |]. eexists _, _. right. right. left.
       repeat split. rewrite <- !app_assoc. reflexivity. }
  change (0 + 1 + 1 =? maxRetries - 1) with true. cbv iota. io_cbn.
  split; [reflexivity |]. eexists _, _. right. right. right.
  repeat split. rewrite <- !app_assoc. reflexivity.
Qed.


(** What follows a send that succeeded: the mark, then the cooldown. *)
Lemma worker_commit (s : storage.Storage) (feedConfig : FeedConfig)
    (channel itemID : string) (w : World) :
  trace (snd ((s' <- markSeen s feedConfig channel itemID ;;
               _ <- time.Sleep time.Second ;; ret s') w))
  = trace w ++ [EvMark (URL feedConfig) channel itemID; EvSleep time.Second].
Proof.
  unfold markSeen, time.Sleep, log, bind, ret. io_cbn.
  match goal with
  | |- context [storage.MarkItemSeen ?a ?b ?c ?d ?e ?f] =>
      pose proof (MarkItemSeen_silent a b c d e f) as Hsilent;
      destruct (storage.MarkItemSeen a b c d e f) as [[s1 r1] w1]
  end.
  io_cbn. cbn [fst snd trace] in Hsilent. rewrite Hsilent.
  rewrite <- !app_assoc. reflexivity.
Qed.


End Retry.

(* ===================================================================== *)
(** * The handler: delivery order *)
(* ===================================================================== *)

Section Ordering.
Context {F : bloom.Filter} {S : sort.Sorter} {C : rss.Collaborators}.
Import gofeed config rss.

Lemma dispatch_cons (s : storage.Storage) (feedConfig : FeedConfig)
    (item : Item) (items : list Item) :
  dispatch s feedConfig (item :: items)
  = dispatch s feedConfig [item] ++ dispatch s feedConfig items.
Proof. unfold dispatch. cbn [flat_map]. rewrite app_nil_r. reflexivity. Qed.

Lemma dispatch_one_item (s : storage.Storage) (feedConfig : FeedConfig)
    (item : Item) :
  Forall (fun t => task_item t = item) (dispatch s feedConfig [item]).
Proof.
  unfold dispatch. cbn [flat_map]. rewrite app_nil_r.
  induction (Channels feedConfig) as [| channel channels IH]; cbn [flat_map].
  - constructor.
  - apply Forall_app. split; [| exact IH].
    destruct (storage.IsItemSeen _ _ _ _ _); [constructor |].
    destruct (is_empty _); repeat constructor.
Qed.

(** The tasks are started item by item, in the order of the list. *)
Lemma dispatch_in_order (s : storage.Storage) (feedConfig : FeedConfig)
    (items : list Item) :
  map task_item (dispatch s feedConfig items)
  = flat_map (fun item => repeat item (length (dispatch s feedConfig [item])))
             items.
Proof.
  induction items as [| item items IH]; [reflexivity |].
  rewrite dispatch_cons, map_app, IH. cbn [flat_map]. f_equal.
  pose proof (dispatch_one_item s feedConfig item) as Hall.
  induction Hall as [| t ts Ht Hall IHall]; [reflexivity |].
  cbn [map length repeat]. rewrite Ht, IHall. reflexivity.
Qed.

(** The result of the ordering pass: the dated items, sorted, then the
    others as they came. *)
Lemma order_parts (items : list Item) :
  exists withTime,
    order items
    = withTime ++ List.filter (fun item => negb (has_time item)) items /\
    Permutation withTime (List.filter has_time items) /\
    StronglySorted (fun a b => published a <= published b) withTime.
Proof.
  unfold order. destruct items as [| item items]; [exists []; repeat constructor |].
  cbn [length Nat.ltb Nat.leb].
  set (l := item :: items).
  destruct (List.filter has_time l) as [| x withTime] eqn:Hwith.
  - exists []. repeat constructor.
  - cbn [length Nat.ltb Nat.leb]. eexists. split; [reflexivity |].
    split; [apply sort.Slice_Permutation |].
    apply sort.Slice_Sorted. reflexivity.
Qed.

(** The ordering pass neither adds nor drops an item. *)
Lemma order_In (items : list Item) (item : Item) :
  In item (order items) <-> In item items.
Proof.
  destruct (order_parts items) as (withTime & -> & Hperm & _).
  rewrite in_app_iff, !filter_In.
  assert (In item withTime <-> In item (List.filter has_time items)) as ->.
  { split; apply Permutation_in; [exact Hperm | symmetry; exact Hperm]. }
  rewrite filter_In. destruct (has_time item); cbn; intuition congruence.
Qed.

(** What the dispatch loop starts: for each item in turn, one task for
    each channel of the feed, in their order, for which the store does not
    report the item seen, unless the message of the item is empty. *)
Lemma dispatch_pairs (s : storage.Storage) (feedConfig : FeedConfig)
    (items : list Item) :
  map (fun t => (task_item t, task_channel t)) (dispatch s feedConfig items)
  = flat_map
      (fun item =>
         map (pair item)
             (List.filter
                (fun channel =>
                   negb (storage.IsItemSeen s (URL feedConfig) (Name feedConfig)
                           channel (generateItemID item))
                   && negb (is_empty (formatMessage item (Template feedConfig))))
                (Channels feedConfig)))
      items.
Proof.
  induction items as [| item items IH]; [reflexivity |].
  rewrite dispatch_cons, map_app, IH. cbn [flat_map]. f_equal.
  clear IH. unfold dispatch. cbn [flat_map]. rewrite app_nil_r.
  induction (Channels feedConfig) as [| channel channels IHc]; [reflexivity |].
  cbn [flat_map List.filter]. rewrite map_app, IHc.
  destruct (storage.IsItemSeen _ _ _ _ _); [reflexivity |].
  destruct (is_empty _); reflexivity.
Qed.

(** C7. The ordering pass puts the items that carry a publish time first,
    oldest first, and the items without one after them in the order of the
    feed. The dispatch loop starts the tasks item by item in that order:
    for each item in turn, one task for each channel for which the store
    does not report the item seen, unless its message is empty. On the
    feed [A (2024-01-03); B (no date); C (2024-01-01)] the order is
    [C; A; B], and so is the order of the tasks started when none of the
    three is seen for the one channel of the feed and no message is
    empty. *)
Theorem order_oldest_first (s : storage.Storage) (feedConfig : FeedConfig)
    (items : list Item) :
  (exists withTime,
     order items
     = withTime ++ List.filter (fun item => negb (has_time item)) items /\
     Permutation withTime (List.filter has_time items) /\
     StronglySorted (fun a b => published a <= published b) withTime) /\
  map task_item (dispatch s feedConfig (order items))
  = flat_map (fun item => repeat item (length (dispatch s feedConfig [item])))
             (order items) /\
  order [examples.item_A; examples.item_B; examples.item_C]
  = [examples.item_C; examples.item_A; examples.item_B] /\
  map (fun t => (task_item t, task_channel t))
      (dispatch s feedConfig (order items))
  = flat_map
      (fun item =>
         map (pair item)
             (List.filter
                (fun channel =>
                   negb (storage.IsItemSeen s (URL feedConfig) (Name feedConfig)
                           channel (generateItemID item))
                   && negb (is_empty (formatMessage item (Template feedConfig))))
                (Channels feedConfig)))
      (order items) /\
  (forall channel,
     Channels feedConfig = [channel] ->
     (forall item,
        In item [examples.item_A; examples.item_B; examples.item_C] ->
        storage.IsItemSeen s (URL feedConfig) (Name feedConfig) channel
          (generateItemID item) = false /\
        is_empty (formatMessage item (Template feedConfig)) = false) ->
     map task_item
       (dispatch s feedConfig
          (order [examples.item_A; examples.item_B; examples.item_C]))
     = [examples.item_C; examples.item_A; examples.item_B]).
Proof.
  assert (order [examples.item_A; examples.item_B; examples.item_C]
          = [examples.item_C; examples.item_A; examples.item_B]) as Horder.
  { unfold order. cbn [length Nat.ltb Nat.leb List.filter has_time
                       examples.item_A examples.item_B examples.item_C
                       examples.item PublishedParsed negb].
    set (less := fun a b : Item => time.Before (published a) (published b)).
    pose proof (sort.Slice_Permutation _ less [examples.item_A; examples.item_C])
      as Hperm.
    pose proof (sort.Slice_Sorted _ less published
                  [examples.item_A; examples.item_C] (fun _ _ => eq_refl))
      as Hsorted.
    symmetry in Hperm. apply Permutation_length_2_inv in Hperm.
    destruct Hperm as [Heq | Heq]; rewrite Heq in *.
    + exfalso. apply StronglySorted_inv in Hsorted as [_ Hle].
      apply Forall_cons in Hle as [Hle _]. vm_compute in Hle. now apply Hle.
    + reflexivity. }
  split; [apply order_parts |].
  split; [apply dispatch_in_order |].
  split; [exact Horder |].
  split; [apply dispatch_pairs |].
  intros channel Hch Hnew.
  pose proof (dispatch_pairs s feedConfig
                [examples.item_C; examples.item_A; examples.item_B]) as Hpairs.
  rewrite Horder.
  rewrite Hch in Hpairs. cbn [flat_map List.filter map] in Hpairs.
  destruct (Hnew examples.item_A ltac:(left; reflexivity)) as [HA1 HA2].
  destruct (Hnew examples.item_B ltac:(right; left; reflexivity)) as [HB1 HB2].
  destruct (Hnew examples.item_C ltac:(right; right; left; reflexivity)) as [HC1 HC2].
  rewrite HA1, HA2, HB1, HB2, HC1, HC2 in Hpairs.
  cbn [negb andb map app] in Hpairs.
  apply (f_equal (map fst)) in Hpairs.
  rewrite map_map in Hpairs. cbn [fst map] in Hpairs. exact Hpairs.
Qed.

End Ordering.

(* ===================================================================== *)
(** * The handler: what is sent, and first-run suppression *)
(* ===================================================================== *)

Section Sends.
Context {F : bloom.Filter} {S : sort.Sorter} {C : rss.Collaborators}.
Import gofeed config rss.

Lemma Send_appends (channel message : string) :
  appends (send_of channel message) (Send channel message).
Proof.
  unfold Send. apply appends_bind; [now apply appends_silent |].
  intros bad. apply appends_bind; [| intros; apply appends_ret].
  apply appends_log. cbn. auto.
Qed.

Lemma Backoff_appends (P : Event -> Prop) (attempt : Z) :
  (forall e, is_send e = false -> P e) ->
  appends P (ExponentialBackoffWithJitter attempt).
Proof.
  intros HP. unfold ExponentialBackoffWithJitter.
  apply appends_bind; [apply appends_log; now apply HP |].
  intros _. apply appends_bind; [now apply appends_silent |].
  intros jitter. apply appends_log. now apply HP.
Qed.

Lemma send_loop_appends (remaining : nat) (i : Z) (channel message : string) :
  appends (send_of channel message) (send_loop remaining i channel message).
Proof.
  revert i. induction remaining as [| remaining IH]; intros i; cbn [send_loop].
  - apply appends_ret.
  - apply appends_bind; [apply Send_appends |].
    intros ok. destruct ok; [apply appends_ret |].
    destruct (i =? maxRetries - 1); [apply appends_ret |].
    apply appends_bind; [| intros; apply IH].
    apply Backoff_appends. intros [] He; cbn in *; auto; discriminate.
Qed.

Lemma markSeen_appends (P : Event -> Prop) (s : storage.Storage)
    (feedConfig : FeedConfig) (channel itemID : string) :
  (forall e, is_send e = false -> P e) ->
  appends P (markSeen s feedConfig channel itemID).
Proof.
  intros HP. unfold markSeen.
  apply appends_bind; [apply appends_log; now apply HP |].
  intros _. apply appends_bind; [| intros; apply appends_ret].
  apply appends_silent. apply MarkItemSeen_silent.
Qed.

Lemma worker_appends (s : storage.Storage) (feedConfig : FeedConfig) (t : Task) :
  appends (send_of (task_channel t) (task_message t)) (worker s feedConfig t).
Proof.
  unfold worker. apply appends_bind; [apply send_loop_appends |].
  intros ok. destruct ok; [| apply appends_ret].
  apply appends_bind.
  - apply markSeen_appends. intros [] He; cbn in *; auto; discriminate.
  - intros s'. apply appends_bind; [| intros; apply appends_ret].
    apply appends_log. exact I.
Qed.

Lemma run_tasks_appends (Q : Event -> Prop) (feedConfig : FeedConfig)
    (tasks : list Task) :
  (forall t e, In t tasks -> send_of (task_channel t) (task_message t) e -> Q e) ->
  forall s, appends Q (run_tasks s feedConfig tasks).
Proof.
  induction tasks as [| t tasks IH]; intros HQ s; cbn [run_tasks].
  - apply appends_ret.
  - apply appends_bind.
    + eapply appends_weaken; [| apply worker_appends].
      intros e. apply HQ. now left.
    + intros s'. apply IH. intros t' e Hin. apply HQ. now right.
Qed.

Lemma dispatch_In (s : storage.Storage) (feedConfig : FeedConfig)
    (items : list Item) (t : Task) :
  In t (dispatch s feedConfig items) ->
  exists item,
    In item items /\ In (task_channel t) (Channels feedConfig) /\
    task_message t = formatMessage item (Template feedConfig) /\
    storage.IsItemSeen s (URL feedConfig) (Name feedConfig) (task_channel t)
      (generateItemID item) = false.
Proof.
  unfold dispatch. rewrite in_flat_map. intros (item & Hitem & Hin).
  rewrite in_flat_map in Hin. destruct Hin as (channel & Hch & Hin).
  destruct (storage.IsItemSeen s _ _ channel _) eqn:Hseen; [destruct Hin |].
  destruct (is_empty _); [destruct Hin |].
  destruct Hin as [<- | []]. cbn. exists item. repeat split; assumption.
Qed.

(** The sends of the delivery phase deliver candidates the store did not
    report seen. *)
Lemma deliver_appends (c : Candidates) (feedConfig : FeedConfig) :
  appends (unseen_send (store c) feedConfig (newItems c)) (deliver c feedConfig).
Proof.
  unfold deliver. apply appends_bind; [| intros; apply appends_ret].
  apply run_tasks_appends. intros t e Hin Hsend.
  apply dispatch_In in Hin as (item & Hitem & Hch & Hmsg & Hseen).
  apply (proj1 (order_In _ _)) in Hitem.
  destruct e as [channel message ok | | |]; cbn in *; auto.
  destruct Hsend as [-> ->]. exists item. repeat split; assumption.
Qed.

End Sends.

Section FirstRun.
Context {F : bloom.Filter} {S : sort.Sorter} {C : rss.Collaborators}.
Import gofeed config rss.

Lemma evolves_trans (P : string -> string -> Prop) (s1 s2 s3 : storage.Storage) :
  storage.evolves P s1 s2 -> storage.evolves P s2 s3 -> storage.evolves P s1 s3.
Proof.
  induction 1 as [s | s s' f n c id w HP Hev IH]; intros H23.
  - exact H23.
  - eapply storage.evolves_mark; [exact HP | now apply IH].
Qed.

Lemma markSeen_evolves (s : storage.Storage) (feedConfig : FeedConfig)
    (channel itemID : string) (w : World) :
  storage.evolves (fun _ _ => True) s (fst (markSeen s feedConfig channel itemID w)) /\
  storage.IsItemSeen (fst (markSeen s feedConfig channel itemID w))
    (URL feedConfig) (Name feedConfig) channel itemID = true.
Proof.
  unfold markSeen, log, bind, ret. cbn [fst snd].
  match goal with
  | |- context [storage.MarkItemSeen ?a ?b ?c ?d ?e ?f] =>
      pose proof (MarkItemSeen_seen a b c d e f) as Hseen;
      assert (storage.evolves (fun _ _ => True) a
                (fst (fst (storage.MarkItemSeen a b c d e f)))) as Hev
        by (eapply storage.evolves_mark; [exact I | apply storage.evolves_refl]);
      destruct (storage.MarkItemSeen a b c d e f) as [[s1 r1] w1]
  end.
  cbn [fst snd] in *. split; assumption.
Qed.

(** The first-run branch marks the item for every channel. *)
Lemma mark_channels (feedConfig : FeedConfig) (itemID : string)
    (channels : list string) (s : storage.Storage) (w : World) :
  let r := for_each (fun s channel => markSeen s feedConfig channel itemID)
                    s channels w in
  storage.evolves (fun _ _ => True) s (fst r) /\
  (forall channel, In channel channels ->
     storage.IsItemSeen (fst r) (URL feedConfig) (Name feedConfig) channel itemID
     = true).
Proof.
  revert s w. induction channels as [| channel channels IH]; intros s w r; subst r.
  - cbn. split; [apply storage.evolves_refl | intros ? []].
  - cbn [for_each]. unfold bind.
    destruct (markSeen_evolves s feedConfig channel itemID w) as [Hev Hseen].
    destruct (markSeen s feedConfig channel itemID w) as [s1 w1].
    cbn [fst] in Hev, Hseen.
    destruct (IH s1 w1) as [Hev' Hall]. split.
    + eapply evolves_trans; eassumption.
    + intros ch [<- | Hin]; [| now apply Hall].
      eapply evolves_seen; eassumption.
Qed.

Lemma mark_all_appends (P : Event -> Prop) (feedConfig : FeedConfig)
    (itemID : string) (s : storage.Storage) :
  (forall e, is_send e = false -> P e) ->
  appends P (handler_new.mark_all feedConfig itemID s).
Proof.
  intros HP. unfold handler_new.mark_all. apply appends_for_each.
  intros acc channel _. now apply markSeen_appends.
Qed.

(** Without a bucket file for any channel, [isFirstRun] stays true. *)
Lemma isFirstRun_no_files (s : storage.Storage) (feedConfig : FeedConfig)
    (channels : list string) (w : World) :
  (forall channel, In channel channels ->
     files w !! storage.GetBloomFilePath s (URL feedConfig) channel = None) ->
  fst (handler_new.isFirstRun s feedConfig channels w) = true.
Proof.
  revert w. induction channels as [| channel channels IH]; intros w Hnone;
    cbn [handler_new.isFirstRun]; [reflexivity |].
  unfold os.Stat, failing, bind. cbn [fst snd files tick].
  destruct (fault w (step w)); [| rewrite (Hnone channel) by now left];
    apply IH; intros ch Hin; cbn [files tick]; apply Hnone; now right.
Qed.

Lemma isFirstRun_silent (s : storage.Storage) (feedConfig : FeedConfig)
    (channels : list string) (w : World) :
  trace (snd (handler_new.isFirstRun s feedConfig channels w)) = trace w.
Proof.
  revert w. induction channels as [| channel channels IH]; intros w;
    cbn [handler_new.isFirstRun]; [reflexivity |].
  unfold os.Stat, failing, bind. cbn [fst snd files tick].
  destruct (fault w (step w)); [exact (IH (tick w)) |].
  destruct (files w !! _); [reflexivity | exact (IH (tick w))].
Qed.

Lemma stale_silent (feedConfig : FeedConfig) (item : Item) (w : World) :
  trace (snd (handler_new.stale feedConfig item w)) = trace w.
Proof.
  unfold handler_new.stale. destruct (PublishedParsed item); [| reflexivity].
  unfold bind, time.Since, time.Now, ret. cbn.
  destruct (ArticleExpirationDurationHours feedConfig); reflexivity.
Qed.

(** The candidate loop of a first run without [first_push]: no candidate is
    kept, nothing is sent, and every addressable item is marked for every
    channel. *)
Lemma candidates_first_run (feedConfig : FeedConfig) (items : list Item)
    (c : Candidates) (w : World) :
  FirstPush feedConfig = false ->
  newItems c = [] -> seenInThisRun c = ∅ ->
  let r := for_each (handler_new.candidate feedConfig true) c items w in
  newItems (fst r) = [] /\
  seenInThisRun (fst r) = ∅ /\
  storage.evolves (fun _ _ => True) (store c) (store (fst r)) /\
  (forall item channel,
     In item items -> addressable item = true ->
     In channel (Channels feedConfig) ->
     storage.IsItemSeen (store (fst r)) (URL feedConfig) (Name feedConfig)
       channel (generateItemID item) = true).
Proof.
  intros Hfp. revert c w. induction items as [| x items IH];
    intros c w Hnew Hseen r; subst r.
  - cbn. repeat split; try assumption; [apply storage.evolves_refl | intros ? ? []].
  - cbn [for_each]. unfold bind.
    assert (handler_new.candidate feedConfig true c x w
            = if is_empty (Title x) && is_empty (Link x) then (c, w)
              else let (s1, w1) :=
                     handler_new.mark_all feedConfig (generateItemID x) (store c) w in
                   ({| newItems := newItems c; seenInThisRun := seenInThisRun c;
                       store := s1 |}, w1)) as ->.
    { unfold handler_new.candidate. rewrite Hfp, Hseen, lookup_empty.
      cbn [default andb negb]. destruct (_ && _); reflexivity. }
    destruct (is_empty (Title x) && is_empty (Link x)) eqn:Haddr.
    + destruct (IH c w Hnew Hseen) as (H1 & H2 & H3 & H4).
      split; [exact H1 | split; [exact H2 | split; [exact H3 |]]].
      intros item channel [<- | Hin] Hitem Hch; [| now apply H4].
      unfold addressable in Hitem. rewrite Haddr in Hitem. discriminate.
    + unfold handler_new.mark_all.
      pose proof (mark_channels feedConfig (generateItemID x)
                    (Channels feedConfig) (store c) w) as Hmark.
      cbv zeta in Hmark. destruct Hmark as [Hev Hall].
      destruct (for_each _ (store c) (Channels feedConfig) w) as [s1 w1].
      cbn [fst] in Hev, Hall.
      destruct (IH {| newItems := newItems c; seenInThisRun := seenInThisRun c;
                      store := s1 |} w1 Hnew Hseen) as (H1 & H2 & H3 & H4).
      cbn [store] in H3.
      split; [exact H1 | split; [exact H2 | split]].
      * eapply evolves_trans; eassumption.
      * intros item channel [<- | Hin] Hitem Hch; [| now apply H4].
        eapply evolves_seen; [exact H3 |]. now apply Hall.
Qed.

Lemma candidates_first_run_appends (P : Event -> Prop) (feedConfig : FeedConfig)
    (firstRun : bool) (items : list Item) (c : Candidates) :
  (forall e, is_send e = false -> P e) ->
  appends P (for_each (handler_new.candidate feedConfig firstRun) c items).
Proof.
  intros HP. apply appends_for_each. intros acc item _.
  unfold handler_new.candidate.
  destruct (_ && _); [apply appends_ret |].
  destruct (default false _); [apply appends_ret |].
  destruct (firstRun && _).
  - apply appends_bind; [now apply mark_all_appends | intros; apply appends_ret].
  - destruct (allChannelsProcessed _ _ _); [apply appends_ret |].
    apply appends_bind; [apply appends_silent, stale_silent |].
    intros old. destruct old; apply appends_ret.
Qed.

(** Outside that case the candidate loop leaves the store alone and keeps
    only items of the feed. *)
Lemma candidates_normal (feedConfig : FeedConfig) (firstRun : bool)
    (items : list Item) (c : Candidates) (w : World) :
  firstRun && negb (FirstPush feedConfig) = false ->
  let r := for_each (handler_new.candidate feedConfig firstRun) c items w in
  store (fst r) = store c /\
  (forall item, In item (newItems (fst r)) ->
                In item (newItems c) \/ In item items).
Proof.
  intros Hmode. revert c w. induction items as [| x items IH]; intros c w r; subst r.
  - cbn. auto.
  - cbn [for_each]. unfold bind.
    assert (forall c1 w1,
              handler_new.candidate feedConfig firstRun c x w = (c1, w1) ->
              store c1 = store c /\
              (newItems c1 = newItems c \/ newItems c1 = newItems c ++ [x]))
      as Hstep.
    { intros c1 w1. unfold handler_new.candidate, bind, ret. rewrite Hmode.
      destruct (is_empty (Title x) && is_empty (Link x)); cbv beta iota;
        [intros [= <- <-]; auto |].
      destruct (default false _); cbv beta iota; [intros [= <- <-]; auto |].
      destruct (allChannelsProcessed _ _ _); cbv beta iota;
        [intros [= <- <-]; auto |].
      destruct (handler_new.stale feedConfig x w) as [old w2].
      destruct old; cbv beta iota; intros [= <- <-]; auto. }
    destruct (handler_new.candidate feedConfig firstRun c x w) as [c1 w1].
    destruct (Hstep c1 w1 eq_refl) as [Hstore Hnew].
    destruct (IH c1 w1) as [H1 H2]. split; [congruence |].
    intros item Hin. apply H2 in Hin.
    destruct Hin as [Hin | Hin]; [| right; now right].
    destruct Hnew as [Hnew | Hnew]; rewrite Hnew in Hin; [now left |].
    apply in_app_iff in Hin.
    destruct Hin as [Hin | [<- | []]]; [now left | right; now left].
Qed.

End FirstRun.

Section FirstRunClaim.
Context {F : bloom.Filter} {S : sort.Sorter} {C : rss.Collaborators}.
Import gofeed config rss.

Lemma unseen_send_other (s : storage.Storage) (feedConfig : FeedConfig)
    (items : list Item) (e : Event) :
  is_send e = false -> unseen_send s feedConfig items e.
Proof. destruct e; cbn; [discriminate | auto ..]. Qed.

Lemma count_no_sends (evs : list Event) :
  Forall (fun e => is_send e = false) evs -> count is_send evs = 0%nat.
Proof.
  unfold count. induction 1 as [| e evs He _ IH]; [reflexivity |].
  cbn [List.filter]. rewrite He. exact IH.
Qed.

Lemma deliver_nothing (c : Candidates) (feedConfig : FeedConfig) (w : World) :
  newItems c = [] -> deliver c feedConfig w = ((store c, inl tt), w).
Proof. intros Hnew. unfold deliver. rewrite Hnew. reflexivity. Qed.

(** C4, amended. In every cycle a send delivers an item of the feed to a
    channel for which the store, as it was when the cycle began, did not
    report the item seen. In the first cycle of a feed with
    [first_push = false], when no bucket file exists for any of its
    channels, nothing is sent and every fetched item that has a title or a
    link is marked seen for every configured channel. *)
Theorem first_run_suppression (s : storage.Storage) (feedConfig : FeedConfig)
    (w : World) (items : list Item) :
  fetch w (step w) (URL feedConfig) = inl items ->
  let r := handler_new.processFeed s feedConfig w in
  exists evs,
    trace (snd r) = trace w ++ evs /\
    Forall (unseen_send s feedConfig items) evs /\
    (FirstPush feedConfig = false ->
     (forall channel, In channel (Channels feedConfig) ->
        files w !! storage.GetBloomFilePath s (URL feedConfig) channel = None) ->
     count is_send evs = 0%nat /\
     forall item channel,
       In item items -> addressable item = true ->
       In channel (Channels feedConfig) ->
       storage.IsItemSeen (fst (fst r)) (URL feedConfig) (Name feedConfig)
         channel (generateItemID item) = true).
Proof.
  intros Hfetch r. subst r.
  set (c0 := {| newItems := []; seenInThisRun := ∅; store := s |}).
  assert (handler_new.processFeed s feedConfig w
          = if (length items =? 0)%nat then ((s, inl tt), tick w)
            else
              let (firstRun, w2) :=
                handler_new.isFirstRun s feedConfig (Channels feedConfig) (tick w) in
              let (c, w3) :=
                for_each (handler_new.candidate feedConfig firstRun) c0 items w2 in
              deliver c feedConfig w3) as ->.
  { unfold handler_new.processFeed, ParseURL, bind at 1. rewrite Hfetch.
    destruct (length items =? 0)%nat; reflexivity. }
  destruct (length items =? 0)%nat eqn:Hlen.
  { exists []. cbn [fst snd tick trace]. rewrite app_nil_r.
    split; [reflexivity |]. split; [constructor |]. intros _ _.
    split; [reflexivity |]. apply Nat.eqb_eq in Hlen.
    destruct items; [intros ? ? [] | discriminate]. }
  pose proof (isFirstRun_silent s feedConfig (Channels feedConfig) (tick w))
    as Hsilent.
  pose proof (isFirstRun_no_files s feedConfig (Channels feedConfig) (tick w))
    as Hfirst.
  destruct (handler_new.isFirstRun s feedConfig (Channels feedConfig) (tick w))
    as [firstRun w2].
  cbn [fst snd tick trace files] in Hsilent, Hfirst.
  pose proof (candidates_first_run_appends (fun e => is_send e = false)
                feedConfig firstRun items c0 (fun e H => H) w2)
    as (evs1 & Htrace1 & Hno).
  destruct (firstRun && negb (FirstPush feedConfig)) eqn:Hmode.
  - apply andb_true_iff in Hmode as [-> Hfp]. apply negb_true_iff in Hfp.
    pose proof (candidates_first_run feedConfig items c0 w2 Hfp eq_refl eq_refl)
      as Hrun.
    cbv zeta in Hrun. destruct Hrun as (Hnew & _ & _ & Hseen).
    destruct (for_each (handler_new.candidate feedConfig true) c0 items w2)
      as [c w3].
    cbn [fst snd] in *. rewrite (deliver_nothing c feedConfig w3 Hnew).
    cbn [fst snd]. exists evs1. rewrite Htrace1, Hsilent.
    split; [reflexivity |]. split.
    + eapply Forall_impl; [exact Hno |]. apply unseen_send_other.
    + intros _ _. split; [now apply count_no_sends | exact Hseen].
  - pose proof (candidates_normal feedConfig firstRun items c0 w2 Hmode) as Hrun.
    cbv zeta in Hrun. destruct Hrun as [Hstore Hitems].
    destruct (for_each (handler_new.candidate feedConfig firstRun) c0 items w2)
      as [c w3].
    cbn [fst snd] in *.
    destruct (deliver_appends c feedConfig w3) as (evs2 & Htrace2 & Hsends).
    exists (evs1 ++ evs2). rewrite Htrace2, Htrace1, Hsilent, app_assoc.
    split; [reflexivity |]. split.
    + apply Forall_app. split.
      * eapply Forall_impl; [exact Hno |]. apply unseen_send_other.
      * eapply Forall_impl; [exact Hsends |].
        intros [channel message ok | | |]; cbn; auto.
        intros (item & Hin & Hch & Hmsg & Hunseen). exists item.
        rewrite Hstore in Hunseen.
        destruct (Hitems item Hin) as [[] | Hin']. repeat split; assumption.
    + intros Hfp Hnone. rewrite (Hfirst Hnone), Hfp in Hmode. discriminate.
Qed.

End FirstRunClaim.

(* ===================================================================== *)
(** * The handler: stale items *)
(* ===================================================================== *)

Section Stale.
Import gofeed config rss.

(** With a configured number of hours whose duration fits an [int64], a
    dated item is stale exactly when its age exceeds that many hours. *)
Lemma stale_configured (feedConfig : FeedConfig) (item : Item) (w : World)
    (hours t : Z) :
  ArticleExpirationDurationHours feedConfig = Some hours ->
  PublishedParsed item = Some t ->
  0 <= hours * time.Hour < 2 ^ 63 ->
  fst (handler_new.stale feedConfig item w)
  = (time.Sub (clock w (step w)) t >? hours * time.Hour).
Proof.
  intros Hh Ht Hrange. unfold handler_new.stale. rewrite Ht, Hh.
  unfold time.Since, time.Now, time.mul, int64_wrap, bind, ret. cbn [fst snd].
  change (2 ^ 63) with 9223372036854775808 in *.
  change (2 ^ 64) with 18446744073709551616.
  rewrite Z.mod_small by lia.
  replace (hours * time.Hour + 9223372036854775808 - 9223372036854775808)
    with (hours * time.Hour) by lia.
  reflexivity.
Qed.

(** An item without a publish time is never stale, in either handler. *)
Lemma stale_undated (feedConfig : FeedConfig) (item : Item) (w : World) :
  PublishedParsed item = None ->
  fst (handler_new.stale feedConfig item w) = false /\
  fst (handler_go.stale feedConfig item w) = false.
Proof.
  intros Ht. unfold handler_new.stale, handler_go.stale. rewrite Ht.
  split; reflexivity.
Qed.

(** Without a configured value the newer handler never finds an item
    stale. *)
Lemma stale_unconfigured (feedConfig : FeedConfig) (item : Item) (w : World) :
  ArticleExpirationDurationHours feedConfig = None ->
  fst (handler_new.stale feedConfig item w) = false.
Proof.
  intros Hh. unfold handler_new.stale. rewrite Hh.
  destruct (PublishedParsed item); reflexivity.
Qed.

End Stale.

(* ===================================================================== *)
(** * Example runs of the handler *)
(* ===================================================================== *)

Section HandlerExamples.
Import examples gofeed config rss.

(** C6, the failing run. The feed configures no expiration. On 2024-03-01
    it returns one item, published on 2024-01-01, sixty days before. The
    newer handler does not find it stale and sends it; the handler of
    [internal/rss/handler.go], with its 30-day constant, skips it. *)
Theorem stale_default_missing :
  ArticleExpirationDurationHours eager_feed = None /\
  PublishedParsed item_C = Some jan01 /\
  time.Sub mar01 jan01 = 60 * 24 * time.Hour /\
  fst (handler_new.stale eager_feed item_C (quiet ∅ mar01 (inl [item_C]))) = false /\
  trace (snd (handler_new.processFeed empty_store eager_feed
                (quiet ∅ mar01 (inl [item_C]))))
  = [EvSend "@a" "C" true; EvMark feed_url "@a" "C"; EvSleep time.Second] /\
  fst (handler_go.stale eager_feed item_C (quiet ∅ mar01 (inl [item_C]))) = true /\
  trace (snd (handler_go.processFeed empty_store eager_feed
                (quiet ∅ mar01 (inl [item_C])))) = [].
Proof. vm_compute. repeat split. Qed.

(** C4, counterexample. First cycle of a feed with [first_push = false] and
    no bucket file: the feed returns an item that has a GUID but neither
    title nor link, and an ordinary one. Nothing is sent, the ordinary
    item is marked, but the item without title and link is not. *)
Lemma first_run_unmarked_item :
  let w := quiet ∅ mar01 (inl [untitled; item_A]) in
  let r := handler_new.processFeed empty_store quiet_feed w in
  fetch w (step w) feed_url = inl [untitled; item_A] /\
  FirstPush quiet_feed = false /\
  files w !! storage.GetBloomFilePath empty_store feed_url "@a" = None /\
  trace (snd r) = [EvMark feed_url "@a" "A"] /\
  storage.IsItemSeen (fst (fst r)) feed_url "example" "@a" (generateItemID item_A)
  = true /\
  storage.IsItemSeen (fst (fst r)) feed_url "example" "@a" (generateItemID untitled)
  = false.
Proof. vm_compute. repeat split. Qed.

(** The first cycle of the run above. *)
Lemma first_run_suppression_witness :
  let w := quiet ∅ mar01 (inl [untitled; item_A]) in
  let r := handler_new.processFeed empty_store quiet_feed w in
  fetch w (step w) (URL quiet_feed) = inl [untitled; item_A] /\
  exists evs,
    trace (snd r) = trace w ++ evs /\ count is_send evs = 0%nat /\
    storage.IsItemSeen (fst (fst r)) feed_url "example" "@a" (generateItemID item_A)
    = true.
Proof.
  intros w r.
  assert (fetch w (step w) (URL quiet_feed) = inl [untitled; item_A]) as H
    by reflexivity.
  split; [exact H |].
  destruct (first_run_suppression empty_store quiet_feed w [untitled; item_A] H)
    as (evs & Htrace & _ & Hfirst).
  assert (forall channel, In channel (Channels quiet_feed) ->
            files w !! storage.GetBloomFilePath empty_store (URL quiet_feed) channel
            = None) as Hnone by (intros channel _; reflexivity).
  destruct (Hfirst eq_refl Hnone) as [Hcount Hseen].
  exists evs. split; [exact Htrace |]. split; [exact Hcount |].
  apply (Hseen item_A "@a"%string); [right; left; reflexivity | reflexivity |].
  left. reflexivity.
Defined.

(** The feed [A; B; C] on an empty store, for channel "@a": the tasks are
    started for C, A and B, in that order. *)
Lemma order_oldest_first_witness :
  (Channels eager_feed = ["@a"%string] /\
   forall item,
     In item [item_A; item_B; item_C] ->
     storage.IsItemSeen empty_store (URL eager_feed) (Name eager_feed) "@a"
       (generateItemID item) = false /\
     is_empty (formatMessage item (Template eager_feed)) = false) /\
  map task_item (dispatch empty_store eager_feed (order [item_A; item_B; item_C]))
  = [item_C; item_A; item_B] /\
  map (fun t => (task_item t, task_channel t))
      (dispatch empty_store eager_feed (order [item_A; item_B; item_C]))
  = [(item_C, "@a"%string); (item_A, "@a"%string); (item_B, "@a"%string)].
Proof.
  assert (Channels eager_feed = ["@a"%string]) as H1 by reflexivity.
  assert (forall item,
            In item [item_A; item_B; item_C] ->
            storage.IsItemSeen empty_store (URL eager_feed) (Name eager_feed) "@a"
              (generateItemID item) = false /\
            is_empty (formatMessage item (Template eager_feed)) = false) as H2
    by (intros item [<- | [<- | [<- | []]]]; split; reflexivity).
  split; [split; assumption |].
  destruct (order_oldest_first empty_store eager_feed [item_A; item_B; item_C])
    as (_ & _ & Horder & Hpairs & Htasks).
  split; [exact (Htasks "@a"%string H1 H2) |].
  rewrite Hpairs, Horder. reflexivity.
Defined.


End HandlerExamples.

(* ===================================================================== *)
(** * The configuration: what [Validate] accepts *)
(* ===================================================================== *)

Section Validate.
Import config.

Lemma eqb_empty (s : string) : String.eqb s "" = false <-> s <> ""%string.
Proof.
  destruct (String.eqb_spec s ""); split; intros; congruence.
Qed.

Lemma lookup_true (m : gmap string bool) (k : string) :
  default false (m !! k) = true <-> m !! k = Some true.
Proof.
  destruct (m !! k) as [[|]|]; simpl; split; intros; congruence.
Qed.

Lemma lookup_not_true (m : gmap string bool) (k : string) :
  default false (m !! k) = false <-> m !! k <> Some true.
Proof.
  destruct (m !! k) as [[|]|]; simpl; split; intros; congruence.
Qed.

Lemma insert_true (m : gmap string bool) (k k' : string) :
  <[k := true]> m !! k' = Some true <-> k = k' \/ m !! k' = Some true.
Proof.
  destruct (decide (k = k')) as [->|Hne].
  - rewrite lookup_insert_eq. tauto.
  - rewrite lookup_insert_ne by exact Hne. tauto.
Qed.

(** What the loop accepts, from any state of its two maps. *)
Lemma validate_feeds_accepts (feeds : list FeedConfig)
    (names urlNamePairs : gmap string bool) :
  validate_feeds feeds names urlNamePairs = None <->
  Forall (fun feed => Name feed <> ""%string /\ URL feed <> ""%string /\
                      Channels feed <> []) feeds /\
  List.NoDup (map Name feeds) /\
  List.NoDup (map pair_of feeds) /\
  (forall feed, In feed feeds -> names !! Name feed <> Some true) /\
  (forall feed, In feed feeds -> urlNamePairs !! pair_of feed <> Some true).
Proof.
  revert names urlNamePairs.
  induction feeds as [|feed rest IH]; intros names pairs.
  - simpl. split; [intros _|reflexivity].
    repeat split; try constructor; intros ? [].
  - cbn [validate_feeds].
    destruct (String.eqb (Name feed) "") eqn:Hname.
    { split; [discriminate|].
      intros (Hall & _). inversion Hall as [|? ? (Hn & _) _]; subst.
      apply eqb_empty in Hn. congruence. }
    destruct (String.eqb (URL feed) "") eqn:Hurl.
    { split; [discriminate|].
      intros (Hall & _). inversion Hall as [|? ? (_ & Hu & _) _]; subst.
      apply eqb_empty in Hu. congruence. }
    destruct (length (Channels feed) =? 0)%nat eqn:Hch.
    { split; [discriminate|].
      intros (Hall & _). inversion Hall as [|? ? (_ & _ & Hc) _]; subst.
      apply Nat.eqb_eq in Hch. destruct (Channels feed); [congruence|discriminate]. }
    destruct (default false (names !! Name feed)) eqn:Hseen.
    { split; [discriminate|].
      intros (_ & _ & _ & Hnames & _).
      apply lookup_true in Hseen. exfalso. apply (Hnames feed); [left; reflexivity|exact Hseen]. }
    fold (pair_of feed).
    destruct (default false (pairs !! pair_of feed)) eqn:Hpair.
    { split; [discriminate|].
      intros (_ & _ & _ & _ & Hpairs).
      apply lookup_true in Hpair. exfalso. apply (Hpairs feed); [left; reflexivity|exact Hpair]. }
    apply eqb_empty in Hname, Hurl.
    apply lookup_not_true in Hseen, Hpair.
    assert (Channels feed <> []) as Hch'.
    { intros E. rewrite E in Hch. discriminate. }
    rewrite IH. clear IH.
    split.
    + intros (Hall & Hnd & Hpd & Hnames & Hpairs).
      split; [constructor; auto|].
      split.
      { simpl. constructor; [|exact Hnd].
        intros Hin. apply in_map_iff in Hin as (feed' & Heq & Hin).
        apply (Hnames feed' Hin). apply insert_true. left. congruence. }
      split.
      { simpl. constructor; [|exact Hpd].
        intros Hin. apply in_map_iff in Hin as (feed' & Heq & Hin).
        apply (Hpairs feed' Hin). apply insert_true. left. congruence. }
      split.
      { intros feed' [<-|Hin]; [exact Hseen|].
        intros Hl. apply (Hnames feed' Hin). apply insert_true. right. exact Hl. }
      { intros feed' [<-|Hin]; [exact Hpair|].
        intros Hl. apply (Hpairs feed' Hin). apply insert_true. right. exact Hl. }
    + intros (Hall & Hnd & Hpd & Hnames & Hpairs).
      inversion Hall; subst. simpl in Hnd, Hpd.
      apply List.NoDup_cons_iff in Hnd as (Hn1 & Hn2).
      apply List.NoDup_cons_iff in Hpd as (Hp1 & Hp2).
      split; [assumption|]. split; [assumption|]. split; [assumption|].
      split.
      { intros feed' Hin Hl. apply insert_true in Hl as [Heq|Hl].
        - apply Hn1. apply in_map_iff. exists feed'. split; [congruence|exact Hin].
        - apply (Hnames feed'); [right; exact Hin|exact Hl]. }
      { intros feed' Hin Hl. apply insert_true in Hl as [Heq|Hl].
        - apply Hp1. apply in_map_iff. exists feed'. split; [congruence|exact Hin].
        - apply (Hpairs feed'); [right; exact Hin|exact Hl]. }
Qed.

(** X1. [Validate] accepts a configuration exactly when the bot token is
    not empty, the check interval is positive, there is at least one feed,
    every feed has a name, a URL and at least one channel, no two feeds
    have the same name, and no two feeds have the same text
    [name|url]. Nothing else is checked: not the template, not the
    expiration hours, not the channel names. *)
Theorem Validate_accepts (c : Config) :
  Validate c = None <->
  BotToken (Telegram c) <> ""%string /\
  0 < CheckInterval (Telegram c) /\
  Feeds c <> [] /\
  Forall (fun feed => Name feed <> ""%string /\ URL feed <> ""%string /\
                      Channels feed <> []) (Feeds c) /\
  List.NoDup (map Name (Feeds c)) /\
  List.NoDup (map (fun feed => (Name feed ++ "|" ++ URL feed)%string) (Feeds c)).
Proof.
  unfold Validate.
  destruct (String.eqb (BotToken (Telegram c)) "") eqn:Htoken.
  { split; [discriminate|]. intros (Ht & _). apply eqb_empty in Ht. congruence. }
  destruct (CheckInterval (Telegram c) <=? 0) eqn:Hint.
  { split; [discriminate|]. intros (_ & Hi & _). apply Z.leb_le in Hint. lia. }
  destruct (length (Feeds c) =? 0)%nat eqn:Hlen.
  { split; [discriminate|]. intros (_ & _ & Hf & _).
    apply Nat.eqb_eq in Hlen. destruct (Feeds c); [congruence|discriminate]. }
  apply eqb_empty in Htoken. apply Z.leb_gt in Hint.
  rewrite validate_feeds_accepts.
  split.
  - intros (Hall & Hnd & Hpd & _ & _).
    repeat split; try assumption.
    intros E. rewrite E in Hlen. discriminate.
  - intros (_ & _ & _ & Hall & Hnd & Hpd).
    repeat split; try assumption; intros feed _; rewrite lookup_empty; discriminate.
Qed.

(** The error of the pair check comes from two feeds that the name check
    told apart. *)
Lemma validate_feeds_pair_error (feeds seen : list FeedConfig)
    (names urlNamePairs : gmap string bool) (pair : string) :
  validate_feeds feeds names urlNamePairs
  = Some (Errorf ("duplicate feed name and URL combination found: " ++ pair)) ->
  (forall feed, In feed seen -> names !! Name feed = Some true) ->
  (forall p, urlNamePairs !! p = Some true ->
             exists feed, In feed seen /\ pair_of feed = p) ->
  exists feed1 feed2,
    In feed1 (seen ++ feeds) /\ In feed2 (seen ++ feeds) /\
    Name feed1 <> Name feed2 /\
    pair_of feed1 = pair /\ pair_of feed2 = pair.
Proof.
  revert seen names urlNamePairs.
  induction feeds as [|feed rest IH]; intros seen names pairs Hv Hnames Hpairs.
  - discriminate.
  - cbn [validate_feeds] in Hv.
    destruct (String.eqb (Name feed) ""); [discriminate|].
    destruct (String.eqb (URL feed) ""); [discriminate|].
    destruct (length (Channels feed) =? 0)%nat; [discriminate|].
    destruct (default false (names !! Name feed)) eqn:Hseen; [discriminate|].
    fold (pair_of feed) in Hv.
    destruct (default false (pairs !! pair_of feed)) eqn:Hpair.
    + injection Hv as Hv. apply String.app_inj in Hv.
      apply lookup_true in Hpair. apply lookup_not_true in Hseen.
      destruct (Hpairs _ Hpair) as (feed1 & Hin & Heq).
      exists feed1, feed. repeat split.
      * apply in_or_app. left. exact Hin.
      * apply in_or_app. right. left. reflexivity.
      * intros E. apply Hseen. rewrite <- E. apply Hnames. exact Hin.
      * congruence.
      * exact Hv.
    + destruct (IH (seen ++ [feed]) _ _ Hv) as (feed1 & feed2 & H1 & H2 & H).
      * intros feed' Hin. apply insert_true.
        apply in_app_or in Hin as [Hin|[<-|[]]]; [right; auto|left; reflexivity].
      * intros p Hp. apply insert_true in Hp as [<-|Hp].
        -- exists feed. split; [apply in_or_app; right; left|]; reflexivity.
        -- destruct (Hpairs p Hp) as (feed' & Hin & Heq).
           exists feed'. split; [apply in_or_app; left; exact Hin|exact Heq].
      * rewrite <- List.app_assoc in H1, H2. simpl in H1, H2.
        exists feed1, feed2. tauto.
Qed.

(** X2. The error "duplicate feed name and URL combination" never reports
    two feeds with the same name and URL: feeds with the same name are
    stopped by the name check before. When [Validate] returns it, two
    feeds with different names have the same text [name|url], the
    separator being part of a name or of a URL. *)
Theorem Validate_pair_error (c : Config) (pair : string) :
  Validate c
  = Some (Errorf ("duplicate feed name and URL combination found: " ++ pair)) ->
  exists feed1 feed2,
    In feed1 (Feeds c) /\ In feed2 (Feeds c) /\
    Name feed1 <> Name feed2 /\
    (Name feed1 ++ "|" ++ URL feed1)%string = pair /\
    (Name feed2 ++ "|" ++ URL feed2)%string = pair.
Proof.
  unfold Validate.
  destruct (String.eqb (BotToken (Telegram c)) ""); [discriminate|].
  destruct (CheckInterval (Telegram c) <=? 0); [discriminate|].
  destruct (length (Feeds c) =? 0)%nat; [discriminate|].
  intros Hv.
  apply (validate_feeds_pair_error _ []) in Hv.
  - exact Hv.
  - intros ? [].
  - intros p Hp. rewrite lookup_empty in Hp. discriminate.
Qed.

End Validate.

(* ===================================================================== *)
(** * The store on disk: what a mark writes and what startup reads *)
(* ===================================================================== *)

Section StoreDisk.
Context {F : bloom.Filter}.
Import storage.

(** [loadChannelState] reads: the files, the oracles and the trace are as
    before. *)
Lemma loadChannelState_reads (s : Storage) (feedURL channel : string) (w : World) :
  let w' := snd (loadChannelState s feedURL channel w) in
  files w' = files w /\ trace w' = trace w /\ clock w' = clock w /\
  fault w' = fault w /\ (step w <= step w')%nat.
Proof.
  unfold loadChannelState.
  unfold reset_feed, os.Stat, os.OpenFile_RDONLY, os.ReadFull, time.Since,
    time.Now, failing, bind, ret.
  repeat (cbn [fst snd files clock fault step trace tick with_files states
               with_states];
          match goal with
          | |- context [match ?x with _ => _ end] =>
              lazymatch x with
              | context [match _ with _ => _ end] => fail
              | _ => destruct x eqn:?
              end
          end).
  all: cbn [fst snd files clock fault step trace tick with_files states
            with_states].
  all: repeat split; try reflexivity; lia.
Qed.

Lemma load_all_reads (names : list string) (s : Storage) (w : World) :
  let w' := snd (load_all s names w) in
  files w' = files w /\ trace w' = trace w /\ clock w' = clock w /\
  fault w' = fault w /\ (step w <= step w')%nat.
Proof.
  revert s w. induction names as [|name rest IH]; intros s w.
  - cbn. repeat split; reflexivity || lia.
  - cbn [load_all].
    destruct (parse_filename name) as [[|channel [|feedURL [|? ?]]]|].
    1, 2, 4: apply IH.
    2: cbn; repeat split; reflexivity || lia.
    unfold bind.
    pose proof (loadChannelState_reads s feedURL channel w) as Hl.
    destruct (loadChannelState s feedURL channel w) as [[s' [u|err]] w'].
    + cbn [snd] in Hl. destruct Hl as (Hf & Ht & Hc & Hfa & Hs).
      destruct (IH s' w') as (Hf' & Ht' & Hc' & Hfa' & Hs').
      cbv zeta. repeat split; try congruence. lia.
    + exact Hl.
Qed.

(** X3. Startup only reads. Whatever the data directory holds and whatever
    fails, [NewStorage] leaves every file as it is, an expired or
    unreadable bucket file included, and sends nothing. *)
Theorem NewStorage_reads_only (dataDir : string) (w : World) :
  files (snd (NewStorage dataDir w)) = files w /\
  trace (snd (NewStorage dataDir w)) = trace w.
Proof.
  unfold NewStorage, os.MkdirAll, os.Glob, failing, bind, ret.
  cbn [fst snd].
  destruct (fault w (step w)); [split; reflexivity|].
  destruct (fault (tick w) (step (tick w))); [split; reflexivity|].
  match goal with
  | |- context [load_all ?s ?names ?w0] =>
      destruct (load_all_reads names s w0) as (Hf & Ht & _)
  end.
  split; [exact Hf|exact Ht].
Qed.

Lemma parse_bucket_path (s : Storage) (feedURL channel : string) :
  ~ In "|"%char (list_ascii_of_string channel) ->
  parse_filename (GetBloomFilePath s feedURL channel) = Some [channel; feedURL].
Proof.
  intros Hch. unfold GetBloomFilePath, GenerateBloomFileName. cbv zeta.
  rewrite (proj1 (parse_filename_encoded _)).
  rewrite SplitN2_join by exact Hch. reflexivity.
Qed.

(** X4. Two buckets never share a file: for channels without ['|'], the
    path of the bucket file determines the channel and the feed URL. The
    restriction is needed, since the name encodes the two joined by
    ['|']: channel [a|b] of feed [c] and channel [a] of feed [b|c] have
    the same file. *)
Theorem GetBloomFilePath_injective (s s' : Storage)
    (feedURL channel feedURL' channel' : string) :
  ~ In "|"%char (list_ascii_of_string channel) ->
  ~ In "|"%char (list_ascii_of_string channel') ->
  GetBloomFilePath s feedURL channel = GetBloomFilePath s' feedURL' channel' ->
  channel = channel' /\ feedURL = feedURL'.
Proof.
  intros Hc Hc' Heq.
  pose proof (parse_bucket_path s feedURL channel Hc) as H1.
  pose proof (parse_bucket_path s' feedURL' channel' Hc') as H2.
  rewrite Heq, H2 in H1. injection H1 as -> ->. split; reflexivity.
Qed.

Lemma string_app_assoc (a b c : string) : ((a ++ b) ++ c = a ++ (b ++ c))%string.
Proof.
  induction a as [|x a IH]; [reflexivity|].
  change (String x ((a ++ b) ++ c) = String x (a ++ b ++ c))%string.
  now rewrite IH.
Qed.

Lemma GetBloomFilePath_ambiguous (s : Storage) (a b c : string) :
  GetBloomFilePath s c (a ++ "|" ++ b) = GetBloomFilePath s (b ++ "|" ++ c) a.
Proof.
  unfold GetBloomFilePath, GenerateBloomFileName. cbv zeta.
  replace ((a ++ "|" ++ b) ++ "|" ++ c)%string with (a ++ "|" ++ b ++ "|" ++ c)%string;
    [reflexivity|].
  symmetry. apply (string_app_assoc a ("|" ++ b) ("|" ++ c)).
Qed.

(** The loop stops with an error at a bucket file shorter than its
    timestamp, if not before. *)
Lemma load_all_short_file (names : list string) (feedURL channel : string)
    (content : bytes) (s0 : Storage) :
  In (GetBloomFilePath s0 feedURL channel) names ->
  ~ In "|"%char (list_ascii_of_string channel) ->
  (length content < 8)%nat ->
  forall (s : Storage) (w : World),
    files w !! GetBloomFilePath s0 feedURL channel = Some content ->
    exists err, fst (load_all s names w) = inr err.
Proof.
  intros Hin Hch Hlen.
  induction names as [|name rest IH]; intros s w Hfile; [destruct Hin|].
  cbn [load_all].
  destruct (decide (name = GetBloomFilePath s0 feedURL channel)) as [->|Hne].
  - rewrite parse_bucket_path by exact Hch.
    unfold bind, loadChannelState, os.Stat, failing, bind, ret.
    cbn [fst snd files tick].
    destruct (fault w (step w)).
    + cbn. eauto.
    + change (GetBloomFilePath s feedURL channel)
        with (GetBloomFilePath s0 feedURL channel).
      rewrite Hfile.
      assert ((Z.of_nat (length content) <? 8) = true) as -> by (apply Z.ltb_lt; lia).
      cbn. eauto.
  - destruct Hin as [Hin|Hin]; [congruence|].
    destruct (parse_filename name) as [[|channel' [|feedURL' [|? ?]]]|].
    1, 2, 4: apply IH; assumption.
    2: cbn; eauto.
    unfold bind.
    pose proof (loadChannelState_reads s feedURL' channel' w) as Hl.
    destruct (loadChannelState s feedURL' channel' w) as [[s' [u|err]] w'].
    + cbn [snd] in Hl. destruct Hl as (Hf & _).
      apply IH; [exact Hin|]. rewrite Hf. exact Hfile.
    + cbn. eauto.
Qed.

(** X5. A bucket file shorter than the eight bytes of its timestamp stops
    startup: whatever else the data directory holds and whatever the
    clock, [NewStorage] returns an error and no store. *)
Theorem NewStorage_short_file (dataDir : string) (w : World)
    (feedURL channel : string) (content : bytes) :
  ~ In "|"%char (list_ascii_of_string channel) ->
  files w !! GetBloomFilePath {| states := ∅; dataDir := dataDir |} feedURL channel
  = Some content ->
  (length content < 8)%nat ->
  exists err, fst (NewStorage dataDir w) = inr err.
Proof.
  intros Hch Hfile Hlen.
  set (s0 := {| states := ∅; dataDir := dataDir |}) in *.
  unfold NewStorage, bind. fold s0.
  destruct (os.MkdirAll dataDir w) as [[u|err] w1] eqn:Hmk; [|cbn; eauto].
  assert (files w1 = files w) as Hw1.
  { unfold os.MkdirAll, failing, bind, ret in Hmk. cbn in Hmk.
    injection Hmk as _ <-. reflexivity. }
  destruct (os.Glob bloomFileSuffix w1) as [[names|err] w2] eqn:Hglob; [|cbn; eauto].
  assert (files w2 = files w1) as Hw2.
  { unfold os.Glob, failing, bind in Hglob. cbn in Hglob.
    injection Hglob as _ <-. reflexivity. }
  apply (load_all_short_file names feedURL channel content s0); try assumption.
  - apply (Glob_names bloomFileSuffix w1 names); [rewrite Hglob; reflexivity|].
    split; [exists content; rewrite Hw1; exact Hfile|].
    apply HasSuffix_app.
  - rewrite Hw2, Hw1. exact Hfile.
Qed.

(** After a save that succeeded the temporary file is gone. *)
Lemma saveChannelState_temp (s : Storage) (feedURL channel : string)
    (state : ChannelState) (w : World) :
  let path := GetBloomFilePath s feedURL channel in
  let r := saveChannelState s feedURL channel state w in
  fst r = inl tt -> files (snd r) !! (path ++ ".tmp")%string = None.
Proof.
  intros path r. subst r.
  pose proof (temp_path_fresh path) as Htmp.
  unfold saveChannelState. fold path.
  unfold os.OpenFile_TRUNC, os.Write, os.Sync, os.Close, os.Rename, time.Now,
    failing, bind, ret.
  repeat (cbn [fst snd files clock fault step trace tick with_files];
          match goal with
          | |- context [fault w ?n] => destruct (fault w n) eqn:?
          end).
  all: rewrite ?lookup_insert_eq; cbn [default fst snd files clock fault step
                                          trace tick with_files app].
  all: try discriminate.
  intros _. rewrite lookup_insert_ne by congruence. apply lookup_delete_eq.
Qed.

(** What a mark does to the data directory. *)
Lemma MarkItemSeen_disk (s : Storage) (feedURL feedName channel itemID : string)
    (w : World) :
  let r := MarkItemSeen s feedURL feedName channel itemID w in
  let path := GetBloomFilePath s feedURL channel in
  (forall name, name <> path -> name <> (path ++ ".tmp")%string ->
                files (snd r) !! name = files w !! name) /\
  trace (snd r) = trace w /\
  (snd (fst r) = inl tt ->
   files (snd r) !! (path ++ ".tmp")%string = None /\
   exists state n,
     bucket (fst (fst r)) feedURL channel = Some state /\
     files (snd r) !! path
     = Some (binary.PutUint64 (uint64_wrap (time.UnixNano (clock w n)))
             ++ bloom.MarshalBinary (filter state))).
Proof.
  intros r path. subst r. rewrite MarkItemSeen_eq. cbv zeta.
  set (st0w := match bucket s feedURL channel with
               | Some st => (st, w)
               | None => (fresh (clock w (step w)), tick w)
               end).
  set (state := {| filter := bloom.Add (filter st0w.1) (list_ascii_of_string itemID);
                   updatedAt := clock w (step st0w.2) |}).
  assert (files st0w.2 = files w /\ trace st0w.2 = trace w /\ clock st0w.2 = clock w)
    as (Hf0 & Ht0 & Hc0).
  { subst st0w. destruct (bucket s feedURL channel); repeat split; reflexivity. }
  pose proof (saveChannelState_spec (put s feedURL channel state) feedURL channel
                state (tick st0w.2)) as Hspec.
  pose proof (saveChannelState_temp (put s feedURL channel state) feedURL channel
                state (tick st0w.2)) as Htemp.
  cbv zeta in Hspec, Htemp.
  change (GetBloomFilePath (put s feedURL channel state) feedURL channel)
    with path in Hspec, Htemp.
  destruct Hspec as (Hframe & _ & _ & _ & Htrace & Hfile).
  cbn [fst snd].
  split; [|split].
  - intros name H1 H2. rewrite (Hframe name H1 H2). cbn [files tick]. now rewrite Hf0.
  - rewrite Htrace. cbn [trace tick]. exact Ht0.
  - destruct (fst (saveChannelState (put s feedURL channel state) feedURL channel
                     state (tick st0w.2))) as [[]|err] eqn:Hres; [|discriminate].
    intros _. split; [apply Htemp; reflexivity|].
    exists state, (Datatypes.S (step (tick st0w.2))).
    split; [apply bucket_put_eq|].
    rewrite Hfile. cbn [clock tick]. rewrite Hc0. reflexivity.
Qed.


Lemma Glob_NoDup (suffix : string) (w : World) (names : list string) :
  fst (os.Glob suffix w) = inl names -> List.NoDup names.
Proof.
  unfold os.Glob, failing, bind. cbn [fst snd].
  destruct (fault w (step w)); [discriminate|].
  intros [= <-].
  eapply Permutation_NoDup; [symmetry; apply merge_sort_Permutation|].
  apply List.NoDup_filter.
  apply NoDup_ListNoDup.
  replace (map fst (map_to_list (files w))) with ((map_to_list (files w)).*1)
    by (induction (map_to_list (files w)) as [|? ? IH]; [reflexivity|cbn; now rewrite IH]).
  apply NoDup_fst_map_to_list.
Qed.

Lemma only_member {A} (l : list A) (a : A) :
  List.NoDup l -> (forall x, In x l <-> x = a) -> l = [a].
Proof.
  intros Hnd Hin.
  destruct l as [|x l'].
  - exfalso. apply (proj2 (Hin a) eq_refl).
  - assert (x = a) as -> by (apply Hin; left; reflexivity).
    f_equal. destruct l' as [|y l'']; [reflexivity|].
    assert (y = a) as -> by (apply Hin; right; left; reflexivity).
    apply List.NoDup_cons_iff in Hnd as (Hnot & _).
    exfalso. apply Hnot. left. reflexivity.
Qed.

Lemma Glob_only (suffix : string) (w : World) (name : string) (content : bytes) :
  fault w (step w) = false ->
  files w !! name = Some content ->
  strings.HasSuffix name suffix = true ->
  (forall other, strings.HasSuffix other suffix = true -> other <> name ->
                 files w !! other = None) ->
  os.Glob suffix w = (inl [name], tick w).
Proof.
  intros Hfault Hfile Hsuf Hothers.
  destruct (os.Glob suffix w) as [r w'] eqn:Hglob.
  assert (w' = tick w /\ exists names, r = inl names) as (-> & names & ->).
  { unfold os.Glob, failing, bind in Hglob. cbn [fst snd] in Hglob.
    rewrite Hfault in Hglob. injection Hglob as <- <-. eauto. }
  f_equal. f_equal.
  apply only_member.
  - apply (Glob_NoDup suffix w). rewrite Hglob. reflexivity.
  - intros x. rewrite (Glob_names suffix w names x) by (rewrite Hglob; reflexivity).
    split.
    + intros ((c & Hc) & Hx).
      destruct (decide (x = name)) as [->|Hne]; [reflexivity|].
      rewrite (Hothers x Hx Hne) in Hc. discriminate.
    + intros ->. eauto.
Qed.

(** X7. A mark survives a restart, for a channel whose name has no ['|']
    (startup splits the decoded file name at its first ['|'], so the
    bucket of a channel with one is read back under another name). After
    a mark for such a channel that succeeded, a process that starts on a
    data directory holding that bucket file and no other bucket file (a
    left-over temporary file is not one), with its reads succeeding and
    within the expiration window of the timestamp written, gets a store
    in which the bucket answers for every id as it did after the mark:
    the marked id is seen. The time of the bucket is the timestamp of the
    file, a clock reading of the call that marked. *)
Theorem restart_sees_marked (s : Storage)
    (feedURL feedName channel itemID : string) (w : World) :
  ~ In "|"%char (list_ascii_of_string channel) ->
  snd (fst (MarkItemSeen s feedURL feedName channel itemID w)) = inl tt ->
  let s1 := fst (fst (MarkItemSeen s feedURL feedName channel itemID w)) in
  let w1 := snd (MarkItemSeen s feedURL feedName channel itemID w) in
  let path := GetBloomFilePath s feedURL channel in
  exists content,
    files w1 !! path = Some content /\
    (exists n, stored_timestamp content = time.UnixNano (clock w n)) /\
    forall (dataDir : string) (w2 : World),
      files w2 !! path = Some content ->
      (forall other, strings.HasSuffix other bloomFileSuffix = true ->
                     other <> path -> files w2 !! other = None) ->
      (forall n, (n < 7)%nat -> fault w2 (n + step w2) = false) ->
      time.Sub (clock w2 (5 + step w2)) (stored_timestamp content)
        <= stateExpirationDuration ->
      exists s2,
        fst (NewStorage dataDir w2) = inl s2 /\
        IsItemSeen s2 feedURL feedName channel itemID = true /\
        (forall id, IsItemSeen s2 feedURL feedName channel id
                    = IsItemSeen s1 feedURL feedName channel id) /\
        GetLastUpdated s2 feedURL channel = Some (stored_timestamp content).
Proof.
  intros Hch Hok s1 w1 path.
  destruct (MarkItemSeen_disk s feedURL feedName channel itemID w)
    as (_ & _ & Hdisk).
  destruct (Hdisk Hok) as (_ & state & n & Hbucket & Hfile).
  fold w1 path in Hfile. fold s1 in Hbucket.
  set (stamp := binary.PutUint64 (uint64_wrap (time.UnixNano (clock w n)))) in *.
  assert (length stamp = 8%nat) as Hstamp by reflexivity.
  assert (8 < length (stamp ++ bloom.MarshalBinary (filter state)))%nat as Hlen.
  { rewrite length_app, Hstamp.
    pose proof (bloom.Marshal_nonempty (filter state)) as Hne.
    destruct (bloom.MarshalBinary (filter state)); [congruence|cbn; lia]. }
  exists (stamp ++ bloom.MarshalBinary (filter state)).
  split; [exact Hfile|].
  split; [exists n; apply stored_timestamp_written|].
  intros dataDir w2 Hfile2 Hothers Hfault Hage.
  destruct (bloom.Unmarshal_Marshal (filter state)) as (flt & Hun & Htest).
  set (content := stamp ++ bloom.MarshalBinary (filter state)) in *.
  set (s0 := {| states := ∅; dataDir := dataDir |}).
  assert (fst (NewStorage dataDir w2)
          = inl (put s0 feedURL channel
                   {| filter := flt; updatedAt := stored_timestamp content |}))
    as Hnew.
  { unfold NewStorage. fold s0.
    unfold bind at 1. unfold os.MkdirAll, failing, bind at 1, ret.
    cbn [fst snd].
    assert (fault w2 (step w2) = false) as -> by (apply (Hfault 0%nat); lia).
    unfold bind at 1.
    rewrite (Glob_only bloomFileSuffix (tick w2) path content).
    - cbn [load_all]. change path with (GetBloomFilePath s0 feedURL channel).
      rewrite parse_bucket_path by exact Hch.
      unfold bind at 1.
      pose proof (loadChannelState_fresh_file s0 feedURL channel (tick (tick w2))
                    content flt) as Hload.
      cbn [files step tick] in Hload.
      destruct (loadChannelState s0 feedURL channel (tick (tick w2)))
        as [[s' r] w4].
      cbn [fst] in Hload.
      assert ((s', r) = (put s0 feedURL channel
                           {| filter := flt;
                              updatedAt := stored_timestamp content |}, inl tt))
        as [= -> ->].
      { apply Hload.
        + exact Hfile2.
        + exact Hlen.
        + apply (Hfault 2%nat). lia.
        + apply (Hfault 3%nat). lia.
        + apply (Hfault 4%nat). lia.
        + apply (Hfault 6%nat). lia.
        + exact Hage.
        + subst content. rewrite skipn_app, skipn_all2 by lia.
          rewrite Hstamp, Nat.sub_diag. exact Hun. }
      reflexivity.
    - cbn [fault step tick]. apply (Hfault 1%nat). lia.
    - exact Hfile2.
    - apply HasSuffix_app.
    - exact Hothers. }
  eexists. split; [exact Hnew|].
  assert (forall id, IsItemSeen
                       (put s0 feedURL channel
                          {| filter := flt; updatedAt := stored_timestamp content |})
                       feedURL feedName channel id
                     = IsItemSeen s1 feedURL feedName channel id) as Hsame.
  { intros id. rewrite !IsItemSeen_bucket, bucket_put_eq, Hbucket.
    cbn [filter]. apply Htest. }
  split; [|split].
  - rewrite Hsame. apply MarkItemSeen_seen.
  - exact Hsame.
  - unfold GetLastUpdated.
    pose proof (bucket_put_eq s0 feedURL channel
                  {| filter := flt; updatedAt := stored_timestamp content |}) as Hb.
    unfold bucket in Hb.
    destruct (states _ !! feedURL); [rewrite Hb; reflexivity|discriminate].
Qed.

End StoreDisk.

(* ===================================================================== *)
(** * The handler: how long a delivery task waits *)
(* ===================================================================== *)

Section Sleeps.
Context {F : bloom.Filter} {S : sort.Sorter} {C : rss.Collaborators}.
Import gofeed config rss.

Lemma slept_app (evs evs' : list Event) : slept (evs ++ evs') = slept evs + slept evs'.
Proof.
  induction evs as [|e evs IH]; [reflexivity|].
  destruct e; cbn [slept app]; rewrite IH; lia.
Qed.

(** X8. A backoff sleeps for [2^attempt] seconds plus a jitter below half
    a second, whatever the random source draws, for the attempts 0 to 33,
    for which the delay fits a [Duration]. *)
Theorem backoff_delay (attempt : Z) (w : World) :
  0 <= attempt <= 33 ->
  exists d,
    trace (snd (ExponentialBackoffWithJitter attempt w))
    = trace w ++ [EvBackoff attempt; EvSleep d] /\
    2 ^ attempt * time.Second <= d
      < 2 ^ attempt * time.Second + 500 * time.Millisecond.
Proof.
  intros Hatt.
  unfold ExponentialBackoffWithJitter, Int63n, time.Sleep, log, bind, ret.
  cbn [fst snd trace step rand tick].
  eexists. split; [rewrite <- app_assoc; reflexivity|].
  unfold time.mul, int64_wrap.
  rewrite Z.shiftl_1_l.
  assert (0 < 2 ^ attempt <= 2 ^ 33) as Hpow.
  { split; [apply Z.pow_pos_nonneg; lia|apply Z.pow_le_mono_r; lia]. }
  pose proof (Z.mod_pos_bound (rand w (step w)) (500 * time.Millisecond)
                ltac:(reflexivity)) as Hj.
  change (2 ^ 33) with 8589934592 in Hpow.
  change (2 ^ 63) with 9223372036854775808.
  change (2 ^ 64) with 18446744073709551616.
  change time.Second with 1000000000 in *.
  change time.Millisecond with 1000000 in *.
  rewrite Z.mod_small by lia. lia.
Qed.

(** The time the retry loop sleeps, by its outcome. *)
Lemma send_loop_slept (channel message : string) (w : World) :
  let r := send_loop 3 0 channel message w in
  exists evs,
    trace (snd r) = trace w ++ evs /\
    Forall (fun e => is_mark e = false) evs /\
    (fst r = true -> 0 <= slept evs < 4 * time.Second) /\
    (fst r = false -> 3 * time.Second <= slept evs < 4 * time.Second) /\
    (fault w (step w) = false -> fst r = true /\ slept evs = 0).
Proof.
  pose proof (fun x => Z.mod_pos_bound x (500 * time.Millisecond)
                         ltac:(reflexivity)) as Hj.
  unfold send_loop, Send, ExponentialBackoffWithJitter, Int63n, time.Sleep,
    log, failing, bind, ret.
  io_cbn.
  destruct (fault w (step w)) eqn:F0; io_cbn.
  2: { eexists. split; [reflexivity|]. cbn.
       change time.Second with 1000000000.
       repeat split; try lia; try congruence; repeat constructor. }
  change (0 =? maxRetries - 1) with false. cbv iota. io_cbn.
  set (d0 := time.mul time.Second (Z.shiftl 1 0) +
             rand w (Datatypes.S (step w)) mod (500 * time.Millisecond)).
  assert (time.Second <= d0 < time.Second + 500 * time.Millisecond) as Hd0.
  { subst d0. specialize (Hj (rand w (Datatypes.S (step w)))).
    change (time.mul time.Second (Z.shiftl 1 0)) with time.Second. lia. }
  destruct (fault w (Datatypes.S (Datatypes.S (step w)))) eqn:F1; io_cbn.
  2: { eexists. split; [rewrite <- !app_assoc; reflexivity|]. cbn.
       change time.Second with 1000000000 in *.
       change time.Millisecond with 1000000 in *.
       repeat split; try lia; try congruence; repeat constructor. }
  change (0 + 1 =? maxRetries - 1) with false. cbv iota. io_cbn.
  set (d1 := time.mul time.Second (Z.shiftl 1 (0 + 1)) +
             rand w (Datatypes.S (Datatypes.S (Datatypes.S (step w))))
               mod (500 * time.Millisecond)).
  assert (2 * time.Second <= d1 < 2 * time.Second + 500 * time.Millisecond) as Hd1.
  { subst d1.
    specialize (Hj (rand w (Datatypes.S (Datatypes.S (Datatypes.S (step w)))))).
    change (time.mul time.Second (Z.shiftl 1 (0 + 1))) with (2 * time.Second). lia. }
  destruct (fault w (Datatypes.S (Datatypes.S (Datatypes.S (Datatypes.S (step w))))))
    eqn:F2; io_cbn.
  2: { eexists. split; [rewrite <- !app_assoc; reflexivity|]. cbn.
       change time.Second with 1000000000 in *.
       change time.Millisecond with 1000000 in *.
       repeat split; try lia; try congruence; repeat constructor. }
  change (0 + 1 + 1 =? maxRetries - 1) with true. cbv iota. io_cbn.
  eexists. split; [rewrite <- !app_assoc; reflexivity|]. cbn.
  change time.Second with 1000000000 in *.
  change time.Millisecond with 1000000 in *.
  repeat split; try lia; try congruence; repeat constructor.
Qed.

Lemma count_no_marks (evs : list Event) :
  Forall (fun e => is_mark e = false) evs -> count is_mark evs = 0%nat.
Proof.
  induction 1 as [|e evs He _ IH]; [reflexivity|].
  unfold count in *. cbn [List.filter]. rewrite He. exact IH.
Qed.

Lemma count_app (p : Event -> bool) (evs evs' : list Event) :
  count p (evs ++ evs') = (count p evs + count p evs')%nat.
Proof. unfold count. rewrite List.filter_app, length_app. reflexivity. Qed.

(** X9. How long a delivery task sleeps. Whatever the transport does and
    whatever the random source draws, one task sleeps at least one second
    and less than five: a backoff of one second, then of two seconds, each
    with a jitter below half a second, and the one-second pause after a
    mark. A task whose first send succeeds sleeps exactly one second; a
    task that gives up, without a mark, has slept between three and four
    seconds. *)
Theorem worker_sleeps (s : storage.Storage) (feedConfig : FeedConfig)
    (t : Task) (w : World) :
  exists evs,
    trace (snd (worker s feedConfig t w)) = trace w ++ evs /\
    time.Second <= slept evs < 5 * time.Second /\
    (fault w (step w) = false -> slept evs = time.Second) /\
    (count is_mark evs = 0%nat ->
     3 * time.Second <= slept evs < 4 * time.Second).
Proof.
  unfold worker. change (Z.to_nat maxRetries) with 3%nat.
  pose proof (send_loop_slept (task_channel t) (task_message t) w) as Hloop.
  cbv zeta in Hloop. destruct Hloop as (evs & Ht & Hnomark & Htrue & Hfalse & Hfirst).
  unfold bind at 1.
  destruct (send_loop 3 0 (task_channel t) (task_message t) w) as [ok w1].
  cbn [fst snd] in Ht, Htrue, Hfalse, Hfirst.
  destruct ok.
  - exists (evs ++ [EvMark (URL feedConfig) (task_channel t) (task_itemID t);
                    EvSleep time.Second]).
    rewrite worker_commit, Ht, <- app_assoc.
    split; [reflexivity|].
    rewrite slept_app, count_app. cbn [slept].
    specialize (Htrue eq_refl).
    change time.Second with 1000000000 in *.
    split; [lia|]. split.
    + intros F0. destruct (Hfirst F0) as (_ & ->). lia.
    + cbn. lia.
  - exists evs. unfold ret. cbn [fst snd].
    split; [exact Ht|].
    specialize (Hfalse eq_refl).
    change time.Second with 1000000000 in *.
    split; [lia|]. split.
    + intros F0. destruct (Hfirst F0) as (Hok & _). discriminate.
    + intros _. lia.
Qed.

End Sleeps.

(* ===================================================================== *)
(** * The handler: one whole cycle of a feed *)
(* ===================================================================== *)

Section Cycle.
Context {F : bloom.Filter} {S : sort.Sorter} {C : rss.Collaborators}.
Import gofeed config rss.

Lemma marks_follow_success_mono (evs : list Event) (b : bool) :
  marks_follow_success false evs = true -> marks_follow_success b evs = true.
Proof.
  destruct evs as [|[] evs]; cbn; auto. discriminate.
Qed.

Lemma marks_follow_success_app (evs evs' : list Event) (b : bool) :
  marks_follow_success b evs = true -> marks_follow_success false evs' = true ->
  marks_follow_success b (evs ++ evs') = true.
Proof.
  revert b. induction evs as [|e evs IH]; intros b H1 H2.
  - apply marks_follow_success_mono. exact H2.
  - destruct e; cbn in *; auto.
    apply andb_true_iff in H1 as [-> H1]. cbn. auto.
Qed.

Lemma evolves_weaken (P Q : string -> string -> Prop) (s s' : storage.Storage) :
  (forall f c, P f c -> Q f c) -> storage.evolves P s s' -> storage.evolves Q s s'.
Proof.
  intros HPQ. induction 1 as [|s s' f n c i w HP _ IH].
  - apply storage.evolves_refl.
  - eapply storage.evolves_mark; [apply HPQ; exact HP|exact IH].
Qed.

(** One task: its events are its own, a mark comes right after the send
    that got through and there is one for each such send, at most one; the
    store changes by that mark only, after which the id is seen. *)
Lemma worker_run (s : storage.Storage) (feedConfig : FeedConfig) (t : Task)
    (w : World) :
  let r := worker s feedConfig t w in
  exists evs,
    trace (snd r) = trace w ++ evs /\
    Forall (task_event feedConfig t) evs /\
    marks_follow_success false evs = true /\
    count is_delivered evs = count is_mark evs /\
    (count is_mark evs <= 1)%nat /\
    storage.evolves (fun f c => f = URL feedConfig /\ c = task_channel t) s (fst r) /\
    (count is_mark evs = 1%nat ->
     storage.IsItemSeen (fst r) (URL feedConfig) (Name feedConfig)
       (task_channel t) (task_itemID t) = true).
Proof.
  intros r.
  assert (r = let (ok, w1) := send_loop 3 0 (task_channel t) (task_message t) w in
              (if ok : bool
               then s' <- markSeen s feedConfig (task_channel t) (task_itemID t) ;;
                    _ <- time.Sleep time.Second ;; ret s'
               else ret s) w1) as -> by reflexivity.
  pose proof (send_loop_cases (task_channel t) (task_message t) w) as Hloop.
  cbv zeta in Hloop. destruct Hloop as (_ & d0 & d1 & Hcases).
  destruct (send_loop 3 0 (task_channel t) (task_message t) w) as [ok w1].
  cbn [fst snd] in Hcases.
  assert (let r := (s' <- markSeen s feedConfig (task_channel t) (task_itemID t) ;;
                    _ <- time.Sleep time.Second ;; ret s') w1 in
          storage.evolves (fun url ch => url = URL feedConfig /\ ch = task_channel t)
            s (fst r) /\
          storage.IsItemSeen (fst r) (URL feedConfig) (Name feedConfig)
            (task_channel t) (task_itemID t) = true) as (Hev & Hseen).
  { unfold markSeen, time.Sleep, log, bind, ret. cbn [fst snd].
    match goal with
    | |- context [storage.MarkItemSeen ?a1 ?a2 ?a3 ?a4 ?a5 ?a6] =>
        pose proof (MarkItemSeen_seen a1 a2 a3 a4 a5 a6) as Hseen;
        assert (storage.evolves
                  (fun url ch => url = URL feedConfig /\ ch = task_channel t) a1
                  (fst (fst (storage.MarkItemSeen a1 a2 a3 a4 a5 a6)))) as Hev
          by (eapply storage.evolves_mark; [split; reflexivity | apply storage.evolves_refl]);
        destruct (storage.MarkItemSeen a1 a2 a3 a4 a5 a6) as [[s1 r1] w2]
    end.
    cbn [fst snd] in *. split; assumption. }
  destruct Hcases as [(F0 & -> & Ht) | [(F0 & F1 & -> & Ht)
                     | [(F0 & F1 & F2 & -> & Ht) | (F0 & F1 & F2 & -> & Ht)]]].
  1-3: eexists; rewrite worker_commit, Ht, <- app_assoc;
       (split; [reflexivity|]);
       (split; [repeat constructor|]);
       cbn; repeat split; auto.
  eexists. unfold ret. cbn [fst snd]. rewrite Ht.
  split; [reflexivity|].
  split; [repeat constructor|].
  cbn. repeat split; auto; try apply storage.evolves_refl. discriminate.
Qed.

Lemma count_mark_of (feedConfig : FeedConfig) (t : Task) (channel itemID : string)
    (evs : list Event) :
  Forall (task_event feedConfig t) evs ->
  (count (is_mark_of (URL feedConfig) channel itemID) evs
   <= if task_of channel itemID t then count is_mark evs else 0)%nat.
Proof.
  induction 1 as [|e evs He _ IH]; [destruct (task_of _ _ _); reflexivity|].
  unfold count in *. cbn [List.filter].
  destruct e as [| | |f c i]; cbn [is_mark_of is_mark]; try exact IH.
  cbn in He. destruct He as (-> & -> & ->).
  unfold task_of in *. rewrite String.eqb_refl. cbn [andb].
  destruct (String.eqb (task_channel t) channel && String.eqb (task_itemID t) itemID);
    cbn [length]; lia.
Qed.

Lemma count_pos_In (p : Event -> bool) (evs : list Event) (e : Event) :
  In e evs -> p e = true -> (1 <= count p evs)%nat.
Proof.
  intros Hin Hp. unfold count.
  assert (In e (List.filter p evs)) as H by (apply filter_In; auto).
  destruct (List.filter p evs); [destruct H|cbn; lia].
Qed.

(** The tasks of a cycle, run one after the other. *)
Lemma run_tasks_run (feedConfig : FeedConfig) (tasks : list Task)
    (s : storage.Storage) (w : World) :
  let r := run_tasks s feedConfig tasks w in
  exists evs,
    trace (snd r) = trace w ++ evs /\
    Forall (fun e => exists t, In t tasks /\ task_event feedConfig t e) evs /\
    marks_follow_success false evs = true /\
    count is_delivered evs = count is_mark evs /\
    (forall channel itemID,
       (count (is_mark_of (URL feedConfig) channel itemID) evs
        <= length (List.filter (task_of channel itemID) tasks))%nat) /\
    storage.evolves
      (fun url ch => url = URL feedConfig /\ exists t, In t tasks /\ ch = task_channel t)
      s (fst r) /\
    (forall url ch id, In (EvMark url ch id) evs ->
       storage.IsItemSeen (fst r) url (Name feedConfig) ch id = true).
Proof.
  revert s w. induction tasks as [|t tasks IH]; intros s w r; subst r.
  - exists []. cbn. rewrite app_nil_r.
    repeat split; auto; constructor.
  - cbn [run_tasks]. unfold bind.
    destruct (worker_run s feedConfig t w)
      as (evs1 & Ht1 & Hall1 & Hm1 & Hd1 & Hone & Hev1 & Hseen1).
    destruct (worker s feedConfig t w) as [s1 w1]. cbn [fst snd] in *.
    destruct (IH s1 w1) as (evs2 & Ht2 & Hall2 & Hm2 & Hd2 & Hcnt2 & Hev2 & Hseen2).
    exists (evs1 ++ evs2).
    split; [rewrite Ht2, Ht1, app_assoc; reflexivity|].
    split.
    { apply Forall_app. split.
      - eapply List.Forall_impl; [|exact Hall1]. intros e He. exists t. split; [left; reflexivity|exact He].
      - eapply List.Forall_impl; [|exact Hall2].
        intros e (t' & Hin & He). exists t'. split; [right; exact Hin|exact He]. }
    split; [apply marks_follow_success_app; assumption|].
    split; [rewrite !count_app; congruence|].
    split.
    { intros channel itemID. rewrite count_app. cbn [List.filter].
      pose proof (count_mark_of feedConfig t channel itemID evs1 Hall1) as H1.
      specialize (Hcnt2 channel itemID).
      destruct (task_of channel itemID t); cbn [length]; lia. }
    split.
    { eapply evolves_trans.
      - eapply evolves_weaken; [|exact Hev1].
        intros f c (-> & ->). split; [reflexivity|]. exists t. split; [left|]; reflexivity.
      - eapply evolves_weaken; [|exact Hev2].
        intros f c (-> & t' & Hin & ->). split; [reflexivity|]. exists t'. split; [right; exact Hin|reflexivity]. }
    intros url ch id Hin. apply in_app_or in Hin as [Hin|Hin].
    + eapply evolves_seen; [exact Hev2|].
      pose proof (proj1 (List.Forall_forall _ _) Hall1 _ Hin) as He.
      cbn in He. destruct He as (-> & -> & ->).
      apply Hseen1.
      pose proof (count_pos_In is_mark evs1 _ Hin eq_refl). lia.
    + apply Hseen2. exact Hin.
Qed.

(** A task started by the dispatch loop. *)
Lemma dispatch_task (s : storage.Storage) (feedConfig : FeedConfig)
    (items : list Item) (t : Task) :
  In t (dispatch s feedConfig items) ->
  In (task_item t) items /\
  task_itemID t = generateItemID (task_item t) /\
  In (task_channel t) (Channels feedConfig) /\
  task_message t = formatMessage (task_item t) (Template feedConfig) /\
  is_empty (task_message t) = false /\
  storage.IsItemSeen s (URL feedConfig) (Name feedConfig) (task_channel t)
    (task_itemID t) = false.
Proof.
  unfold dispatch. rewrite in_flat_map. intros (item & Hitem & Hin).
  rewrite in_flat_map in Hin. destruct Hin as (channel & Hch & Hin).
  destruct (storage.IsItemSeen s _ _ channel _) eqn:Hseen; [destruct Hin |].
  destruct (is_empty _) eqn:Hmsg; [destruct Hin |].
  destruct Hin as [<- | []]. cbn. repeat split; assumption.
Qed.

Lemma filter_task_of_channels (s : storage.Storage) (feedConfig : FeedConfig)
    (item : Item) (channels : list string) (channel itemID : string) :
  List.NoDup channels ->
  (length (List.filter (task_of channel itemID)
     (flat_map (fun ch =>
        if storage.IsItemSeen s (URL feedConfig) (Name feedConfig) ch
             (generateItemID item)
        then []
        else
          if is_empty (formatMessage item (Template feedConfig)) then []
          else [{| task_channel := ch; task_item := item;
                   task_itemID := generateItemID item;
                   task_message := formatMessage item (Template feedConfig) |}])
        channels))
   <= if String.eqb (generateItemID item) itemID then 1 else 0)%nat.
Proof.
  induction 1 as [|ch channels Hnot Hnd IH].
  - cbn. destruct (String.eqb _ _); lia.
  - cbn [flat_map]. rewrite List.filter_app, length_app.
    assert (length (List.filter (task_of channel itemID)
              (flat_map (fun ch =>
                 if storage.IsItemSeen s (URL feedConfig) (Name feedConfig) ch
                      (generateItemID item)
                 then []
                 else
                   if is_empty (formatMessage item (Template feedConfig)) then []
                   else [{| task_channel := ch; task_item := item;
                            task_itemID := generateItemID item;
                            task_message := formatMessage item (Template feedConfig) |}])
                 channels)) = 0%nat \/ ch <> channel) as Hrest.
    { destruct (decide (ch = channel)) as [->|Hne]; [left|right; exact Hne].
      clear IH Hnd. induction channels as [|c channels IHc]; [reflexivity|].
      cbn [flat_map]. rewrite List.filter_app, length_app.
      rewrite IHc by (intros Hin; apply Hnot; right; exact Hin).
      assert (c <> channel) as Hc by (intros ->; apply Hnot; left; reflexivity).
      destruct (storage.IsItemSeen _ _ _ c _); [reflexivity|].
      destruct (is_empty _); [reflexivity|].
      cbn. unfold task_of. cbn.
      destruct (String.eqb_spec c channel); [congruence|reflexivity]. }
    destruct (storage.IsItemSeen _ _ _ ch _); [cbn [List.filter length]; lia|].
    destruct (is_empty _); [cbn [List.filter length]; lia|].
    cbn [List.filter]. unfold task_of at 1. cbn [task_channel task_itemID].
    destruct (String.eqb_spec ch channel) as [->|Hne]; cbn [andb].
    + destruct Hrest as [->|Hne]; [|congruence].
      destruct (String.eqb _ _); cbn [length]; lia.
    + cbn [length]. lia.
Qed.

(** With distinct ids and distinct channels, the dispatch loop starts at
    most one task for an item and a channel. *)
Lemma dispatch_once (s : storage.Storage) (feedConfig : FeedConfig)
    (items : list Item) (channel itemID : string) :
  List.NoDup (map generateItemID items) ->
  List.NoDup (Channels feedConfig) ->
  (length (List.filter (task_of channel itemID) (dispatch s feedConfig items)) <= 1)%nat.
Proof.
  intros Hids Hch. unfold dispatch.
  induction items as [|item items IH]; [cbn; lia|].
  cbn [flat_map map] in *. rewrite List.filter_app, length_app.
  apply List.NoDup_cons_iff in Hids as (Hnot & Hids).
  specialize (IH Hids).
  pose proof (filter_task_of_channels s feedConfig item (Channels feedConfig)
                channel itemID Hch) as Hitem.
  destruct (String.eqb_spec (generateItemID item) itemID) as [Heq|Hne]; [|lia].
  assert (length (List.filter (task_of channel itemID)
            (flat_map (fun item =>
               let itemID := generateItemID item in
               flat_map (fun ch =>
                 if storage.IsItemSeen s (URL feedConfig) (Name feedConfig) ch itemID
                 then []
                 else
                   let message := formatMessage item (Template feedConfig) in
                   if is_empty message then []
                   else [{| task_channel := ch; task_item := item;
                            task_itemID := itemID; task_message := message |}])
                 (Channels feedConfig)) items)) = 0%nat) as Hzero.
  { destruct (List.filter _ _) as [|t ts] eqn:Hf; [reflexivity|exfalso].
    assert (In t (List.filter (task_of channel itemID) (dispatch s feedConfig items)))
      as Hin by (unfold dispatch; rewrite Hf; left; reflexivity).
    apply filter_In in Hin as (Hin & Ht).
    apply dispatch_task in Hin as (Hitem' & Hid & _).
    unfold task_of in Ht. apply andb_true_iff in Ht as (_ & Ht).
    apply String.eqb_eq in Ht.
    apply Hnot. apply in_map_iff. exists (task_item t). split; [congruence|exact Hitem']. }
  cbv zeta in Hzero. cbv zeta. rewrite Hzero. lia.
Qed.

Lemma filter_Permutation {A} (p : A -> bool) (l : list A) :
  Permutation (List.filter p l ++ List.filter (fun x => negb (p x)) l) l.
Proof.
  induction l as [|x l IH]; [constructor|].
  cbn [List.filter]. destruct (p x); cbn [negb app].
  - constructor. exact IH.
  - etransitivity; [symmetry; apply Permutation_middle|]. constructor. exact IH.
Qed.

(** The ordering pass rearranges, no more. *)
Lemma order_Permutation (items : list Item) : Permutation (order items) items.
Proof.
  destruct (order_parts items) as (withTime & -> & Hperm & _).
  etransitivity; [|apply (filter_Permutation has_time)].
  apply Permutation_app_tail. exact Hperm.
Qed.

(** An item whose id was not met in this run keeps the ids distinct. *)
Lemma distinct_ids_snoc (c : Candidates) (item : Item) :
  default false (seenInThisRun c !! generateItemID item) = false ->
  distinct_ids c ->
  distinct_ids {| newItems := newItems c ++ [item];
                  seenInThisRun := <[generateItemID item := true]> (seenInThisRun c);
                  store := store c |}.
Proof.
  intros Hseen (Hnd & Hrec). split; cbn [newItems seenInThisRun].
  - rewrite map_app. cbn [map].
    apply NoDup_ListNoDup, NoDup_app. split; [apply NoDup_ListNoDup; exact Hnd|].
    split; [|apply NoDup_singleton].
    intros id Hin Hin'. apply list_elem_of_In in Hin.
    apply list_elem_of_In in Hin'. destruct Hin' as [<-|[]].
    apply in_map_iff in Hin as (item' & Heq & Hin).
    apply Hrec in Hin. rewrite Heq in Hin. rewrite Hin in Hseen. discriminate.
  - intros item' Hin. apply in_app_or in Hin as [Hin|[<-|[]]].
    + apply insert_true. right. apply Hrec. exact Hin.
    + apply insert_true. left. reflexivity.
Qed.

Lemma go_candidate (feedConfig : FeedConfig) (c : Candidates) (item : Item)
    (w : World) :
  let r := handler_go.candidate feedConfig c item w in
  store (fst r) = store c /\ trace (snd r) = trace w /\
  clock (snd r) = clock w /\ (step w <= step (snd r))%nat /\
  (distinct_ids c -> distinct_ids (fst r)) /\
  (newItems (fst r) = newItems c \/
   newItems (fst r) = newItems c ++ [item] /\
   addressable item = true /\ recent w item).
Proof.
  unfold handler_go.candidate, handler_go.stale, time.Since, time.Now, bind, ret.
  unfold addressable.
  assert (forall w' : World,
            clock w' = clock w -> (step w <= step w')%nat -> trace w' = trace w ->
            store c = store c /\ trace w' = trace w /\
            clock w' = clock w /\ (step w <= step w')%nat /\
            (distinct_ids c -> distinct_ids c) /\
            (newItems c = newItems c \/
             newItems c = newItems c ++ [item] /\
             negb (is_empty (Title item) && is_empty (Link item)) = true /\
             recent w item)) as Hsame.
  { intros w' Hc Hs Ht.
    split; [reflexivity|]. split; [exact Ht|]. split; [exact Hc|].
    split; [exact Hs|]. split; [intros H; exact H|left; reflexivity]. }
  destruct (is_empty (Title item) && is_empty (Link item)); cbv beta iota;
    [apply Hsame; auto|].
  destruct (default false (seenInThisRun c !! generateItemID item)) eqn:Hseen;
    cbv beta iota; [apply Hsame; auto|].
  destruct (allChannelsProcessed (store c) feedConfig (generateItemID item));
    cbv beta iota; [apply Hsame; auto|].
  pose proof (distinct_ids_snoc c item Hseen) as Hkeep.
  destruct (PublishedParsed item) as [t|] eqn:Hdate.
  - cbn [fst snd]. destruct (time.Sub (clock w (step w)) t >? _) eqn:Hold.
    + apply (Hsame (tick w)); cbn [clock step trace tick]; auto.
    + cbn [fst snd newItems store trace clock step tick].
      split; [reflexivity|]. split; [reflexivity|]. split; [reflexivity|].
      split; [lia|]. split; [exact Hkeep|].
      right. split; [reflexivity|]. split; [reflexivity|].
      intros t' Ht'. rewrite Hdate in Ht'. injection Ht' as <-.
      exists (step w). split; [lia|].
      rewrite Z.gtb_ltb in Hold. apply Z.ltb_ge in Hold. exact Hold.
  - cbn [fst snd newItems store trace clock step tick].
    split; [reflexivity|]. split; [reflexivity|]. split; [reflexivity|].
    split; [lia|]. split; [exact Hkeep|].
    right. split; [reflexivity|]. split; [reflexivity|].
    intros t' Ht'. rewrite Hdate in Ht'. discriminate.
Qed.

Lemma recent_later (w w' : World) (item : Item) :
  clock w' = clock w -> (step w <= step w')%nat -> recent w' item -> recent w item.
Proof.
  intros Hc Hs Hr t Ht. destruct (Hr t Ht) as (n & Hn & Hage).
  exists n. split; [lia|]. rewrite <- Hc. exact Hage.
Qed.

(** The candidate loop of [internal/rss/handler.go]: it leaves the store
    and the trace alone and keeps items of the feed that have a title or a
    link and are not stale, each id once. *)
Lemma go_candidates (feedConfig : FeedConfig) (items : list Item)
    (c : Candidates) (w : World) :
  let r := for_each (handler_go.candidate feedConfig) c items w in
  store (fst r) = store c /\ trace (snd r) = trace w /\
  clock (snd r) = clock w /\ (step w <= step (snd r))%nat /\
  (distinct_ids c -> distinct_ids (fst r)) /\
  (forall item, In item (newItems (fst r)) ->
     In item (newItems c) \/
     In item items /\ addressable item = true /\ recent w item).
Proof.
  revert c w. induction items as [|x items IH]; intros c w r; subst r.
  - cbn [for_each ret fst snd].
    split; [reflexivity|]. split; [reflexivity|]. split; [reflexivity|].
    split; [lia|]. split; [intros H; exact H|]. intros item Hin. left. exact Hin.
  - cbn [for_each]. unfold bind.
    pose proof (go_candidate feedConfig c x w) as Hstep. cbv zeta in Hstep.
    destruct (handler_go.candidate feedConfig c x w) as [c1 w1].
    cbn [fst snd] in Hstep.
    destruct Hstep as (Hs1 & Ht1 & Hc1 & Hn1 & Hd1 & Hnew).
    destruct (IH c1 w1) as (Hs2 & Ht2 & Hc2 & Hn2 & Hd2 & Hin2).
    split; [congruence|]. split; [congruence|]. split; [congruence|].
    split; [lia|]. split; [auto|].
    intros item Hin. apply Hin2 in Hin as [Hin|(Hin & Ha & Hr)].
    + destruct Hnew as [Hnew|(Hnew & Ha & Hr)]; rewrite Hnew in Hin; [left; exact Hin|].
      apply in_app_or in Hin as [Hin|[<-|[]]]; [left; exact Hin|].
      right. split; [left; reflexivity|]. split; assumption.
    + right. split; [right; exact Hin|]. split; [exact Ha|].
      eapply recent_later; eassumption.
Qed.

Lemma go_cycle (s : storage.Storage) (feedConfig : FeedConfig) (w : World)
    (items : list Item) :
  fetch w (step w) (URL feedConfig) = inl items ->
  let r := handler_go.processFeed s feedConfig w in
  snd (fst r) = inl tt /\
  exists evs,
    trace (snd r) = trace w ++ evs /\
    Forall (cycle_event s feedConfig items w) evs /\
    marks_follow_success false evs = true /\
    count is_delivered evs = count is_mark evs /\
    (List.NoDup (Channels feedConfig) ->
     forall channel itemID,
       (count (is_mark_of (URL feedConfig) channel itemID) evs <= 1)%nat) /\
    storage.evolves (fun url ch => url = URL feedConfig /\ In ch (Channels feedConfig))
      s (fst (fst r)) /\
    (forall url ch id, In (EvMark url ch id) evs ->
       storage.IsItemSeen (fst (fst r)) url (Name feedConfig) ch id = true).
Proof.
  intros Hfetch r.
  assert (r = (if (length items =? 0)%nat then ret (s, inl tt)
               else c <- for_each (handler_go.candidate feedConfig)
                           {| newItems := []; seenInThisRun := ∅; store := s |} items ;;
                    deliver c feedConfig) (tick w)) as ->.
  { subst r. unfold handler_go.processFeed, ParseURL. unfold bind at 1.
    rewrite Hfetch. reflexivity. }
  destruct (length items =? 0)%nat.
  { unfold ret. cbn [fst snd trace tick]. split; [reflexivity|].
    exists []. rewrite app_nil_r.
    split; [reflexivity|]. split; [constructor|]. split; [reflexivity|].
    split; [reflexivity|]. split; [intros; cbn; lia|].
    split; [apply storage.evolves_refl|]. intros ? ? ? []. }
  pose proof (go_candidates feedConfig items
                {| newItems := []; seenInThisRun := ∅; store := s |} (tick w)) as Hc.
  cbv zeta in Hc.
  unfold bind.
  destruct (for_each (handler_go.candidate feedConfig)
              {| newItems := []; seenInThisRun := ∅; store := s |} items (tick w))
    as [c w1].
  cbn [fst snd store newItems trace clock step tick] in Hc.
  destruct Hc as (Hstore & Htrace & Hclock & Hstep & Hdistinct & Hitems).
  assert (distinct_ids c) as (Hnd & _).
  { apply Hdistinct. split; [constructor|intros ? []]. }
  unfold deliver, bind, ret. rewrite !Hstore.
  pose proof (run_tasks_run feedConfig
                (dispatch s feedConfig (order (newItems c))) s w1) as Hrun.
  cbv zeta in Hrun.
  destruct (run_tasks s feedConfig
              (dispatch s feedConfig (order (newItems c))) w1) as [s' w2].
  cbn [fst snd] in *.
  destruct Hrun as (evs & Ht & Hall & Hm & Hd & Hcnt & Hev & Hseen).
  split; [reflexivity|].
  exists evs. split; [rewrite Ht, Htrace; reflexivity|].
  assert (forall t, In t (dispatch s feedConfig (order (newItems c))) ->
            In (task_item t) items /\ addressable (task_item t) = true /\
            recent w (task_item t) /\
            task_itemID t = generateItemID (task_item t) /\
            In (task_channel t) (Channels feedConfig) /\
            task_message t = formatMessage (task_item t) (Template feedConfig) /\
            task_message t <> ""%string /\
            storage.IsItemSeen s (URL feedConfig) (Name feedConfig) (task_channel t)
              (task_itemID t) = false) as Htask.
  { intros t Hin. apply dispatch_task in Hin as (Hitem & Hid & Hch & Hmsg & Hne & Hunseen).
    apply (Permutation_in _ (order_Permutation _)) in Hitem.
    apply Hitems in Hitem as [[]|(Hitem & Ha & Hr)].
    repeat split; try assumption.
    - eapply recent_later; [| |exact Hr]; cbn [clock step tick]; [reflexivity|lia].
    - intros E. rewrite E in Hne. discriminate. }
  split.
  { eapply List.Forall_impl; [|exact Hall].
    intros e (t & Hin & He). apply Htask in Hin.
    destruct Hin as (Hitem & Ha & Hr & Hid & Hch & Hmsg & Hne & Hunseen).
    destruct e as [channel message ok| | |url channel itemID]; cbn in *; auto.
    - destruct He as (-> & ->). exists (task_item t).
      rewrite <- Hid. repeat split; assumption.
    - destruct He as (-> & -> & ->). split; [reflexivity|]. split; [exact Hch|].
      exists (task_item t). split; assumption. }
  split; [exact Hm|]. split; [exact Hd|].
  split.
  { intros Hchannels channel itemID.
    etransitivity; [apply Hcnt|].
    apply dispatch_once; [|exact Hchannels].
    eapply Permutation_NoDup; [|exact Hnd].
    apply Permutation_map. symmetry. apply order_Permutation. }
  split.
  { eapply evolves_weaken; [|exact Hev].
    intros url ch (-> & t & Hin & ->). split; [reflexivity|].
    apply Htask in Hin. tauto. }
  exact Hseen.
Qed.

(** X11. No item is committed twice in a cycle. When the channels of the
    feed are distinct, a cycle of [processFeed] marks an id for a channel
    at most once, even if the feed lists the item several times; since
    there are as many sends that got through as marks, an item is
    delivered to a channel at most once per cycle. *)
Theorem processFeed_marks_once (s : storage.Storage) (feedConfig : FeedConfig)
    (w : World) (items : list Item) :
  fetch w (step w) (URL feedConfig) = inl items ->
  List.NoDup (Channels feedConfig) ->
  exists evs,
    trace (snd (handler_go.processFeed s feedConfig w)) = trace w ++ evs /\
    count is_delivered evs = count is_mark evs /\
    forall channel itemID,
      (count (is_mark_of (URL feedConfig) channel itemID) evs <= 1)%nat.
Proof.
  intros Hfetch Hch.
  destruct (go_cycle s feedConfig w items Hfetch)
    as (_ & evs & Ht & _ & _ & Hd & Honce & _).
  exists evs. split; [exact Ht|]. split; [exact Hd|]. apply Honce. exact Hch.
Qed.

(** X12. What was marked is not sent again. Take a cycle of a feed, any
    store that the store it leaves evolves into, and a later cycle of the
    same feed on that store, in any world. If the first cycle marked an
    id for a channel, every send of the later cycle to that channel
    delivers an item with another id. *)
Theorem processFeed_no_resend (s s2 : storage.Storage) (feedConfig : FeedConfig)
    (w w2 : World) (items2 : list Item) (evs1 evs2 : list Event) :
  let r1 := handler_go.processFeed s feedConfig w in
  let r2 := handler_go.processFeed s2 feedConfig w2 in
  (exists items, fetch w (step w) (URL feedConfig) = inl items) ->
  fetch w2 (step w2) (URL feedConfig) = inl items2 ->
  trace (snd r1) = trace w ++ evs1 ->
  storage.evolves (fun _ _ => True) (fst (fst r1)) s2 ->
  trace (snd r2) = trace w2 ++ evs2 ->
  Forall (fun e =>
            match e with
            | EvSend channel message _ =>
                exists item,
                  In item items2 /\
                  message = formatMessage item (Template feedConfig) /\
                  ~ In (EvMark (URL feedConfig) channel (generateItemID item)) evs1
            | _ => True
            end) evs2.
Proof.
  intros r1 r2 (items & Hfetch) Hfetch2 Ht1 Hev Ht2.
  destruct (go_cycle s feedConfig w items Hfetch)
    as (_ & evs1' & Ht1' & _ & _ & _ & _ & _ & Hseen).
  fold r1 in Ht1', Hseen. rewrite Ht1 in Ht1'. apply app_inv_head in Ht1'. subst evs1'.
  destruct (go_cycle s2 feedConfig w2 items2 Hfetch2)
    as (_ & evs2' & Ht2' & Hall & _).
  fold r2 in Ht2'. rewrite Ht2 in Ht2'. apply app_inv_head in Ht2'. subst evs2'.
  eapply List.Forall_impl; [|exact Hall].
  intros [channel message ok| | |]; cbn; auto.
  intros (item & Hin & _ & _ & _ & Hmsg & _ & Hunseen).
  exists item. split; [exact Hin|]. split; [exact Hmsg|].
  intros Hmark. apply Hseen in Hmark.
  eapply evolves_seen in Hmark; [|exact Hev].
  rewrite Hmark in Hunseen. discriminate.
Qed.

(** ** Without failures *)

Lemma MarkItemSeen_fault (s : storage.Storage)
    (feedURL feedName channel itemID : string) (w : World) :
  fault (snd (storage.MarkItemSeen s feedURL feedName channel itemID w)) = fault w.
Proof.
  rewrite MarkItemSeen_eq. cbv zeta. cbn [snd].
  match goal with
  | |- context [storage.saveChannelState ?a1 ?a2 ?a3 ?a4 ?a5] =>
      destruct (saveChannelState_spec a1 a2 a3 a4 a5) as (_ & _ & Hf & _)
  end.
  rewrite Hf. cbn [fault tick].
  destruct (storage.bucket s feedURL channel); reflexivity.
Qed.

Lemma send_loop_first (remaining : nat) (i : Z) (channel message : string)
    (w : World) :
  fault w (step w) = false ->
  send_loop (Datatypes.S remaining) i channel message w
  = (true, snd (log (EvSend channel message true) (tick w))).
Proof.
  intros Hf. cbn [send_loop]. unfold Send, failing, bind, ret. cbn [fst snd].
  rewrite Hf. cbn [negb]. destruct (log _ _). reflexivity.
Qed.

(** A task in a reliable world: one send, which gets through, then the
    mark. *)
Lemma worker_reliable (s : storage.Storage) (feedConfig : FeedConfig) (t : Task)
    (w : World) :
  reliable w ->
  let r := worker s feedConfig t w in
  reliable (snd r) /\
  trace (snd r)
  = trace w ++ [EvSend (task_channel t) (task_message t) true;
                EvMark (URL feedConfig) (task_channel t) (task_itemID t);
                EvSleep time.Second] /\
  storage.IsItemSeen (fst r) (URL feedConfig) (Name feedConfig)
    (task_channel t) (task_itemID t) = true /\
  storage.evolves (fun _ _ => True) s (fst r).
Proof.
  intros Hrel r.
  assert (r = (s' <- markSeen s feedConfig (task_channel t) (task_itemID t) ;;
               _ <- time.Sleep time.Second ;; ret s')
                (snd (log (EvSend (task_channel t) (task_message t) true) (tick w))))
    as ->.
  { subst r. unfold worker. change (Z.to_nat maxRetries) with 3%nat.
    unfold bind at 1. rewrite send_loop_first by apply Hrel. reflexivity. }
  set (w1 := snd (log (EvSend (task_channel t) (task_message t) true) (tick w))).
  assert (fault w1 = fault w /\
          trace w1 = trace w ++ [EvSend (task_channel t) (task_message t) true])
    as (Hf1 & Ht1) by (split; reflexivity).
  clearbody w1.
  rewrite worker_commit, Ht1, <- app_assoc.
  destruct (markSeen_evolves s feedConfig (task_channel t) (task_itemID t) w1)
    as (Hev & Hseen).
  unfold markSeen, time.Sleep, log, bind, ret in *. cbn [fst snd] in *.
  match goal with
  | |- context [storage.MarkItemSeen ?a1 ?a2 ?a3 ?a4 ?a5 ?a6] =>
      pose proof (MarkItemSeen_fault a1 a2 a3 a4 a5 a6) as Hfault;
      destruct (storage.MarkItemSeen a1 a2 a3 a4 a5 a6) as [[s1 r1] w2]
  end.
  cbn [fst snd trace fault] in *.
  split; [|split; [reflexivity|split; assumption]].
  intros n. cbn [fault]. rewrite Hfault, Hf1. apply Hrel.
Qed.

(** The tasks of a cycle in a reliable world: each one is sent and
    marked. *)
Lemma run_tasks_reliable (feedConfig : FeedConfig) (tasks : list Task)
    (s : storage.Storage) (w : World) :
  reliable w ->
  let r := run_tasks s feedConfig tasks w in
  exists evs,
    trace (snd r) = trace w ++ evs /\
    storage.evolves (fun _ _ => True) s (fst r) /\
    forall t, In t tasks ->
      In (EvSend (task_channel t) (task_message t) true) evs /\
      In (EvMark (URL feedConfig) (task_channel t) (task_itemID t)) evs /\
      storage.IsItemSeen (fst r) (URL feedConfig) (Name feedConfig)
        (task_channel t) (task_itemID t) = true.
Proof.
  revert s w. induction tasks as [|t tasks IH]; intros s w Hrel r; subst r.
  - exists []. cbn. rewrite app_nil_r. split; [reflexivity|].
    split; [apply storage.evolves_refl|]. intros ? [].
  - cbn [run_tasks]. unfold bind.
    destruct (worker_reliable s feedConfig t w Hrel) as (Hrel1 & Ht1 & Hseen1 & Hev1).
    destruct (worker s feedConfig t w) as [s1 w1]. cbn [fst snd] in *.
    destruct (IH s1 w1 Hrel1) as (evs & Ht & Hev & Hall).
    eexists. split; [rewrite Ht, Ht1, <- app_assoc; reflexivity|].
    split; [eapply evolves_trans; eassumption|].
    intros t' [<-|Hin].
    + split; [left; reflexivity|]. split; [right; left; reflexivity|].
      eapply evolves_seen; eassumption.
    + destruct (Hall t' Hin) as (H1 & H2 & H3).
      split; [apply in_or_app; right; exact H1|].
      split; [apply in_or_app; right; exact H2|exact H3].
Qed.

(** The dispatch loop starts a task for every item and channel for which
    the store does not report the item seen, if the message is not
    empty. *)
Lemma dispatch_complete (s : storage.Storage) (feedConfig : FeedConfig)
    (items : list Item) (item : Item) (channel : string) :
  In item items -> In channel (Channels feedConfig) ->
  storage.IsItemSeen s (URL feedConfig) (Name feedConfig) channel
    (generateItemID item) = false ->
  formatMessage item (Template feedConfig) <> ""%string ->
  In {| task_channel := channel; task_item := item;
        task_itemID := generateItemID item;
        task_message := formatMessage item (Template feedConfig) |}
     (dispatch s feedConfig items).
Proof.
  intros Hitem Hch Hunseen Hmsg. unfold dispatch.
  apply in_flat_map. exists item. split; [exact Hitem|].
  apply in_flat_map. exists channel. split; [exact Hch|].
  rewrite Hunseen.
  destruct (is_empty _) eqn:He.
  - unfold is_empty in He. apply String.eqb_eq in He. congruence.
  - left. reflexivity.
Qed.

(** One iteration of the candidate loop either leaves the candidates as
    they are, for one of four reasons, or adds the item. *)
Lemma go_candidate_cases (feedConfig : FeedConfig) (c : Candidates) (x : Item)
    (w : World) :
  let r := handler_go.candidate feedConfig c x w in
  clock (snd r) = clock w /\
  (fst r = c /\
   (addressable x = false \/
    default false (seenInThisRun c !! generateItemID x) = true \/
    allChannelsProcessed (store c) feedConfig (generateItemID x) = true \/
    exists t, PublishedParsed x = Some t /\
              time.Sub (clock w (step w)) t > handler_go.articleExpirationDuration) \/
   fst r = {| newItems := newItems c ++ [x];
              seenInThisRun := <[generateItemID x := true]> (seenInThisRun c);
              store := store c |}).
Proof.
  unfold handler_go.candidate, handler_go.stale, time.Since, time.Now, bind, ret.
  unfold addressable.
  destruct (is_empty (Title x) && is_empty (Link x)); cbv beta iota.
  { cbn [fst snd]. split; [reflexivity|]. left. split; [reflexivity|].
    left. reflexivity. }
  destruct (default false (seenInThisRun c !! generateItemID x)) eqn:Hseen;
    cbv beta iota.
  { cbn [fst snd]. split; [reflexivity|]. left. split; [reflexivity|].
    right. left. reflexivity. }
  destruct (allChannelsProcessed (store c) feedConfig (generateItemID x));
    cbv beta iota.
  { cbn [fst snd]. split; [reflexivity|]. left. split; [reflexivity|].
    right. right. left. reflexivity. }
  destruct (PublishedParsed x) as [t|] eqn:Hdate.
  2: { cbn [fst snd]. split; [reflexivity|]. right. reflexivity. }
  cbn [fst snd].
  destruct (time.Sub (clock w (step w)) t >? handler_go.articleExpirationDuration)
    eqn:Hold; cbn [fst snd clock tick].
  - split; [reflexivity|]. left. split; [reflexivity|]. right. right. right.
    exists t. split; [reflexivity|]. apply Z.gtb_gt. exact Hold.
  - split; [reflexivity|]. right. reflexivity.
Qed.

(** The candidate loop keeps an item that has a title or a link, is not
    reported seen for some channel and is not stale at any reading of the
    clock, provided no other item of the feed has its id. *)
Lemma go_candidates_keep (feedConfig : FeedConfig) (items : list Item)
    (item : Item) (c : Candidates) (w : World) :
  addressable item = true ->
  allChannelsProcessed (store c) feedConfig (generateItemID item) = false ->
  (forall t, PublishedParsed item = Some t ->
     forall n, time.Sub (clock w n) t <= handler_go.articleExpirationDuration) ->
  (forall item', In item' (newItems c ++ items) ->
                 generateItemID item' = generateItemID item -> item' = item) ->
  (forall id, seenInThisRun c !! id = Some true ->
              exists item', In item' (newItems c) /\ generateItemID item' = id) ->
  In item (newItems c) \/ In item items ->
  In item (newItems (fst (for_each (handler_go.candidate feedConfig) c items w))).
Proof.
  intros Haddr.
  revert c w. induction items as [|x items IH];
    intros c w Hunseen Hfresh Huniq Hseen Hin.
  - destruct Hin as [Hin|[]]. exact Hin.
  - cbn [for_each]. unfold bind.
    pose proof (go_candidate_cases feedConfig c x w) as Hstep. cbv zeta in Hstep.
    destruct (handler_go.candidate feedConfig c x w) as [c1 w1].
    cbn [fst snd] in *.
    destruct Hstep as (Hc1 & [(-> & Hwhy) | ->]).
    + apply IH.
      * exact Hunseen.
      * intros t Ht n. rewrite Hc1. apply Hfresh. exact Ht.
      * intros item' Hin'. apply Huniq.
        apply in_app_or in Hin' as [Hin'|Hin'];
          apply in_or_app; [left|right; right]; exact Hin'.
      * exact Hseen.
      * destruct Hin as [Hin|[->|Hin]]; [left; exact Hin| |right; exact Hin].
        left. destruct Hwhy as [Hw|[Hw|[Hw|(t & Ht & Hw)]]].
        -- congruence.
        -- apply lookup_true in Hw. destruct (Hseen _ Hw) as (item' & Hin' & Hid).
           rewrite <- (Huniq item'); [exact Hin'| |exact Hid].
           apply in_or_app. left. exact Hin'.
        -- congruence.
        -- specialize (Hfresh t Ht (step w)). lia.
    + apply IH; cbn [newItems seenInThisRun store].
      * exact Hunseen.
      * intros t Ht n. rewrite Hc1. apply Hfresh. exact Ht.
      * intros item' Hin'. apply Huniq.
        rewrite <- List.app_assoc in Hin'. exact Hin'.
      * intros id Hid. apply insert_true in Hid as [<-|Hid].
        -- exists x. split; [apply in_or_app; right; left|]; reflexivity.
        -- destruct (Hseen id Hid) as (item' & Hin' & Heq).
           exists item'. split; [apply in_or_app; left; exact Hin'|exact Heq].
      * destruct Hin as [Hin|[->|Hin]].
        -- left. apply in_or_app. left. exact Hin.
        -- left. apply in_or_app. right. left. reflexivity.
        -- right. exact Hin.
Qed.

Lemma for_each_candidates_reliable (feedConfig : FeedConfig) (items : list Item)
    (c : Candidates) (w : World) :
  reliable w ->
  reliable (snd (for_each (handler_go.candidate feedConfig) c items w)).
Proof.
  revert c w. induction items as [|x items IH]; intros c w Hrel; [exact Hrel|].
  cbn [for_each]. unfold bind.
  assert (fault (snd (handler_go.candidate feedConfig c x w)) = fault w) as Hf.
  { unfold handler_go.candidate, handler_go.stale, time.Since, time.Now, bind, ret.
    destruct (is_empty (Title x) && is_empty (Link x)); [reflexivity|].
    destruct (default false _); [reflexivity|].
    destruct (allChannelsProcessed _ _ _); [reflexivity|].
    destruct (PublishedParsed x); [|reflexivity].
    cbn [fst snd]. destruct (_ >? _); reflexivity. }
  destruct (handler_go.candidate feedConfig c x w) as [c1 w1].
  apply IH. intros n. cbn [snd] in Hf. rewrite Hf. apply Hrel.
Qed.

(** What a cycle without failures delivers. *)
Lemma go_delivers (s : storage.Storage) (feedConfig : FeedConfig)
    (w : World) (items : list Item) (item : Item) (channel : string) :
  fetch w (step w) (URL feedConfig) = inl items ->
  reliable w ->
  In item items ->
  addressable item = true ->
  (forall item', In item' items ->
                 generateItemID item' = generateItemID item -> item' = item) ->
  (forall t, PublishedParsed item = Some t ->
     forall n, time.Sub (clock w n) t <= handler_go.articleExpirationDuration) ->
  formatMessage item (Template feedConfig) <> ""%string ->
  In channel (Channels feedConfig) ->
  storage.IsItemSeen s (URL feedConfig) (Name feedConfig) channel
    (generateItemID item) = false ->
  let r := handler_go.processFeed s feedConfig w in
  exists evs,
    trace (snd r) = trace w ++ evs /\
    In (EvSend channel (formatMessage item (Template feedConfig)) true) evs /\
    In (EvMark (URL feedConfig) channel (generateItemID item)) evs /\
    storage.IsItemSeen (fst (fst r)) (URL feedConfig) (Name feedConfig) channel
      (generateItemID item) = true.
Proof.
  intros Hfetch Hrel Hitem Haddr Huniq Hfresh Hmsg Hch Hunseen r.
  assert (r = (if (length items =? 0)%nat then ret (s, inl tt)
               else c <- for_each (handler_go.candidate feedConfig)
                           {| newItems := []; seenInThisRun := ∅; store := s |} items ;;
                    deliver c feedConfig) (tick w)) as ->.
  { subst r. unfold handler_go.processFeed, ParseURL. unfold bind at 1.
    rewrite Hfetch. reflexivity. }
  destruct items as [|x0 items0]; [destruct Hitem|].
  set (items := x0 :: items0) in *.
  change (length items =? 0)%nat with false. cbv iota.
  assert (reliable (tick w)) as Hrel0 by (intros n; apply Hrel).
  pose proof (go_candidates feedConfig items
                {| newItems := []; seenInThisRun := ∅; store := s |} (tick w)) as Hc.
  pose proof (go_candidates_keep feedConfig items item
                {| newItems := []; seenInThisRun := ∅; store := s |} (tick w)) as Hkeep.
  pose proof (for_each_candidates_reliable feedConfig items
                {| newItems := []; seenInThisRun := ∅; store := s |} (tick w) Hrel0)
    as Hrel1.
  cbv zeta in Hc.
  unfold bind.
  destruct (for_each (handler_go.candidate feedConfig)
              {| newItems := []; seenInThisRun := ∅; store := s |} items (tick w))
    as [c w1].
  cbn [fst snd store newItems seenInThisRun trace clock step tick app] in *.
  destruct Hc as (Hstore & Htrace & _).
  assert (In item (newItems c)) as Hkept.
  { apply Hkeep; auto.
    - unfold allChannelsProcessed. apply not_true_is_false. intros Hall.
      rewrite forallb_forall in Hall. rewrite (Hall channel Hch) in Hunseen.
      discriminate.
    - intros id Hid. rewrite lookup_empty in Hid. discriminate. }
  unfold deliver, bind, ret. rewrite !Hstore.
  pose proof (run_tasks_reliable feedConfig
                (dispatch s feedConfig (order (newItems c))) s w1 Hrel1) as Hrun.
  cbv zeta in Hrun.
  destruct (run_tasks s feedConfig
              (dispatch s feedConfig (order (newItems c))) w1) as [s' w2].
  cbn [fst snd] in *.
  destruct Hrun as (evs & Ht & _ & Hall).
  exists evs. split; [rewrite Ht, Htrace; reflexivity|].
  apply (Hall {| task_channel := channel; task_item := item;
                 task_itemID := generateItemID item;
                 task_message := formatMessage item (Template feedConfig) |}).
  apply dispatch_complete; try assumption.
  apply (Permutation_in _ (Permutation_sym (order_Permutation _))). exact Hkept.
Qed.

End Cycle.

(* ===================================================================== *)
(** * The handler: the oracles of the world are read, never replaced *)
(* ===================================================================== *)

Create HintDb steady.

Lemma same_oracles_refl (w : World) : same_oracles w w.
Proof. repeat split. Qed.

Lemma same_oracles_trans (w1 w2 w3 : World) :
  same_oracles w1 w2 -> same_oracles w2 w3 -> same_oracles w1 w3.
Proof.
  intros (H1 & H2 & H3 & H4) (H1' & H2' & H3' & H4').
  repeat split; congruence.
Qed.

Lemma steady_ret {A} (a : A) : steady (ret a).
Proof. intros w. apply same_oracles_refl. Qed.

Lemma steady_bind {A B} (m : IO A) (k : A -> IO B) :
  steady m -> (forall a, steady (k a)) -> steady (bind m k).
Proof.
  intros Hm Hk w. unfold bind.
  pose proof (Hm w) as H1. destruct (m w) as [a w1]. cbn [snd] in H1.
  eapply same_oracles_trans; [exact H1|apply Hk].
Qed.

Lemma steady_for_each {A B} (body : B -> A -> IO B) (l : list A) :
  (forall acc x, steady (body acc x)) -> forall acc, steady (rss.for_each body acc l).
Proof.
  intros Hbody. induction l as [|x l IH]; intros acc; cbn [rss.for_each].
  - apply steady_ret.
  - apply steady_bind; [apply Hbody|exact IH].
Qed.

Lemma steady_failing : steady failing.
Proof. intros w. repeat split. Qed.

Lemma steady_log (e : Event) : steady (log e).
Proof. intros w. repeat split. Qed.

Lemma steady_Now : steady time.Now.
Proof. intros w. repeat split. Qed.

Lemma steady_with_files {A} (f : World -> A * gmap string bytes) :
  steady (fun w => (fst (f w), with_files (snd (f w)) w)).
Proof. intros w. repeat split. Qed.

Lemma steady_OpenFile_TRUNC (name : string) : steady (os.OpenFile_TRUNC name).
Proof.
  unfold os.OpenFile_TRUNC. apply steady_bind; [apply steady_failing|].
  intros bad w. destruct bad; repeat split.
Qed.

Lemma steady_Write (name : string) (data : bytes) : steady (os.Write name data).
Proof.
  unfold os.Write. apply steady_bind; [apply steady_failing|].
  intros bad w. destruct bad; repeat split.
Qed.

Lemma steady_Sync (name : string) : steady (os.Sync name).
Proof.
  unfold os.Sync. apply steady_bind; [apply steady_failing|].
  intros bad. apply steady_ret.
Qed.

Lemma steady_Close (name : string) : steady (os.Close name).
Proof.
  unfold os.Close. apply steady_bind; [apply steady_failing|].
  intros bad. apply steady_ret.
Qed.

Lemma steady_Rename (oldpath newpath : string) : steady (os.Rename oldpath newpath).
Proof.
  unfold os.Rename. apply steady_bind; [apply steady_failing|].
  intros bad w. destruct bad; [repeat split|].
  destruct (files w !! oldpath); repeat split.
Qed.

#[export] Hint Resolve steady_failing steady_log steady_Now steady_OpenFile_TRUNC
  steady_Write steady_Sync steady_Close steady_Rename : steady.

Ltac steady_step :=
  first
    [ solve [auto with steady]
    | apply steady_ret
    | apply steady_bind; [|intros]
    | match goal with
      | |- steady (match ?x with _ => _ end) => destruct x
      end ].

Section SteadyStore.
Context {F : bloom.Filter}.

Lemma steady_saveChannelState (s : storage.Storage) (feedURL channel : string)
    (state : storage.ChannelState) :
  steady (storage.saveChannelState s feedURL channel state).
Proof.
  unfold storage.saveChannelState. cbv zeta. repeat steady_step.
Qed.

Lemma steady_MarkItemSeen (s : storage.Storage)
    (feedURL feedName channel itemID : string) :
  steady (storage.MarkItemSeen s feedURL feedName channel itemID).
Proof.
  unfold storage.MarkItemSeen.
  destruct (storage.states s !! feedURL) as [channelStates|].
  - apply steady_bind.
    + destruct (channelStates !! channel); repeat steady_step.
    + intros state0. apply steady_bind; [apply steady_Now|]. intros now.
      apply steady_bind; [apply steady_saveChannelState|].
      intros r. destruct r; apply steady_ret.
  - apply steady_bind.
    + destruct ((∅ : gmap string storage.ChannelState) !! channel); repeat steady_step.
    + intros state0. apply steady_bind; [apply steady_Now|]. intros now.
      apply steady_bind; [apply steady_saveChannelState|].
      intros r. destruct r; apply steady_ret.
Qed.

End SteadyStore.

Section SteadyHandler.
Context {F : bloom.Filter} {S : sort.Sorter} {C : rss.Collaborators}.
Import gofeed config rss.

Lemma steady_worker (s : storage.Storage) (feedConfig : FeedConfig) (t : Task) :
  steady (worker s feedConfig t).
Proof.
  assert (forall channel message, steady (Send channel message)) as HSend.
  { intros. unfold Send. repeat steady_step. }
  assert (forall attempt, steady (ExponentialBackoffWithJitter attempt)) as HBackoff.
  { intros. unfold ExponentialBackoffWithJitter, Int63n, time.Sleep. cbv zeta.
    repeat steady_step. }
  assert (forall remaining i channel message,
            steady (send_loop remaining i channel message)) as Hloop.
  { induction remaining as [|n IH]; intros; cbn [send_loop]; [apply steady_ret|].
    apply steady_bind; [apply HSend|]. intros ok.
    destruct ok; [apply steady_ret|].
    destruct (i =? maxRetries - 1); [apply steady_ret|].
    apply steady_bind; [apply HBackoff|]. intros _. apply IH. }
  unfold worker. apply steady_bind; [apply Hloop|]. intros ok.
  destruct ok; [|apply steady_ret].
  apply steady_bind.
  - unfold markSeen. apply steady_bind; [apply steady_log|]. intros _.
    apply steady_bind; [apply steady_MarkItemSeen|]. intros r. apply steady_ret.
  - intros s'. unfold time.Sleep. repeat steady_step.
Qed.

Lemma steady_run_tasks (feedConfig : FeedConfig) (tasks : list Task)
    (s : storage.Storage) :
  steady (run_tasks s feedConfig tasks).
Proof.
  revert s. induction tasks as [|t tasks IH]; intros s; cbn [run_tasks];
    [apply steady_ret|].
  apply steady_bind; [apply steady_worker|]. intros s1. apply IH.
Qed.

Lemma steady_processFeed (s : storage.Storage) (feedConfig : FeedConfig) :
  steady (handler_go.processFeed s feedConfig).
Proof.
  unfold handler_go.processFeed. apply steady_bind.
  { unfold ParseURL. intros w. repeat split. }
  intros feed. destruct feed as [items|err]; [|apply steady_ret].
  destruct (length items =? 0)%nat; [apply steady_ret|].
  apply steady_bind.
  - apply steady_for_each. intros c x.
    unfold handler_go.candidate, handler_go.stale, time.Since.
    destruct (is_empty (Title x) && is_empty (Link x)); [apply steady_ret|].
    cbv zeta.
    destruct (default false _); [apply steady_ret|].
    destruct (allChannelsProcessed _ _ _); [apply steady_ret|].
    apply steady_bind.
    + destruct (PublishedParsed x); repeat steady_step.
    + intros old. destruct old; apply steady_ret.
  - intros c. unfold deliver. cbv zeta.
    apply steady_bind; [apply steady_run_tasks|intros; apply steady_ret].
Qed.

End SteadyHandler.

(* ===================================================================== *)
(** * The handler: all the feeds *)
(* ===================================================================== *)

Section AllFeeds.
Context {F : bloom.Filter} {S : sort.Sorter} {C : rss.Collaborators}.
Import gofeed config rss.

Lemma reliable_same (w w' : World) : reliable w -> same_oracles w w' -> reliable w'.
Proof. intros Hrel (_ & Hf & _) n. rewrite Hf. apply Hrel. Qed.

(** A cycle of a feed, whatever the fetch returns: an error exactly when
    the fetch fails; events are appended; the store changes only by marks
    for the feed. *)
Lemma go_cycle_any (s : storage.Storage) (feedConfig : FeedConfig) (w : World) :
  let r := handler_go.processFeed s feedConfig w in
  (succeeded (snd (fst r)) = succeeded (fetch w (step w) (URL feedConfig))) /\
  (exists evs, trace (snd r) = trace w ++ evs) /\
  storage.evolves (fun url ch => url = URL feedConfig /\ In ch (Channels feedConfig))
    s (fst (fst r)).
Proof.
  intros r.
  destruct (fetch w (step w) (URL feedConfig)) as [items|err] eqn:Hfetch.
  - destruct (go_cycle s feedConfig w items Hfetch)
      as (Hok & evs & Ht & _ & _ & _ & _ & Hev & _).
    fold r in Hok, Ht, Hev. rewrite Hok. split; [reflexivity|].
    split; [exists evs; exact Ht|exact Hev].
  - assert (r = ((s, inr (Wrapf "error parsing feed" err)), tick w)) as ->.
    { subst r. unfold handler_go.processFeed, ParseURL. unfold bind at 1.
      rewrite Hfetch. reflexivity. }
    cbn. split; [reflexivity|]. split; [exists []; now rewrite app_nil_r|].
    apply storage.evolves_refl.
Qed.

Lemma feeds_loop_cons (acc : storage.Storage * list error) (feed : FeedConfig)
    (feeds : list FeedConfig) (w : World) :
  feeds_loop acc (feed :: feeds) w
  = let r := handler_go.processFeed (fst acc) feed w in
    feeds_loop (fst (fst r),
                match snd (fst r) with
                | inr err => snd acc ++ [Wrapf ("feed " ++ Name feed) err]
                | inl _ => snd acc
                end) feeds (snd r).
Proof.
  unfold feeds_loop. cbn [for_each]. unfold bind at 1. unfold bind at 1.
  destruct (handler_go.processFeed (fst acc) feed w) as [[s1 [u|err]] w1];
    reflexivity.
Qed.

Lemma feeds_loop_run (feeds : list FeedConfig) (acc : storage.Storage * list error)
    (w : World) :
  let r := feeds_loop acc feeds w in
  same_oracles w (snd r) /\
  (exists evs, trace (snd r) = trace w ++ evs) /\
  storage.evolves
    (fun url ch => exists feed, In feed feeds /\ url = URL feed /\ In ch (Channels feed))
    (fst acc) (fst (fst r)) /\
  exists errs, snd (fst r) = snd acc ++ errs /\
    (forall site, (forall n, fetch w n = site) ->
       (errs = [] <-> forall feed, In feed feeds -> succeeded (site (URL feed)) = true)).
Proof.
  revert acc w. induction feeds as [|feed feeds IH]; intros acc w r; subst r.
  - cbn. split; [apply same_oracles_refl|].
    split; [exists []; now rewrite app_nil_r|].
    split; [apply storage.evolves_refl|].
    exists []. rewrite app_nil_r. split; [reflexivity|].
    intros site _. split; [intros _ ? []|reflexivity].
  - rewrite feeds_loop_cons. cbv zeta.
    pose proof (steady_processFeed (fst acc) feed w) as Hsame1.
    destruct (go_cycle_any (fst acc) feed w) as (Hres & (evs1 & Ht1) & Hev1).
    destruct (handler_go.processFeed (fst acc) feed w) as [[s1 r1] w1].
    cbn [fst snd] in *.
    destruct (IH (s1, match r1 with
                      | inl _ => snd acc
                      | inr err => snd acc ++ [Wrapf ("feed " ++ Name feed) err]
                      end) w1)
      as (Hsame2 & (evs2 & Ht2) & Hev2 & errs2 & Herrs2 & Hiff2).
    cbn [fst snd] in *.
    split; [eapply same_oracles_trans; eassumption|].
    split; [exists (evs1 ++ evs2); rewrite Ht2, Ht1, app_assoc; reflexivity|].
    split.
    { eapply evolves_trans.
      - eapply evolves_weaken; [|exact Hev1].
        intros url ch (-> & Hch). exists feed. split; [left; reflexivity|]. auto.
      - eapply evolves_weaken; [|exact Hev2].
        intros url ch (feed' & Hin & H). exists feed'. split; [right; exact Hin|exact H]. }
    assert (forall site, (forall n, fetch w n = site) -> forall n, fetch w1 n = site)
      as Hsite.
    { intros site Hs n. destruct Hsame1 as (_ & _ & _ & ->). apply Hs. }
    destruct r1 as [u|err].
    + exists errs2. split; [exact Herrs2|].
      intros site Hs. rewrite (Hiff2 site (Hsite site Hs)).
      rewrite Hs in Hres. cbn in Hres.
      split.
      * intros H feed' [<-|Hin]; [symmetry; exact Hres|apply H; exact Hin].
      * intros H feed' Hin. apply H. right. exact Hin.
    + exists (Wrapf ("feed " ++ Name feed) err :: errs2).
      split; [rewrite Herrs2, <- List.app_assoc; reflexivity|].
      intros site Hs. rewrite Hs in Hres. cbn in Hres.
      split; [discriminate|].
      intros H. specialize (H feed (or_introl eq_refl)). congruence.
Qed.

(** X14. [ProcessFeeds] reports an error exactly when some feed cannot be
    fetched. With a network that answers the same at every attempt,
    [ProcessFeeds] returns nil if and only if every configured feed can
    be fetched; a send or a mark that fails is not an error. *)
Theorem ProcessFeeds_error (s : storage.Storage) (cfg : Config) (w : World)
    (site : string -> result (list Item)) :
  (forall n, fetch w n = site) ->
  succeeded (snd (fst (handler_go.ProcessFeeds s cfg w))) = true <->
  forall feed, In feed (Feeds cfg) -> succeeded (site (URL feed)) = true.
Proof.
  intros Hsite.
  unfold handler_go.ProcessFeeds, handler_go.collect_errors. unfold bind.
  destruct (feeds_loop_run (Feeds cfg) (s, []) w) as (_ & _ & _ & errs & Herrs & Hiff).
  unfold feeds_loop in Herrs.
  destruct (for_each _ (s, []) (Feeds cfg) w) as [[s1 errs1] w1].
  cbn [fst snd app] in Herrs. subst errs1.
  rewrite <- (Hiff site Hsite). cbn [fst snd].
  destruct errs; cbn; split; congruence.
Qed.

End AllFeeds.

(* ===================================================================== *)
(** * The handler with [first_push]: what was marked is not sent again *)
(* ===================================================================== *)

Section NewCycle.
Context {F : bloom.Filter} {S : sort.Sorter} {C : rss.Collaborators}.
Import gofeed config rss.

Lemma markSeen_run (s : storage.Storage) (feedConfig : FeedConfig)
    (channel itemID : string) (w : World) :
  let r := markSeen s feedConfig channel itemID w in
  trace (snd r) = trace w ++ [EvMark (URL feedConfig) channel itemID] /\
  storage.evolves (fun _ _ => True) s (fst r) /\
  storage.IsItemSeen (fst r) (URL feedConfig) (Name feedConfig) channel itemID = true.
Proof.
  intros r. split; [|apply markSeen_evolves].
  subst r. unfold markSeen, bind, log, ret. cbn [fst snd].
  match goal with
  | |- context [storage.MarkItemSeen ?a1 ?a2 ?a3 ?a4 ?a5 ?a6] =>
      pose proof (MarkItemSeen_silent a1 a2 a3 a4 a5 a6) as H;
      destruct (storage.MarkItemSeen a1 a2 a3 a4 a5 a6) as [r0 w0]
  end.
  cbn [fst snd trace] in *. exact H.
Qed.

(** The marks of the first-run branch: each is in the store afterwards. *)
Lemma mark_loop_run (feedConfig : FeedConfig) (itemID : string)
    (channels : list string) (s : storage.Storage) (w : World) :
  let r := for_each (fun s channel => markSeen s feedConfig channel itemID)
                    s channels w in
  exists evs,
    trace (snd r) = trace w ++ evs /\
    Forall (fun e => is_send e = false) evs /\
    storage.evolves (fun _ _ => True) s (fst r) /\
    (forall url ch id, In (EvMark url ch id) evs ->
       storage.IsItemSeen (fst r) url (Name feedConfig) ch id = true).
Proof.
  revert s w. induction channels as [|channel channels IH]; intros s w r; subst r.
  - exists []. cbn. rewrite app_nil_r.
    repeat split; [constructor|apply storage.evolves_refl|intros ? ? ? []].
  - cbn [for_each]. unfold bind.
    destruct (markSeen_run s feedConfig channel itemID w) as (Ht1 & Hev1 & Hseen1).
    destruct (markSeen s feedConfig channel itemID w) as [s1 w1]. cbn [fst snd] in *.
    destruct (IH s1 w1) as (evs & Ht & Hall & Hev & Hseen).
    exists (EvMark (URL feedConfig) channel itemID :: evs).
    split; [rewrite Ht, Ht1, <- app_assoc; reflexivity|].
    split; [constructor; [reflexivity|exact Hall]|].
    split; [eapply evolves_trans; eassumption|].
    intros url ch id [E|Hin]; [|now apply Hseen].
    inversion E; subst. eapply evolves_seen; eassumption.
Qed.

(** One iteration of the candidate loop: it sends nothing, its marks are
    in the store it leaves, and it keeps no item but the one at hand. *)
Lemma new_candidate_run (feedConfig : FeedConfig) (firstRun : bool)
    (c : Candidates) (item : Item) (w : World) :
  let r := handler_new.candidate feedConfig firstRun c item w in
  exists evs,
    trace (snd r) = trace w ++ evs /\
    Forall (fun e => is_send e = false) evs /\
    storage.evolves (fun _ _ => True) (store c) (store (fst r)) /\
    (forall url ch id, In (EvMark url ch id) evs ->
       storage.IsItemSeen (store (fst r)) url (Name feedConfig) ch id = true) /\
    (forall x, In x (newItems (fst r)) -> In x (newItems c) \/ x = item).
Proof.
  intros r. subst r. unfold handler_new.candidate.
  assert (exists evs : list Event,
            trace w = trace w ++ evs /\
            Forall (fun e => is_send e = false) evs /\
            storage.evolves (fun _ _ => True) (store c) (store c) /\
            (forall url ch id, In (EvMark url ch id) evs ->
               storage.IsItemSeen (store c) url (Name feedConfig) ch id = true) /\
            (forall x, In x (newItems c) -> In x (newItems c) \/ x = item)) as Hsame.
  { exists []. rewrite app_nil_r.
    repeat split; [constructor|apply storage.evolves_refl|intros ? ? ? []|tauto]. }
  destruct (is_empty (Title item) && is_empty (Link item)); [exact Hsame|].
  cbv zeta.
  destruct (default false (seenInThisRun c !! generateItemID item)); [exact Hsame|].
  destruct (firstRun && negb (FirstPush feedConfig)).
  - unfold handler_new.mark_all, bind, ret.
    destruct (mark_loop_run feedConfig (generateItemID item) (Channels feedConfig)
                (store c) w) as (evs & Ht & Hall & Hev & Hseen).
    destruct (for_each _ (store c) (Channels feedConfig) w) as [s1 w1].
    cbn [fst snd store newItems] in *.
    exists evs. repeat split; try assumption. tauto.
  - destruct (allChannelsProcessed (store c) feedConfig (generateItemID item));
      [exact Hsame|].
    unfold bind. pose proof (stale_silent feedConfig item w) as Hs.
    destruct (handler_new.stale feedConfig item w) as [old w1]. cbn [fst snd] in *.
    destruct old; unfold ret; cbn [fst snd store newItems].
    + rewrite Hs. exact Hsame.
    + exists []. rewrite app_nil_r.
      split; [exact Hs|]. split; [constructor|].
      split; [apply storage.evolves_refl|]. split; [intros ? ? ? []|].
      intros x Hx. apply in_app_or in Hx as [Hx|[<-|[]]]; tauto.
Qed.

Lemma new_candidates_run (feedConfig : FeedConfig) (firstRun : bool)
    (items : list Item) (c : Candidates) (w : World) :
  let r := for_each (handler_new.candidate feedConfig firstRun) c items w in
  exists evs,
    trace (snd r) = trace w ++ evs /\
    Forall (fun e => is_send e = false) evs /\
    storage.evolves (fun _ _ => True) (store c) (store (fst r)) /\
    (forall url ch id, In (EvMark url ch id) evs ->
       storage.IsItemSeen (store (fst r)) url (Name feedConfig) ch id = true) /\
    (forall x, In x (newItems (fst r)) -> In x (newItems c) \/ In x items).
Proof.
  revert c w. induction items as [|item items IH]; intros c w r; subst r.
  - exists []. cbn. rewrite app_nil_r.
    repeat split; [constructor|apply storage.evolves_refl|intros ? ? ? []|tauto].
  - cbn [for_each]. unfold bind.
    destruct (new_candidate_run feedConfig firstRun c item w)
      as (evs1 & Ht1 & Hall1 & Hev1 & Hseen1 & Hitems1).
    destruct (handler_new.candidate feedConfig firstRun c item w) as [c1 w1].
    cbn [fst snd] in *.
    destruct (IH c1 w1) as (evs2 & Ht2 & Hall2 & Hev2 & Hseen2 & Hitems2).
    exists (evs1 ++ evs2).
    split; [rewrite Ht2, Ht1, app_assoc; reflexivity|].
    split; [apply Forall_app; split; assumption|].
    split; [eapply evolves_trans; eassumption|].
    split.
    + intros url ch id Hin. apply in_app_or in Hin as [Hin|Hin]; [|now apply Hseen2].
      eapply evolves_seen; [exact Hev2|]. now apply Hseen1.
    + intros x Hx. apply Hitems2 in Hx as [Hx|Hx]; [|right; now right].
      apply Hitems1 in Hx as [Hx| ->]; [now left|right; now left].
Qed.

(** A send of an item the store did not report seen is one for any store
    it evolved from. *)
Lemma unseen_send_before (s s' : storage.Storage) (feedConfig : FeedConfig)
    (items items' : list Item) (e : Event) :
  storage.evolves (fun _ _ => True) s s' ->
  (forall x, In x items' -> In x items) ->
  unseen_send s' feedConfig items' e -> unseen_send s feedConfig items e.
Proof.
  intros Hev Hsub. destruct e as [channel message ok| | |]; cbn; auto.
  intros (item & Hin & Hch & Hmsg & Hunseen).
  exists item. split; [now apply Hsub|]. split; [exact Hch|]. split; [exact Hmsg|].
  apply not_true_is_false. intros Hseen.
  eapply evolves_seen in Hseen; [|exact Hev]. congruence.
Qed.

(** One cycle of the handler with [first_push]. *)
Lemma new_cycle (s : storage.Storage) (feedConfig : FeedConfig) (w : World)
    (items : list Item) :
  fetch w (step w) (URL feedConfig) = inl items ->
  let r := handler_new.processFeed s feedConfig w in
  exists evs,
    trace (snd r) = trace w ++ evs /\
    Forall (unseen_send s feedConfig items) evs /\
    storage.evolves (fun _ _ => True) s (fst (fst r)) /\
    (forall url ch id, In (EvMark url ch id) evs ->
       storage.IsItemSeen (fst (fst r)) url (Name feedConfig) ch id = true).
Proof.
  intros Hfetch r.
  assert (r = (if (length items =? 0)%nat then ret (s, inl tt)
               else firstRun <- handler_new.isFirstRun s feedConfig (Channels feedConfig) ;;
                    c <- for_each (handler_new.candidate feedConfig firstRun)
                           {| newItems := []; seenInThisRun := ∅; store := s |} items ;;
                    deliver c feedConfig) (tick w)) as ->.
  { subst r. unfold handler_new.processFeed, ParseURL. unfold bind at 1.
    rewrite Hfetch. reflexivity. }
  destruct (length items =? 0)%nat.
  { exists []. unfold ret. cbn [fst snd trace tick]. rewrite app_nil_r.
    repeat split; [constructor|apply storage.evolves_refl|intros ? ? ? []]. }
  unfold bind.
  pose proof (isFirstRun_silent s feedConfig (Channels feedConfig) (tick w)) as Hfirst.
  destruct (handler_new.isFirstRun s feedConfig (Channels feedConfig) (tick w))
    as [firstRun w0].
  cbn [fst snd trace tick] in Hfirst.
  destruct (new_candidates_run feedConfig firstRun items
              {| newItems := []; seenInThisRun := ∅; store := s |} w0)
    as (evs1 & Ht1 & Hall1 & Hev1 & Hseen1 & Hitems1).
  destruct (for_each (handler_new.candidate feedConfig firstRun)
              {| newItems := []; seenInThisRun := ∅; store := s |} items w0)
    as [c w1].
  cbn [fst snd store newItems] in *.
  destruct (deliver_appends c feedConfig w1) as (evs2 & Ht2 & Hall2).
  unfold deliver, bind, ret in *.
  pose proof (run_tasks_run feedConfig
                (dispatch (store c) feedConfig (order (newItems c))) (store c) w1)
    as Hrun.
  cbv zeta in Hrun.
  destruct (run_tasks (store c) feedConfig
              (dispatch (store c) feedConfig (order (newItems c))) w1) as [s' w2].
  cbn [fst snd] in *.
  destruct Hrun as (evs2' & Ht2' & _ & _ & _ & _ & Hev2 & Hseen2).
  rewrite Ht2 in Ht2'. apply app_inv_head in Ht2'. subst evs2'.
  exists (evs1 ++ evs2).
  split; [rewrite Ht2, Ht1, Hfirst, app_assoc; reflexivity|].
  split.
  { apply Forall_app. split.
    - eapply List.Forall_impl; [|exact Hall1].
      intros e He. now apply unseen_send_other.
    - eapply List.Forall_impl; [|exact Hall2].
      intros e He. eapply unseen_send_before; [exact Hev1| |exact He].
      intros x Hx. apply Hitems1 in Hx as [[]|Hx]. exact Hx. }
  split.
  { eapply evolves_trans; [exact Hev1|].
    eapply evolves_weaken; [|exact Hev2]. intros; exact I. }
  intros url ch id Hin. apply in_app_or in Hin as [Hin|Hin]; [|now apply Hseen2].
  eapply evolves_seen; [|now apply Hseen1].
  eapply evolves_weaken; [|exact Hev2]. intros; exact I.
Qed.

(** X24. The handler with [first_push] does not send again what it
    marked, be it after a send or in a first run that sent nothing. Take
    a cycle of a feed, any store that the store it leaves evolves into,
    and a later cycle of the same feed on that store, in any world. Every
    send of the later cycle is the message of a fetched item whose id the
    first cycle did not mark for that channel. *)
Theorem processFeed_first_push_no_resend (s s2 : storage.Storage)
    (feedConfig : FeedConfig) (w w2 : World) (items2 : list Item)
    (evs1 evs2 : list Event) :
  let r1 := handler_new.processFeed s feedConfig w in
  let r2 := handler_new.processFeed s2 feedConfig w2 in
  (exists items, fetch w (step w) (URL feedConfig) = inl items) ->
  fetch w2 (step w2) (URL feedConfig) = inl items2 ->
  trace (snd r1) = trace w ++ evs1 ->
  storage.evolves (fun _ _ => True) (fst (fst r1)) s2 ->
  trace (snd r2) = trace w2 ++ evs2 ->
  Forall (fun e =>
            match e with
            | EvSend channel message _ =>
                exists item,
                  In item items2 /\
                  message = formatMessage item (Template feedConfig) /\
                  ~ In (EvMark (URL feedConfig) channel (generateItemID item)) evs1
            | _ => True
            end) evs2.
Proof.
  intros r1 r2 (items & Hfetch) Hfetch2 Ht1 Hev Ht2.
  destruct (new_cycle s feedConfig w items Hfetch) as (evs1' & Ht1' & _ & _ & Hseen).
  fold r1 in Ht1', Hseen. rewrite Ht1 in Ht1'. apply app_inv_head in Ht1'. subst evs1'.
  destruct (new_cycle s2 feedConfig w2 items2 Hfetch2) as (evs2' & Ht2' & Hall & _).
  fold r2 in Ht2'. rewrite Ht2 in Ht2'. apply app_inv_head in Ht2'. subst evs2'.
  eapply List.Forall_impl; [|exact Hall].
  intros [channel message ok| | |]; cbn; auto.
  intros (item & Hin & _ & Hmsg & Hunseen).
  exists item. split; [exact Hin|]. split; [exact Hmsg|].
  intros Hmark. apply Hseen in Hmark.
  eapply evolves_seen in Hmark; [|exact Hev].
  rewrite Hmark in Hunseen. discriminate.
Qed.

(** ** With [first_push] set *)

(** One iteration of the candidate loop when first sight is not
    suppressed: the store and the trace are left alone. *)
Lemma new_candidate_normal (feedConfig : FeedConfig) (firstRun : bool)
    (c : Candidates) (item : Item) (w : World) :
  firstRun && negb (FirstPush feedConfig) = false ->
  let r := handler_new.candidate feedConfig firstRun c item w in
  store (fst r) = store c /\ trace (snd r) = trace w /\
  (distinct_ids c -> distinct_ids (fst r)) /\
  (newItems (fst r) = newItems c \/
   newItems (fst r) = newItems c ++ [item] /\ addressable item = true).
Proof.
  intros Hnormal r. subst r. unfold handler_new.candidate, addressable.
  rewrite Hnormal.
  assert (store c = store c /\ trace w = trace w /\
          (distinct_ids c -> distinct_ids c) /\
          (newItems c = newItems c \/
           newItems c = newItems c ++ [item] /\
           negb (is_empty (Title item) && is_empty (Link item)) = true)) as Hsame.
  { split; [reflexivity|]. split; [reflexivity|].
    split; [intros H; exact H|left; reflexivity]. }
  destruct (is_empty (Title item) && is_empty (Link item)); [exact Hsame|].
  cbv zeta.
  destruct (default false (seenInThisRun c !! generateItemID item)) eqn:Hseen;
    [exact Hsame|].
  destruct (allChannelsProcessed (store c) feedConfig (generateItemID item));
    [exact Hsame|].
  unfold bind. pose proof (stale_silent feedConfig item w) as Hs.
  destruct (handler_new.stale feedConfig item w) as [old w1]. cbn [fst snd] in *.
  destruct old; unfold ret; cbn [fst snd store newItems].
  - rewrite Hs. exact Hsame.
  - split; [reflexivity|]. split; [exact Hs|].
    split; [apply distinct_ids_snoc; exact Hseen|].
    right. split; reflexivity.
Qed.

Lemma new_candidates_normal (feedConfig : FeedConfig) (firstRun : bool)
    (items : list Item) (c : Candidates) (w : World) :
  firstRun && negb (FirstPush feedConfig) = false ->
  let r := for_each (handler_new.candidate feedConfig firstRun) c items w in
  store (fst r) = store c /\ trace (snd r) = trace w /\
  (distinct_ids c -> distinct_ids (fst r)) /\
  (forall item, In item (newItems (fst r)) ->
     In item (newItems c) \/ In item items /\ addressable item = true).
Proof.
  intros Hnormal.
  revert c w. induction items as [|x items IH]; intros c w r; subst r.
  - cbn [for_each ret fst snd]. split; [reflexivity|]. split; [reflexivity|].
    split; [intros H; exact H|]. intros item Hin. left. exact Hin.
  - cbn [for_each]. unfold bind.
    pose proof (new_candidate_normal feedConfig firstRun c x w Hnormal) as Hstep.
    cbv zeta in Hstep.
    destruct (handler_new.candidate feedConfig firstRun c x w) as [c1 w1].
    cbn [fst snd] in Hstep. destruct Hstep as (Hs1 & Ht1 & Hd1 & Hnew).
    destruct (IH c1 w1) as (Hs2 & Ht2 & Hd2 & Hin2).
    split; [congruence|]. split; [congruence|]. split; [auto|].
    intros item Hin. apply Hin2 in Hin as [Hin|(Hin & Ha)].
    + destruct Hnew as [Hnew|(Hnew & Ha)]; rewrite Hnew in Hin; [left; exact Hin|].
      apply in_app_or in Hin as [Hin|[<-|[]]]; [left; exact Hin|].
      right. split; [left; reflexivity|exact Ha].
    + right. split; [right; exact Hin|exact Ha].
Qed.

(** X25. One cycle of the handler with [first_push], for a feed that has
    it set: first sight is never suppressed. If the feed can be fetched
    the cycle returns no error; every send delivers, to a channel of the
    feed, the non-empty message of a fetched item that has a title or a
    link and was not seen for that channel when the cycle began; every
    mark comes right after a send that got through, and there is one for
    each such send; with distinct channels an id is marked for a channel
    at most once; the store changes only by marks for the feed and its
    channels. *)
Theorem processFeed_first_push_cycle (s : storage.Storage)
    (feedConfig : FeedConfig) (w : World) (items : list Item) :
  fetch w (step w) (URL feedConfig) = inl items ->
  FirstPush feedConfig = true ->
  let r := handler_new.processFeed s feedConfig w in
  snd (fst r) = inl tt /\
  exists evs,
    trace (snd r) = trace w ++ evs /\
    Forall (push_event s feedConfig items) evs /\
    marks_follow_success false evs = true /\
    count is_delivered evs = count is_mark evs /\
    (List.NoDup (Channels feedConfig) ->
     forall channel itemID,
       (count (is_mark_of (URL feedConfig) channel itemID) evs <= 1)%nat) /\
    storage.evolves (fun url ch => url = URL feedConfig /\ In ch (Channels feedConfig))
      s (fst (fst r)).
Proof.
  intros Hfetch Hpush r.
  assert (r = (if (length items =? 0)%nat then ret (s, inl tt)
               else firstRun <- handler_new.isFirstRun s feedConfig (Channels feedConfig) ;;
                    c <- for_each (handler_new.candidate feedConfig firstRun)
                           {| newItems := []; seenInThisRun := ∅; store := s |} items ;;
                    deliver c feedConfig) (tick w)) as ->.
  { subst r. unfold handler_new.processFeed, ParseURL. unfold bind at 1.
    rewrite Hfetch. reflexivity. }
  destruct (length items =? 0)%nat.
  { unfold ret. cbn [fst snd trace tick]. split; [reflexivity|].
    exists []. rewrite app_nil_r.
    split; [reflexivity|]. split; [constructor|]. split; [reflexivity|].
    split; [reflexivity|]. split; [intros; cbn; lia|].
    apply storage.evolves_refl. }
  unfold bind.
  pose proof (isFirstRun_silent s feedConfig (Channels feedConfig) (tick w)) as Hfirst.
  destruct (handler_new.isFirstRun s feedConfig (Channels feedConfig) (tick w))
    as [firstRun w0].
  cbn [fst snd trace tick] in Hfirst.
  assert (firstRun && negb (FirstPush feedConfig) = false) as Hnormal
    by (rewrite Hpush; apply andb_false_r).
  pose proof (new_candidates_normal feedConfig firstRun items
                {| newItems := []; seenInThisRun := ∅; store := s |} w0 Hnormal) as Hc.
  cbv zeta in Hc.
  destruct (for_each (handler_new.candidate feedConfig firstRun)
              {| newItems := []; seenInThisRun := ∅; store := s |} items w0)
    as [c w1].
  cbn [fst snd store newItems] in Hc.
  destruct Hc as (Hstore & Htrace & Hdistinct & Hitems).
  assert (distinct_ids c) as (Hnd & _).
  { apply Hdistinct. split; [constructor|intros ? []]. }
  unfold deliver, bind, ret. rewrite !Hstore.
  pose proof (run_tasks_run feedConfig
                (dispatch s feedConfig (order (newItems c))) s w1) as Hrun.
  cbv zeta in Hrun.
  destruct (run_tasks s feedConfig
              (dispatch s feedConfig (order (newItems c))) w1) as [s' w2].
  cbn [fst snd] in *.
  destruct Hrun as (evs & Ht & Hall & Hm & Hd & Hcnt & Hev & _).
  split; [reflexivity|].
  exists evs. split; [rewrite Ht, Htrace, Hfirst; reflexivity|].
  assert (forall t, In t (dispatch s feedConfig (order (newItems c))) ->
            In (task_item t) items /\ addressable (task_item t) = true /\
            task_itemID t = generateItemID (task_item t) /\
            In (task_channel t) (Channels feedConfig) /\
            task_message t = formatMessage (task_item t) (Template feedConfig) /\
            task_message t <> ""%string /\
            storage.IsItemSeen s (URL feedConfig) (Name feedConfig) (task_channel t)
              (task_itemID t) = false) as Htask.
  { intros t Hin. apply dispatch_task in Hin as (Hitem & Hid & Hch & Hmsg & Hne & Hunseen).
    apply (Permutation_in _ (order_Permutation _)) in Hitem.
    apply Hitems in Hitem as [[]|(Hitem & Ha)].
    repeat split; try assumption.
    intros E. rewrite E in Hne. discriminate. }
  split.
  { eapply List.Forall_impl; [|exact Hall].
    intros e (t & Hin & He). apply Htask in Hin.
    destruct Hin as (Hitem & Ha & Hid & Hch & Hmsg & Hne & Hunseen).
    destruct e as [channel message ok| | |url channel itemID]; cbn in *; auto.
    - destruct He as (-> & ->). exists (task_item t).
      rewrite <- Hid. repeat split; assumption.
    - destruct He as (-> & -> & ->). split; [reflexivity|]. split; [exact Hch|].
      exists (task_item t). split; assumption. }
  split; [exact Hm|]. split; [exact Hd|].
  split.
  { intros Hchannels channel itemID.
    etransitivity; [apply Hcnt|].
    apply dispatch_once; [|exact Hchannels].
    eapply Permutation_NoDup; [|exact Hnd].
    apply Permutation_map. symmetry. apply order_Permutation. }
  eapply evolves_weaken; [|exact Hev].
  intros url ch (-> & t & Hin & ->). split; [reflexivity|].
  apply Htask in Hin. tauto.
Qed.

End NewCycle.

(* ===================================================================== *)
(** * The goroutines in any schedule: what a cycle can do *)
(* ===================================================================== *)

Section PoolMoves.
Context {F : bloom.Filter} {S : sort.Sorter} {C : rss.Collaborators}.
Import gofeed config rss pool.

(** ** Lists updated in place *)

Lemma insert_In {A} (l : list A) (k : nat) (x y : A) :
  In x (<[k := y]> l) -> x = y \/ In x l.
Proof.
  revert k. induction l as [|a l IH]; intros k H; [destruct k; destruct H|].
  destruct k as [|k]; cbn in H.
  - destruct H as [<-|H]; [left; reflexivity|right; right; exact H].
  - destruct H as [<-|H]; [right; left; reflexivity|].
    destruct (IH k H) as [->|Hin]; [left; reflexivity|right; right; exact Hin].
Qed.

Lemma lookup_In {A} (l : list A) (k : nat) (x : A) : l !! k = Some x -> In x l.
Proof.
  revert k. induction l as [|a l IH]; intros [|k] H; try discriminate.
  - injection H as ->. left. reflexivity.
  - right. exact (IH k H).
Qed.

Lemma insert_same {A} (l : list A) (k : nat) (x : A) :
  l !! k = Some x -> <[k := x]> l = l.
Proof.
  revert k. induction l as [|a l IH]; intros [|k] H; try discriminate.
  - injection H as ->. reflexivity.
  - cbn. f_equal. exact (IH k H).
Qed.

Lemma map_job_insert (l : list Goroutine) (k : nat) (g g' : Goroutine) :
  l !! k = Some g -> job g' = job g -> map job (<[k := g']> l) = map job l.
Proof.
  revert k. induction l as [|a l IH]; intros [|k] H Hjob; try discriminate.
  - injection H as ->. cbn. rewrite Hjob. reflexivity.
  - cbn. f_equal. exact (IH k H Hjob).
Qed.

Lemma filter_insert (f : Goroutine -> bool) (l : list Goroutine) (k : nat)
    (g g' : Goroutine) :
  l !! k = Some g ->
  (length (List.filter f (<[k := g']> l)) + (if f g then 1 else 0)
   = length (List.filter f l) + (if f g' then 1 else 0))%nat.
Proof.
  revert k. induction l as [|a l IH]; intros [|k] H; try discriminate.
  - injection H as ->. cbn [List.filter]. change (<[0%nat := g']> (g :: l)) with (g' :: l).
    cbn [List.filter]. destruct (f g), (f g'); cbn [length]; lia.
  - change (<[Datatypes.S k := g']> (a :: l)) with (a :: <[k := g']> l).
    cbn [List.filter]. specialize (IH k H).
    destruct (f a); cbn [length]; lia.
Qed.

(** ** The events and the marks *)

Lemma marks_after_sends_nil (feedConfig : FeedConfig) (items : list Item) :
  marks_after_sends feedConfig items [].
Proof. intros [|? pre] post url channel itemID H; discriminate H. Qed.

(** Events that are no marks can follow. *)
Lemma marks_after_sends_app (feedConfig : FeedConfig) (items : list Item)
    (evs evs' : list Event) :
  marks_after_sends feedConfig items evs ->
  Forall (fun e => is_mark e = false) evs' ->
  marks_after_sends feedConfig items (evs ++ evs').
Proof.
  intros Hm Hno pre post url channel itemID Heq.
  assert (~ In (EvMark url channel itemID) evs') as Hnot.
  { intros Hin. rewrite List.Forall_forall in Hno. specialize (Hno _ Hin).
    discriminate Hno. }
  apply app_eq_app in Heq as (l & [(Hevs & Hpost)|(Hpre & Hevs')]).
  - destruct l as [|e l].
    + exfalso. apply Hnot. cbn in Hpost. rewrite <- Hpost. left. reflexivity.
    + cbn in Hpost. injection Hpost as <- Hpost.
      exact (Hm pre l url channel itemID Hevs).
  - exfalso. apply Hnot. rewrite Hevs'. apply in_or_app. right. left. reflexivity.
Qed.

(** A mark can follow the send it answers. *)
Lemma marks_after_sends_mark (feedConfig : FeedConfig) (items : list Item)
    (evs : list Event) (item : Item) (url channel : string) :
  marks_after_sends feedConfig items evs ->
  In item items ->
  In (EvSend channel (formatMessage item (Template feedConfig)) true) evs ->
  marks_after_sends feedConfig items
    (evs ++ [EvMark url channel (generateItemID item)]).
Proof.
  intros Hm Hitem Hsent pre post url' channel' itemID Heq.
  apply app_eq_app in Heq as (l & [(Hevs & Hpost)|(Hpre & Hevs')]).
  - destruct l as [|e l].
    + cbn in Hpost. injection Hpost as -> -> -> ->.
      rewrite app_nil_r in Hevs. subst pre.
      exists item. repeat split; assumption.
    + cbn in Hpost. injection Hpost as <- Hpost.
      exact (Hm pre l url' channel' itemID Hevs).
  - destruct l as [|e l].
    + cbn in Hevs'. injection Hevs' as <- <- <- <-.
      rewrite app_nil_r in Hpre. subst pre.
      exists item. repeat split; assumption.
    + exfalso. apply (f_equal (@length Event)) in Hevs'.
      cbn in Hevs'. rewrite length_app in Hevs'. cbn in Hevs'. lia.
Qed.

(** ** One move *)

Lemma steady_Send (channel message : string) : steady (Send channel message).
Proof. unfold Send. repeat steady_step. Qed.

Lemma steady_Backoff (attempt : Z) : steady (ExponentialBackoffWithJitter attempt).
Proof.
  unfold ExponentialBackoffWithJitter, Int63n, time.Sleep. cbv zeta.
  repeat steady_step.
Qed.

Lemma steady_markSeen (s : storage.Storage) (feedConfig : FeedConfig)
    (channel itemID : string) :
  steady (markSeen s feedConfig channel itemID).
Proof.
  unfold markSeen. apply steady_bind; [apply steady_log|]. intros _.
  apply steady_bind; [apply steady_MarkItemSeen|]. intros r. apply steady_ret.
Qed.

Lemma steady_advance (capacity : nat) (feedConfig : FeedConfig) (n : nat)
    (s : storage.Storage) (g : Goroutine) :
  steady (advance capacity feedConfig n s g).
Proof.
  unfold advance. cbv zeta. destruct (stage g).
  - destruct (n <? capacity)%nat; apply steady_ret.
  - apply steady_bind; [apply steady_Send|]. intros ok.
    destruct ok; [apply steady_ret|]. destruct (_ =? _); apply steady_ret.
  - apply steady_bind; [apply steady_Backoff|]. intros _.
    destruct (_ <? _); apply steady_ret.
  - apply steady_bind; [apply steady_markSeen|]. intros; apply steady_ret.
  - apply steady_bind; [unfold time.Sleep; auto with steady|]. intros; apply steady_ret.
  - apply steady_ret.
Qed.

(** What a move of a goroutine is, by where the goroutine stands. *)
Lemma advance_moves (capacity : nat) (feedConfig : FeedConfig) (n : nat)
    (s : storage.Storage) (g : Goroutine) (w : World) :
  let r := advance capacity feedConfig n s g w in
  let g' := fst (fst r) in
  let s' := snd (fst r) in
  let w' := snd r in
  let t := job g in
  job g' = job g /\
  ((g' = g /\ s' = s /\ w' = w /\
    (stage g = Waiting /\ (n <? capacity)%nat = false \/ stage g = Finished)) \/
   (stage g = Waiting /\ (n <? capacity)%nat = true /\ stage g' = Sending 0 /\
    s' = s /\ w' = w) \/
   (exists i,
      stage g = Sending i /\ s' = s /\
      trace w'
      = trace w ++ [EvSend (task_channel t) (task_message t) (negb (fault w (step w)))] /\
      (if negb (fault w (step w)) then stage g' = Marking
       else if i =? maxRetries - 1 then stage g' = Finished
            else stage g' = Backing i)) \/
   (exists i d,
      stage g = Backing i /\ s' = s /\
      trace w' = trace w ++ [EvBackoff i; EvSleep d] /\
      (if i + 1 <? maxRetries then stage g' = Sending (i + 1)
       else stage g' = Finished)) \/
   (stage g = Marking /\ stage g' = Pausing /\
    s' = fst (markSeen s feedConfig (task_channel t) (task_itemID t) w) /\
    trace w' = trace w ++ [EvMark (URL feedConfig) (task_channel t) (task_itemID t)]) \/
   (stage g = Pausing /\ stage g' = Finished /\ s' = s /\
    trace w' = trace w ++ [EvSleep time.Second])).
Proof.
  intros r g' s' w' t. subst r g' s' w' t.
  destruct g as [t st]. unfold advance. cbn [job stage].
  destruct st as [|i|i| | |].
  - destruct (n <? capacity)%nat eqn:Hn; unfold ret; cbn [fst snd job stage].
    + split; [reflexivity|]. right. left. repeat split.
    + split; [reflexivity|]. left. repeat split. left. split; reflexivity.
  - unfold Send, failing, log, bind, ret. cbn [fst snd trace tick].
    destruct (fault w (step w)); cbn [negb fst snd job stage at_stage].
    + destruct (i =? maxRetries - 1) eqn:Hi; cbn [fst snd job stage at_stage];
        (split; [reflexivity|]); right; right; left; exists i;
        rewrite Hi; repeat split.
    + split; [reflexivity|]. right. right. left. exists i. repeat split.
  - unfold ExponentialBackoffWithJitter, Int63n, time.Sleep, log, bind, ret.
    cbn [fst snd trace tick step rand].
    destruct (i + 1 <? maxRetries) eqn:Hi; cbn [fst snd job stage at_stage trace];
      (split; [reflexivity|]); right; right; right; left; eexists i, _;
      rewrite Hi; (split; [reflexivity|]); (split; [reflexivity|]);
      (split; [rewrite <- app_assoc; reflexivity|reflexivity]).
  - unfold bind, ret.
    pose proof (markSeen_run s feedConfig (task_channel t) (task_itemID t) w)
      as (Ht & _).
    destruct (markSeen s feedConfig (task_channel t) (task_itemID t) w) as [s1 w1].
    cbn [fst snd job stage at_stage] in *.
    split; [reflexivity|]. right. right. right. right. left. repeat split. exact Ht.
  - unfold time.Sleep, log, bind, ret. cbn [fst snd job stage at_stage trace].
    split; [reflexivity|]. right. right. right. right. right. repeat split.
  - unfold ret. cbn [fst snd]. split; [reflexivity|]. left. repeat split.
    right. reflexivity.
Qed.


(** ** The invariant of a cycle *)

Lemma markSeen_store (s : storage.Storage) (feedConfig : FeedConfig)
    (channel itemID : string) (w : World) :
  exists w0,
    fst (markSeen s feedConfig channel itemID w)
    = fst (fst (storage.MarkItemSeen s (URL feedConfig) (Name feedConfig)
                  channel itemID w0)).
Proof.
  exists (snd (log (EvMark (URL feedConfig) channel itemID) w)).
  unfold markSeen, log, bind, ret. cbn [fst snd].
  match goal with
  | |- context [storage.MarkItemSeen ?a1 ?a2 ?a3 ?a4 ?a5 ?a6] =>
      destruct (storage.MarkItemSeen a1 a2 a3 a4 a5 a6) as [[s1 r1] w1]
  end.
  reflexivity.
Qed.

Lemma evolves_snoc (P : string -> string -> Prop) (s s' : storage.Storage)
    (feedURL feedName channel itemID : string) (w : World) :
  storage.evolves P s s' -> P feedURL channel ->
  storage.evolves P s
    (fst (fst (storage.MarkItemSeen s' feedURL feedName channel itemID w))).
Proof.
  intros Hev HP. eapply evolves_trans; [exact Hev|].
  eapply storage.evolves_mark; [exact HP|apply storage.evolves_refl].
Qed.

Lemma started_unseen (s0 s : storage.Storage) (feedConfig : FeedConfig)
    (P : string -> string -> Prop) (channel itemID : string) :
  storage.evolves P s0 s ->
  storage.IsItemSeen s (URL feedConfig) (Name feedConfig) channel itemID = false ->
  storage.IsItemSeen s0 (URL feedConfig) (Name feedConfig) channel itemID = false.
Proof.
  intros Hev Hunseen. apply not_true_is_false. intros Hseen.
  rewrite (evolves_seen _ _ _ _ _ _ _ Hev Hseen) in Hunseen. discriminate.
Qed.

(** A move of the dispatch loop keeps the invariant. *)
Lemma visit_invariant (s0 : storage.Storage) (feedConfig : FeedConfig)
    (items : list Item) (evs : list Event) (p : Pool) :
  pool_invariant s0 feedConfig items evs p ->
  pool_invariant s0 feedConfig items evs (visit feedConfig p).
Proof.
  intros Hinv.
  pose proof Hinv as (Hpend & Hjobs & Hev & Hevs & Hmarks & Hcount & Hsent).
  unfold visit. destruct (pending p) as [|[item channel] rest] eqn:Hp.
  { exact Hinv. }
  assert (forall item' channel', In (item', channel') rest ->
            In item' items /\ In channel' (Channels feedConfig)) as Hrest.
  { intros item' channel' Hin. apply Hpend. right. exact Hin. }
  destruct (Hpend item channel (or_introl eq_refl)) as (Hitem & Hch).
  destruct (storage.IsItemSeen (shared p) _ _ _ _) eqn:Hseen.
  { exact (conj Hrest (conj Hjobs (conj Hev (conj Hevs (conj Hmarks
             (conj Hcount Hsent)))))). }
  destruct (is_empty _) eqn:Hempty.
  { exact (conj Hrest (conj Hjobs (conj Hev (conj Hevs (conj Hmarks
             (conj Hcount Hsent)))))). }
  unfold pool_invariant, marking.
  cbn [pending goroutines shared].
  rewrite map_app, List.filter_app, length_app. cbn [map List.filter is_marking stage job length].
  split; [exact Hrest|]. split.
  { apply Forall_app. split; [exact Hjobs|]. constructor; [|constructor].
    unfold started. cbn [task_item task_itemID task_channel task_message].
    split; [exact Hitem|]. split; [reflexivity|]. split; [exact Hch|].
    split; [reflexivity|]. split.
    - intros E. rewrite E in Hempty. discriminate.
    - eapply started_unseen; eassumption. }
  split; [exact Hev|]. split.
  { eapply List.Forall_impl; [|exact Hevs].
    intros e (t & Hin & He). exists t. split; [|exact He].
    apply in_or_app. left. exact Hin. }
  split; [exact Hmarks|]. split.
  { unfold marking in Hcount. lia. }
  intros g Hin Hst. apply in_app_or in Hin as [Hin|[<-|[]]].
  - exact (Hsent g Hin Hst).
  - discriminate Hst.
Qed.

(** What a move of a goroutine has to show for the invariant to be
    kept. *)
Lemma move_keeps (s0 : storage.Storage) (feedConfig : FeedConfig)
    (items : list Item) (evs evs' : list Event) (p : Pool) (k : nat)
    (g g' : Goroutine) (s' : storage.Storage) :
  pool_invariant s0 feedConfig items evs p ->
  goroutines p !! k = Some g ->
  job g' = job g ->
  storage.evolves (fun url ch => url = URL feedConfig /\ In ch (Channels feedConfig))
    (shared p) s' ->
  Forall (task_event feedConfig (job g)) evs' ->
  marks_after_sends feedConfig items (evs ++ evs') ->
  (count is_delivered evs' + (if is_marking g then 1 else 0)
   = count is_mark evs' + (if is_marking g' then 1 else 0))%nat ->
  (stage g' = Marking ->
   In (EvSend (task_channel (job g)) (task_message (job g)) true) (evs ++ evs')) ->
  pool_invariant s0 feedConfig items (evs ++ evs')
    {| pending := pending p; goroutines := <[k := g']> (goroutines p); shared := s' |}.
Proof.
  intros (Hpend & Hjobs & Hev & Hevs & Hmarks & Hcount & Hsent)
         Hk Hjob Hev' Hevs' Hmarks' Hcount' Hsent'.
  unfold pool_invariant, marking. cbn [pending goroutines shared].
  rewrite (map_job_insert _ _ _ _ Hk Hjob).
  split; [exact Hpend|]. split; [exact Hjobs|].
  split; [eapply evolves_trans; eassumption|]. split.
  { apply Forall_app. split; [exact Hevs|].
    eapply List.Forall_impl; [|exact Hevs'].
    intros e He. exists (job g). split; [|exact He].
    apply in_map. eapply lookup_In. exact Hk. }
  split; [exact Hmarks'|]. split.
  { pose proof (filter_insert is_marking _ _ _ g' Hk) as Hf.
    unfold marking in Hcount. rewrite !count_app. lia. }
  intros g0 Hin Hst. apply insert_In in Hin as [->|Hin].
  - rewrite Hjob. exact (Hsent' Hst).
  - apply in_or_app. left. exact (Hsent g0 Hin Hst).
Qed.

(** A move of a goroutine keeps the invariant. *)
Lemma advance_invariant (capacity : nat) (s0 : storage.Storage)
    (feedConfig : FeedConfig) (items : list Item) (evs : list Event) (p : Pool)
    (k : nat) (g : Goroutine) (w : World) :
  pool_invariant s0 feedConfig items evs p ->
  goroutines p !! k = Some g ->
  let r := advance capacity feedConfig (holding p) (shared p) g w in
  exists evs',
    trace (snd r) = trace w ++ evs' /\
    pool_invariant s0 feedConfig items (evs ++ evs')
      {| pending := pending p;
         goroutines := <[k := fst (fst r)]> (goroutines p);
         shared := snd (fst r) |}.
Proof.
  intros Hinv Hk r.
  pose proof (advance_moves capacity feedConfig (holding p) (shared p) g w) as Hmove.
  cbv zeta in Hmove. fold r in Hmove.
  destruct r as [[g' s'] w']. cbn [fst snd] in *.
  destruct Hmove as (Hjob & Hmove).
  pose proof Hinv as (Hpend & Hjobs & Hev & Hevs & Hmarks & Hcount & Hsent).
  assert (In g (goroutines p)) as Hg by (eapply lookup_In; exact Hk).
  assert (started s0 feedConfig items (job g)) as Hstarted.
  { rewrite List.Forall_forall in Hjobs. apply Hjobs. apply in_map. exact Hg. }
  destruct Hmove as [(-> & -> & -> & _)
                    |[(Hst & _ & Hst' & -> & ->)
                    |[(i & Hst & -> & Ht & Hst')
                    |[(i & d & Hst & -> & Ht & Hst')
                    |[(Hst & Hst' & Hs' & Ht)
                    |(Hst & Hst' & -> & Ht)]]]]].
  - exists []. rewrite !app_nil_r. split; [reflexivity|].
    rewrite (insert_same _ _ _ Hk). destruct p; exact Hinv.
  - exists []. split; [rewrite app_nil_r; reflexivity|].
    apply (move_keeps s0 feedConfig items evs [] p k g g' (shared p));
      try assumption.
    + apply storage.evolves_refl.
    + constructor.
    + rewrite app_nil_r. exact Hmarks.
    + unfold is_marking. rewrite Hst, Hst'. reflexivity.
    + rewrite Hst'. discriminate.
  - eexists. split; [exact Ht|].
    apply (move_keeps s0 feedConfig items evs _ p k g g' (shared p));
      try assumption.
    + apply storage.evolves_refl.
    + constructor; [|constructor]. cbn. split; reflexivity.
    + apply marks_after_sends_app; [exact Hmarks|].
      constructor; [reflexivity|constructor].
    + unfold is_marking, count. rewrite Hst. cbn [List.filter is_delivered is_mark].
      destruct (fault w (step w)); cbn [negb] in *.
      * destruct (i =? maxRetries - 1); rewrite Hst'; reflexivity.
      * rewrite Hst'. reflexivity.
    + intros Hm. destruct (fault w (step w)); cbn [negb] in *.
      * destruct (i =? maxRetries - 1); rewrite Hst' in Hm; discriminate.
      * apply in_or_app. right. left. reflexivity.
  - eexists. split; [exact Ht|].
    apply (move_keeps s0 feedConfig items evs _ p k g g' (shared p));
      try assumption.
    + apply storage.evolves_refl.
    + constructor; [exact I|]. constructor; [exact I|constructor].
    + apply marks_after_sends_app; [exact Hmarks|].
      constructor; [reflexivity|]. constructor; [reflexivity|constructor].
    + unfold is_marking, count. rewrite Hst. cbn [List.filter is_delivered is_mark].
      destruct (i + 1 <? maxRetries); rewrite Hst'; reflexivity.
    + intros Hm. destruct (i + 1 <? maxRetries); rewrite Hst' in Hm; discriminate.
  - destruct Hstarted as (Hitem & Hid & Hch & Hmsg & _ & _).
    eexists. split; [exact Ht|].
    apply (move_keeps s0 feedConfig items evs _ p k g g' s'); try assumption.
    + destruct (markSeen_store (shared p) feedConfig (task_channel (job g))
                  (task_itemID (job g)) w) as (w0 & E).
      rewrite Hs', E. apply evolves_snoc; [apply storage.evolves_refl|].
      split; [reflexivity|exact Hch].
    + constructor; [|constructor]. cbn. repeat split.
    + rewrite Hid. apply marks_after_sends_mark; [exact Hmarks|exact Hitem|].
      rewrite <- Hmsg. exact (Hsent g Hg Hst).
    + unfold is_marking, count. rewrite Hst, Hst'. reflexivity.
    + rewrite Hst'. discriminate.
  - eexists. split; [exact Ht|].
    apply (move_keeps s0 feedConfig items evs _ p k g g' (shared p));
      try assumption.
    + apply storage.evolves_refl.
    + constructor; [exact I|constructor].
    + apply marks_after_sends_app; [exact Hmarks|].
      constructor; [reflexivity|constructor].
    + unfold is_marking, count. rewrite Hst, Hst'. reflexivity.
    + rewrite Hst'. discriminate.
Qed.

(** Any move keeps the invariant. *)
Lemma turn_invariant (capacity : nat) (s0 : storage.Storage)
    (feedConfig : FeedConfig) (items : list Item) (evs : list Event) (p : Pool)
    (choice : nat) (w : World) :
  pool_invariant s0 feedConfig items evs p ->
  let r := turn capacity feedConfig choice p w in
  exists evs',
    trace (snd r) = trace w ++ evs' /\
    pool_invariant s0 feedConfig items (evs ++ evs') (fst r).
Proof.
  intros Hinv r. subst r. unfold turn. destruct choice as [|k].
  - exists []. unfold ret. cbn [fst snd]. rewrite !app_nil_r.
    split; [reflexivity|]. apply visit_invariant. exact Hinv.
  - destruct (goroutines p !! k) as [g|] eqn:Hk.
    + unfold bind, ret.
      destruct (advance_invariant capacity s0 feedConfig items evs p k g w Hinv Hk)
        as (evs' & Ht & Hinv').
      destruct (advance capacity feedConfig (holding p) (shared p) g w)
        as [r w'].
      cbn [fst snd] in *. exists evs'. split; assumption.
    + exists []. unfold ret. cbn [fst snd]. rewrite !app_nil_r.
      split; [reflexivity|exact Hinv].
Qed.

(** The invariant holds after the moves of any schedule. *)
Lemma run_invariant (capacity : nat) (s0 : storage.Storage)
    (feedConfig : FeedConfig) (items : list Item) (schedule : list nat)
    (evs : list Event) (p : Pool) (w : World) :
  pool_invariant s0 feedConfig items evs p ->
  let r := run capacity feedConfig schedule p w in
  exists evs',
    trace (snd r) = trace w ++ evs' /\
    pool_invariant s0 feedConfig items (evs ++ evs') (fst r).
Proof.
  revert evs p w. induction schedule as [|choice schedule IH]; intros evs p w Hinv r.
  - exists []. subst r. cbn. rewrite !app_nil_r. split; [reflexivity|exact Hinv].
  - subst r. unfold run. cbn [for_each]. unfold bind.
    destruct (turn_invariant capacity s0 feedConfig items evs p choice w Hinv)
      as (evs1 & Ht1 & Hinv1).
    destruct (turn capacity feedConfig choice p w) as [p1 w1].
    cbn [fst snd] in *.
    destruct (IH _ p1 w1 Hinv1) as (evs2 & Ht2 & Hinv2).
    exists (evs1 ++ evs2). unfold run in Ht2, Hinv2.
    split; [rewrite Ht2, Ht1, <- app_assoc; reflexivity|].
    rewrite app_assoc. exact Hinv2.
Qed.


(** ** The semaphore *)

(** No move lets more goroutines into the semaphore than it has room
    for. *)
Lemma turn_holding (capacity : nat) (feedConfig : FeedConfig) (choice : nat)
    (p : Pool) (w : World) :
  (holding p <= capacity)%nat ->
  (holding (fst (turn capacity feedConfig choice p w)) <= capacity)%nat.
Proof.
  intros Hle. unfold turn. destruct choice as [|k].
  - unfold ret. cbn [fst]. unfold visit.
    destruct (pending p) as [|[item channel] rest]; [exact Hle|].
    destruct (storage.IsItemSeen _ _ _ _ _); [exact Hle|].
    destruct (is_empty _); [exact Hle|].
    unfold holding in *. cbn [goroutines].
    rewrite List.filter_app, length_app. cbn. lia.
  - destruct (goroutines p !! k) as [g|] eqn:Hk; [|exact Hle].
    unfold bind, ret.
    pose proof (advance_moves capacity feedConfig (holding p) (shared p) g w)
      as Hmove.
    cbv zeta in Hmove.
    destruct (advance capacity feedConfig (holding p) (shared p) g w)
      as [[g' s'] w'].
    cbn [fst snd] in *. destruct Hmove as (_ & Hmove).
    pose proof (filter_insert holds _ _ _ g' Hk) as Hf.
    unfold holding in *. cbn [goroutines]. unfold holds at 2 4 in Hf.
    destruct Hmove as [(-> & _)
                      |[(Hst & Hn & Hst' & _)
                      |[(i & Hst & _ & _ & Hst')
                      |[(i & d & Hst & _ & _ & Hst')
                      |[(Hst & Hst' & _)
                      |(Hst & Hst' & _)]]]]].
    + rewrite (insert_same _ _ _ Hk). exact Hle.
    + apply Nat.ltb_lt in Hn. rewrite Hst, Hst' in Hf. lia.
    + rewrite Hst in Hf. destruct (stage g'); lia.
    + rewrite Hst in Hf. destruct (stage g'); lia.
    + rewrite Hst, Hst' in Hf. lia.
    + rewrite Hst, Hst' in Hf. lia.
Qed.

Lemma run_holding (capacity : nat) (feedConfig : FeedConfig)
    (schedule : list nat) (p : Pool) (w : World) :
  (holding p <= capacity)%nat ->
  (holding (fst (run capacity feedConfig schedule p w)) <= capacity)%nat.
Proof.
  revert p w. induction schedule as [|choice schedule IH]; intros p w Hle;
    [exact Hle|].
  unfold run. cbn [for_each]. unfold bind.
  pose proof (turn_holding capacity feedConfig choice p w Hle) as Hle1.
  destruct (turn capacity feedConfig choice p w) as [p1 w1].
  exact (IH p1 w1 Hle1).
Qed.

End PoolMoves.

(* ===================================================================== *)
(** * The goroutines in any schedule: a cycle of [processFeed] *)
(* ===================================================================== *)

Section PoolCycle.
Context {F : bloom.Filter} {S : sort.Sorter} {C : rss.Collaborators}.
Import gofeed config rss pool.

(** The invariant holds when the dispatch loop begins. *)
Lemma start_invariant (c : Candidates) (feedConfig : FeedConfig)
    (items : list Item) :
  (forall item, In item (newItems c) -> In item items) ->
  pool_invariant (store c) feedConfig items [] (start c feedConfig).
Proof.
  intros Hsub. unfold pool_invariant, marking, start, pairs.
  cbn [pending goroutines shared map List.filter length].
  split.
  { intros item channel Hin. apply in_flat_map in Hin as (item' & Hitem & Hin).
    apply in_map_iff in Hin as (channel' & E & Hch). injection E as -> ->.
    split; [|exact Hch]. apply Hsub.
    exact (Permutation_in _ (order_Permutation _) Hitem). }
  split; [constructor|]. split; [apply storage.evolves_refl|].
  split; [constructor|]. split; [apply marks_after_sends_nil|].
  split; [reflexivity|]. intros g [].
Qed.

Lemma finished_marking (p : Pool) : finished p = true -> marking p = 0%nat.
Proof.
  unfold finished, marking. destruct (pending p); [|discriminate].
  induction (goroutines p) as [|g l IH]; [reflexivity|].
  cbn [forallb List.filter]. intros H. apply andb_prop in H as (Hg & Hl).
  unfold is_finished in Hg. unfold is_marking at 1.
  destruct (stage g); try discriminate. exact (IH Hl).
Qed.

(** X10. One cycle of [processFeed] in [internal/rss/handler.go], with
    its goroutines in any schedule. If the feed cannot be fetched the
    error is returned and nothing else happens. Otherwise, at every
    moment of the cycle: no error is returned; every send delivers, to a
    channel of the feed, the non-empty message of a fetched item that has
    a title or a link, was not older than thirty days at a clock reading
    of the cycle, and was not seen for that channel when the cycle began;
    every mark comes after a send that got through, to the channel of the
    mark and of the message of an item with the id of the mark; the sends
    that got through are as many as the marks and the goroutines that are
    about to mark, so as many as the marks once all goroutines are done;
    at most two goroutines are between taking the semaphore and giving it
    back; the store changes only by marks for the feed and its channels. *)
Theorem processFeed_cycle (schedule : list nat) (s : storage.Storage)
    (feedConfig : FeedConfig) (w : World) :
  let r := pool.processFeed schedule s feedConfig w in
  let p := fst (fst r) in
  match fetch w (step w) (URL feedConfig) with
  | inr err =>
      fst r = (idle s, inr (Wrapf "error parsing feed" err)) /\
      trace (snd r) = trace w /\ files (snd r) = files w
  | inl items =>
      snd (fst r) = inl tt /\
      exists evs,
        trace (snd r) = trace w ++ evs /\
        Forall (cycle_event s feedConfig items w) evs /\
        marks_after_sends feedConfig items evs /\
        count is_delivered evs = (count is_mark evs + marking p)%nat /\
        (finished p = true -> count is_delivered evs = count is_mark evs) /\
        (holding p <= 2)%nat /\
        storage.evolves
          (fun url ch => url = URL feedConfig /\ In ch (Channels feedConfig))
          s (shared p)
  end.
Proof.
  intros r p.
  destruct (fetch w (step w) (URL feedConfig)) as [items|err] eqn:Hfetch.
  2: { assert (r = ((idle s, inr (Wrapf "error parsing feed" err)), tick w)) as E.
       { subst r. unfold pool.processFeed, ParseURL. unfold bind at 1.
         rewrite Hfetch. reflexivity. }
       subst p. rewrite E. cbn. repeat split. }
  assert (r = (if (length items =? 0)%nat then ret (idle s, inl tt)
               else c <- for_each (handler_go.candidate feedConfig)
                           {| newItems := []; seenInThisRun := ∅; store := s |} items ;;
                    p <- run 2 feedConfig schedule (start c feedConfig) ;;
                    ret (p, inl tt)) (tick w)) as E.
  { subst r. unfold pool.processFeed, ParseURL. unfold bind at 1.
    rewrite Hfetch. reflexivity. }
  subst p. rewrite E. clear E r.
  destruct (length items =? 0)%nat.
  { unfold ret. cbn [fst snd trace tick shared idle]. split; [reflexivity|].
    exists []. rewrite app_nil_r.
    split; [reflexivity|]. split; [constructor|].
    split; [apply marks_after_sends_nil|]. split; [reflexivity|].
    split; [reflexivity|]. split; [cbn; lia|apply storage.evolves_refl]. }
  pose proof (go_candidates feedConfig items
                {| newItems := []; seenInThisRun := ∅; store := s |} (tick w)) as Hc.
  cbv zeta in Hc.
  unfold bind.
  destruct (for_each (handler_go.candidate feedConfig)
              {| newItems := []; seenInThisRun := ∅; store := s |} items (tick w))
    as [c w1].
  cbn [fst snd store newItems trace clock step tick] in Hc.
  destruct Hc as (Hstore & Htrace & Hclock & Hstep & _ & Hitems).
  pose proof (run_invariant 2 (store c) feedConfig (newItems c) schedule []
                (start c feedConfig) w1
                (start_invariant c feedConfig (newItems c) (fun _ H => H))) as Hrun.
  cbv zeta in Hrun.
  pose proof (run_holding 2 feedConfig schedule (start c feedConfig) w1) as Hhold.
  destruct (run 2 feedConfig schedule (start c feedConfig) w1) as [p w2].
  unfold ret. cbn [fst snd app] in *.
  specialize (Hhold ltac:(cbn; lia)).
  destruct Hrun as (evs & Ht & Hpend & Hjobs & Hev & Hevs & Hmarks & Hcount & Hsent).
  rewrite Hstore in *.
  assert (forall item, In item (newItems c) ->
            In item items /\ addressable item = true /\ recent w item) as Hkept.
  { intros item Hin. apply Hitems in Hin as [[]|(Hin & Ha & Hr)].
    split; [exact Hin|]. split; [exact Ha|].
    eapply recent_later; [| |exact Hr]; cbn [clock step tick]; [reflexivity|lia]. }
  split; [reflexivity|].
  exists evs. split; [rewrite Ht, Htrace; reflexivity|].
  split.
  { rewrite List.Forall_forall in Hjobs.
    eapply List.Forall_impl; [|exact Hevs].
    intros e (t & Hin & He). apply Hjobs in Hin.
    destruct Hin as (Hitem & Hid & Hch & Hmsg & Hne & Hunseen).
    destruct (Hkept _ Hitem) as (Hin & Ha & Hr).
    destruct e as [channel message ok| | |url channel itemID]; cbn in *; auto.
    - destruct He as (-> & ->). exists (task_item t).
      rewrite <- Hid, <- Hmsg. repeat split; assumption.
    - destruct He as (-> & -> & ->). split; [reflexivity|]. split; [exact Hch|].
      exists (task_item t). split; assumption. }
  split.
  { intros pre post url channel itemID Heq.
    destruct (Hmarks pre post url channel itemID Heq) as (item & Hin & Hid & Hs).
    exists item. split; [apply Hkept; exact Hin|]. split; assumption. }
  split; [exact Hcount|]. split; [|split; [exact Hhold|exact Hev]].
  intros Hfin. rewrite Hcount, (finished_marking p Hfin). lia.
Qed.


(** ** Without failures *)

(** Marks of other pairs leave a bucket as it is. *)
Lemma reached_frame (P : string -> string -> string -> Prop)
    (s s' : storage.Storage) (feedURL channel : string) :
  (forall url ch id, P url ch id -> (feedURL, channel) <> (url, ch)) ->
  reached P s s' ->
  storage.bucket s' feedURL channel = storage.bucket s feedURL channel.
Proof.
  intros Hother. induction 1 as [s|s s' url name ch id w Hr IH HP];
    [reflexivity|].
  rewrite MarkItemSeen_frame by (apply (Hother _ _ _ HP)). exact IH.
Qed.

Lemma steady_turn (capacity : nat) (feedConfig : FeedConfig) (choice : nat)
    (p : Pool) :
  steady (turn capacity feedConfig choice p).
Proof.
  unfold turn. destruct choice as [|k]; [apply steady_ret|].
  destruct (goroutines p !! k); [|apply steady_ret].
  apply steady_bind; [apply steady_advance|]. intros r. apply steady_ret.
Qed.

Lemma on_course_later (feedConfig : FeedConfig) (evs evs' : list Event)
    (s s' : storage.Storage) (g : Goroutine) :
  storage.evolves (fun _ _ => True) s s' ->
  on_course feedConfig evs s g ->
  on_course feedConfig (evs ++ evs') s' g.
Proof.
  intros Hev. unfold on_course. cbv zeta.
  destruct (stage g); try (intros H; exact H).
  - intros H. apply in_or_app. left. exact H.
  - intros (H1 & H2 & H3). split; [apply in_or_app; left; exact H1|].
    split; [apply in_or_app; left; exact H2|]. eapply evolves_seen; eassumption.
  - intros (H1 & H2 & H3). split; [apply in_or_app; left; exact H1|].
    split; [apply in_or_app; left; exact H2|]. eapply evolves_seen; eassumption.
Qed.

Lemma on_course_insert (feedConfig : FeedConfig) (evs : list Event)
    (s : storage.Storage) (l : list Goroutine) (k : nat) (g : Goroutine) :
  Forall (on_course feedConfig evs s) l ->
  on_course feedConfig evs s g ->
  Forall (on_course feedConfig evs s) (<[k := g]> l).
Proof.
  intros Hall Hg. apply List.Forall_forall. intros g0 Hin.
  apply insert_In in Hin as [->|Hin]; [exact Hg|].
  rewrite List.Forall_forall in Hall. exact (Hall g0 Hin).
Qed.

(** A move of the dispatch loop, when the store gives no false positive
    for the pair. *)
Lemma visit_delivering (s0 : storage.Storage) (feedConfig : FeedConfig)
    (items : list Item) (item : Item) (channel : string) (evs : list Event)
    (p : Pool) :
  formatMessage item (Template feedConfig) <> ""%string ->
  (forall s', reached (other_mark feedConfig items item channel) s0 s' ->
     storage.IsItemSeen s' (URL feedConfig) (Name feedConfig) channel
       (generateItemID item) = false) ->
  delivering s0 feedConfig items item channel evs p ->
  delivering s0 feedConfig items item channel evs (visit feedConfig p).
Proof.
  intros Hmsg Hfp Hd. pose proof Hd as (Hall & Hway).
  unfold visit. destruct (pending p) as [|[item' channel'] rest] eqn:Hp;
    [exact Hd|].
  assert (is_empty (formatMessage item (Template feedConfig)) = false) as Hne.
  { unfold is_empty. apply String.eqb_neq. exact Hmsg. }
  assert (forall l, In (task_for feedConfig item channel) (map job (goroutines p)) ->
            In (task_for feedConfig item channel) (map job (goroutines p ++ l)))
    as Hmore.
  { intros l Hin. rewrite map_app. apply in_or_app. left. exact Hin. }
  assert (forall l, Forall (fun g => stage g = Waiting) l ->
            Forall (on_course feedConfig evs (shared p)) (goroutines p ++ l))
    as Hall'.
  { intros l Hl. apply Forall_app. split; [exact Hall|].
    eapply List.Forall_impl; [|exact Hl]. intros g Hst.
    unfold on_course. rewrite Hst. exact I. }
  destruct Hway as [Hstarted|([E|Hin] & Hreached)].
  - destruct (storage.IsItemSeen (shared p) (URL feedConfig) (Name feedConfig)
                channel' (generateItemID item')).
    { split; [exact Hall|left; exact Hstarted]. }
    destruct (is_empty (formatMessage item' (Template feedConfig))).
    { split; [exact Hall|left; exact Hstarted]. }
    split; [|left; apply Hmore; exact Hstarted].
    apply Hall'. constructor; [reflexivity|constructor].
  - injection E as -> ->.
    rewrite (Hfp _ Hreached), Hne.
    split; [apply Hall'; constructor; [reflexivity|constructor]|].
    left. cbn [goroutines]. rewrite map_app. apply in_or_app. right. left.
    reflexivity.
  - destruct (storage.IsItemSeen (shared p) (URL feedConfig) (Name feedConfig)
                channel' (generateItemID item')).
    { split; [exact Hall|right; split; assumption]. }
    destruct (is_empty (formatMessage item' (Template feedConfig))).
    { split; [exact Hall|right; split; assumption]. }
    split; [|right; split; assumption].
    apply Hall'. constructor; [reflexivity|constructor].
Qed.

(** A task started for the channel and the id of [item] is the task of
    [item], when no other item has its id. *)
Lemma started_task_for (s0 : storage.Storage) (feedConfig : FeedConfig)
    (items : list Item) (item : Item) (t : Task) :
  (forall item', In item' items ->
                 generateItemID item' = generateItemID item -> item' = item) ->
  started s0 feedConfig items t ->
  task_itemID t = generateItemID item ->
  t = task_for feedConfig item (task_channel t).
Proof.
  intros Huniq (Hitem & Hid & _ & Hmsg & _ & _) E.
  destruct t as [ch it id msg]. cbn in *. unfold task_for.
  assert (it = item) as -> by (apply Huniq; [exact Hitem|congruence]).
  subst. reflexivity.
Qed.

(** A move of a goroutine, when its send does not fail. *)
Lemma advance_delivering (capacity : nat) (s0 : storage.Storage)
    (feedConfig : FeedConfig) (items : list Item) (item : Item)
    (channel : string) (evs : list Event) (p : Pool) (k : nat) (g : Goroutine)
    (w : World) :
  (forall item', In item' items ->
                 generateItemID item' = generateItemID item -> item' = item) ->
  fault w (step w) = false ->
  pool_invariant s0 feedConfig items evs p ->
  delivering s0 feedConfig items item channel evs p ->
  goroutines p !! k = Some g ->
  let r := advance capacity feedConfig (holding p) (shared p) g w in
  forall evs', trace (snd r) = trace w ++ evs' ->
  delivering s0 feedConfig items item channel (evs ++ evs')
    {| pending := pending p;
       goroutines := <[k := fst (fst r)]> (goroutines p);
       shared := snd (fst r) |}.
Proof.
  intros Huniq Hfault Hinv Hd Hk r evs' Ht'.
  pose proof (advance_moves capacity feedConfig (holding p) (shared p) g w) as Hmove.
  cbv zeta in Hmove. fold r in Hmove.
  destruct r as [[g' s'] w']. cbn [fst snd] in *.
  destruct Hmove as (Hjob & Hmove).
  pose proof Hinv as (_ & Hjobs & _).
  pose proof Hd as (Hall & Hway).
  assert (In g (goroutines p)) as Hg by (eapply lookup_In; exact Hk).
  assert (started s0 feedConfig items (job g)) as Hstarted.
  { rewrite List.Forall_forall in Hjobs. apply Hjobs. apply in_map. exact Hg. }
  assert (on_course feedConfig evs (shared p) g) as Hcourse.
  { rewrite List.Forall_forall in Hall. exact (Hall g Hg). }
  unfold delivering. cbn [pending goroutines shared].
  rewrite (map_job_insert _ _ _ _ Hk Hjob).
  assert (forall s1, storage.evolves (fun _ _ => True) (shared p) s1 ->
            on_course feedConfig (evs ++ evs') s1 g' ->
            Forall (on_course feedConfig (evs ++ evs') s1)
              (<[k := g']> (goroutines p))) as Hothers.
  { intros s1 Hev Hg'. apply on_course_insert; [|exact Hg'].
    eapply List.Forall_impl; [|exact Hall].
    intros g0 H0. exact (on_course_later _ _ _ _ _ _ Hev H0). }
  destruct Hmove as [(-> & -> & -> & _)
                    |[(Hst & _ & Hst' & -> & ->)
                    |[(i & Hst & -> & Ht & Hst')
                    |[(i & d & Hst & -> & Ht & Hst')
                    |[(Hst & Hst' & Hs' & Ht)
                    |(Hst & Hst' & -> & Ht)]]]]].
  - split; [|exact Hway]. apply Hothers; [apply storage.evolves_refl|].
    exact (on_course_later _ _ _ _ _ _ (storage.evolves_refl _ _) Hcourse).
  - split; [|exact Hway]. apply Hothers; [apply storage.evolves_refl|].
    unfold on_course. rewrite Hst'. exact I.
  - rewrite Hfault in *. cbn [negb] in *.
    rewrite Ht in Ht'. apply app_inv_head in Ht'. subst evs'.
    split; [|exact Hway]. apply Hothers; [apply storage.evolves_refl|].
    unfold on_course. rewrite Hst', Hjob. apply in_or_app. right. left. reflexivity.
  - unfold on_course in Hcourse. rewrite Hst in Hcourse. destruct Hcourse.
  - rewrite Ht in Ht'. apply app_inv_head in Ht'. subst evs'.
    destruct (markSeen_run (shared p) feedConfig (task_channel (job g))
                (task_itemID (job g)) w) as (_ & Hev & Hseen).
    rewrite <- Hs' in Hev, Hseen.
    unfold on_course in Hcourse. rewrite Hst in Hcourse.
    split.
    { apply Hothers; [exact Hev|].
      unfold on_course. rewrite Hst', Hjob.
      split; [apply in_or_app; left; exact Hcourse|].
      split; [apply in_or_app; right; left; reflexivity|exact Hseen]. }
    destruct Hway as [Hway|(Hin & Hreached)]; [left; exact Hway|].
    destruct (decide ((task_channel (job g), task_itemID (job g))
                      = (channel, generateItemID item))) as [E|Hne].
    + left. injection E as Hch Hid.
      rewrite <- Hch, <- (started_task_for s0 feedConfig items item (job g)
                            Huniq Hstarted Hid).
      apply in_map. exact Hg.
    + right. split; [exact Hin|].
      destruct (markSeen_store (shared p) feedConfig (task_channel (job g))
                  (task_itemID (job g)) w) as (w0 & E).
      rewrite Hs', E. apply reached_mark; [exact Hreached|].
      destruct Hstarted as (Hitem & Hid & Hch & _).
      split; [reflexivity|]. split; [exact Hch|].
      split; [exists (task_item (job g)); split; assumption|exact Hne].
  - rewrite Ht in Ht'. apply app_inv_head in Ht'. subst evs'.
    split; [|exact Hway]. apply Hothers; [apply storage.evolves_refl|].
    unfold on_course in Hcourse. rewrite Hst in Hcourse.
    destruct Hcourse as (H1 & H2 & H3).
    unfold on_course. rewrite Hst', Hjob.
    split; [apply in_or_app; left; exact H1|].
    split; [apply in_or_app; left; exact H2|exact H3].
Qed.

(** Both invariants after the moves of any schedule, when nothing
    fails. *)
Lemma run_delivering (capacity : nat) (s0 : storage.Storage)
    (feedConfig : FeedConfig) (items : list Item) (item : Item)
    (channel : string) (schedule : list nat) (evs : list Event) (p : Pool)
    (w : World) :
  (forall item', In item' items ->
                 generateItemID item' = generateItemID item -> item' = item) ->
  formatMessage item (Template feedConfig) <> ""%string ->
  (forall s', reached (other_mark feedConfig items item channel) s0 s' ->
     storage.IsItemSeen s' (URL feedConfig) (Name feedConfig) channel
       (generateItemID item) = false) ->
  reliable w ->
  pool_invariant s0 feedConfig items evs p ->
  delivering s0 feedConfig items item channel evs p ->
  let r := run capacity feedConfig schedule p w in
  exists evs',
    trace (snd r) = trace w ++ evs' /\
    delivering s0 feedConfig items item channel (evs ++ evs') (fst r).
Proof.
  intros Huniq Hmsg Hfp.
  revert evs p w. induction schedule as [|choice schedule IH];
    intros evs p w Hrel Hinv Hd r.
  - exists []. subst r. cbn. rewrite !app_nil_r. split; [reflexivity|exact Hd].
  - subst r. unfold run. cbn [for_each]. unfold bind.
    destruct (turn_invariant capacity s0 feedConfig items evs p choice w Hinv)
      as (evs1 & Ht1 & Hinv1).
    pose proof (steady_turn capacity feedConfig choice p w) as Hsame.
    assert (delivering s0 feedConfig items item channel (evs ++ evs1)
              (fst (turn capacity feedConfig choice p w))) as Hd1.
    { clear IH Hinv1 Hsame. revert Ht1. unfold turn. destruct choice as [|k].
      - unfold ret. cbn [fst snd]. intros Ht1.
        assert (evs1 = []) as ->.
        { apply (app_inv_head (trace w)). rewrite <- Ht1, app_nil_r. reflexivity. }
        rewrite app_nil_r. apply visit_delivering; assumption.
      - destruct (goroutines p !! k) as [g|] eqn:Hk.
        + unfold bind, ret.
          pose proof (advance_delivering capacity s0 feedConfig items item channel
                        evs p k g w Huniq (Hrel _) Hinv Hd Hk) as Hadv.
          cbv zeta in Hadv.
          destruct (advance capacity feedConfig (holding p) (shared p) g w)
            as [r w'].
          cbn [fst snd] in *. intros Ht1. exact (Hadv evs1 Ht1).
        + unfold ret. cbn [fst snd]. intros Ht1.
          assert (evs1 = []) as ->.
          { apply (app_inv_head (trace w)). rewrite <- Ht1, app_nil_r. reflexivity. }
          rewrite app_nil_r. exact Hd. }
    destruct (turn capacity feedConfig choice p w) as [p1 w1].
    cbn [fst snd] in *.
    assert (reliable w1) as Hrel1 by (eapply reliable_same; eassumption).
    destruct (IH _ p1 w1 Hrel1 Hinv1 Hd1) as (evs2 & Ht2 & Hd2).
    exists (evs1 ++ evs2). unfold run in Ht2, Hd2.
    split; [rewrite Ht2, Ht1, <- app_assoc; reflexivity|].
    rewrite app_assoc. exact Hd2.
Qed.

(** A pool that is done has delivered what it was on its way to
    deliver. *)
Lemma finished_delivered (s0 : storage.Storage) (feedConfig : FeedConfig)
    (items : list Item) (item : Item) (channel : string) (evs : list Event)
    (p : Pool) :
  delivering s0 feedConfig items item channel evs p ->
  finished p = true ->
  In (EvSend channel (formatMessage item (Template feedConfig)) true) evs /\
  In (EvMark (URL feedConfig) channel (generateItemID item)) evs /\
  storage.IsItemSeen (shared p) (URL feedConfig) (Name feedConfig) channel
    (generateItemID item) = true.
Proof.
  intros (Hall & Hway) Hfin. unfold finished in Hfin.
  destruct (pending p); [|discriminate].
  destruct Hway as [Hin|([] & _)].
  apply in_map_iff in Hin as (g & Hjob & Hg).
  rewrite forallb_forall in Hfin. specialize (Hfin g Hg).
  rewrite List.Forall_forall in Hall. specialize (Hall g Hg).
  unfold is_finished in Hfin. unfold on_course in Hall. cbv zeta in Hall.
  rewrite Hjob in Hall. destruct (stage g); try discriminate. exact Hall.
Qed.

End PoolCycle.

(* ===================================================================== *)
(** * The goroutines one after the other: the cycle comes to its end *)
(* ===================================================================== *)

Section PoolSequential.
Context {F : bloom.Filter} {S : sort.Sorter} {C : rss.Collaborators}.
Import gofeed config rss pool.

Lemma run_app (capacity : nat) (feedConfig : FeedConfig) (l1 l2 : list nat)
    (p : Pool) (w : World) :
  run capacity feedConfig (l1 ++ l2) p w
  = run capacity feedConfig l2 (fst (run capacity feedConfig l1 p w))
      (snd (run capacity feedConfig l1 p w)).
Proof.
  unfold run. revert p w. induction l1 as [|x l1 IH]; intros p w; [reflexivity|].
  cbn [app for_each]. unfold bind.
  destruct (turn capacity feedConfig x p w) as [p1 w1]. apply IH.
Qed.

Lemma run_cons (capacity : nat) (feedConfig : FeedConfig) (x : nat)
    (l : list nat) (p : Pool) (w : World) :
  run capacity feedConfig (x :: l) p w
  = run capacity feedConfig l (fst (turn capacity feedConfig x p w))
      (snd (turn capacity feedConfig x p w)).
Proof.
  unfold run. cbn [for_each]. unfold bind.
  destruct (turn capacity feedConfig x p w). reflexivity.
Qed.

Lemma turn_goroutine (capacity : nat) (feedConfig : FeedConfig) (k : nat)
    (p : Pool) (g : Goroutine) (w : World) :
  goroutines p !! k = Some g ->
  turn capacity feedConfig (Datatypes.S k) p w
  = let r := advance capacity feedConfig (holding p) (shared p) g w in
    ({| pending := pending p;
        goroutines := <[k := fst (fst r)]> (goroutines p);
        shared := snd (fst r) |}, snd r).
Proof.
  intros Hk. unfold turn. rewrite Hk. unfold bind, ret.
  destruct (advance capacity feedConfig (holding p) (shared p) g w) as [[g1 s1] w1].
  reflexivity.
Qed.

Lemma turn_dispatch (capacity : nat) (feedConfig : FeedConfig) (p : Pool)
    (w : World) :
  turn capacity feedConfig O p w = (visit feedConfig p, w).
Proof. reflexivity. Qed.

Lemma turn_nobody (capacity : nat) (feedConfig : FeedConfig) (k : nat)
    (p : Pool) (w : World) :
  goroutines p !! k = None ->
  turn capacity feedConfig (Datatypes.S k) p w = (p, w).
Proof. intros Hk. unfold turn. rewrite Hk. reflexivity. Qed.

(** A move of a goroutine that is not held back brings it nearer to its
    end. *)
Lemma advance_nearer (capacity : nat) (feedConfig : FeedConfig) (n : nat)
    (s : storage.Storage) (g : Goroutine) (w : World) :
  in_loop (stage g) ->
  (stage g = Waiting -> (n < capacity)%nat) ->
  let g' := fst (fst (advance capacity feedConfig n s g w)) in
  job g' = job g /\ in_loop (stage g') /\ stage g' <> Waiting /\
  (moves_left (stage g') <= Nat.pred (moves_left (stage g)))%nat.
Proof.
  intros Hloop Hfree g'.
  pose proof (advance_moves capacity feedConfig n s g w) as Hmove.
  cbv zeta in Hmove. fold g' in Hmove.
  destruct Hmove as (Hjob & Hmove). split; [exact Hjob|].
  unfold maxRetries in Hmove.
  destruct Hmove as [(-> & _ & _ & [(Hst & Hn)|Hst])
                    |[(Hst & _ & Hst' & _)
                    |[(i & Hst & _ & _ & Hst')
                    |[(i & d & Hst & _ & _ & Hst')
                    |[(Hst & Hst' & _)
                    |(Hst & Hst' & _)]]]]].
  - apply Hfree in Hst. apply Nat.ltb_ge in Hn. lia.
  - rewrite Hst. cbn. repeat split; [discriminate|lia].
  - rewrite Hst, Hst'. cbn. repeat split; [lia|lia|discriminate|lia].
  - rewrite Hst in *. cbn in Hloop.
    destruct (negb (fault w (step w))).
    + rewrite Hst'. cbn. repeat split; [discriminate|lia].
    + destruct (i =? 3 - 1) eqn:Hi; rewrite Hst'; cbn.
      * repeat split; [discriminate|lia].
      * apply Z.eqb_neq in Hi. repeat split; [lia|lia|discriminate|lia].
  - rewrite Hst in *. cbn in Hloop.
    destruct (i + 1 <? 3) eqn:Hi; rewrite Hst'; cbn.
    + repeat split; [lia|lia|discriminate|lia].
    + repeat split; [discriminate|lia].
  - rewrite Hst, Hst'. cbn. repeat split; [discriminate|lia].
  - rewrite Hst, Hst'. cbn. repeat split; [discriminate|lia].
Qed.

(** The moves of one goroutine, the others standing still. *)
Lemma goroutine_runs (capacity : nat) (feedConfig : FeedConfig) (k n : nat)
    (p : Pool) (g : Goroutine) (w : World) :
  goroutines p !! k = Some g ->
  in_loop (stage g) ->
  (stage g = Waiting -> (holding p < capacity)%nat) ->
  let r := run capacity feedConfig (repeat (Datatypes.S k) n) p w in
  exists g',
    goroutines (fst r) = <[k := g']> (goroutines p) /\
    pending (fst r) = pending p /\
    in_loop (stage g') /\
    (moves_left (stage g') <= moves_left (stage g) - n)%nat.
Proof.
  revert p g w. induction n as [|n IH]; intros p g w Hk Hloop Hfree r; subst r.
  - exists g. cbn. rewrite (insert_same _ _ _ Hk).
    split; [reflexivity|]. split; [reflexivity|]. split; [exact Hloop|lia].
  - cbn [repeat]. rewrite run_cons, (turn_goroutine _ _ _ _ _ _ Hk). cbv zeta.
    pose proof (advance_nearer capacity feedConfig (holding p) (shared p) g w
                  Hloop Hfree) as Hnear.
    cbv zeta in Hnear.
    destruct (advance capacity feedConfig (holding p) (shared p) g w)
      as [[g1 s1] w1].
    cbn [fst snd] in *.
    destruct Hnear as (Hjob & Hloop1 & Hnot & Hless).
    set (p1 := {| pending := pending p; goroutines := <[k := g1]> (goroutines p);
                  shared := s1 |}).
    assert (goroutines p1 !! k = Some g1) as Hk1.
    { cbn [p1 goroutines]. apply list_lookup_insert_eq.
      eapply lookup_lt_Some. exact Hk. }
    destruct (IH p1 g1 w1 Hk1 Hloop1 (fun E => False_ind _ (Hnot E)))
      as (g' & Hgs & Hpend & Hloop' & Hless').
    exists g'. fold p1. rewrite Hgs, Hpend.
    cbn [p1 goroutines pending]. rewrite list_insert_insert_eq.
    split; [reflexivity|]. split; [reflexivity|]. split; [exact Hloop'|lia].
Qed.

(** The moves of a goroutine that was never started. *)
Lemma nobody_runs (capacity : nat) (feedConfig : FeedConfig) (k n : nat)
    (p : Pool) (w : World) :
  goroutines p !! k = None ->
  run capacity feedConfig (repeat (Datatypes.S k) n) p w = (p, w).
Proof.
  intros Hk. induction n as [|n IH]; [reflexivity|].
  cbn [repeat]. rewrite run_cons, turn_nobody by exact Hk. exact IH.
Qed.

(** The dispatch loop to its end, before any goroutine moves. *)
Lemma dispatch_runs (capacity : nat) (feedConfig : FeedConfig) (n : nat)
    (p : Pool) (w : World) :
  Forall (fun g => stage g = Waiting) (goroutines p) ->
  let r := run capacity feedConfig (repeat O n) p w in
  snd r = w /\
  length (pending (fst r)) = (length (pending p) - n)%nat /\
  (length (goroutines (fst r)) + length (pending (fst r))
   <= length (goroutines p) + length (pending p))%nat /\
  Forall (fun g => stage g = Waiting) (goroutines (fst r)).
Proof.
  revert p. induction n as [|n IH]; intros p Hall r; subst r.
  - cbn. split; [reflexivity|]. split; [lia|]. split; [lia|exact Hall].
  - cbn [repeat]. rewrite run_cons, turn_dispatch. cbn [fst snd].
    assert (length (pending (visit feedConfig p)) = Nat.pred (length (pending p)) /\
            (length (goroutines (visit feedConfig p))
             + length (pending (visit feedConfig p))
             <= length (goroutines p) + length (pending p))%nat /\
            Forall (fun g => stage g = Waiting) (goroutines (visit feedConfig p)))
      as (Hlen & Hsum & Hall1).
    { unfold visit. destruct (pending p) as [|[item channel] rest] eqn:Hp.
      - rewrite Hp. split; [reflexivity|]. split; [lia|exact Hall].
      - destruct (storage.IsItemSeen _ _ _ _ _);
          [|destruct (is_empty _)]; cbn [pending goroutines length];
          try (split; [reflexivity|]; split; [lia|exact Hall]).
        split; [reflexivity|]. rewrite length_app. cbn [length].
        split; [lia|]. apply Forall_app. split; [exact Hall|].
        constructor; [reflexivity|constructor]. }
    destruct (IH (visit feedConfig p) Hall1) as (Hw & Hlen' & Hsum' & Hall').
    split; [exact Hw|]. split; [lia|]. split; [lia|exact Hall'].
Qed.

Lemma resting_holding (p : Pool) :
  (forall g, In g (goroutines p) -> stage g = Waiting \/ stage g = Finished) ->
  holding p = 0%nat.
Proof.
  unfold holding. induction (goroutines p) as [|g l IH]; intros H; [reflexivity|].
  cbn [List.filter]. unfold holds at 1.
  destruct (H g (or_introl eq_refl)) as [-> | ->]; apply IH;
    intros g0 Hin; apply H; right; exact Hin.
Qed.

(** The goroutines from number [a] on, one after the other. *)
Lemma goroutines_run (capacity : nat) (feedConfig : FeedConfig) (n a : nat)
    (p : Pool) (w : World) :
  (0 < capacity)%nat ->
  done_before a p ->
  let p' := fst (run capacity feedConfig
                   (flat_map (fun k => repeat (Datatypes.S k) 8) (seq a n)) p w) in
  done_before (a + n) p' /\ length (goroutines p') = length (goroutines p).
Proof.
  intros Hcap. revert a p w. induction n as [|n IH]; intros a p w Hdone p'; subst p'.
  - cbn. rewrite Nat.add_0_r. split; [exact Hdone|reflexivity].
  - cbn [seq flat_map]. rewrite run_app.
    replace (a + Datatypes.S n)%nat with (Datatypes.S a + n)%nat by lia.
    cut (done_before (Datatypes.S a)
           (fst (run capacity feedConfig (repeat (Datatypes.S a) 8) p w)) /\
         length (goroutines
                   (fst (run capacity feedConfig (repeat (Datatypes.S a) 8) p w)))
         = length (goroutines p)).
    { intros (Hdone1 & Hlen1).
      destruct (IH (Datatypes.S a) _
                  (snd (run capacity feedConfig (repeat (Datatypes.S a) 8) p w))
                  Hdone1) as (Hdone2 & Hlen2).
      split; [exact Hdone2|]. rewrite Hlen2. exact Hlen1. }
    destruct Hdone as (Hpend & Hstages).
    destruct (goroutines p !! a) as [g|] eqn:Ha.
    + assert (stage g = Waiting) as Hst.
      { rewrite (Hstages a g Ha), Nat.ltb_irrefl. reflexivity. }
      assert (holding p = 0%nat) as Hhold.
      { apply resting_holding. intros g0 Hin.
        apply list_elem_of_In, list_elem_of_lookup in Hin as (j & Hj).
        rewrite (Hstages j g0 Hj). destruct (j <? a)%nat; auto. }
      destruct (goroutine_runs capacity feedConfig a 8 p g w Ha)
        as (g' & Hgs & Hpend' & Hloop & Hless).
      { rewrite Hst. exact I. }
      { intros _. lia. }
      rewrite Hst in Hless. cbn [moves_left] in Hless.
      assert (stage g' = Finished) as Hfin.
      { destruct (stage g') as [|i|i| | |]; cbn in Hloop, Hless; try lia.
        reflexivity. }
      split; [|rewrite Hgs; apply length_insert].
      split; [rewrite Hpend'; exact Hpend|].
      intros j g0. rewrite Hgs. intros Hj.
      destruct (decide (j = a)) as [->|Hne].
      * rewrite list_lookup_insert_eq in Hj by (eapply lookup_lt_Some; exact Ha).
        injection Hj as <-. rewrite Hfin.
        replace (a <? Datatypes.S a)%nat with true; [reflexivity|].
        symmetry. apply Nat.ltb_lt. lia.
      * rewrite list_lookup_insert_ne in Hj by congruence.
        rewrite (Hstages j g0 Hj).
        destruct (j <? a)%nat eqn:E1, (j <? Datatypes.S a)%nat eqn:E2;
          try reflexivity.
        -- apply Nat.ltb_lt in E1. apply Nat.ltb_ge in E2. lia.
        -- apply Nat.ltb_ge in E1. apply Nat.ltb_lt in E2. lia.
    + rewrite nobody_runs by exact Ha. cbn [fst].
      split; [|reflexivity].
      split; [exact Hpend|]. intros j g0 Hj.
      rewrite (Hstages j g0 Hj).
      assert (j < a)%nat as Hlt.
      { apply lookup_lt_Some in Hj. apply lookup_ge_None in Ha. lia. }
      replace (j <? a)%nat with true by (symmetry; apply Nat.ltb_lt; lia).
      replace (j <? Datatypes.S a)%nat with true
        by (symmetry; apply Nat.ltb_lt; lia).
      reflexivity.
Qed.

(** The dispatch loop to its end and then the goroutines one after the
    other, each to its end: all are done. *)
Lemma sequential_finished (capacity : nat) (feedConfig : FeedConfig) (n : nat)
    (p : Pool) (w : World) :
  (0 < capacity)%nat ->
  goroutines p = [] ->
  (length (pending p) <= n)%nat ->
  finished (fst (run capacity feedConfig (sequential n) p w)) = true.
Proof.
  intros Hcap Hnone Hn. unfold sequential. rewrite run_app.
  destruct (dispatch_runs capacity feedConfig n p w) as (Hw & Hlen & Hsum & Hall).
  { rewrite Hnone. constructor. }
  destruct (run capacity feedConfig (repeat O n) p w) as [p1 w1].
  cbn [fst snd] in *. rewrite Hnone in Hsum. cbn [length] in Hsum.
  assert (done_before 0 p1) as Hdone.
  { split; [apply length_zero_iff_nil; lia|].
    intros j g Hj. cbn. rewrite List.Forall_forall in Hall. apply Hall.
    eapply lookup_In. exact Hj. }
  pose proof (goroutines_run capacity feedConfig n 0 p1 w1 Hcap Hdone)
    as ((Hpend & Hstages) & Hsame).
  unfold finished. rewrite Hpend. apply forallb_forall. intros g Hin.
  apply list_elem_of_In, list_elem_of_lookup in Hin as (j & Hj).
  unfold is_finished. rewrite (Hstages j g Hj).
  replace (j <? 0 + n)%nat with true; [reflexivity|].
  symmetry. apply Nat.ltb_lt. apply lookup_lt_Some in Hj. lia.
Qed.


Lemma candidates_length (feedConfig : FeedConfig) (items : list Item)
    (c : Candidates) (w : World) :
  (length (newItems (fst (for_each (handler_go.candidate feedConfig) c items w)))
   <= length (newItems c) + length items)%nat.
Proof.
  revert c w. induction items as [|x items IH]; intros c w; [cbn; lia|].
  cbn [for_each]. unfold bind.
  pose proof (go_candidate feedConfig c x w) as Hstep. cbv zeta in Hstep.
  destruct (handler_go.candidate feedConfig c x w) as [c1 w1].
  cbn [fst snd] in Hstep. destruct Hstep as (_ & _ & _ & _ & _ & Hnew).
  specialize (IH c1 w1). cbn [length].
  destruct Hnew as [E|(E & _)]; rewrite E in IH; [lia|].
  rewrite length_app in IH. cbn [length] in IH. lia.
Qed.

Lemma pairs_length (feedConfig : FeedConfig) (l : list Item) :
  length (pairs feedConfig l) = (length l * length (Channels feedConfig))%nat.
Proof.
  unfold pairs. induction l as [|x l IH]; [reflexivity|].
  cbn [flat_map length]. rewrite length_app, length_map, IH. lia.
Qed.

(** [processFeed] comes to its end when the dispatch loop and then the
    goroutines, one after the other, are given moves enough. *)
Lemma pool_finishes (s : storage.Storage) (feedConfig : FeedConfig) (w : World)
    (n : nat) :
  (forall items, fetch w (step w) (URL feedConfig) = inl items ->
                 (length items * length (Channels feedConfig) <= n)%nat) ->
  finished (fst (fst (pool.processFeed (sequential n) s feedConfig w))) = true.
Proof.
  intros Hn. unfold pool.processFeed, ParseURL. unfold bind at 1.
  destruct (fetch w (step w) (URL feedConfig)) as [items|err]; [|reflexivity].
  specialize (Hn items eq_refl).
  destruct (length items =? 0)%nat; [reflexivity|].
  unfold bind, ret.
  pose proof (candidates_length feedConfig items
                {| newItems := []; seenInThisRun := ∅; store := s |} (tick w)) as Hlen.
  destruct (for_each (handler_go.candidate feedConfig)
              {| newItems := []; seenInThisRun := ∅; store := s |} items (tick w))
    as [c w1].
  cbn [fst snd newItems length] in Hlen.
  pose proof (sequential_finished 2 feedConfig n (start c feedConfig) w1) as Hfin.
  destruct (run 2 feedConfig (sequential n) (start c feedConfig) w1) as [p w2].
  cbn [fst snd] in *. apply Hfin; [lia|reflexivity|].
  cbn [start pending]. rewrite pairs_length.
  rewrite (Permutation_length (order_Permutation (newItems c))).
  etransitivity; [|exact Hn]. apply Nat.mul_le_mono_r. lia.
Qed.

(** What a cycle without failures has delivered when it is done. *)
Lemma pool_delivers (schedule : list nat) (s : storage.Storage)
    (feedConfig : FeedConfig) (w : World) (items : list Item) (item : Item)
    (channel : string) :
  fetch w (step w) (URL feedConfig) = inl items ->
  reliable w ->
  In item items ->
  addressable item = true ->
  (forall item', In item' items ->
                 generateItemID item' = generateItemID item -> item' = item) ->
  (forall t, PublishedParsed item = Some t ->
     forall n, time.Sub (clock w n) t <= handler_go.articleExpirationDuration) ->
  formatMessage item (Template feedConfig) <> ""%string ->
  In channel (Channels feedConfig) ->
  (forall s', reached (other_mark feedConfig items item channel) s s' ->
     storage.IsItemSeen s' (URL feedConfig) (Name feedConfig) channel
       (generateItemID item) = false) ->
  let r := pool.processFeed schedule s feedConfig w in
  finished (fst (fst r)) = true ->
  exists evs,
    trace (snd r) = trace w ++ evs /\
    In (EvSend channel (formatMessage item (Template feedConfig)) true) evs /\
    In (EvMark (URL feedConfig) channel (generateItemID item)) evs /\
    storage.IsItemSeen (shared (fst (fst r))) (URL feedConfig) (Name feedConfig)
      channel (generateItemID item) = true.
Proof.
  intros Hfetch Hrel Hitem Haddr Huniq Hfresh Hmsg Hch Hfp r.
  assert (r = (if (length items =? 0)%nat then ret (idle s, inl tt)
               else c <- for_each (handler_go.candidate feedConfig)
                           {| newItems := []; seenInThisRun := ∅; store := s |} items ;;
                    p <- run 2 feedConfig schedule (start c feedConfig) ;;
                    ret (p, inl tt)) (tick w)) as ->.
  { subst r. unfold pool.processFeed, ParseURL. unfold bind at 1.
    rewrite Hfetch. reflexivity. }
  destruct items as [|x0 items0]; [destruct Hitem|].
  set (items := x0 :: items0) in *.
  change (length items =? 0)%nat with false. cbv iota.
  assert (reliable (tick w)) as Hrel0 by (intros n; apply Hrel).
  pose proof (go_candidates feedConfig items
                {| newItems := []; seenInThisRun := ∅; store := s |} (tick w)) as Hc.
  pose proof (go_candidates_keep feedConfig items item
                {| newItems := []; seenInThisRun := ∅; store := s |} (tick w)) as Hkeep.
  pose proof (for_each_candidates_reliable feedConfig items
                {| newItems := []; seenInThisRun := ∅; store := s |} (tick w) Hrel0)
    as Hrel1.
  cbv zeta in Hc.
  unfold bind.
  destruct (for_each (handler_go.candidate feedConfig)
              {| newItems := []; seenInThisRun := ∅; store := s |} items (tick w))
    as [c w1].
  cbn [fst snd store newItems seenInThisRun trace clock step tick app] in *.
  destruct Hc as (Hstore & Htrace & _ & _ & _ & Hitems).
  pose proof (Hfp s (reached_refl _ s)) as Hunseen.
  assert (In item (newItems c)) as Hkept.
  { apply Hkeep; auto.
    - unfold allChannelsProcessed. apply not_true_is_false. intros Hall.
      rewrite forallb_forall in Hall. rewrite (Hall channel Hch) in Hunseen.
      discriminate.
    - intros id Hid. rewrite lookup_empty in Hid. discriminate. }
  assert (forall item', In item' (newItems c) -> In item' items) as Hsub.
  { intros item' Hin. apply Hitems in Hin as [[]|(Hin & _)]. exact Hin. }
  pose proof (start_invariant c feedConfig items Hsub) as Hinv.
  assert (delivering (store c) feedConfig items item channel [] (start c feedConfig))
    as Hd.
  { split; [constructor|]. right. split; [|apply reached_refl].
    cbn [start pending]. unfold pairs. apply in_flat_map. exists item.
    split; [|apply in_map; exact Hch].
    apply (Permutation_in _ (Permutation_sym (order_Permutation _))). exact Hkept. }
  rewrite Hstore in Hinv, Hd.
  pose proof (run_delivering 2 s feedConfig items item channel schedule []
                (start c feedConfig) w1 Huniq Hmsg Hfp Hrel1 Hinv Hd) as Hrun.
  cbv zeta in Hrun.
  destruct (run 2 feedConfig schedule (start c feedConfig) w1) as [p w2].
  unfold ret. cbn [fst snd app] in *.
  destruct Hrun as (evs & Ht & Hd').
  intros Hfin. exists evs. split; [rewrite Ht, Htrace; reflexivity|].
  exact (finished_delivered s feedConfig items item channel evs p Hd' Hfin).
Qed.

(** X13. A cycle without failures delivers what is new, whatever the
    schedule of its goroutines. In a world in which nothing fails, take a
    fetched item that has a title or a link, whose id no other fetched
    item has, that is not older than thirty days at any reading of the
    clock, and whose message is not empty; and a channel of the feed for
    which the store does not report the item seen, neither when the cycle
    begins nor after any marks of the other ids and channels of the cycle
    (the filter gives no false positive for it). Then the cycle comes to
    its end when the dispatch loop and then the goroutines, one after the
    other, are given moves enough; and in every schedule, once the cycle
    is at its end, the message of the item was sent to the channel, the
    send got through, the id was marked, and the store reports the item
    seen. *)
Theorem processFeed_delivers (s : storage.Storage) (feedConfig : FeedConfig)
    (w : World) (items : list Item) (item : Item) (channel : string) :
  fetch w (step w) (URL feedConfig) = inl items ->
  reliable w ->
  In item items ->
  addressable item = true ->
  (forall item', In item' items ->
                 generateItemID item' = generateItemID item -> item' = item) ->
  (forall t, PublishedParsed item = Some t ->
     forall n, time.Sub (clock w n) t <= handler_go.articleExpirationDuration) ->
  formatMessage item (Template feedConfig) <> ""%string ->
  In channel (Channels feedConfig) ->
  (forall s', reached (other_mark feedConfig items item channel) s s' ->
     storage.IsItemSeen s' (URL feedConfig) (Name feedConfig) channel
       (generateItemID item) = false) ->
  (forall n, (length items * length (Channels feedConfig) <= n)%nat ->
     finished (fst (fst (pool.processFeed (sequential n) s feedConfig w))) = true) /\
  forall schedule,
    let r := pool.processFeed schedule s feedConfig w in
    finished (fst (fst r)) = true ->
    exists evs,
      trace (snd r) = trace w ++ evs /\
      In (EvSend channel (formatMessage item (Template feedConfig)) true) evs /\
      In (EvMark (URL feedConfig) channel (generateItemID item)) evs /\
      storage.IsItemSeen (shared (fst (fst r))) (URL feedConfig) (Name feedConfig)
        channel (generateItemID item) = true.
Proof.
  intros Hfetch Hrel Hitem Haddr Huniq Hfresh Hmsg Hch Hfp. split.
  - intros n Hn. apply pool_finishes. intros items' E.
    rewrite Hfetch in E. injection E as <-. exact Hn.
  - intros schedule.
    exact (pool_delivers schedule s feedConfig w items item channel Hfetch Hrel
             Hitem Haddr Huniq Hfresh Hmsg Hch Hfp).
Qed.

End PoolSequential.

(* ===================================================================== *)
(** * Strings: replacing, splitting and joining *)
(* ===================================================================== *)

Section StringScan.

Lemma app_cons (c : ascii) (s t : string) :
  (String c s ++ t)%string = String c (s ++ t).
Proof. reflexivity. Qed.

Lemma app_empty_r (s : string) : (s ++ "")%string = s.
Proof.
  induction s as [|c s IH]; [reflexivity|]. rewrite app_cons, IH. reflexivity.
Qed.

Lemma length_app_string (s t : string) :
  String.length (s ++ t) = (String.length s + String.length t)%nat.
Proof.
  induction s as [|c s IH]; [reflexivity|]. rewrite app_cons. cbn. now rewrite IH.
Qed.

Lemma HasPrefix_cons (c d : ascii) (s p : string) :
  strings.HasPrefix (String c s) (String d p)
  = Ascii.eqb d c && strings.HasPrefix s p.
Proof.
  unfold strings.HasPrefix. cbn [String.prefix].
  destruct (ascii_dec d c) as [->|Hne].
  - rewrite Ascii.eqb_refl. reflexivity.
  - apply Ascii.eqb_neq in Hne. rewrite Hne. reflexivity.
Qed.

Lemma HasPrefix_empty (s : string) : strings.HasPrefix s "" = true.
Proof. destruct s; reflexivity. Qed.

Lemma HasPrefix_nil (p : string) :
  strings.HasPrefix "" p = true -> p = ""%string.
Proof. destruct p; [reflexivity|discriminate]. Qed.

Lemma HasPrefix_app (p s : string) : strings.HasPrefix (p ++ s) p = true.
Proof.
  induction p as [|c p IH]; [apply HasPrefix_empty|].
  rewrite app_cons, HasPrefix_cons, Ascii.eqb_refl. exact IH.
Qed.

(** A prefix can be taken off. *)
Lemma HasPrefix_split (s p : string) :
  strings.HasPrefix s p = true -> exists rest, s = (p ++ rest)%string.
Proof.
  revert s. induction p as [|c p IH]; intros s H.
  - exists s. reflexivity.
  - destruct s as [|d s]; [discriminate|].
    rewrite HasPrefix_cons in H. apply andb_true_iff in H as (Hc & Hp).
    apply Ascii.eqb_eq in Hc as ->.
    destruct (IH s Hp) as (rest & ->). exists rest. reflexivity.
Qed.

Lemma replace_from_skip (u s old new : string) :
  strings.replace_from (String.length u) (u ++ s) old new
  = strings.replace_from 0 s old new.
Proof.
  induction u as [|c u IH]; [reflexivity|].
  rewrite app_cons. cbn [String.length strings.replace_from]. exact IH.
Qed.

Lemma split_from_skip (u s sep : string) :
  strings.split_from (String.length u) (u ++ s) sep = strings.split_from 0 s sep.
Proof.
  induction u as [|c u IH]; [reflexivity|].
  rewrite app_cons. cbn [String.length strings.split_from]. exact IH.
Qed.

(** The three equations of [ReplaceAll] for a non-empty [old]. *)
Lemma ReplaceAll_empty (old new : string) : strings.ReplaceAll "" old new = ""%string.
Proof. destruct old; reflexivity. Qed.

Lemma ReplaceAll_match (s old new : string) :
  old <> ""%string ->
  strings.ReplaceAll (old ++ s) old new = (new ++ strings.ReplaceAll s old new)%string.
Proof.
  intros Hold. destruct old as [|c old]; [congruence|].
  unfold strings.ReplaceAll.
  change (String c old ++ s)%string with (String c (old ++ s)).
  cbn [strings.replace_from].
  change (String c (old ++ s)) with (String c old ++ s)%string.
  rewrite HasPrefix_app.
  cbn [String.length Nat.pred]. rewrite replace_from_skip. reflexivity.
Qed.

Lemma ReplaceAll_pass (c : ascii) (s old new : string) :
  old <> ""%string ->
  strings.HasPrefix (String c s) old = false ->
  strings.ReplaceAll (String c s) old new = String c (strings.ReplaceAll s old new).
Proof.
  intros Hold Hp. destruct old as [|d old]; [congruence|].
  unfold strings.ReplaceAll. cbn [strings.replace_from]. rewrite Hp. reflexivity.
Qed.

(** The three equations of [Split] for a non-empty [sep]. *)
Lemma Split_empty (sep : string) : strings.Split "" sep = [""%string].
Proof. destruct sep; reflexivity. Qed.

Lemma Split_match (s sep : string) :
  sep <> ""%string ->
  strings.Split (sep ++ s) sep = ""%string :: strings.Split s sep.
Proof.
  intros Hsep. destruct sep as [|c sep]; [congruence|].
  unfold strings.Split.
  change (String c sep ++ s)%string with (String c (sep ++ s)).
  cbn [strings.split_from].
  change (String c (sep ++ s)) with (String c sep ++ s)%string.
  rewrite HasPrefix_app.
  cbn [String.length Nat.pred]. rewrite split_from_skip. reflexivity.
Qed.

Lemma Split_pass (c : ascii) (s sep : string) :
  sep <> ""%string ->
  strings.HasPrefix (String c s) sep = false ->
  exists piece pieces,
    strings.Split s sep = piece :: pieces /\
    strings.Split (String c s) sep = String c piece :: pieces.
Proof.
  intros Hsep Hp. destruct sep as [|d sep]; [congruence|].
  unfold strings.Split. cbn [strings.split_from]. rewrite Hp.
  assert (forall k t, strings.split_from k t (String d sep) <> []) as Hne.
  { intros k t. revert k. induction t as [|x t IH]; intros k H;
      cbn [strings.split_from] in H; [discriminate H|].
    destruct k; [|exact (IH _ H)].
    match type of H with
    | context [if ?b then _ else _] => destruct b; [discriminate H|]
    end.
    destruct (strings.split_from 0 t (String d sep)); discriminate H. }
  destruct (strings.split_from 0 s (String d sep)) as [|piece pieces] eqn:Hs.
  - exfalso. exact (Hne _ _ Hs).
  - exists piece, pieces. split; reflexivity.
Qed.

(** Reasoning along the scan: at every position the text is at its end,
    starts with [old], or starts with a byte that is passed over. *)
Lemma scan_ind (old : string) (Hold : old <> ""%string) (P : string -> Prop) :
  P ""%string ->
  (forall s, P s -> P (old ++ s)%string) ->
  (forall c s, strings.HasPrefix (String c s) old = false -> P s -> P (String c s)) ->
  forall s, P s.
Proof.
  intros Hnil Hmatch Hpass s.
  remember (String.length s) as n eqn:Hn.
  revert s Hn. induction n as [n IH] using lt_wf_ind. intros s Hn.
  destruct s as [|c s]; [exact Hnil|].
  destruct (strings.HasPrefix (String c s) old) eqn:Hp.
  - destruct (HasPrefix_split _ _ Hp) as (rest & Heq).
    rewrite Heq. apply Hmatch.
    apply (IH (String.length rest)); [|reflexivity].
    subst n. rewrite Heq, length_app_string.
    destruct old; [congruence|cbn; lia].
  - apply Hpass; [exact Hp|].
    apply (IH (String.length s)); [subst n; cbn; lia|reflexivity].
Qed.

End StringScan.

(* ===================================================================== *)
(** * The template fields: [splitEscaped] *)
(* ===================================================================== *)

Section SplitEscaped.
Context {R : regexp.Engine} {U : unicode.Spaces}.
Import template.

Abbreviation bar := "|"%string.
Abbreviation esc := (String backslash "|")%string.

Lemma splitEscaped_bar (s : string) :
  splitEscaped s "|"
  = map (fun piece => strings.ReplaceAll piece interSymbol esc)
        (strings.Split (strings.ReplaceAll s esc interSymbol) bar).
Proof. reflexivity. Qed.

Lemma occurs_app (c : ascii) (s t : string) :
  occurs c (s ++ t) = occurs c s || occurs c t.
Proof.
  induction s as [|d s IH]; [reflexivity|].
  rewrite app_cons. cbn [occurs]. rewrite IH. apply orb_assoc.
Qed.

Lemma HasPrefix_absent (c : ascii) (s p : string) :
  occurs c s = false -> strings.HasPrefix s (String c p) = false.
Proof.
  destruct s as [|d s]; [reflexivity|].
  cbn [occurs]. intros H. apply orb_false_iff in H as (H & _).
  rewrite HasPrefix_cons, H. reflexivity.
Qed.

(** The pieces of a split around ['|'] hold no ['|']. *)
Lemma Split_bar_pieces (t : string) :
  Forall (fun piece => occurs "|" piece = false) (strings.Split t bar).
Proof.
  induction t as [|t IH|c t Hp IH] using (scan_ind bar ltac:(discriminate)).
  - rewrite Split_empty. repeat constructor.
  - rewrite Split_match by discriminate. constructor; [reflexivity|exact IH].
  - destruct (Split_pass c t bar ltac:(discriminate) Hp) as (piece & pieces & Hs & ->).
    rewrite Hs in IH. inversion IH as [|? ? Hpiece Hrest]; subst.
    constructor; [|exact Hrest].
    cbn [occurs]. rewrite Hpiece.
    rewrite HasPrefix_cons, HasPrefix_empty, andb_true_r in Hp. rewrite Hp. reflexivity.
Qed.

Lemma Split_nonempty (t sep : string) : strings.Split t sep <> [].
Proof.
  destruct sep as [|d sep]; [discriminate|].
  induction t as [|t IH|c t Hp IH] using (scan_ind (String d sep) ltac:(discriminate)).
  - rewrite Split_empty. discriminate.
  - rewrite Split_match; discriminate.
  - destruct (Split_pass c t (String d sep) ltac:(discriminate) Hp)
      as (piece & pieces & _ & ->). discriminate.
Qed.

(** Putting the escaped separators back leaves every ['|'] escaped. *)
Lemma restore_escaped (piece : string) :
  occurs "|" piece = false ->
  forall b, escaped "|" b (strings.ReplaceAll piece interSymbol esc) = true.
Proof.
  induction piece as [|piece IH|c piece Hp IH] using (scan_ind interSymbol ltac:(discriminate));
    intros Hocc b.
  - reflexivity.
  - rewrite ReplaceAll_match by discriminate.
    rewrite occurs_app in Hocc. apply orb_false_iff in Hocc as (_ & Hocc).
    change (escaped "|" b (esc ++ strings.ReplaceAll piece interSymbol esc))
      with (true && (true && escaped "|" false (strings.ReplaceAll piece interSymbol esc))).
    cbn [andb]. apply IH. exact Hocc.
  - rewrite ReplaceAll_pass by (discriminate || exact Hp).
    cbn [occurs] in Hocc. apply orb_false_iff in Hocc as (Hc & Hocc).
    cbn [escaped]. rewrite Ascii.eqb_sym, Hc. cbn [negb orb andb].
    apply IH. exact Hocc.
Qed.

Lemma splitEscaped_nonempty (s : string) : splitEscaped s "|" <> [].
Proof.
  rewrite splitEscaped_bar.
  pose proof (Split_nonempty (strings.ReplaceAll s esc interSymbol) bar) as H.
  destruct (strings.Split _ _); [congruence|discriminate].
Qed.

(** X16. [splitEscaped] never returns an empty list and never leaves a
    bare separator in a piece: in every piece, each ['|'] comes right
    after a backslash. *)
Theorem splitEscaped_pieces (s : string) :
  splitEscaped s "|" <> [] /\
  Forall (fun piece => escaped "|" false piece = true) (splitEscaped s "|").
Proof.
  split; [apply splitEscaped_nonempty|].
  rewrite splitEscaped_bar. apply Forall_map.
  eapply List.Forall_impl; [|apply Split_bar_pieces].
  intros piece Hocc. apply restore_escaped. exact Hocc.
Qed.

(** ** Nothing is lost: joining the pieces *)

(** Joining what [Split] returns gives the text back. *)
Lemma Join_Split (t sep : string) :
  sep <> ""%string -> strings.Join (strings.Split t sep) sep = t.
Proof.
  intros Hsep.
  induction t as [|t IH|c t Hp IH] using (scan_ind sep Hsep).
  - rewrite Split_empty. reflexivity.
  - rewrite Split_match by exact Hsep.
    pose proof (Split_nonempty t sep) as Hne.
    cbn [strings.Join]. destruct (strings.Split t sep) as [|p ps] eqn:Hs; [congruence|].
    rewrite IH. reflexivity.
  - destruct (Split_pass c t sep Hsep Hp) as (piece & pieces & Hs & ->).
    rewrite Hs in IH. cbn [strings.Join] in *.
    destruct pieces; [rewrite IH; reflexivity|].
    rewrite app_cons, IH. reflexivity.
Qed.

(** A text that holds no byte [c] cannot start with a text that holds
    one, even when followed by such a byte. *)
Lemma HasPrefix_before (c : ascii) (p u rest : string) :
  occurs c p = false ->
  strings.HasPrefix (u ++ String c rest) p = true -> strings.HasPrefix u p = true.
Proof.
  revert u. induction p as [|i p IH]; intros u Hocc H; [apply HasPrefix_empty|].
  cbn [occurs] in Hocc. apply orb_false_iff in Hocc as (Hi & Hocc).
  destruct u as [|d u].
  - change (""%string ++ String c rest)%string with (String c rest) in H.
    rewrite HasPrefix_cons in H. apply andb_true_iff in H as (H & _).
    rewrite Ascii.eqb_sym in Hi. congruence.
  - rewrite app_cons, HasPrefix_cons in H. apply andb_true_iff in H as (Hd & H).
    rewrite HasPrefix_cons, Hd. cbn [andb]. apply (IH u Hocc H).
Qed.

Lemma restore_over_bar (piece rest : string) :
  occurs "|" piece = false ->
  strings.ReplaceAll (piece ++ bar ++ rest) interSymbol esc
  = (strings.ReplaceAll piece interSymbol esc ++ bar
     ++ strings.ReplaceAll rest interSymbol esc)%string.
Proof.
  induction piece as [|piece IH|c piece Hp IH]
    using (scan_ind interSymbol ltac:(discriminate)); intros Hocc.
  - rewrite ReplaceAll_empty.
    change (""%string ++ bar ++ rest)%string with (String "|" rest).
    rewrite ReplaceAll_pass by (discriminate || reflexivity). reflexivity.
  - rewrite occurs_app in Hocc. apply orb_false_iff in Hocc as (_ & Hocc).
    rewrite string_app_assoc.
    rewrite !ReplaceAll_match by discriminate.
    rewrite IH by exact Hocc. rewrite string_app_assoc. reflexivity.
  - cbn [occurs] in Hocc. apply orb_false_iff in Hocc as (_ & Hocc).
    rewrite app_cons.
    rewrite (ReplaceAll_pass c piece) by (discriminate || exact Hp).
    rewrite ReplaceAll_pass; [rewrite IH by exact Hocc; reflexivity|discriminate|].
    apply not_true_is_false. intros H. rewrite <- app_cons in H.
    apply HasPrefix_before in H; [congruence|reflexivity].
Qed.

Lemma Join_restore (pieces : list string) :
  Forall (fun piece => occurs "|" piece = false) pieces ->
  strings.Join (map (fun piece => strings.ReplaceAll piece interSymbol esc) pieces) bar
  = strings.ReplaceAll (strings.Join pieces bar) interSymbol esc.
Proof.
  induction 1 as [|piece pieces Hocc Hall IH].
  - reflexivity.
  - cbn [map strings.Join]. destruct pieces as [|q pieces]; [reflexivity|].
    rewrite restore_over_bar by exact Hocc.
    cbn [map] in IH. rewrite <- IH. reflexivity.
Qed.

(** What starts the stand-in is found in the text itself: the stand-in
    starts with a byte that occurs nowhere else in it. *)
Lemma HasPrefix_replaced (p t : string) :
  occurs "<" p = false ->
  strings.HasPrefix (strings.ReplaceAll t esc interSymbol) p = true ->
  strings.HasPrefix t p = true.
Proof.
  revert t. induction p as [|j p IH]; intros t Hocc H; [apply HasPrefix_empty|].
  cbn [occurs] in Hocc. apply orb_false_iff in Hocc as (Hj & Hocc).
  destruct t as [|c t]; [rewrite ReplaceAll_empty in H; discriminate|].
  destruct (strings.HasPrefix (String c t) esc) eqn:Hp.
  - destruct (HasPrefix_split _ _ Hp) as (t' & Heq). rewrite Heq in H.
    rewrite ReplaceAll_match in H by discriminate.
    change (interSymbol ++ strings.ReplaceAll t' esc interSymbol)%string
      with (String "<" ("===%7C%===>" ++ strings.ReplaceAll t' esc interSymbol)) in H.
    rewrite HasPrefix_cons in H. apply andb_true_iff in H as (H & _).
    rewrite Ascii.eqb_sym in Hj. congruence.
  - rewrite ReplaceAll_pass in H by (discriminate || exact Hp).
    rewrite HasPrefix_cons in H. apply andb_true_iff in H as (Hc & H).
    rewrite HasPrefix_cons, Hc. cbn [andb]. apply (IH t Hocc H).
Qed.

Lemma Contains_cons (c : ascii) (s sub : string) :
  strings.Contains (String c s) sub = false ->
  strings.HasPrefix (String c s) sub = false /\ strings.Contains s sub = false.
Proof. cbn [strings.Contains]. intros H. apply orb_false_iff in H. exact H. Qed.

Lemma Contains_app (u s sub : string) :
  strings.Contains (u ++ s) sub = false -> strings.Contains s sub = false.
Proof.
  induction u as [|c u IH]; intros H; [exact H|].
  rewrite app_cons in H. apply Contains_cons in H as (_ & H). apply IH. exact H.
Qed.

(** Escaping and putting back is the identity on a text without the
    stand-in. *)
Lemma restore_replaced (s : string) :
  strings.Contains s interSymbol = false ->
  strings.ReplaceAll (strings.ReplaceAll s esc interSymbol) interSymbol esc = s.
Proof.
  induction s as [|s IH|c s Hp IH] using (scan_ind esc ltac:(discriminate));
    intros Hc.
  - reflexivity.
  - rewrite ReplaceAll_match by discriminate.
    rewrite ReplaceAll_match by discriminate.
    rewrite IH; [reflexivity|]. apply (Contains_app esc). exact Hc.
  - apply Contains_cons in Hc as (Hhere & Hc).
    rewrite ReplaceAll_pass by (discriminate || exact Hp).
    rewrite ReplaceAll_pass; [rewrite IH by exact Hc; reflexivity|discriminate|].
    apply not_true_is_false. intros H.
    change interSymbol with (String "<" "===%7C%===>") in H, Hhere.
    rewrite HasPrefix_cons in H, Hhere. apply andb_true_iff in H as (H1 & H2).
    apply HasPrefix_replaced in H2; [|reflexivity].
    rewrite H1, H2 in Hhere. discriminate.
Qed.

(** X17. [splitEscaped] loses nothing: for a text that does not hold the
    stand-in ["<===%7C%===>"], joining the pieces with ['|'] gives the
    text back, escapes included. *)
Theorem splitEscaped_join (s : string) :
  strings.Contains s "<===%7C%===>" = false ->
  strings.Join (splitEscaped s "|") "|" = s.
Proof.
  intros Hc. rewrite splitEscaped_bar.
  rewrite Join_restore by apply Split_bar_pieces.
  rewrite Join_Split by discriminate.
  apply restore_replaced. exact Hc.
Qed.

(** ** Escaping over a separator *)

Lemma escape_over_bar (a rest : string) :
  ends_with_backslash a = false ->
  strings.ReplaceAll (a ++ bar ++ rest) esc interSymbol
  = (strings.ReplaceAll a esc interSymbol ++ bar
     ++ strings.ReplaceAll rest esc interSymbol)%string.
Proof.
  induction a as [|a IH|c a Hp IH] using (scan_ind esc ltac:(discriminate));
    intros Hends.
  - rewrite ReplaceAll_empty.
    change (""%string ++ bar ++ rest)%string with (String "|" rest).
    rewrite ReplaceAll_pass by (discriminate || reflexivity). reflexivity.
  - assert (ends_with_backslash a = false) as Ha
      by (destruct a; [reflexivity|exact Hends]).
    rewrite string_app_assoc.
    rewrite !ReplaceAll_match by discriminate.
    rewrite IH by exact Ha. rewrite string_app_assoc. reflexivity.
  - rewrite app_cons.
    rewrite (ReplaceAll_pass c a) by (discriminate || exact Hp).
    destruct a as [|d a].
    + destruct (Ascii.eqb backslash c) eqn:Hc; [cbn in Hends; rewrite Ascii.eqb_sym in Hc; congruence|].
      rewrite ReplaceAll_pass;
        [rewrite IH by reflexivity; reflexivity|discriminate|].
      rewrite HasPrefix_cons, Hc. reflexivity.
    + assert (ends_with_backslash (String d a) = false) as Ha by exact Hends.
      rewrite ReplaceAll_pass; [rewrite IH by exact Ha; reflexivity|discriminate|].
      rewrite app_cons. rewrite !HasPrefix_cons in Hp |- *.
      rewrite HasPrefix_empty in *. exact Hp.
Qed.

Lemma escaped_first (s : string) :
  escaped "|" true s = true -> strings.HasPrefix s bar = false ->
  escaped "|" false s = true.
Proof.
  destruct s as [|c s]; [reflexivity|].
  cbn [escaped]. rewrite HasPrefix_cons, HasPrefix_empty, andb_true_r.
  intros H Hc. apply andb_true_iff in H as (_ & H).
  rewrite Ascii.eqb_sym, Hc, H. reflexivity.
Qed.

(** Once the escaped separators are replaced, no separator is left in a
    text where each one was escaped. *)
Lemma escaped_no_bar (s : string) :
  escaped "|" false s = true ->
  occurs "|" (strings.ReplaceAll s esc interSymbol) = false.
Proof.
  induction s as [|s IH|c s Hp IH] using (scan_ind esc ltac:(discriminate));
    intros Hesc.
  - reflexivity.
  - rewrite ReplaceAll_match by discriminate.
    rewrite occurs_app, IH; [reflexivity|].
    change (esc ++ s)%string with (String backslash (String "|" s)) in Hesc.
    cbn [escaped] in Hesc.
    apply andb_true_iff in Hesc as (_ & Hesc).
    apply andb_true_iff in Hesc as (_ & Hesc). exact Hesc.
  - rewrite ReplaceAll_pass by (discriminate || exact Hp).
    cbn [escaped] in Hesc. apply andb_true_iff in Hesc as (Hc & Hesc).
    rewrite orb_false_r in Hc. apply negb_true_iff in Hc.
    cbn [occurs]. rewrite Ascii.eqb_sym, Hc. cbn [orb]. apply IH.
    destruct (Ascii.eqb c backslash) eqn:Hb; [|exact Hesc].
    apply escaped_first; [exact Hesc|].
    destruct s as [|d s]; [reflexivity|].
    rewrite HasPrefix_cons, Ascii.eqb_sym, Hb in Hp. exact Hp.
Qed.

(** ** Splitting what was joined *)

Lemma Contains_empty (sub : string) :
  sub <> ""%string -> strings.Contains "" sub = false.
Proof. destruct sub; [congruence|reflexivity]. Qed.

Section Marked.

(** A separator whose first byte occurs nowhere else in it. *)
Variables (c : ascii) (J : string).
Hypothesis Hmark : occurs c J = false.

Abbreviation sep := (String c J).

Lemma HasPrefix_over (p rest : string) :
  strings.Contains p sep = false -> p <> ""%string ->
  strings.HasPrefix (p ++ sep ++ rest) sep = false.
Proof.
  intros Hc Hne. destruct p as [|d p]; [congruence|].
  apply Contains_cons in Hc as (Hhere & _).
  apply not_true_is_false. intros H.
  rewrite app_cons, HasPrefix_cons in H. apply andb_true_iff in H as (Hd & H).
  rewrite app_cons in H. apply HasPrefix_before in H; [|exact Hmark].
  rewrite HasPrefix_cons, Hd, H in Hhere. discriminate.
Qed.

Lemma Split_lone (p : string) :
  strings.Contains p sep = false -> strings.Split p sep = [p].
Proof.
  induction p as [|d p IH]; intros Hc; [apply Split_empty|].
  apply Contains_cons in Hc as (Hhere & Hc).
  destruct (Split_pass d p sep ltac:(discriminate) Hhere) as (piece & pieces & Hs & ->).
  rewrite IH in Hs by exact Hc. congruence.
Qed.

Lemma Split_app_sep (p rest : string) :
  strings.Contains p sep = false ->
  strings.Split (p ++ sep ++ rest) sep = p :: strings.Split rest sep.
Proof.
  induction p as [|d p IH]; intros Hc.
  - change (""%string ++ sep ++ rest)%string with (sep ++ rest)%string.
    apply Split_match. discriminate.
  - pose proof (HasPrefix_over (String d p) rest Hc ltac:(discriminate)) as Hp.
    apply Contains_cons in Hc as (_ & Hc).
    change (String d p ++ sep ++ rest)%string
      with (String d (p ++ sep ++ rest)) in *.
    destruct (Split_pass d _ sep ltac:(discriminate) Hp) as (piece & pieces & Hs & ->).
    rewrite IH in Hs by exact Hc. congruence.
Qed.

Lemma Split_Join (pieces : list string) :
  Forall (fun p => strings.Contains p sep = false) pieces -> pieces <> [] ->
  strings.Split (strings.Join pieces sep) sep = pieces.
Proof.
  induction 1 as [|p pieces Hp Hall IH]; intros Hne; [congruence|].
  cbn [strings.Join]. destruct pieces as [|q pieces]; [apply Split_lone; exact Hp|].
  rewrite Split_app_sep by exact Hp. rewrite IH by discriminate. reflexivity.
Qed.

(** A piece follows the pieces of what comes before the separator. *)
Lemma Split_snoc (F O : string) :
  strings.Contains O sep = false ->
  strings.Split (F ++ sep ++ O) sep = strings.Split F sep ++ [O].
Proof.
  intros HO.
  induction F as [|F IH|d F Hp IH] using (scan_ind sep ltac:(discriminate)).
  - change (""%string ++ sep ++ O)%string with (sep ++ O)%string.
    rewrite Split_match, Split_empty, Split_lone by (discriminate || exact HO).
    reflexivity.
  - rewrite string_app_assoc. rewrite !Split_match by discriminate.
    rewrite IH. reflexivity.
  - assert (strings.HasPrefix (String d F ++ sep ++ O) sep = false) as Hlong.
    { apply not_true_is_false. intros H.
      rewrite app_cons, HasPrefix_cons in H. apply andb_true_iff in H as (Hd & H).
      rewrite app_cons in H. apply HasPrefix_before in H; [|exact Hmark].
      rewrite HasPrefix_cons, Hd, H in Hp. discriminate. }
    change (String d F ++ sep ++ O)%string
      with (String d (F ++ sep ++ O)) in *.
    destruct (Split_pass d _ sep ltac:(discriminate) Hlong) as (piece & pieces & Hs & ->).
    destruct (Split_pass d F sep ltac:(discriminate) Hp) as (piece' & pieces' & Hs' & ->).
    rewrite IH, Hs' in Hs. cbn [app] in Hs. inversion Hs; subst. reflexivity.
Qed.

End Marked.

Lemma Contains_bar (s : string) :
  occurs "|" s = false -> strings.Contains s bar = false.
Proof.
  induction s as [|d s IH]; [reflexivity|].
  cbn [occurs strings.Contains]. intros H. apply orb_false_iff in H as (Hd & H).
  rewrite HasPrefix_cons, Hd, IH by exact H. reflexivity.
Qed.

(** ** [splitEscaped] and [ProcessField], one operation at a time *)

Lemma splitEscaped_snoc (field op : string) :
  ends_with_backslash field = false ->
  escaped "|" false op = true ->
  strings.Contains op interSymbol = false ->
  splitEscaped (field ++ bar ++ op) "|" = splitEscaped field "|" ++ [op].
Proof.
  intros Hends Hesc Hc. rewrite !splitEscaped_bar.
  rewrite escape_over_bar by exact Hends.
  rewrite (Split_snoc "|" "" eq_refl)
    by (apply Contains_bar, escaped_no_bar; exact Hesc).
  rewrite map_app. cbn [map]. rewrite restore_replaced by exact Hc. reflexivity.
Qed.

Lemma ProcessField_snoc (p : TemplateProcessor) (field op content : string) :
  ends_with_backslash field = false ->
  escaped "|" false op = true ->
  strings.Contains op interSymbol = false ->
  ProcessField p (field ++ bar ++ op) content
  = apply_operation p (ProcessField p field content) op.
Proof.
  intros Hends Hesc Hc. unfold ProcessField. cbv zeta.
  rewrite splitEscaped_snoc by assumption.
  pose proof (splitEscaped_nonempty field) as Hne.
  destruct (splitEscaped field "|") as [|name ops]; [congruence|].
  cbn [app tl]. rewrite fold_left_app. cbn [fold_left].
  replace (length (name :: ops ++ [op]) =? 1)%nat with false
    by (symmetry; apply Nat.eqb_neq; cbn [length]; rewrite length_app; cbn; lia).
  destruct ops as [|o ops]; reflexivity.
Qed.

Lemma occurs_In (c : ascii) (s : string) :
  occurs c s = false -> ~ In c (list_ascii_of_string s).
Proof.
  induction s as [|d s IH]; intros H; [intros []|].
  cbn [occurs] in H. apply orb_false_iff in H as (Hd & H).
  intros [->|Hin]; [rewrite Ascii.eqb_refl in Hd; discriminate|exact (IH H Hin)].
Qed.

Lemma SplitN2_at (sep : ascii) (before after : string) :
  occurs sep before = false ->
  strings.SplitN2 (before ++ String sep after) sep = [before; after].
Proof.
  intros H. unfold strings.SplitN2. rewrite list_ascii_of_string_app.
  change (list_ascii_of_string (String sep after))
    with (sep :: list_ascii_of_string after).
  rewrite cut_app by (apply occurs_In; exact H).
  rewrite !string_of_list_ascii_of_string. reflexivity.
Qed.

Lemma cut_absent (sep : ascii) (s : bytes) : ~ In sep s -> strings.cut sep s = None.
Proof.
  induction s as [|d s IH]; intros H; [reflexivity|].
  cbn [strings.cut]. destruct (Ascii.eqb d sep) eqn:Hd.
  - apply Ascii.eqb_eq in Hd. subst. exfalso. apply H. now left.
  - rewrite IH; [reflexivity|]. intros Hin. apply H. now right.
Qed.

Lemma SplitN2_absent (sep : ascii) (s : string) :
  occurs sep s = false -> strings.SplitN2 s sep = [s].
Proof.
  intros H. unfold strings.SplitN2.
  rewrite cut_absent by (apply occurs_In; exact H). reflexivity.
Qed.

(** X18. A field whose every ['|'] is escaped names no operation:
    [ProcessField] returns the content as it is. *)
Theorem ProcessField_plain (p : TemplateProcessor) (field content : string) :
  escaped "|" false field = true ->
  ProcessField p field content = content.
Proof.
  intros Hesc. unfold ProcessField. cbv zeta. rewrite splitEscaped_bar.
  rewrite (Split_lone "|" "")
    by (apply Contains_bar, escaped_no_bar; exact Hesc).
  reflexivity.
Qed.

(** X19. An operation written after a field, [field|name:params], with a
    registered name, is applied to what the field gave so far; it gets the
    parameters as written, the escapes of ['|'] still in them. *)
Theorem ProcessField_applies (p : TemplateProcessor) (operation : Operation)
    (field name params content : string) :
  ends_with_backslash field = false ->
  occurs ":" name = false ->
  escaped "|" false (name ++ ":" ++ params) = true ->
  strings.Contains (name ++ ":" ++ params) "<===%7C%===>" = false ->
  operations (registry p) !! TrimSpace name = Some operation ->
  ProcessField p (field ++ "|" ++ name ++ ":" ++ params) content
  = operation (ProcessField p field content) params.
Proof.
  intros Hends Hname Hesc Hc Hop.
  rewrite ProcessField_snoc by assumption.
  unfold apply_operation.
  change (name ++ ":" ++ params)%string with (name ++ String ":" params)%string.
  rewrite SplitN2_at by exact Hname. cbv beta iota zeta.
  match goal with
  | |- match ?x with _ => _ end = _ =>
      replace x with (Some operation) by (symmetry; exact Hop)
  end. reflexivity.
Qed.

(** X20. An operation without a colon, or one whose name is not
    registered, is passed over without a word: the field gives what it
    gave without it. *)
Theorem ProcessField_skips (p : TemplateProcessor) (field op content : string) :
  ends_with_backslash field = false ->
  escaped "|" false op = true ->
  strings.Contains op "<===%7C%===>" = false ->
  (occurs ":" op = false \/
   exists name params,
     op = (name ++ ":" ++ params)%string /\ occurs ":" name = false /\
     operations (registry p) !! TrimSpace name = None) ->
  ProcessField p (field ++ "|" ++ op) content = ProcessField p field content.
Proof.
  intros Hends Hesc Hc Hop.
  rewrite ProcessField_snoc by assumption.
  unfold apply_operation.
  destruct Hop as [Hno|(name & params & -> & Hname & Hnone)].
  - rewrite SplitN2_absent by exact Hno. reflexivity.
  - change (name ++ ":" ++ params)%string with (name ++ String ":" params)%string.
    rewrite SplitN2_at by exact Hname. cbv beta iota zeta.
    match goal with
    | |- match ?x with _ => _ end = _ =>
        replace x with (@None Operation) by (symmetry; exact Hnone)
    end. reflexivity.
Qed.

(** X21. [prefix] after [extract-all]: each match (its first group, or
    the whole match when the pattern has no group) gets the prefix, and
    the results are joined by two spaces, as long as no match holds the
    gap marker; nothing at all when there is no match or the only match
    is empty. *)
Theorem prefix_after_extract_all (content pattern prefix : string)
    (re : regexp.Regexp) :
  regexp.Compile pattern = Some re ->
  let picked :=
    map (fun m => if (1 <? length m)%nat then nth 1 m EmptyString
                  else nth 0 m EmptyString)
        (regexp.FindAllStringSubmatch re content) in
  Forall (fun m => strings.Contains m ExtractAllOperationGap = false) picked ->
  PrefixOperation (ExtractAllOperation content pattern) prefix
  = if String.eqb (strings.Join picked ExtractAllOperationGap) ""
    then EmptyString
    else strings.Join (map (fun m => (prefix ++ m)%string) picked) "  ".
Proof.
  intros Hre picked Hall. unfold ExtractAllOperation. cbv zeta. rewrite Hre.
  fold picked.
  destruct (regexp.FindAllStringSubmatch re content) as [|m ms] eqn:Hm.
  - reflexivity.
  - cbn [length Nat.eqb]. unfold PrefixOperation. cbv zeta.
    destruct (String.eqb _ _); [reflexivity|].
    unfold ExtractAllOperationGap in *.
    rewrite (Split_Join "<" "||4623456fdb0d55bc037afa5c25f08cd7||>" eq_refl picked Hall) by (subst picked; discriminate).
    reflexivity.
Qed.

End SplitEscaped.

(* ===================================================================== *)
(** * The message of an item: no run of blank lines *)
(* ===================================================================== *)

Section Tidy.
Context {R : regexp.Engine} {U : unicode.Spaces} {M : markdown.Renderer}.
Import format.

Lemma ReplaceAll_length (s old new : string) :
  old <> ""%string -> (String.length new <= String.length old)%nat ->
  (String.length (strings.ReplaceAll s old new) <= String.length s)%nat.
Proof.
  intros Hold Hlen.
  induction s as [|s IH|c s Hp IH] using (scan_ind old Hold).
  - rewrite ReplaceAll_empty. reflexivity.
  - rewrite ReplaceAll_match by exact Hold. rewrite !length_app_string. lia.
  - rewrite ReplaceAll_pass by assumption. cbn [String.length]. lia.
Qed.

(** A round that finds [old] shortens the text. *)
Lemma ReplaceAll_shorter (s old new : string) :
  (String.length new < String.length old)%nat ->
  strings.Contains s old = true ->
  (String.length (strings.ReplaceAll s old new) < String.length s)%nat.
Proof.
  intros Hlen.
  assert (old <> ""%string) as Hold by (intros ->; cbn in Hlen; lia).
  induction s as [|s IH|c s Hp IH] using (scan_ind old Hold); intros Hc.
  - rewrite Contains_empty in Hc by exact Hold. discriminate.
  - rewrite ReplaceAll_match by exact Hold. rewrite !length_app_string.
    pose proof (ReplaceAll_length s old new Hold ltac:(lia)). lia.
  - rewrite ReplaceAll_pass by assumption. cbn [String.length].
    cbn [strings.Contains] in Hc. rewrite Hp in Hc. cbn [orb] in Hc.
    specialize (IH Hc). lia.
Qed.

(** With as many rounds as the message has bytes the loop has come to its
    end: no run of three line feeds is left. *)
Lemma squeeze_done (fuel : nat) (message : string) :
  (String.length message <= fuel)%nat ->
  strings.Contains (squeeze fuel message) blank_run = false.
Proof.
  revert message. induction fuel as [|fuel IH]; intros message Hlen.
  - destruct message; [reflexivity | cbn in Hlen; lia].
  - cbn [squeeze]. destruct (strings.Contains message blank_run) eqn:Hc; [|exact Hc].
    apply IH.
    pose proof (ReplaceAll_shorter message blank_run blank_line
                  ltac:(cbn; lia) Hc). lia.
Qed.

(** More rounds change nothing. *)
Lemma squeeze_enough (fuel fuel' : nat) (message : string) :
  (String.length message <= fuel)%nat -> (String.length message <= fuel')%nat ->
  squeeze fuel message = squeeze fuel' message.
Proof.
  revert fuel' message. induction fuel as [|fuel IH]; intros fuel' message H H'.
  - destruct message; [|cbn in H; lia]. destruct fuel'; reflexivity.
  - destruct fuel' as [|fuel'].
    + destruct message; [reflexivity | cbn in H'; lia].
    + cbn [squeeze]. destruct (strings.Contains message blank_run) eqn:Hc; [|reflexivity].
      pose proof (ReplaceAll_shorter message blank_run blank_line
                    ltac:(cbn; lia) Hc).
      apply IH; lia.
Qed.

Lemma tidy_done (message : string) :
  strings.Contains (tidy message) blank_run = false.
Proof. unfold tidy. cbv zeta. apply squeeze_done. reflexivity. Qed.

Lemma formatMessage_tidy_go (item : gofeed.Item) (template : string) :
  strings.Contains (format_go.formatMessage item template) blank_run = false.
Proof. unfold format_go.formatMessage. cbv zeta. apply tidy_done. Qed.

(** X22. A message never holds three line feeds in a row: the loop at the
    end of [formatMessage], in both versions, runs until none is left,
    whatever the item, the template, the converter and the patterns give. *)
Theorem formatMessage_no_blank_run (item : gofeed.Item) (template : string) :
  strings.Contains (format_go.formatMessage item template) blank_run = false /\
  strings.Contains (format_new.formatMessage item template) blank_run = false.
Proof.
  split.
  - apply formatMessage_tidy_go.
  - unfold format_new.formatMessage. cbv zeta. apply tidy_done.
Qed.

End Tidy.

Section TidyMessages.
Context {F : bloom.Filter} {S : sort.Sorter}.
Context {R : regexp.Engine} {U : unicode.Spaces} {M : markdown.Renderer}.
Import gofeed config rss.

(** X23. With the renderer of [internal/rss/handler.go], every message a
    cycle of [processFeed] sends is not empty and holds no three line
    feeds in a row. *)
Theorem processFeed_messages_tidy (sha256_hex : bytes -> string)
    (s : storage.Storage) (feedConfig : FeedConfig) (w : World) :
  exists evs,
    trace (snd (handler_go.processFeed (C := rendered sha256_hex) s feedConfig w))
    = trace w ++ evs /\
    Forall (fun e =>
              match e with
              | EvSend _ message _ =>
                  message <> ""%string /\
                  strings.Contains message format.blank_run = false
              | _ => True
              end) evs.
Proof.
  destruct (fetch w (step w) (URL feedConfig)) as [items|err] eqn:Hfetch.
  - destruct (go_cycle (C := rendered sha256_hex) s feedConfig w items Hfetch)
      as (_ & evs & Ht & Hall & _).
    exists evs. split; [exact Ht|].
    eapply List.Forall_impl; [|exact Hall].
    intros [channel message ok| | |]; cbn; try tauto.
    intros (item & _ & _ & _ & _ & -> & Hne & _). split; [exact Hne|].
    apply formatMessage_tidy_go.
  - exists []. rewrite app_nil_r. split; [|constructor].
    unfold handler_go.processFeed, ParseURL. unfold bind at 1.
    rewrite Hfetch. reflexivity.
Qed.

End TidyMessages.

Section StoreDiskExamples.
Import examples storage.

Lemma files_quiet (fs : gmap string bytes) (now : Z)
    (feed : result (list gofeed.Item)) :
  files (quiet fs now feed) = fs.
Proof. reflexivity. Qed.

Lemma clock_quiet (fs : gmap string bytes) (now : Z)
    (feed : result (list gofeed.Item)) (n : nat) :
  clock (quiet fs now feed) n = now.
Proof. reflexivity. Qed.

Lemma fault_quiet (fs : gmap string bytes) (now : Z)
    (feed : result (list gofeed.Item)) (n : nat) :
  fault (quiet fs now feed) n = false.
Proof. reflexivity. Qed.

(** The bucket of channel "@a", compared with itself. *)
Lemma GetBloomFilePath_injective_witness :
  (~ In "|"%char (list_ascii_of_string "@a") /\
   GetBloomFilePath empty_store feed_url "@a"
   = GetBloomFilePath empty_store feed_url "@a") /\
  "@a"%string = "@a"%string /\ feed_url = feed_url.
Proof.
  assert (~ In "|"%char (list_ascii_of_string "@a")) as H
    by (cbn; intros [H | [H | []]]; discriminate H).
  split; [split; [exact H | reflexivity] |].
  exact (GetBloomFilePath_injective empty_store empty_store feed_url "@a"
           feed_url "@a" H H eq_refl).
Defined.

(** A data directory in which the bucket file of channel "@a" is empty. *)
Lemma NewStorage_short_file_witness :
  let path := GetBloomFilePath empty_store feed_url "@a" in
  let w := quiet {[ path := [] ]} jan01 (inl []) in
  (~ In "|"%char (list_ascii_of_string "@a") /\
   files w !! path = Some [] /\ (@length ascii [] < 8)%nat) /\
  exists err, fst (NewStorage "data" w) = inr err.
Proof.
  intros path w.
  assert (~ In "|"%char (list_ascii_of_string "@a")) as H1
    by (cbn; intros [H | [H | []]]; discriminate H).
  assert (files w !! path = Some []) as H2 by reflexivity.
  assert (@length ascii [] < 8)%nat as H3 by (simpl; lia).
  split; [repeat split; assumption |].
  exact (NewStorage_short_file "data" w feed_url "@a" [] H1 H2 H3).
Defined.


(** A mark on 2024-01-01 and a restart two days later on the directory
    the mark left. *)
Lemma restart_sees_marked_witness :
  let w := quiet ∅ jan01 (inl []) in
  let r := MarkItemSeen empty_store feed_url "example" "@a" "item-1" w in
  let w2 := quiet (files (snd r)) jan03 (inl []) in
  (~ In "|"%char (list_ascii_of_string "@a") /\ snd (fst r) = inl tt) /\
  exists s2,
    fst (NewStorage "data" w2) = inl s2 /\
    IsItemSeen s2 feed_url "example" "@a" "item-1" = true /\
    GetLastUpdated s2 feed_url "@a" = Some jan01.
Proof.
  cbv zeta.
  assert (~ In "|"%char (list_ascii_of_string "@a")) as H1
    by (cbn; intros [H | [H | []]]; discriminate H).
  assert (snd (fst (MarkItemSeen empty_store feed_url "example" "@a" "item-1"
                      (quiet ∅ jan01 (inl [])))) = inl tt) as H2 by reflexivity.
  split; [split; assumption |].
  destruct (restart_sees_marked empty_store feed_url "example" "@a" "item-1"
              (quiet ∅ jan01 (inl [])) H1 H2)
    as (content & Hfile & (n & Hstamp) & Hrestart).
  destruct (MarkItemSeen_disk empty_store feed_url "example" "@a" "item-1"
              (quiet ∅ jan01 (inl []))) as (Hframe & _ & Hdisk).
  destruct (Hdisk H2) as (Htemp & _).
  destruct (Hrestart "data"%string
              (quiet (files (snd (MarkItemSeen empty_store feed_url "example" "@a"
                                    "item-1" (quiet ∅ jan01 (inl [])))))
                     jan03 (inl [])))
    as (s2 & Hnew & Hseen & _ & Hupdated).
  - rewrite files_quiet. exact Hfile.
  - intros other _ Hne. rewrite files_quiet.
    destruct (decide (other = (GetBloomFilePath empty_store feed_url "@a" ++ ".tmp")%string))
      as [-> | Hne'].
    + exact Htemp.
    + rewrite (Hframe other Hne Hne'), files_quiet. apply lookup_empty.
  - intros k _. apply fault_quiet.
  - rewrite Hstamp, !clock_quiet. vm_compute. discriminate.
  - exists s2. split; [exact Hnew |]. split; [exact Hseen |].
    rewrite Hupdated, Hstamp, clock_quiet. reflexivity.
Defined.

End StoreDiskExamples.

(* ===================================================================== *)
(** * The further properties at concrete inputs *)
(* ===================================================================== *)

Section FurtherExamples.
Import examples gofeed config rss.

(** The configuration whose two feeds give the same text ["a|b|c"]. *)
Lemma Validate_pair_error_witness :
  Validate ambiguous
  = Some (Errorf ("duplicate feed name and URL combination found: " ++ "a|b|c")) /\
  exists feed1 feed2,
    In feed1 (Feeds ambiguous) /\ In feed2 (Feeds ambiguous) /\
    Name feed1 <> Name feed2 /\
    (Name feed1 ++ "|" ++ URL feed1)%string = "a|b|c"%string /\
    (Name feed2 ++ "|" ++ URL feed2)%string = "a|b|c"%string.
Proof.
  assert (Validate ambiguous
          = Some (Errorf ("duplicate feed name and URL combination found: " ++ "a|b|c")))
    as H by (vm_compute; reflexivity).
  split; [exact H |]. exact (Validate_pair_error ambiguous "a|b|c" H).
Defined.

(** The backoff after the third failure, were there one. *)
Lemma backoff_delay_witness :
  let w := quiet ∅ jan03 (inl []) in
  0 <= 2 <= 33 /\
  exists d,
    trace (snd (ExponentialBackoffWithJitter 2 w))
    = trace w ++ [EvBackoff 2; EvSleep d] /\
    2 ^ 2 * time.Second <= d < 2 ^ 2 * time.Second + 500 * time.Millisecond.
Proof.
  intros w. assert (0 <= 2 <= 33) as H by lia.
  split; [exact H |]. exact (backoff_delay 2 w H).
Defined.

(** A cycle of the feed for channel "@a" that fetches item A. *)
Lemma processFeed_marks_once_witness :
  let w := quiet ∅ jan03 (inl [item_A]) in
  (fetch w (step w) (URL eager_feed) = inl [item_A] /\
   List.NoDup (Channels eager_feed)) /\
  exists evs,
    trace (snd (handler_go.processFeed empty_store eager_feed w)) = trace w ++ evs /\
    count is_delivered evs = count is_mark evs /\
    forall channel itemID,
      (count (is_mark_of (URL eager_feed) channel itemID) evs <= 1)%nat.
Proof.
  intros w.
  assert (fetch w (step w) (URL eager_feed) = inl [item_A]) as H1 by reflexivity.
  assert (List.NoDup (Channels eager_feed)) as H2
    by (constructor; [intros [] | constructor]).
  split; [split; assumption |].
  exact (processFeed_marks_once empty_store eager_feed w [item_A] H1 H2).
Defined.

(** A cycle that delivers item A, and a later one, on the store the first
    left, that fetches A and C: only C is sent. *)
Lemma processFeed_no_resend_witness :
  let w := quiet ∅ jan03 (inl [item_A]) in
  let w2 := quiet ∅ jan03 (inl [item_A; item_C]) in
  let s2 := fst (fst (handler_go.processFeed empty_store eager_feed w)) in
  let evs1 := [EvSend "@a" "A" true; EvMark feed_url "@a" "A"; EvSleep time.Second] in
  let evs2 := [EvSend "@a" "C" true; EvMark feed_url "@a" "C"; EvSleep time.Second] in
  ((exists items, fetch w (step w) (URL eager_feed) = inl items) /\
   fetch w2 (step w2) (URL eager_feed) = inl [item_A; item_C] /\
   trace (snd (handler_go.processFeed empty_store eager_feed w)) = trace w ++ evs1 /\
   storage.evolves (fun _ _ => True) s2 s2 /\
   trace (snd (handler_go.processFeed s2 eager_feed w2)) = trace w2 ++ evs2) /\
  Forall (fun e =>
            match e with
            | EvSend channel message _ =>
                exists item,
                  In item [item_A; item_C] /\
                  message = formatMessage item (Template eager_feed) /\
                  ~ In (EvMark (URL eager_feed) channel (generateItemID item)) evs1
            | _ => True
            end) evs2.
Proof.
  intros w w2 s2 evs1 evs2.
  assert (exists items, fetch w (step w) (URL eager_feed) = inl items) as H1
    by (exists [item_A]; reflexivity).
  assert (fetch w2 (step w2) (URL eager_feed) = inl [item_A; item_C]) as H2
    by reflexivity.
  assert (trace (snd (handler_go.processFeed empty_store eager_feed w))
          = trace w ++ evs1) as H3 by (vm_compute; reflexivity).
  assert (storage.evolves (fun _ _ => True) s2 s2) as H4
    by apply storage.evolves_refl.
  assert (trace (snd (handler_go.processFeed s2 eager_feed w2)) = trace w2 ++ evs2)
    as H5 by (vm_compute; reflexivity).
  split; [repeat split; assumption |].
  exact (processFeed_no_resend empty_store s2 eager_feed w w2 [item_A; item_C]
           evs1 evs2 H1 H2 H3 H4 H5).
Defined.

Lemma item_A_fresh (w : World) :
  (forall n, clock w n = jan03) ->
  forall t, PublishedParsed item_A = Some t ->
  forall n, time.Sub (clock w n) t <= handler_go.articleExpirationDuration.
Proof.
  intros Hclock t Ht n. rewrite Hclock. inversion Ht; subst t.
  vm_compute. discriminate.
Qed.

(** Item A for two channels, the two goroutines moving in turn: both
    sends come before both marks. *)
Example processFeed_in_turn :
  let w := quiet ∅ jan03 (inl [item_A]) in
  let r := pool.processFeed in_turn empty_store two_channels w in
  pool.finished (fst (fst r)) = true /\
  trace (snd r)
  = [EvSend "@a" "A" true; EvSend "@b" "A" true;
     EvMark feed_url "@a" "A"; EvMark feed_url "@b" "A";
     EvSleep time.Second; EvSleep time.Second] /\
  marks_follow_success false (trace (snd r)) = false.
Proof. vm_compute. repeat split. Qed.

(** A false positive of the filter: once "item-2" is marked, "item-13" is
    reported seen. When the goroutine of "item-2" has marked before the
    dispatch loop comes to "item-13", that item is never sent; when the
    dispatch loop comes first, it is. *)
Example processFeed_marked_early :
  let w := quiet ∅ jan03 (inl [item_2; item_13]) in
  let r := pool.processFeed marked_early empty_store eager_feed w in
  let r' := pool.processFeed (pool.sequential 2) empty_store eager_feed w in
  storage.IsItemSeen empty_store feed_url "example" "@a" "item-13" = false /\
  pool.finished (fst (fst r)) = true /\
  trace (snd r)
  = [EvSend "@a" "item-2" true; EvMark feed_url "@a" "item-2";
     EvSleep time.Second] /\
  pool.finished (fst (fst r')) = true /\
  trace (snd r')
  = [EvSend "@a" "item-2" true; EvMark feed_url "@a" "item-2";
     EvSleep time.Second;
     EvSend "@a" "item-13" true; EvMark feed_url "@a" "item-13";
     EvSleep time.Second].
Proof. vm_compute. repeat split. Qed.

(** Item A, fetched for the first time for two channels in a world
    without failures, the two goroutines moving in turn. The only other
    mark of the cycle is the one for "@b", which leaves the bucket of
    "@a" as it is. *)
Lemma processFeed_delivers_witness :
  let w := quiet ∅ jan03 (inl [item_A]) in
  let r := pool.processFeed in_turn empty_store two_channels w in
  (fetch w (step w) (URL two_channels) = inl [item_A] /\ reliable w /\
   addressable item_A = true /\
   formatMessage item_A (Template two_channels) <> ""%string /\
   (forall s',
      reached (other_mark two_channels [item_A] item_A "@a") empty_store s' ->
      storage.IsItemSeen s' (URL two_channels) (Name two_channels) "@a"
        (generateItemID item_A) = false) /\
   pool.finished (fst (fst r)) = true) /\
  pool.finished
    (fst (fst (pool.processFeed (pool.sequential 2) empty_store two_channels w)))
  = true /\
  exists evs,
    trace (snd r) = trace w ++ evs /\
    In (EvSend "@a" (formatMessage item_A (Template two_channels)) true) evs /\
    In (EvMark (URL two_channels) "@a" (generateItemID item_A)) evs /\
    storage.IsItemSeen (pool.shared (fst (fst r))) (URL two_channels)
      (Name two_channels) "@a" (generateItemID item_A) = true.
Proof.
  intros w r.
  assert (fetch w (step w) (URL two_channels) = inl [item_A]) as H1 by reflexivity.
  assert (reliable w) as H2 by (intros n; reflexivity).
  assert (In item_A [item_A]) as H3 by (left; reflexivity).
  assert (addressable item_A = true) as H4 by reflexivity.
  assert (forall item', In item' [item_A] ->
            generateItemID item' = generateItemID item_A -> item' = item_A) as H5
    by (intros item' [<- | []] _; reflexivity).
  assert (formatMessage item_A (Template two_channels) <> ""%string) as H7
    by discriminate.
  assert (In "@a"%string (Channels two_channels)) as H8 by (left; reflexivity).
  assert (forall s',
            reached (other_mark two_channels [item_A] item_A "@a") empty_store s' ->
            storage.IsItemSeen s' (URL two_channels) (Name two_channels) "@a"
              (generateItemID item_A) = false) as H9.
  { intros s' Hr. rewrite IsItemSeen_bucket.
    assert (forall url ch id,
              other_mark two_channels [item_A] item_A "@a" url ch id ->
              (URL two_channels, "@a"%string) <> (url, ch)) as Hother.
    { intros url ch id (_ & _ & (item' & [<- | []] & ->) & Hne) E.
      apply Hne. injection E as _ <-. reflexivity. }
    rewrite (reached_frame _ _ _ (URL two_channels) "@a" Hother Hr).
    reflexivity. }
  assert (pool.finished (fst (fst r)) = true) as H10 by (vm_compute; reflexivity).
  destruct (processFeed_delivers empty_store two_channels w [item_A] item_A "@a"
              H1 H2 H3 H4 H5 (item_A_fresh w (fun _ => eq_refl)) H7 H8 H9)
    as (Hseq & Hall).
  split; [repeat split; assumption |].
  split; [apply Hseq; cbn; lia |].
  exact (Hall in_turn H10).
Defined.

(** One feed that can be fetched: no error. *)
Lemma ProcessFeeds_error_witness :
  let w := quiet ∅ jan03 (inl [item_A]) in
  let site := fun _ : string => inl [item_A] : result (list Item) in
  (forall n, fetch w n = site) /\
  (succeeded (snd (fst (handler_go.ProcessFeeds empty_store one_feed w))) = true <->
   forall feed, In feed (Feeds one_feed) -> succeeded (site (URL feed)) = true).
Proof.
  intros w site.
  assert (forall n, fetch w n = site) as H by (intros n; reflexivity).
  split; [exact H |]. exact (ProcessFeeds_error empty_store one_feed w site H).
Defined.

(** The same two cycles in the handler with [first_push]. *)
Lemma processFeed_first_push_no_resend_witness :
  let w := quiet ∅ jan03 (inl [item_A]) in
  let w2 := quiet ∅ jan03 (inl [item_A; item_C]) in
  let s2 := fst (fst (handler_new.processFeed empty_store eager_feed w)) in
  let evs1 := [EvSend "@a" "A" true; EvMark feed_url "@a" "A"; EvSleep time.Second] in
  let evs2 := [EvSend "@a" "C" true; EvMark feed_url "@a" "C"; EvSleep time.Second] in
  ((exists items, fetch w (step w) (URL eager_feed) = inl items) /\
   fetch w2 (step w2) (URL eager_feed) = inl [item_A; item_C] /\
   trace (snd (handler_new.processFeed empty_store eager_feed w)) = trace w ++ evs1 /\
   storage.evolves (fun _ _ => True) s2 s2 /\
   trace (snd (handler_new.processFeed s2 eager_feed w2)) = trace w2 ++ evs2) /\
  Forall (fun e =>
            match e with
            | EvSend channel message _ =>
                exists item,
                  In item [item_A; item_C] /\
                  message = formatMessage item (Template eager_feed) /\
                  ~ In (EvMark (URL eager_feed) channel (generateItemID item)) evs1
            | _ => True
            end) evs2.
Proof.
  intros w w2 s2 evs1 evs2.
  assert (exists items, fetch w (step w) (URL eager_feed) = inl items) as H1
    by (exists [item_A]; reflexivity).
  assert (fetch w2 (step w2) (URL eager_feed) = inl [item_A; item_C]) as H2
    by reflexivity.
  assert (trace (snd (handler_new.processFeed empty_store eager_feed w))
          = trace w ++ evs1) as H3 by (vm_compute; reflexivity).
  assert (storage.evolves (fun _ _ => True) s2 s2) as H4
    by apply storage.evolves_refl.
  assert (trace (snd (handler_new.processFeed s2 eager_feed w2)) = trace w2 ++ evs2)
    as H5 by (vm_compute; reflexivity).
  split; [repeat split; assumption |].
  exact (processFeed_first_push_no_resend empty_store s2 eager_feed w w2
           [item_A; item_C] evs1 evs2 H1 H2 H3 H4 H5).
Defined.

(** A cycle of a feed with [first_push] that fetches item A. *)
Lemma processFeed_first_push_cycle_witness :
  let w := quiet ∅ jan03 (inl [item_A]) in
  let r := handler_new.processFeed empty_store eager_feed w in
  (fetch w (step w) (URL eager_feed) = inl [item_A] /\ FirstPush eager_feed = true) /\
  snd (fst r) = inl tt /\
  exists evs,
    trace (snd r) = trace w ++ evs /\
    Forall (push_event empty_store eager_feed [item_A]) evs /\
    marks_follow_success false evs = true /\
    count is_delivered evs = count is_mark evs /\
    (List.NoDup (Channels eager_feed) ->
     forall channel itemID,
       (count (is_mark_of (URL eager_feed) channel itemID) evs <= 1)%nat) /\
    storage.evolves (fun url ch => url = URL eager_feed /\ In ch (Channels eager_feed))
      empty_store (fst (fst r)).
Proof.
  intros w r.
  assert (fetch w (step w) (URL eager_feed) = inl [item_A]) as H1 by reflexivity.
  assert (FirstPush eager_feed = true) as H2 by reflexivity.
  split; [split; assumption |].
  exact (processFeed_first_push_cycle empty_store eager_feed w [item_A] H1 H2).
Defined.

(** A field with an escaped separator in the parameters of its first
    operation. *)
Lemma splitEscaped_join_witness :
  strings.Contains "description|extract:(a\|b)|default:none" "<===%7C%===>" = false /\
  strings.Join (template.splitEscaped "description|extract:(a\|b)|default:none" "|") "|"
  = "description|extract:(a\|b)|default:none"%string.
Proof.
  assert (strings.Contains "description|extract:(a\|b)|default:none" "<===%7C%===>"
          = false) as H by reflexivity.
  split; [exact H |].
  exact (splitEscaped_join "description|extract:(a\|b)|default:none" H).
Defined.

(** A field that is a name only. *)
Lemma ProcessField_plain_witness :
  escaped "|" false "title" = true /\
  template.ProcessField template.template_go.NewTemplateProcessor "title" "Hello"
  = "Hello"%string.
Proof.
  assert (escaped "|" false "title" = true) as H by reflexivity.
  split; [exact H |].
  exact (ProcessField_plain template.template_go.NewTemplateProcessor "title" "Hello" H).
Defined.

(** The operation [default] on a description that is empty. *)
Lemma ProcessField_applies_witness :
  let p := template.template_go.NewTemplateProcessor in
  (ends_with_backslash "description" = false /\ occurs ":" "default" = false /\
   escaped "|" false ("default" ++ ":" ++ "none") = true /\
   strings.Contains ("default" ++ ":" ++ "none") "<===%7C%===>" = false /\
   template.operations (template.registry p) !! template.TrimSpace "default"
   = Some template.DefaultOperation) /\
  template.ProcessField p ("description" ++ "|" ++ "default" ++ ":" ++ "none") ""
  = template.DefaultOperation (template.ProcessField p "description" "") "none".
Proof.
  intros p.
  assert (ends_with_backslash "description" = false) as H1 by reflexivity.
  assert (occurs ":" "default" = false) as H2 by reflexivity.
  assert (escaped "|" false ("default" ++ ":" ++ "none") = true) as H3 by reflexivity.
  assert (strings.Contains ("default" ++ ":" ++ "none") "<===%7C%===>" = false) as H4
    by reflexivity.
  assert (template.operations (template.registry p) !! template.TrimSpace "default"
          = Some template.DefaultOperation) as H5 by (vm_compute; reflexivity).
  split; [repeat split; assumption |].
  exact (ProcessField_applies p template.DefaultOperation "description" "default"
           "none" "" H1 H2 H3 H4 H5).
Defined.

(** The operation [prefix], which the processor of
    [internal/rss/template.go] does not know, and an operation without
    parameters. *)
Lemma ProcessField_skips_witness :
  let p := template.template_go.NewTemplateProcessor in
  (ends_with_backslash "title" = false /\
   template.operations (template.registry p) !! template.TrimSpace "prefix" = None /\
   occurs ":" "upper" = false) /\
  template.ProcessField p ("title" ++ "|" ++ "prefix:#") "Hello"
  = template.ProcessField p "title" "Hello" /\
  template.ProcessField p ("title" ++ "|" ++ "upper") "Hello"
  = template.ProcessField p "title" "Hello".
Proof.
  intros p.
  assert (ends_with_backslash "title" = false) as H1 by reflexivity.
  assert (template.operations (template.registry p) !! template.TrimSpace "prefix"
          = None) as H2 by (vm_compute; reflexivity).
  assert (occurs ":" "upper" = false) as H3 by reflexivity.
  split; [repeat split; assumption |]. split.
  - apply (ProcessField_skips p "title" "prefix:#" "Hello" H1 eq_refl eq_refl).
    right. exists "prefix"%string, "#"%string.
    split; [reflexivity |]. split; [reflexivity | exact H2].
  - apply (ProcessField_skips p "title" "upper" "Hello" H1 eq_refl eq_refl).
    left. exact H3.
Defined.

(** Two matches of a pattern, each given the prefix. *)
Lemma prefix_after_extract_all_witness :
  let picked :=
    map (fun m => if (1 <? length m)%nat then nth 1 m EmptyString
                  else nth 0 m EmptyString)
        (regexp.FindAllStringSubmatch ("#go"%string : regexp.Regexp) "#go and #go") in
  (regexp.Compile "#go" = Some ("#go"%string : regexp.Regexp) /\
   picked = ["#go"; "#go"]%string /\
   Forall (fun m => strings.Contains m template.ExtractAllOperationGap = false) picked) /\
  template.PrefixOperation (template.ExtractAllOperation "#go and #go" "#go") "tag:"
  = "tag:#go  tag:#go"%string.
Proof.
  intros picked.
  assert (regexp.Compile "#go" = Some ("#go"%string : regexp.Regexp)) as H1
    by reflexivity.
  assert (picked = ["#go"; "#go"]%string) as H2 by reflexivity.
  assert (Forall (fun m => strings.Contains m template.ExtractAllOperationGap = false)
            picked) as H3 by (rewrite H2; repeat constructor).
  split; [repeat split; assumption |].
  rewrite (prefix_after_extract_all (R := literal) "#go and #go" "#go" "tag:" "#go" H1 H3).
  fold picked. rewrite H2. reflexivity.
Defined.

End FurtherExamples.
